(** * salt.utils.saltclass: class expansion, merge and variable expansion

    A shallow embedding of [salt/utils/saltclass.py].  Python objects
    live in an explicit store: dictionaries and lists are mutable and
    are shared by reference ([a[key] = b[key]] stores the very object
    of [b] in [a]), so every function that mutates its arguments is a
    store transformer here. *)

From Stdlib Require Import ZArith Lia Ascii.
From stdpp Require Import base list strings relations.

Open Scope string_scope.
Open Scope list_scope.
Set Warnings "-register-all".

(** ** Values *)

(** A parsed YAML document, before it is placed in the store.  Mapping
    keys are strings. *)
Inductive tree : Type :=
| TNone
| TBool (b : bool)
| TInt (z : Z)
| TStr (s : string)
| TList (l : list tree)
| TDict (d : list (string * tree)).

Abbreviation addr := nat.

(** A Python value: scalars are immediate, a list or a dict is a
    reference to a store cell. *)
Inductive val : Type :=
| VNone
| VBool (b : bool)
| VInt (z : Z)
| VStr (s : string)
| VRef (p : addr).

Inductive obj : Type :=
| OList (l : list val)
| ODict (d : list (string * val)).

Abbreviation heap := (list obj).

Inductive exn : Type :=
| IndexError | TypeError | AttributeError | KeyError
| RuntimeError | RecursionError.

(** Outcome of a run: a result, a Python exception, exhaustion of the
    fuel of the class expansion, or a run that leaves the fragment
    modelled here (a mapping key that is not a string). *)
Inductive res (A : Type) : Type :=
| Ok (x : A)
| Raise (e : exn)
| OutOfFuel
| Beyond.
Arguments Ok {A} x.
Arguments Raise {A} e.
Arguments OutOfFuel {A}.
Arguments Beyond {A}.

(** What a collaborator gives back: it returns or it raises. *)
Inductive outcome (A : Type) : Type :=
| Returns (x : A)
| Raises (e : exn).
Arguments Returns {A} x.
Arguments Raises {A} e.

Definition lift {A} (o : outcome A) : res A :=
  match o with
  | Returns x => Ok x
  | Raises e => Raise e
  end.

Definition rbind {A B} (r : res A) (f : A -> res B) : res B :=
  match r with
  | Ok x => f x
  | Raise e => Raise e
  | OutOfFuel => OutOfFuel
  | Beyond => Beyond
  end.

Notation "x <- r ;; k" := (rbind r (fun x => k))
  (at level 100, r at next level, right associativity).

(** ** Dictionaries keep insertion order *)

Fixpoint dict_get {A} (k : string) (d : list (string * A)) : option A :=
  match d with
  | [] => None
  | (k', v) :: r => if String.eqb k k' then Some v else dict_get k r
  end.

(** [d[k] = v]: an existing key keeps its place, a new key goes last. *)
Fixpoint dict_set {A} (k : string) (v : A) (d : list (string * A))
  : list (string * A) :=
  match d with
  | [] => [(k, v)]
  | (k', v') :: r =>
      if String.eqb k k' then (k', v) :: r else (k', v') :: dict_set k v r
  end.

Definition dict_has {A} (k : string) (d : list (string * A)) : bool :=
  match dict_get k d with Some _ => true | None => false end.

Definition keys {A} (d : list (string * A)) : list string := map fst d.

(** ** Store *)

Definition halloc (o : obj) (h : heap) : addr * heap := (List.length h, h ++ [o]).

(** Placing the items of a list, one after the other. *)
Fixpoint alloc_all {A} (f : A -> heap -> val * heap) (l : list A) (h : heap)
  : list val * heap :=
  match l with
  | [] => ([], h)
  | x :: r =>
      let '(v, h1) := f x h in
      let '(vs, h2) := alloc_all f r h1 in (v :: vs, h2)
  end.

(** A parsed document becomes fresh cells, one for each list and each
    dictionary, the cell of a container after those of its content. *)
Fixpoint alloc (t : tree) (h : heap) : val * heap :=
  match t with
  | TNone => (VNone, h)
  | TBool b => (VBool b, h)
  | TInt z => (VInt z, h)
  | TStr s => (VStr s, h)
  | TList l =>
      let '(vs, h1) := alloc_all alloc l h in
      (VRef (List.length h1), h1 ++ [OList vs])
  | TDict d =>
      let '(vs, h1) := alloc_all (fun kv => alloc (snd kv)) d h in
      (VRef (List.length h1), h1 ++ [ODict (combine (keys d) vs)])
  end.

(** Reading a value back as a document; [n] bounds the depth. *)
Fixpoint reify (n : nat) (h : heap) (v : val) : option tree :=
  match v with
  | VNone => Some TNone
  | VBool b => Some (TBool b)
  | VInt z => Some (TInt z)
  | VStr s => Some (TStr s)
  | VRef p =>
      match n with
      | 0 => None
      | S n' =>
          match h !! p with
          | Some (OList l) =>
              option_map TList
                (fold_right (fun v acc =>
                   match reify n' h v, acc with
                   | Some t, Some ts => Some (t :: ts)
                   | _, _ => None
                   end) (Some []) l)
          | Some (ODict d) =>
              option_map TDict
                (fold_right (fun kv acc =>
                   match reify n' h (snd kv), acc with
                   | Some t, Some ts => Some ((fst kv, t) :: ts)
                   | _, _ => None
                   end) (Some []) d)
          | None => None
          end
      end
  end.

Definition is_list (h : heap) (v : val) : bool :=
  match v with
  | VRef p => match h !! p with Some (OList _) => true | _ => false end
  | _ => false
  end.

Definition is_dict (h : heap) (v : val) : bool :=
  match v with
  | VRef p => match h !! p with Some (ODict _) => true | _ => false end
  | _ => false
  end.

(** Python's [==] where the code applies it: between two values that
    are not both lists and not both dicts, or with a string on one
    side.  A list or a dict never equals a scalar, and a list never
    equals a dict; [True == 1] and [False == 0]. *)
Definition py_eq (x y : val) : bool :=
  match x, y with
  | VNone, VNone => true
  | VBool a, VBool b => Bool.eqb a b
  | VInt a, VInt b => Z.eqb a b
  | VStr a, VStr b => String.eqb a b
  | VBool a, VInt b | VInt b, VBool a => Z.eqb (if a then 1 else 0)%Z b
  | _, _ => false
  end.

(** ** dict_merge *)

Section Merge.

(** The recursive call, one level down. *)
Variable rec : addr -> val -> heap -> res heap.

Definition set_item (a : addr) (key : string) (v : val) (h : heap)
  : res heap :=
  match h !! a with
  | Some (ODict da) => Ok (<[a := ODict (dict_set key v da)]> h)
  | _ => Beyond
  end.

(** The body of [for key in b] for one key. *)
Definition merge_key (a pb : addr) (key : string) (h : heap) : res heap :=
  match h !! a, h !! pb with
  | Some (ODict da), Some (ODict db) =>
      match dict_get key db with
      | None => Raise KeyError
      | Some vb =>
          match dict_get key da with
          | Some va =>
              if is_list h va && is_list h vb then
                match va, vb with
                | VRef la, VRef lb =>
                    match h !! lb with
                    | Some (OList []) => Raise IndexError
                    | Some (OList (y :: ys)) =>
                        if py_eq y (VStr "^") then
                          set_item a key (VRef lb) (<[lb := OList ys]> h)
                        else
                          match h !! la with
                          | Some (OList xs) =>
                              Ok (<[la := OList (xs ++ y :: ys)]> h)
                          | _ => Beyond
                          end
                    | _ => Beyond
                    end
                | _, _ => Beyond
                end
              else if is_dict h va && is_dict h vb then
                match va with
                | VRef pa => rec pa vb h
                | _ => Beyond
                end
              else if py_eq va vb then Ok h
              else set_item a key vb h
          | None => set_item a key vb h
          end
      end
  | _, _ => Beyond
  end.

(** [for key in b]: the iterator raises when the dictionary changed
    size since the loop began, also on the step that ends the loop. *)
Fixpoint merge_loop (a pb : addr) (n0 : nat) (ks : list string) (h : heap)
  : res heap :=
  match h !! pb with
  | Some (ODict db) =>
      if negb (Nat.eqb (List.length db) n0) then Raise RuntimeError
      else
        match ks with
        | [] => Ok h
        | key :: ks' =>
            h1 <- merge_key a pb key h ;;
            merge_loop a pb n0 ks' h1
        end
  | _ => Beyond
  end.

End Merge.

(** [dict_merge(a, b)]: [a] is a dictionary; the result is [a] itself,
    so only the store is returned.  [lim] is the interpreter's recursion
    limit.  When [b] is not a dictionary, [for key in b] iterates what
    it can and [b[key]] fails on the first element. *)
Fixpoint dict_merge (lim : nat) (a : addr) (b : val) (h : heap) : res heap :=
  match lim with
  | 0 => Raise RecursionError
  | S lim' =>
      match b with
      | VRef pb =>
          match h !! pb with
          | Some (ODict db) =>
              merge_loop (dict_merge lim') a pb (List.length db) (keys db) h
          | Some (OList []) => Ok h
          | Some (OList ((VInt _ | VBool _) :: _)) => Beyond
          | Some (OList _) => Raise TypeError
          | None => Beyond
          end
      | VStr "" => Ok h
      | _ => Raise TypeError
      end
  end.

Definition str_list (l : list string) : tree := TList (map TStr l).

Definition merge_trees (lim : nat) (ta tb : tree) : res (option tree) :=
  let '(va, h1) := alloc ta [] in
  let '(vb, h2) := alloc tb h1 in
  match va with
  | VRef a => h3 <- dict_merge lim a vb h2 ;; Ok (reify lim h3 va)
  | _ => Beyond
  end.

(** ** Strings *)

Definition nl : ascii := ascii_of_nat 10.

Definition sapp (a b : string) : string := String.append a b.
Infix "+++" := sapp (at level 60, right associativity).

(** [s.replace(old, new)] for a non-empty [old]: occurrences are taken
    from the left and do not overlap.  [skip] counts the characters of
    an occurrence still to pass over. *)
Fixpoint replace_go (old new : string) (skip : nat) (s : string) : string :=
  match s with
  | EmptyString => EmptyString
  | String c r =>
      match skip with
      | S k => replace_go old new k r
      | 0 =>
          if String.prefix old s
          then new +++ replace_go old new (String.length old - 1) r
          else String c (replace_go old new 0 r)
      end
  end.

(** With an empty [old], Python puts [new] before every character and
    at the end. *)
Fixpoint intersperse (new s : string) : string :=
  match s with
  | EmptyString => new
  | String c r => new +++ String c (intersperse new r)
  end.

Definition str_replace (s old new : string) : string :=
  match old with
  | EmptyString => intersperse new s
  | _ => replace_go old new 0 s
  end.

(** [s.split(":")] *)
Fixpoint split_colon (s : string) : list string :=
  match s with
  | EmptyString => [EmptyString]
  | String c r =>
      if Ascii.eqb c ":" then EmptyString :: split_colon r
      else match split_colon r with
           | x :: xs => String c x :: xs
           | [] => [String c EmptyString]
           end
  end.

(** [s[1:]], [s[2:-1]], [s[:-n]], [s[n:]] *)
Definition drop1 (s : string) : string :=
  match s with EmptyString => EmptyString | String _ r => r end.

Definition slice_2_m1 (s : string) : string :=
  String.substring 2 (String.length s - 3) s.

Definition drop_last (n : nat) (s : string) : string :=
  String.substring 0 (String.length s - n) s.

Definition drop_first (n : nat) (s : string) : string :=
  String.substring n (String.length s - n) s.

(** [s.lstrip("\\")] *)
Fixpoint lstrip_backslash (s : string) : string :=
  match s with
  | String c r => if Ascii.eqb c "\" then lstrip_backslash r else s
  | EmptyString => EmptyString
  end.

Definition startswith (s p : string) : bool := String.prefix p s.

Definition endswith (s p : string) : bool :=
  String.eqb (String.substring (String.length s - String.length p)
                (String.length p) s) p
  && Nat.leb (String.length p) (String.length s).

(** [sub in s] for strings *)
Fixpoint str_contains (sub s : string) : bool :=
  String.prefix sub s
  || match s with
     | EmptyString => false
     | String _ r => str_contains sub r
     end.

(** ** The pattern [(^|.)\$\{.*?\}]

    [.] is any character but a newline; [.*?] is lazy, so the token
    ends at the first closing brace. *)

(** The rest of a token after its opening brace, closing brace
    included. *)
Fixpoint scan_close (s : string) : option string :=
  match s with
  | EmptyString => None
  | String c r =>
      if Ascii.eqb c "}" then Some "}"
      else if Ascii.eqb c nl then None
      else option_map (String c) (scan_close r)
  end.

Definition token_at (s : string) : option string :=
  match s with
  | String "$" (String "{" r) => option_map (fun t => "${" +++ t) (scan_close r)
  | _ => None
  end.

(** A match that begins at the head of [s]; [start] says that [s] is
    the whole string, where [^] matches. *)
Definition match_at (start : bool) (s : string) : option string :=
  match (if start then token_at s else None) with
  | Some t => Some t
  | None =>
      match s with
      | String c r =>
          if Ascii.eqb c nl then None else option_map (String c) (token_at r)
      | EmptyString => None
      end
  end.

(** [re.finditer]: matches from the left, each search resuming where
    the previous match ended. *)
Fixpoint finditer_go (start : bool) (skip : nat) (s : string) : list string :=
  match s with
  | EmptyString => []
  | String c r =>
      match skip with
      | S k => finditer_go false k r
      | 0 =>
          match match_at start s with
          | Some m => m :: finditer_go false (String.length m - 1) r
          | None => finditer_go false 0 r
          end
      end
  end.

Definition finditer (s : string) : list string := finditer_go true 0 s.

(** ** Paths *)

(** [os.path.join] of two components, with [/] as separator. *)
Definition path_join (a b : string) : string :=
  if startswith b "/" then b
  else if String.eqb a "" || endswith a "/" then a +++ b
  else a +++ "/" +++ b.

Definition get_class_paths (_class saltclass_path : string)
  : string * string * string :=
  let base := path_join saltclass_path "classes" in
  let straight := path_join base (_class +++ ".yml") in
  let sub_straight := path_join base (str_replace _class "." "/" +++ ".yml") in
  let sub_init :=
    path_join (path_join base (str_replace _class "." "/")) "init.yml" in
  (straight, sub_init, sub_straight).

Definition get_class_from_file (_file saltclass_path : string) : string :=
  let f := drop_first
             (String.length (path_join saltclass_path "classes") + 1) _file in
  let f := drop_last 4 f in
  let f := str_replace f "/" "." in
  if endswith f ".init" then drop_last 5 f else f.

(** ** Variable expansion *)

(** [find_value_to_expand(x, v)]: [v] is the token [${a:b:c}].  At each
    segment [i in a] is a key test on a dictionary, a membership test
    on a list and a substring test on a string; [a.get] exists on
    dictionaries only. *)
Definition find_value_to_expand (h : heap) (x : val) (v : string) : res val :=
  (fix go (segs : list string) (a : val) : res val :=
     match segs with
     | [] => Ok a
     | i :: r =>
         match a with
         | VNone => Ok (VStr v)
         | VRef p =>
             match h !! p with
             | Some (ODict d) =>
                 match dict_get i d with
                 | Some a' => go r a'
                 | None => Ok (VStr v)
                 end
             | Some (OList l) =>
                 if existsb (fun e => py_eq e (VStr i)) l
                 then Raise AttributeError else Ok (VStr v)
             | None => Beyond
             end
         | VStr s => if str_contains i s then Raise AttributeError
                     else Ok (VStr v)
         | VInt _ | VBool _ => Raise TypeError
         end
     end) (split_colon (slice_2_m1 v)) x.

Definition set_index (v : addr) (x : nat) (w : val) (h : heap) : res heap :=
  match h !! v with
  | Some (OList l) => Ok (<[v := OList (<[x := w]> l)]> h)
  | _ => Beyond
  end.

Section Replace.

Variable rec : addr -> heap -> res heap.
Variables old new : string.

Definition rec_if_dict (h : heap) (v : val) : res heap :=
  if is_dict h v then
    match v with VRef p => rec p h | _ => Beyond end
  else Ok h.

(** [for i in v], with [x] the index of [i]; [n] is the length of
    the list, which the loop does not change. *)
Fixpoint replace_in_list (v : addr) (x n : nat) (h : heap) : res heap :=
  match n with
  | 0 => Ok h
  | S n' =>
      match h !! v with
      | Some (OList l) =>
          match l !! x with
          | None => Ok h
          | Some i =>
              h1 <- rec_if_dict h i ;;
              h2 <- match i with
                    | VStr s => if String.eqb s old
                                then set_index v x (VStr new) h1 else Ok h1
                    | _ => Ok h1
                    end ;;
              replace_in_list v (S x) n' h2
          end
      | _ => Beyond
      end
  end.

(** [for k, v in d.items()] *)
Fixpoint replace_loop (d : addr) (ks : list string) (h : heap) : res heap :=
  match ks with
  | [] => Ok h
  | k :: ks' =>
      match h !! d with
      | Some (ODict dd) =>
          match dict_get k dd with
          | None => Raise KeyError
          | Some v =>
              h1 <- rec_if_dict h v ;;
              h2 <- (if is_list h v then
                       match v with
                       | VRef p =>
                           match h1 !! p with
                           | Some (OList l) =>
                               replace_in_list p 0 (List.length l) h1
                           | _ => Beyond
                           end
                       | _ => Beyond
                       end
                     else Ok h1) ;;
              h3 <- (if py_eq v (VStr old)
                     then set_item d k (VStr new) h2 else Ok h2) ;;
              replace_loop d ks' h3
          end
      | _ => Beyond
      end
  end.

End Replace.

(** [dict_search_and_replace(d, old, new, expanded)]; the list
    [expanded] is only ever appended to and is left out. *)
Fixpoint dict_search_and_replace (lim : nat) (old new : string) (d : addr)
  (h : heap) : res heap :=
  match lim with
  | 0 => Raise RecursionError
  | S lim' =>
      match h !! d with
      | Some (ODict dd) =>
          replace_loop (dict_search_and_replace lim' old new) old new
            d (keys dd) h
      | _ => Beyond
      end
  end.

(** One match of [find_and_process_re]; the pair is [(_str, v)]. *)
Definition process_match (lim : nat) (b : addr) (re_str : string)
  (st : string * val) (h : heap) : res (string * val * heap) :=
  let '(_str, v) := st in
  if startswith re_str "\" then
    let v_new := str_replace _str re_str (lstrip_backslash re_str) in
    h1 <- dict_search_and_replace lim _str v_new b h ;;
    Ok (_str, v, h1)
  else if negb (startswith re_str "$") then
    v_expanded <- find_value_to_expand h (VRef b) (drop1 re_str) ;;
    match v_expanded with
    | VStr e =>
        let v_new := str_replace _str (drop1 re_str) e in
        h1 <- dict_search_and_replace lim _str v_new b h ;;
        Ok (v_new, v, h1)
    | _ => Raise TypeError
    end
  else
    v_expanded <- find_value_to_expand h (VRef b) re_str ;;
    match v_expanded with
    | VStr e =>
        let v_new := match v with
                     | VStr vs => str_replace vs re_str e
                     | _ => str_replace _str re_str e
                     end in
        h1 <- dict_search_and_replace lim _str v_new b h ;;
        Ok (v_new, VStr v_new, h1)
    | _ => Raise TypeError
    end.

Fixpoint process_matches (lim : nat) (b : addr) (ms : list string)
  (st : string * val) (h : heap) : res heap :=
  match ms with
  | [] => Ok h
  | m :: ms' =>
      r <- process_match lim b m st h ;;
      process_matches lim b ms' (fst r) (snd r)
  end.

(** [find_and_process_re(_str, v, k, b, expanded)]: the matches are
    those of the string as it was passed in. *)
Definition find_and_process_re (lim : nat) (_str : string) (v : val)
  (b : addr) (h : heap) : res heap :=
  process_matches lim b (finditer _str) (_str, v) h.

Section Expand.

Variable lim : nat.
Variable b : addr.
Variable rec : addr -> heap -> res heap.

(** [for i in v] *)
Fixpoint expand_list (v : addr) (x n : nat) (h : heap) : res heap :=
  match n with
  | 0 => Ok h
  | S n' =>
      match h !! v with
      | Some (OList l) =>
          match l !! x with
          | None => Ok h
          | Some i =>
              h1 <- rec_if_dict rec h i ;;
              h2 <- match i with
                    | VStr s => find_and_process_re lim s (VRef v) b h1
                    | _ => Ok h1
                    end ;;
              expand_list v (S x) n' h2
          end
      | _ => Beyond
      end
  end.

(** [for k, v in a.items()] *)
Fixpoint expand_loop (a : addr) (ks : list string) (h : heap) : res heap :=
  match ks with
  | [] => Ok h
  | k :: ks' =>
      match h !! a with
      | Some (ODict da) =>
          match dict_get k da with
          | None => Raise KeyError
          | Some v =>
              h1 <- (if is_dict h v then rec_if_dict rec h v
                     else
                       h1 <- match v with
                             | VRef p =>
                                 match h !! p with
                                 | Some (OList l) =>
                                     expand_list p 0 (List.length l) h
                                 | _ => Ok h
                                 end
                             | _ => Ok h
                             end ;;
                       match v with
                       | VStr s => find_and_process_re lim s v b h1
                       | _ => Ok h1
                       end) ;;
              expand_loop a ks' h1
          end
      | _ => Beyond
      end
  end.

End Expand.

(** [expand_variables(a, b, expanded, path)] with a [path]: the nested
    calls, all on the one [b]. *)
Fixpoint expand_variables_in (lim : nat) (b a : addr) (h : heap) : res heap :=
  match lim with
  | 0 => Raise RecursionError
  | S lim' =>
      match h !! a with
      | Some (ODict da) =>
          expand_loop lim b (expand_variables_in lim' b) a (keys da) h
      | _ => Beyond
      end
  end.

(** [expand_variables(a, {}, [])]: [b] is a shallow copy of [a], so the
    two share every nested list and dictionary.  Returns [b]. *)
Definition expand_variables (lim : nat) (a : val) (h : heap)
  : res (addr * heap) :=
  match a with
  | VRef pa =>
      match h !! pa with
      | Some (ODict da) =>
          let '(b, h1) := halloc (ODict da) h in
          h2 <- expand_loop lim b (expand_variables_in lim b) pa (keys da) h1 ;;
          Ok (b, h2)
      | Some (OList _) => Raise AttributeError
      | None => Beyond
      end
  | _ => Raise AttributeError
  end.

Definition expand_tree (lim : nat) (t : tree) : res (option tree) :=
  let '(va, h) := alloc t [] in
  r <- expand_variables lim va h ;;
  Ok (reify lim (snd r) (VRef (fst r))).

(** ** Class loading and expansion *)

(** The fields of [salt_data] that the module reads: the storage root,
    the live pillar dictionary and the node id. *)
Record salt_data : Type := {
  sd_path : string;
  sd_pillar : addr;
  sd_minion_id : string
}.

(** What runs through one resolve call: the store, the list
    [seen_classes] and the log. *)
Record world : Type := {
  w_heap : heap;
  w_seen : list string;
  w_log : list string
}.

Definition with_heap (w : world) (h : heap) : world :=
  {| w_heap := h; w_seen := w_seen w; w_log := w_log w |}.

Definition warn (w : world) (msg : string) : world :=
  {| w_heap := w_heap w; w_seen := w_seen w; w_log := w_log w ++ [msg] |}.

Definition see (w : world) (klass : string) : world :=
  {| w_heap := w_heap w; w_seen := w_seen w ++ [klass]; w_log := w_log w |}.

Definition mem (x : string) (l : list string) : bool :=
  existsb (String.eqb x) l.

(** Truth value of a Python object. *)
Definition truthy (h : heap) (v : val) : bool :=
  match v with
  | VNone => false
  | VBool b => b
  | VInt z => negb (Z.eqb z 0)
  | VStr s => negb (String.eqb s "")
  | VRef p =>
      match h !! p with
      | Some (OList []) | Some (ODict []) => false
      | _ => true
      end
  end.

(** A string is held as the bytes of its UTF-8 text; a character is a
    byte with the continuation bytes (those of the form [10xxxxxx])
    that follow it. *)
Definition continuation (c : ascii) : bool :=
  match c with
  | Ascii _ _ _ _ _ _ false true => true
  | _ => false
  end.

(** The characters of a string, as [for x in s] visits them. *)
Fixpoint chars (s : string) : list string :=
  match s with
  | EmptyString => []
  | String c r =>
      match r with
      | String c2 _ =>
          if continuation c2 then
            match chars r with
            | x :: xs => String c x :: xs
            | [] => [String c EmptyString]
            end
          else String c EmptyString :: chars r
      | EmptyString => [String c EmptyString]
      end
  end.

(** The elements that [for x in v] visits. *)
Definition iter_val (h : heap) (v : val) : res (list val) :=
  match v with
  | VRef p =>
      match h !! p with
      | Some (OList l) => Ok l
      | Some (ODict d) => Ok (map VStr (keys d))
      | None => Beyond
      end
  | VStr s => Ok (map VStr (chars s))
  | _ => Raise TypeError
  end.

(** Keep the first occurrence of each name. *)
Fixpoint dedup_into (acc l : list string) : list string :=
  match l with
  | [] => acc
  | x :: r => dedup_into (if mem x acc then acc else acc ++ [x]) r
  end.

(** [OrderedDict.update] and [move_to_end] *)
Definition od_update {A} (d e : list (string * A)) : list (string * A) :=
  fold_left (fun acc kv => dict_set (fst kv) (snd kv) acc) e d.

Definition od_move_to_end {A} (k : string) (d : list (string * A))
  : list (string * A) :=
  match dict_get k d with
  | Some v =>
      List.filter (fun kv => negb (String.eqb (fst kv) k)) d ++ [(k, v)]
  | None => d
  end.

Section Pipeline.

(** The collaborators: the walk of a directory tree, as the list of
    its directories with the files of each; file-name globbing; and
    the renderer and YAML loader, which sees [salt_data] and with it
    the pillar dictionary as it stands in the store. *)
Variable os_walk : string -> list (string * list string).
Variable glob : string -> list string.
Variable render_yaml : string -> salt_data -> heap -> outcome tree.

(** Recursion limit of [dict_merge] and of the variable expander. *)
Variable lim : nat.

Definition walk_files (top : string) : list string :=
  flat_map (fun rf => map (path_join (fst rf)) (snd rf)) (os_walk top).

(** [get_class]: the document as parsed, to be placed in the store
    by the caller. *)
Definition get_class (_class : string) (sd : salt_data) (w : world)
  : res (tree * world) :=
  let '(straight, sub_init, sub_straight) :=
    get_class_paths _class (sd_path sd) in
  let l_files := walk_files (path_join (sd_path sd) "classes") in
  if mem straight l_files then
    t <- lift (render_yaml straight sd (w_heap w)) ;; Ok (t, w)
  else if mem sub_straight l_files then
    t <- lift (render_yaml sub_straight sd (w_heap w)) ;; Ok (t, w)
  else if mem sub_init l_files then
    t <- lift (render_yaml sub_init sd (w_heap w)) ;; Ok (t, w)
  else
    Ok (TDict [], warn w (_class +++ ": Class definition not found")).

Definition match_class_glob (_class saltclass_path : string) (w : world)
  : list string * world :=
  let '(straight, sub_init, sub_straight) :=
    get_class_paths _class saltclass_path in
  let matches := glob straight ++ glob sub_straight ++ glob sub_init in
  let w' := match matches with
            | [] => warn w (_class +++
                             ": Class globbing did not yield any results")
            | _ => w
            end in
  (map (fun m => get_class_from_file m saltclass_path) matches, w').

(** The first loop of [expand_classes_glob]; a class name that is not
    a string has no [replace]. *)
Fixpoint glob_all (classes : list val) (path : string) (w : world)
  : res (list string * world) :=
  match classes with
  | [] => Ok ([], w)
  | VStr c :: r =>
      let '(m, w1) := match_class_glob c path w in
      x <- glob_all r path w1 ;;
      Ok (m ++ fst x, snd x)
  | _ :: _ => Raise AttributeError
  end.

Definition expand_classes_glob (classes : list val) (sd : salt_data)
  (w : world) : res (list string * world) :=
  x <- glob_all classes (sd_path sd) w ;;
  Ok (dedup_into [] (fst x), snd x).

Definition doc_get (h : heap) (d : addr) (k : string) : option val :=
  match h !! d with
  | Some (ODict dd) => dict_get k dd
  | _ => None
  end.

Section Loop.

(** The recursive call, which gets [{}] as [minion_dict]. *)
Variable rec : val -> world -> res (list (string * addr) * world).
Variable sd : salt_data.

(** One class of [for klass in classes_to_expand]. *)
Definition expand_class (klass : string)
  (expanded_classes : list (string * addr)) (w : world)
  : res (list (string * addr) * world) :=
  if mem klass (w_seen w) then Ok (expanded_classes, w)
  else
    x <- get_class klass sd (see w klass) ;;
    let '(t, w1) := x in
    match (match t with TNone => TDict [] | _ => t end) with
    | TDict dd =>
        match alloc (TDict dd) (w_heap w1) with
        | (VRef d, h1) =>
            h2 <- match doc_get h1 d "pillars" with
                  | Some new_pillars =>
                      if truthy h1 new_pillars
                      then dict_merge lim (sd_pillar sd) new_pillars h1
                      else Ok h1
                  | None => Ok h1
                  end ;;
            y <- match doc_get h2 d "classes" with
                 | Some cs =>
                     n <- rec cs (with_heap w1 h2) ;;
                     Ok (od_move_to_end klass
                           (od_update [(klass, d)] (fst n)), snd n)
                 | None => Ok ([(klass, d)], with_heap w1 h2)
                 end ;;
            Ok (od_update expanded_classes (fst y), snd y)
        | _ => Beyond
        end
    | _ => Raise AttributeError
    end.

Fixpoint expand_loop_classes (ks : list string)
  (expanded_classes : list (string * addr)) (w : world)
  : res (list (string * addr) * world) :=
  match ks with
  | [] => Ok (expanded_classes, w)
  | klass :: ks' =>
      x <- expand_class klass expanded_classes w ;;
      expand_loop_classes ks' (fst x) (snd x)
  end.

End Loop.

(** [expand_classes_in_order(minion_dict, salt_data, seen_classes,
    classes_to_expand)].  [minion_dict] is [None] for the literal [{}]
    of the nested calls, [classes_to_expand] is [None] for the literal
    [[]] of the first call. *)
Fixpoint expand_classes_in_order (fuel : nat) (sd : salt_data)
  (minion_dict : option addr) (classes_to_expand : option val) (w : world)
  : res (list (string * addr) * world) :=
  match fuel with
  | 0 => OutOfFuel
  | S fuel' =>
      let h := w_heap w in
      let from_minion :=
        match minion_dict with
        | Some m => doc_get h m "classes"
        | None => None
        end in
      let cte :=
        match classes_to_expand, from_minion with
        | None, Some c => Some c
        | Some v, Some c => if truthy h v then Some v else Some c
        | c, None => c
        end in
      l <- match cte with
           | None => Ok []
           | Some v => iter_val h v
           end ;;
      x <- expand_classes_glob l sd w ;;
      y <- expand_loop_classes
             (fun cs => expand_classes_in_order fuel' sd None (Some cs))
             sd (fst x) [] (snd x) ;;
      match minion_dict with
      | Some m =>
          if truthy (w_heap (snd y)) (VRef m)
          then Ok (od_update (fst y) [(sd_minion_id sd, m)], snd y)
          else Ok y
      | None => Ok y
      end
  end.

(** The search for the node file: every match overwrites [_file]. *)
Definition find_minion_file (minion_id : string) (sd : salt_data) : string :=
  fold_left
    (fun _file rf =>
       fold_left
         (fun _file minion_file =>
            if String.eqb minion_file (minion_id +++ ".yml")
            then path_join (fst rf) minion_file else _file)
         (snd rf) _file)
    (os_walk (path_join (sd_path sd) "nodes")) "".

(** The loop over [classes_values]. *)
Fixpoint merge_docs (pillars_dict : addr) (docs : list addr)
  (states_list : list val) (h : heap) : res (list val * heap) :=
  match docs with
  | [] => Ok (states_list, h)
  | exp_dict :: r =>
      h1 <- match doc_get h exp_dict "pillars" with
            | Some _ => dict_merge lim pillars_dict (VRef exp_dict) h
            | None => Ok h
            end ;;
      st <- match doc_get h1 exp_dict "states" with
            | Some s => l <- iter_val h1 s ;; Ok (states_list ++ l)
            | None => Ok states_list
            end ;;
      merge_docs pillars_dict r st h1
  end.

(** Keep the first occurrence of each state; a list or a dictionary
    cannot enter the set. *)
Fixpoint dedup_states (state_seen : list val) (l : list val)
  : res (list val) :=
  match l with
  | [] => Ok []
  | VRef _ :: _ => Raise TypeError
  | state :: r =>
      if existsb (py_eq state) state_seen then dedup_states state_seen r
      else x <- dedup_states (state_seen ++ [state]) r ;; Ok (state :: x)
  end.

Record expanded : Type := {
  classes_values : list addr;
  pillars_dict : addr;
  classes_list : list string;
  states_list : list val
}.

Definition expanded_dict_from_minion (fuel : nat) (minion_id : string)
  (sd : salt_data) (w : world) : res (expanded * world) :=
  let _file := find_minion_file minion_id sd in
  x <- (if negb (String.eqb _file "") then
          t <- lift (render_yaml _file sd (w_heap w)) ;; Ok (t, w)
        else
          Ok (TDict [], warn w (minion_id +++ ": Node definition not found"))) ;;
  let '(t, w1) := x in
  match t with
  | TDict dd =>
      match alloc (TDict dd) (w_heap w1) with
      | (VRef node, h1) =>
          (* the deep copy of the node's pillars *)
          let '(node_pillars, h2) :=
            match dict_get "pillars" dd with
            | Some p => alloc p h1
            | None => alloc (TDict []) h1
            end in
          h3 <- dict_merge lim (sd_pillar sd) node_pillars h2 ;;
          y <- expand_classes_in_order fuel sd (Some node) None
                 {| w_heap := h3; w_seen := []; w_log := w_log w1 |} ;;
          let '(expanded_classes, w2) := y in
          let '(pd, h4) := halloc (ODict []) (w_heap w2) in
          z <- merge_docs pd (map snd expanded_classes) [] h4 ;;
          sl <- dedup_states [] (fst z) ;;
          Ok ({| classes_values := map snd expanded_classes;
                 pillars_dict := pd;
                 classes_list := removelast (keys expanded_classes);
                 states_list := sl |},
              with_heap w2 (snd z))
      | _ => Beyond
      end
  | _ => Raise AttributeError
  end.

Definition get_env_from_dict (h : heap) (exp_dict_list : list addr) : val :=
  fold_left
    (fun environment s_class =>
       match doc_get h s_class "environment" with
       | Some e => e
       | None => environment
       end) exp_dict_list (VStr "").

(** [get_pillars]: the address of the final dictionary. *)
Definition get_pillars (fuel : nat) (minion_id : string) (sd : salt_data)
  (w : world) : res (addr * world) :=
  x <- expanded_dict_from_minion fuel minion_id sd w ;;
  let '(e, w1) := x in
  let h := w_heap w1 in
  let environment := get_env_from_dict h (classes_values e) in
  y <- match doc_get h (pillars_dict e) "pillars" with
       | Some p => expand_variables lim p h
       | None =>
           let '(a, h1) := halloc (ODict []) h in
           expand_variables lim (VRef a) h1
       end ;;
  let '(pillars_dict_expanded, h1) := y in
  let '(states, h2) := halloc (OList (states_list e)) h1 in
  let '(classes, h3) := halloc (OList (map VStr (classes_list e))) h2 in
  let '(meta, h4) :=
    halloc (ODict [("states", VRef states); ("classes", VRef classes);
                   ("environment", environment);
                   ("nodename", VStr minion_id)]) h3 in
  match h4 !! pillars_dict_expanded with
  | Some (ODict de) =>
      let '(out, h5) :=
        halloc (ODict (od_update [("__saltclass__", VRef meta)] de)) h4 in
      Ok (out, with_heap w1 h5)
  | _ => Beyond
  end.

(** [get_tops]: the address of the dictionary [{environment:
    states_list}].  A list or a mapping cannot be a key; a key that is
    not a string is outside the dictionaries of this store. *)
Definition get_tops (fuel : nat) (minion_id : string) (sd : salt_data)
  (w : world) : res (addr * world) :=
  x <- expanded_dict_from_minion fuel minion_id sd w ;;
  let '(e, w1) := x in
  let h := w_heap w1 in
  match get_env_from_dict h (classes_values e) with
  | VStr environment =>
      let '(states, h1) := halloc (OList (states_list e)) h in
      let '(tops_dict, h2) :=
        halloc (ODict [(environment, VRef states)]) h1 in
      Ok (tops_dict, with_heap w1 h2)
  | VRef _ => Raise TypeError
  | _ => Beyond
  end.

End Pipeline.

(** The files named [<minion_id>.yml] under [nodes/], in the order of
    the walk. *)
Definition node_matches (os_walk : string -> list (string * list string))
  (minion_id : string) (sd : salt_data) : list string :=
  flat_map
    (fun rf => map (path_join (fst rf))
                 (List.filter (fun f => String.eqb f (minion_id +++ ".yml"))
                    (snd rf)))
    (os_walk (path_join (sd_path sd) "nodes")).

(** None of the three candidate files of a class is in the walk of
    [classes/]. *)
Definition class_missing (os_walk : string -> list (string * list string))
  (_class : string) (sd : salt_data) : Prop :=
  let '(straight, sub_init, sub_straight) :=
    get_class_paths _class (sd_path sd) in
  let l_files := walk_files os_walk (path_join (sd_path sd) "classes") in
  mem straight l_files = false /\ mem sub_straight l_files = false /\
  mem sub_init l_files = false.

(** The descent of [find_value_to_expand] meets a missing key, or
    [None], before the segments run out; every step before that goes
    through a dictionary. *)
Inductive absent (h : heap) : val -> list string -> Prop :=
| absent_key p d i r :
    h !! p = Some (ODict d) -> dict_get i d = None ->
    absent h (VRef p) (i :: r)
| absent_none i r : absent h VNone (i :: r)
| absent_below p d i a r :
    h !! p = Some (ODict d) -> dict_get i d = Some a -> absent h a r ->
    absent h (VRef p) (i :: r).

(** ** Where the replacement goes

    [dict_search_and_replace] goes from a dictionary into the
    dictionaries it holds under its keys and into the dictionaries that
    are items of the lists it holds under its keys.  It does not go
    into a list that is an item of a list. *)
Inductive child (h : heap) (c c' : addr) : Prop :=
| child_value dd k :
    h !! c = Some (ODict dd) -> dict_get k dd = Some (VRef c') ->
    is_dict h (VRef c') = true -> child h c c'
| child_item dd k l items i :
    h !! c = Some (ODict dd) -> dict_get k dd = Some (VRef l) ->
    h !! l = Some (OList items) -> items !! i = Some (VRef c') ->
    is_dict h (VRef c') = true -> child h c c'.

(** A place that holds a value: a key of a dictionary or an index of a
    list. *)
Inductive place : Type :=
| AtKey (c : addr) (k : string)
| AtIndex (l : addr) (i : nat).

Definition holds (h : heap) (pl : place) (v : val) : Prop :=
  match pl with
  | AtKey c k => exists dd, h !! c = Some (ODict dd) /\ dict_get k dd = Some v
  | AtIndex l i =>
      exists items, h !! l = Some (OList items) /\ items !! i = Some v
  end.

(** The places that the replacement started at [d] reaches: the keys
    of the dictionaries it enters and the items of the lists that these
    dictionaries hold under a key. *)
Inductive reached (h : heap) (d : addr) : place -> Prop :=
| reached_key c k : rtc (child h) d c -> reached h d (AtKey c k)
| reached_index c dd k l i :
    rtc (child h) d c -> h !! c = Some (ODict dd) ->
    dict_get k dd = Some (VRef l) -> reached h d (AtIndex l i).

(** The places that the replacement handles while it is at the key
    [k] of the dictionary [d]. *)
Inductive under (h : heap) (d : addr) (k : string) : place -> Prop :=
| under_key : under h d k (AtKey d k)
| under_dict c' pl :
    holds h (AtKey d k) (VRef c') -> is_dict h (VRef c') = true ->
    reached h c' pl -> under h d k pl
| under_index l i :
    holds h (AtKey d k) (VRef l) -> under h d k (AtIndex l i)
| under_item l i c' pl :
    holds h (AtKey d k) (VRef l) -> holds h (AtIndex l i) (VRef c') ->
    is_dict h (VRef c') = true -> reached h c' pl -> under h d k pl.

(** The token of a match: the match itself when it begins with the
    dollar sign, the match without its leading character otherwise. *)
Definition token_of (re_str : string) : string :=
  if startswith re_str "$" then re_str else drop1 re_str.

(** The classes of a universe that are not yet in [seen_classes]. *)
Definition unseen (U seen : list string) : nat :=
  List.length (List.filter (fun u => negb (mem u seen)) U).

(** ** A file system for the examples

    Documents by path, all directly in [classes/] or [nodes/]; a
    pattern without wildcards matches the file of that name. *)
Definition fs_glob (fs : list (string * tree)) (pat : string) : list string :=
  if dict_has pat fs then [pat] else [].

Definition fs_walk (fs : list (string * tree)) (top : string)
  : list (string * list string) :=
  [(top, map (drop_first (String.length top + 1))
           (List.filter (fun p => startswith p (top +++ "/")) (keys fs)))].

Definition fs_render (fs : list (string * tree)) (f : string)
  (sd : salt_data) (h : heap) : outcome tree :=
  match dict_get f fs with
  | Some t => Returns t
  | None => Raises KeyError
  end.

Definition sd_web : salt_data :=
  {| sd_path := "/srv"; sd_pillar := 0; sd_minion_id := "web" |}.

Definition w_start : world :=
  {| w_heap := [ODict []]; w_seen := []; w_log := [] |}.

(** A dictionary stays a dictionary, and a non-empty one stays
    non-empty. *)
Definition grows (h h' : heap) : Prop :=
  forall p d, h !! p = Some (ODict d) ->
    exists d', h' !! p = Some (ODict d') /\ (d <> [] -> d' <> []).

(** A node whose id is also the name of one of its classes. *)
Definition fs_collision : list (string * tree) :=
  [("/srv/classes/web.yml", TDict []);
   ("/srv/classes/zzz.yml", TDict [("pillars", TDict [("k", TInt 1)])]);
   ("/srv/nodes/web.yml",
    TDict [("classes", TList [TStr "web"; TStr "zzz"]);
           ("pillars", TDict [("k", TInt 2)])])].

(** A class and a node that set the same pillar. *)
Definition fs_override : list (string * tree) :=
  [("/srv/classes/A.yml",
    TDict [("pillars", TDict [("k", TInt 1); ("j", TInt 7)])]);
   ("/srv/nodes/web.yml",
    TDict [("classes", TList [TStr "A"]);
           ("pillars", TDict [("k", TInt 2)])])].

(** A class that includes another; both set the same pillar. *)
Definition fs_includes : list (string * tree) :=
  [("/srv/classes/A.yml",
    TDict [("classes", TList [TStr "B"]);
           ("pillars", TDict [("k", TStr "p")])]);
   ("/srv/classes/B.yml", TDict [("pillars", TDict [("k", TStr "c")])])].

(** A class and a node with states; the class sets the environment. *)
Definition fs_tops : list (string * tree) :=
  [("/srv/classes/A.yml",
    TDict [("states", TList [TStr "a"; TStr "b"]);
           ("environment", TStr "prod")]);
   ("/srv/nodes/web.yml",
    TDict [("classes", TList [TStr "A"]);
           ("states", TList [TStr "b"; TStr "c"])])].

(** A class that includes another, both setting the pillar [k]; a
    class and a node that do not set it. *)
Definition fs_precedence : list (string * tree) :=
  [("/srv/classes/A.yml",
    TDict [("classes", TList [TStr "B"]);
           ("pillars", TDict [("k", TStr "p")])]);
   ("/srv/classes/B.yml", TDict [("pillars", TDict [("k", TStr "c")])]);
   ("/srv/classes/C.yml", TDict [("pillars", TDict [("j", TInt 1)])]);
   ("/srv/nodes/web.yml",
    TDict [("classes", TList [TStr "A"; TStr "C"]);
           ("pillars", TDict [("j", TInt 2)])])].

(** A class and a node with states, each with an environment. *)
Definition fs_tops_node : list (string * tree) :=
  [("/srv/classes/A.yml",
    TDict [("states", TList [TStr "a"; TStr "b"]);
           ("environment", TStr "prod")]);
   ("/srv/nodes/web.yml",
    TDict [("classes", TList [TStr "A"]);
           ("states", TList [TStr "b"; TStr "c"]);
           ("environment", TStr "dev")])].

(** The final dictionary of [get_pillars], read back. *)
Definition resolve_pillars (fs : list (string * tree)) (minion_id : string)
  : res (option tree) :=
  x <- get_pillars (fs_walk fs) (fs_glob fs) (fs_render fs) 10 10
         minion_id sd_web w_start ;;
  Ok (reify 10 (w_heap (snd x)) (VRef (fst x))).

(** * Properties *)

(** ** Dictionaries *)

Lemma dict_get_set_eq {A} (k : string) (v : A) d :
  dict_get k (dict_set k v d) = Some v.
Proof.
  induction d as [|[k' v'] r IH]; simpl.
  - by rewrite String.eqb_refl.
  - destruct (String.eqb k k') eqn:E; simpl; rewrite E; auto.
Qed.

Lemma dict_get_set_ne {A} (k k' : string) (v : A) d :
  k <> k' -> dict_get k' (dict_set k v d) = dict_get k' d.
Proof.
  intros Hne. induction d as [|[k0 v0] r IH]; simpl.
  - destruct (String.eqb k' k) eqn:E; auto.
    apply String.eqb_eq in E. congruence.
  - destruct (String.eqb k k0) eqn:E; simpl.
    + apply String.eqb_eq in E. subst k0.
      destruct (String.eqb k' k) eqn:E'; auto.
      apply String.eqb_eq in E'. congruence.
    + destruct (String.eqb k' k0); auto.
Qed.

Lemma dict_get_In {A} (k : string) (v : A) d :
  dict_get k d = Some v -> In v (map snd d).
Proof.
  induction d as [|[k' v'] r IH]; simpl; [discriminate|].
  destruct (String.eqb k k'); intros H; [left; congruence | right; auto].
Qed.

Lemma In_dict_set {A} (k : string) (v w : A) d :
  In w (map snd (dict_set k v d)) -> w = v \/ In w (map snd d).
Proof.
  induction d as [|[k' v'] r IH]; simpl.
  - intros [H|[]]; auto.
  - destruct (String.eqb k k'); simpl; intros [H|H]; auto.
    destruct (IH H); auto.
Qed.

Lemma length_dict_set_has {A} (k : string) (v : A) d :
  dict_has k d = true -> List.length (dict_set k v d) = List.length d.
Proof.
  unfold dict_has. induction d as [|[k' v'] r IH]; simpl; [discriminate|].
  destruct (String.eqb k k'); simpl; auto.
Qed.

Definition vals_of (o : obj) : list val :=
  match o with
  | OList l => l
  | ODict d => map snd d
  end.

(** ** Which cells a merge can touch

    [R] holds of the roots, cells that no cell refers to; [Q] of the
    cells that only roots refer to.  A merge whose arguments are not
    roots leaves every cell of [Q] but its first argument alone. *)

Lemma lookup_insert_inv (h : heap) (a q : addr) (o o' : obj) :
  <[a := o']> h !! q = Some o ->
  (q = a /\ o = o') \/ (q <> a /\ h !! q = Some o).
Proof.
  intros H. destruct (decide (q = a)) as [->|Hne].
  - left. split; auto.
    assert (a < List.length h)%nat.
    { apply lookup_lt_Some in H. by rewrite length_insert in H. }
    rewrite list_lookup_insert_eq in H by done. congruence.
  - right. split; auto. by rewrite list_lookup_insert_ne in H.
Qed.

Section Frame.

Variables Q R : addr -> Prop.

Definition Inv (h : heap) : Prop :=
  forall q o p, h !! q = Some o -> In (VRef p) (vals_of o) ->
                ~ R p /\ (Q p -> R q).

Lemma Inv_insert h a o' :
  Inv h ->
  (forall p, In (VRef p) (vals_of o') -> ~ R p /\ (Q p -> R a)) ->
  Inv (<[a := o']> h).
Proof.
  intros HI Ho q o p Hq Hin.
  apply lookup_insert_inv in Hq as [[-> ->]|[_ Hq]]; eauto.
Qed.

Definition frame_ok (rec : addr -> val -> heap -> res heap) : Prop :=
  forall a b h h',
    rec a b h = Ok h' -> Inv h -> ~ R a ->
    (forall pb, b = VRef pb -> ~ R pb) ->
    Inv h' /\ (forall p, Q p -> p <> a -> h' !! p = h !! p).

Lemma set_item_frame a key v h h' :
  set_item a key v h = Ok h' -> Inv h ->
  (forall p, v = VRef p -> ~ R p /\ (Q p -> R a)) ->
  Inv h' /\ (forall p, p <> a -> h' !! p = h !! p).
Proof.
  unfold set_item. intros H HI Hv.
  destruct (h !! a) as [[l|da]|] eqn:Ha; try discriminate.
  injection H as <-. split.
  - apply Inv_insert; auto. simpl. intros p Hin.
    apply In_dict_set in Hin as [Hin|Hin]; auto.
    eapply (HI a (ODict da)); eauto.
  - intros p Hp. by rewrite list_lookup_insert_ne.
Qed.

(** One key of the loop, for any two dictionaries: what changes is
    [a], and the cells that [a] and [b] hold under [key]. *)
Lemma merge_key_gen rec :
  frame_ok rec ->
  forall a pb key h h' da db,
    merge_key rec a pb key h = Ok h' -> Inv h ->
    h !! a = Some (ODict da) -> h !! pb = Some (ODict db) ->
    (R pb -> R a) ->
    Inv h' /\
    (forall p, Q p -> p <> a ->
               dict_get key da <> Some (VRef p) ->
               dict_get key db <> Some (VRef p) -> h' !! p = h !! p) /\
    (Q a -> exists da', h' !! a = Some (ODict da') /\
              (dict_get key da' = dict_get key da \/
               dict_get key da' = dict_get key db) /\
              forall k', k' <> key -> dict_get k' da' = dict_get k' da).
Proof.
  intros Hrec a pb key h h' da db H HI Ha Hb Rba. unfold merge_key in H.
  rewrite Ha, Hb in H.
  destruct (dict_get key db) as [vb|] eqn:Hvb; try discriminate.
  assert (Hvb' : forall p, vb = VRef p -> ~ R p /\ (Q p -> R a)).
  { intros p ->. apply dict_get_In in Hvb.
    destruct (HI pb (ODict db) p Hb Hvb) as [? ?]. split; auto. }
  assert (Hset : forall h1 h2,
            set_item a key vb h1 = Ok h2 -> Inv h1 -> h1 !! a = h !! a ->
            Inv h2 /\ (forall p, p <> a -> h2 !! p = h1 !! p) /\
            exists da', h2 !! a = Some (ODict da') /\
              (dict_get key da' = dict_get key da \/
               dict_get key da' = Some vb) /\
              forall k', k' <> key -> dict_get k' da' = dict_get k' da).
  { intros h1 h2 H1 HI1 Ha1.
    destruct (set_item_frame _ _ _ _ _ H1 HI1 Hvb') as [? ?].
    split; auto. split; auto.
    unfold set_item in H1. rewrite Ha1, Ha in H1. injection H1 as <-.
    eexists. split; [|split].
    - apply list_lookup_insert_eq. apply lookup_lt_Some with (ODict da).
      congruence.
    - right. by rewrite dict_get_set_eq.
    - intros k' Hk'. by apply dict_get_set_ne. }
  destruct (dict_get key da) as [va|] eqn:Hva.
  2:{ apply Hset in H as (? & ? & Hda); auto. }
  assert (Hva' : forall p, va = VRef p -> ~ R p /\ (Q p -> R a)).
  { intros p ->. apply dict_get_In in Hva.
    destruct (HI a (ODict da) p Ha Hva) as [? ?]. split; auto. }
  destruct (is_list h va && is_list h vb) eqn:Hll.
  - destruct va as [| | | |la]; try discriminate.
    destruct vb as [| | | |lb]; try discriminate.
    destruct (Hva' la eq_refl) as [Rla Qla].
    destruct (Hvb' lb eq_refl) as [Rlb Qlb].
    destruct (h !! lb) as [[[|y ys]|]|] eqn:Hlb; try discriminate.
    assert (a <> lb) by congruence.
    destruct (py_eq y (VStr "^")).
    + assert (HI1 : Inv (<[lb := OList ys]> h)).
      { apply Inv_insert; auto. simpl. intros p Hin.
        destruct (HI lb (OList (y :: ys)) p Hlb) as [? ?]; [by right|].
        split; auto. }
      apply Hset in H as (HI2 & Hfr & Hda); auto.
      2:{ by rewrite list_lookup_insert_ne. }
      split; auto. split; [|intros _; exact Hda].
      intros p Qp Hp _ Hpb. rewrite Hfr by done.
      rewrite list_lookup_insert_ne; auto. congruence.
    + destruct (h !! la) as [[xs|]|] eqn:Hla; try discriminate.
      assert (a <> la) by congruence.
      injection H as <-. split; [|split].
      * apply Inv_insert; auto. simpl. intros p Hin.
        apply in_app_or in Hin as [Hin|Hin].
        -- destruct (HI la (OList xs) p Hla Hin). split; auto.
        -- destruct (HI lb (OList (y :: ys)) p Hlb Hin) as [? ?].
           split; auto. intros Qp. exfalso. apply Rlb. auto.
      * intros p Qp Hp Hpa _. rewrite list_lookup_insert_ne; auto. congruence.
      * intros _. exists da. split; auto. by rewrite list_lookup_insert_ne.
  - destruct (is_dict h va && is_dict h vb) eqn:Hdd.
    + destruct va as [| | | |pa]; try discriminate.
      destruct (Hva' pa eq_refl) as [Rpa Qpa].
      assert (Hb' : forall pb', vb = VRef pb' -> ~ R pb').
      { intros pb' ->. by destruct (Hvb' pb' eq_refl). }
      destruct (Hrec _ _ _ _ H HI Rpa Hb') as [HI' Hfr].
      split; auto. split.
      * intros p Qp Hp Hpa _. apply Hfr; auto. congruence.
      * intros Qa. exists da. split; auto. rewrite Hfr; auto.
        intros ->. apply Rpa. auto.
    + destruct (py_eq va vb).
      * injection H as <-. split; auto. split; auto. intros _. eauto.
      * apply Hset in H as (? & ? & Hda); auto.
Qed.

Lemma merge_key_frame rec :
  frame_ok rec ->
  forall a pb key h h',
    merge_key rec a pb key h = Ok h' -> Inv h -> ~ R a -> ~ R pb ->
    Inv h' /\ (forall p, Q p -> p <> a -> h' !! p = h !! p).
Proof.
  intros Hrec a pb key h h' H HI Ra Rb.
  destruct (h !! a) as [[l|da]|] eqn:Ha;
    try (unfold merge_key in H; rewrite Ha in H; discriminate).
  destruct (h !! pb) as [[l|db]|] eqn:Hb;
    try (unfold merge_key in H; rewrite Ha, Hb in H; discriminate).
  destruct (merge_key_gen rec Hrec _ _ _ _ _ _ _ H HI Ha Hb) as (HI' & Hfr & _).
  { tauto. }
  split; auto. intros p Qp Hp. apply Hfr; auto.
  - intros Hg. apply dict_get_In in Hg.
    destruct (HI a (ODict da) p Ha Hg). tauto.
  - intros Hg. apply dict_get_In in Hg.
    destruct (HI pb (ODict db) p Hb Hg). tauto.
Qed.

Lemma merge_loop_frame rec :
  frame_ok rec ->
  forall a pb n0 ks h h',
    merge_loop rec a pb n0 ks h = Ok h' -> Inv h -> ~ R a -> ~ R pb ->
    Inv h' /\ (forall p, Q p -> p <> a -> h' !! p = h !! p).
Proof.
  intros Hrec a pb n0 ks. induction ks as [|k ks IH]; intros h h' H HI Ra Rb.
  - simpl in H. destruct (h !! pb) as [[|db]|]; try discriminate.
    destruct (negb _); try discriminate. injection H as <-. auto.
  - simpl in H. destruct (h !! pb) as [[|db]|]; try discriminate.
    destruct (negb _); try discriminate.
    destruct (merge_key rec a pb k h) as [h1| | |] eqn:Hk; try discriminate.
    simpl in H.
    eapply merge_key_frame in Hk as [HI1 Hfr1]; eauto.
    apply IH in H as [HI2 Hfr2]; auto. split; auto.
    intros p Qp Hp. rewrite Hfr2, Hfr1; auto.
Qed.

Lemma dict_merge_frame lim : frame_ok (dict_merge lim).
Proof.
  induction lim as [|lim IH]; intros a b h h' H HI Ra Rb; simpl in H.
  - discriminate.
  - destruct b as [| | |s|pb]; try discriminate.
    + destruct s; try discriminate. injection H as <-. auto.
    + destruct (h !! pb) as [[[|v l]|db]|] eqn:Hb; try discriminate.
      * injection H as <-. auto.
      * destruct v; discriminate.
      * eapply merge_loop_frame in H; eauto.
Qed.

End Frame.

(** ** A key that holds a list on both sides

    [a] and [b] are dictionaries that no cell refers to; [a[x]] is the
    list [la] and [b[x]] the list [lb], and no other cell and no other
    key refers to either list.  This is the situation of two separate
    documents. *)

Definition sentinel_first (ys : list val) : bool :=
  match ys with
  | y :: _ => py_eq y (VStr "^")
  | [] => false
  end.

Section ListKey.

Variables (lim : nat) (a pb la lb : addr) (x : string).
Variable db : list (string * val).

Definition is_root (p : addr) : Prop := p = a \/ p = pb.
Definition is_owned (p : addr) : Prop := is_root p \/ p = la \/ p = lb.

Definition only_at_x (d : list (string * val)) : Prop :=
  forall k, k <> x ->
    dict_get k d <> Some (VRef la) /\ dict_get k d <> Some (VRef lb).

(** Two separate documents that share the key [x]. *)
Definition separate (h : heap) (da : list (string * val)) : Prop :=
  Inv is_owned is_root h /\ only_at_x da /\ only_at_x db /\ a <> pb.

Definition tracked (ca cb : list val) (l : addr) (h : heap) : Prop :=
  Inv is_owned is_root h /\ h !! pb = Some (ODict db) /\
  h !! la = Some (OList ca) /\ h !! lb = Some (OList cb) /\
  exists da, h !! a = Some (ODict da) /\
             dict_get x da = Some (VRef l) /\ only_at_x da.

Hypothesis Hab : a <> pb.
Hypothesis Hdb : only_at_x db.

Lemma tracked_step ca cb l h h' k :
  k <> x -> tracked ca cb l h ->
  merge_key (dict_merge lim) a pb k h = Ok h' -> tracked ca cb l h'.
Proof.
  intros Hk (HI & Hpb & Hla & Hlb & da & Ha & Hx & Hda) H.
  destruct (merge_key_gen is_owned is_root _
              (dict_merge_frame is_owned is_root lim)
              _ _ _ _ _ _ _ H HI Ha Hpb) as (HI' & Hfr & Hda').
  { intros _. by left. }
  destruct Hda' as (da' & Ha' & Hkk & Hoth); [by left; left|].
  assert (Hnr : forall d q p, h !! q = Some (ODict d) -> is_root p ->
                  forall k0, dict_get k0 d <> Some (VRef p)).
  { intros d q p Hq Hp k0 Hg. apply dict_get_In in Hg.
    destruct (HI q (ODict d) p Hq Hg). tauto. }
  assert (Hfr' : forall p, is_owned p -> p <> a -> h' !! p = h !! p).
  { intros p Hp Hpa. apply Hfr; auto.
    - destruct Hp as [Hp|[->| ->]]; [by eapply Hnr|apply Hda|apply Hda]; auto.
    - destruct Hp as [Hp|[->| ->]]; [by eapply Hnr|apply Hdb|apply Hdb]; auto. }
  split; auto. split; [|split; [|split]].
  - rewrite (Hfr' pb); [done|by left; right|auto].
  - rewrite (Hfr' la); [done|by right; left|congruence].
  - rewrite (Hfr' lb); [done|by right; right|congruence].
  - exists da'. split; auto. split.
    + rewrite Hoth; auto.
    + intros k0 Hk0. destruct (decide (k0 = k)) as [->|Hne].
      * destruct Hkk as [-> | ->]; [apply Hda|apply Hdb]; auto.
      * rewrite Hoth; auto.
Qed.

Lemma tracked_loop ca cb l n0 ks :
  ~ In x ks -> forall h h',
  tracked ca cb l h ->
  merge_loop (dict_merge lim) a pb n0 ks h = Ok h' -> tracked ca cb l h'.
Proof.
  induction ks as [|k ks IH]; intros Hx h h' HT H; simpl in H.
  - destruct (h !! pb) as [[|d]|]; try discriminate.
    destruct (negb _); try discriminate. by injection H as <-.
  - destruct (h !! pb) as [[|d]|]; try discriminate.
    destruct (negb _); try discriminate.
    destruct (merge_key _ a pb k h) as [h1| | |] eqn:Hk; try discriminate.
    simpl in H. eapply IH; [| |exact H].
    + intros Hin. apply Hx. by right.
    + eapply tracked_step; eauto. intros ->. apply Hx. by left.
Qed.

(** The step for [x] itself. *)
Lemma tracked_at_x xs ys h h' :
  dict_get x db = Some (VRef lb) ->
  tracked xs ys la h ->
  merge_key (dict_merge lim) a pb x h = Ok h' ->
  match ys with
  | [] => False
  | y :: ys' =>
      if py_eq y (VStr "^")
      then exists ca, tracked ca ys' lb h'
      else exists cb, tracked (xs ++ ys) cb la h'
  end.
Proof.
  intros Hbx (HI & Hpb & Hla & Hlb & da & Ha & Hx & Hda) H.
  destruct (merge_key_gen is_owned is_root _
              (dict_merge_frame is_owned is_root lim)
              _ _ _ _ _ _ _ H HI Ha Hpb) as (HI' & _ & _).
  { intros _. by left. }
  unfold merge_key in H. rewrite Ha, Hpb, Hbx, Hx in H.
  unfold is_list in H. rewrite Hla, Hlb in H. simpl in H.
  destruct ys as [|y ys']; [discriminate|].
  assert (a <> la) by congruence. assert (a <> lb) by congruence.
  assert (pb <> la) by congruence. assert (pb <> lb) by congruence.
  assert (Hlen : forall p o, h !! p = Some o -> (p < List.length h)%nat).
  { intros p o Hp. by eapply lookup_lt_Some. }
  destruct (py_eq y (VStr "^")).
  - unfold set_item in H. rewrite list_lookup_insert_ne in H by done.
    rewrite Ha in H. injection H as <-.
    exists (if decide (la = lb) then ys' else xs).
    split; auto. split; [|split; [|split]].
    + by rewrite !list_lookup_insert_ne.
    + rewrite list_lookup_insert_ne by done.
      destruct (decide (la = lb)) as [->|Hne].
      * rewrite list_lookup_insert_eq; eauto.
      * by rewrite list_lookup_insert_ne.
    + rewrite list_lookup_insert_ne by done.
      rewrite list_lookup_insert_eq; eauto.
    + exists (dict_set x (VRef lb) da). split; [|split].
      * rewrite list_lookup_insert_eq; auto.
        rewrite length_insert. eauto.
      * apply dict_get_set_eq.
      * intros k Hk. rewrite dict_get_set_ne by auto. by apply Hda.
  - injection H as <-.
    exists (if decide (la = lb) then xs ++ y :: ys' else y :: ys').
    split; auto. split; [|split; [|split]].
    + by rewrite list_lookup_insert_ne.
    + rewrite list_lookup_insert_eq; eauto.
    + destruct (decide (la = lb)) as [<-|Hne].
      * rewrite list_lookup_insert_eq; eauto.
      * by rewrite list_lookup_insert_ne.
    + exists da. split; auto. by rewrite list_lookup_insert_ne.
Qed.

Lemma tracked_run xs ys n0 ks :
  dict_get x db = Some (VRef lb) ->
  NoDup ks -> In x ks -> forall h h',
  tracked xs ys la h ->
  merge_loop (dict_merge lim) a pb n0 ks h = Ok h' ->
  match ys with
  | [] => False
  | y :: ys' =>
      if py_eq y (VStr "^")
      then exists ca, tracked ca ys' lb h'
      else exists cb, tracked (xs ++ ys) cb la h'
  end.
Proof.
  intros Hbx. induction ks as [|k ks IH]; intros Hnd Hin h h' HT H.
  - destruct Hin.
  - simpl in H.
    destruct (h !! pb) as [[|d]|]; try discriminate.
    destruct (negb _); try discriminate.
    destruct (merge_key _ a pb k h) as [h1| | |] eqn:Hk; try discriminate.
    simpl in H. apply NoDup_cons in Hnd as [Hk' Hnd].
    destruct (decide (k = x)) as [->|Hne].
    + pose proof (tracked_at_x _ _ _ _ Hbx HT Hk) as Hx.
      assert (Hx' : ~ In x ks) by (by rewrite <- list_elem_of_In).
      destruct ys as [|y ys']; auto.
      destruct (py_eq y (VStr "^")); destruct Hx as [c Hc]; exists c;
        eapply tracked_loop; eauto.
    + eapply IH; [done| |eapply tracked_step; eauto|exact H].
      destruct Hin; congruence.
Qed.

End ListKey.

Lemma merge_list_key lim h h' a pb da db x la lb xs ys :
  h !! a = Some (ODict da) -> h !! pb = Some (ODict db) ->
  NoDup (keys db) ->
  dict_get x da = Some (VRef la) -> dict_get x db = Some (VRef lb) ->
  h !! la = Some (OList xs) -> h !! lb = Some (OList ys) ->
  separate a pb la lb x db h da ->
  dict_merge lim a (VRef pb) h = Ok h' ->
  match ys with
  | [] => False
  | y :: ys' =>
      exists da', h' !! a = Some (ODict da') /\
        if py_eq y (VStr "^")
        then dict_get x da' = Some (VRef lb) /\ h' !! lb = Some (OList ys')
        else dict_get x da' = Some (VRef la) /\
             h' !! la = Some (OList (xs ++ ys))
  end.
Proof.
  intros Ha Hb Hnd Hax Hbx Hla Hlb (HI & Hda & Hdb & Hab) H.
  destruct lim as [|lim]; [discriminate|]. simpl in H. rewrite Hb in H.
  assert (HT : tracked a pb la lb x db xs ys la h).
  { split; auto. split; auto. split; auto. split; auto. exists da. auto. }
  assert (Hin : In x (keys db)).
  { clear -Hbx. induction db as [|[k v] r IH]; simpl in *; [discriminate|].
    destruct (String.eqb x k) eqn:E; auto.
    apply String.eqb_eq in E. auto. }
  pose proof (tracked_run lim a pb la lb x db Hab Hdb xs ys _ _ Hbx Hnd Hin
                _ _ HT H) as Hr.
  destruct ys as [|y ys']; auto.
  destruct (py_eq y (VStr "^")).
  - destruct Hr as (ca & _ & _ & _ & Hlb' & da' & Ha' & Hx' & _). eauto.
  - destruct Hr as (cb & _ & _ & Hla' & _ & da' & Ha' & Hx' & _). eauto.
Qed.

Example merge_sentinel :
  merge_trees 10 (TDict [("x", str_list ["p"; "q"])])
                 (TDict [("x", str_list ["^"; "a"; "b"])])
  = Ok (Some (TDict [("x", str_list ["a"; "b"])])).
Proof. reflexivity. Qed.

Example merge_extend :
  merge_trees 10 (TDict [("x", str_list ["p"; "q"])])
                 (TDict [("x", str_list ["a"; "b"])])
  = Ok (Some (TDict [("x", str_list ["p"; "q"; "a"; "b"])])).
Proof. reflexivity. Qed.

Example merge_empty_list :
  merge_trees 10 (TDict [("x", str_list ["p"; "q"])])
                 (TDict [("x", str_list [])])
  = Raise IndexError.
Proof. reflexivity. Qed.

(** A store with two separate documents [{"x": [...]}]: cells 1 and 3
    are the dictionaries, cells 0 and 2 their lists. *)
Definition two_docs (xs ys : list val) : heap :=
  [OList xs; ODict [("x", VRef 0)]; OList ys; ODict [("x", VRef 2)]].

Lemma two_docs_separate xs ys :
  (forall p, ~ In (VRef p) xs) -> (forall p, ~ In (VRef p) ys) ->
  separate 1 3 0 2 "x" [("x", VRef 2)] (two_docs xs ys) [("x", VRef 0)].
Proof.
  intros Hxs Hys. split; [|split; [|split]].
  - intros q o p Hq Hin.
    destruct q as [|[|[|[|q]]]]; simpl in Hq; try discriminate;
      injection Hq as <-; simpl in Hin.
    + by apply Hxs in Hin.
    + destruct Hin as [[= <-]|[]]. unfold is_root, is_owned. split.
      * intros [?|?]; discriminate.
      * intros _. by left.
    + by apply Hys in Hin.
    + destruct Hin as [[= <-]|[]]. unfold is_root, is_owned. split.
      * intros [?|?]; discriminate.
      * intros _. by right.
  - intros k Hk. simpl. destruct (String.eqb k "x") eqn:E.
    + apply String.eqb_eq in E. congruence.
    + split; discriminate.
  - intros k Hk. simpl. destruct (String.eqb k "x") eqn:E.
    + apply String.eqb_eq in E. congruence.
    + split; discriminate.
  - discriminate.
Defined.

(** C3.  When two separate documents [a] and [b] hold a list under the
    same key [x] and [dict_merge(a, b)] returns, [a[x]] is [a]'s list
    extended with the elements of [b]'s list, unless the first element
    of [b]'s list is the sentinel ["^"]: then [a[x]] is [b]'s list with
    the sentinel removed.  Merging [{"x": ["^","a","b"]}] into
    [{"x": ["p","q"]}] gives [{"x": ["a","b"]}], and merging
    [{"x": ["a","b"]}] into it gives [{"x": ["p","q","a","b"]}]. *)
Theorem dict_merge_sequences :
  (forall lim h h' a pb da db x la lb xs ys,
     h !! a = Some (ODict da) -> h !! pb = Some (ODict db) ->
     NoDup (keys db) ->
     dict_get x da = Some (VRef la) -> dict_get x db = Some (VRef lb) ->
     h !! la = Some (OList xs) -> h !! lb = Some (OList ys) ->
     separate a pb la lb x db h da ->
     dict_merge lim a (VRef pb) h = Ok h' ->
     exists da', h' !! a = Some (ODict da') /\
       if sentinel_first ys
       then dict_get x da' = Some (VRef lb) /\
            h' !! lb = Some (OList (tail ys))
       else dict_get x da' = Some (VRef la) /\
            h' !! la = Some (OList (xs ++ ys)))
  /\ merge_trees 10 (TDict [("x", str_list ["p"; "q"])])
                    (TDict [("x", str_list ["^"; "a"; "b"])])
     = Ok (Some (TDict [("x", str_list ["a"; "b"])]))
  /\ merge_trees 10 (TDict [("x", str_list ["p"; "q"])])
                    (TDict [("x", str_list ["a"; "b"])])
     = Ok (Some (TDict [("x", str_list ["p"; "q"; "a"; "b"])])).
Proof.
  split; [|split; reflexivity].
  intros lim h h' a pb da db x la lb xs ys Ha Hb Hnd Hax Hbx Hla Hlb Hsep H.
  pose proof (merge_list_key _ _ _ _ _ _ _ _ _ _ _ _
                Ha Hb Hnd Hax Hbx Hla Hlb Hsep H) as Hr.
  destruct ys as [|y ys']; [destruct Hr|]. exact Hr.
Qed.

Lemma dict_merge_sequences_witness :
  let h := two_docs [VStr "p"; VStr "q"] [VStr "^"; VStr "a"; VStr "b"] in
  exists h' da',
    dict_merge 5 1 (VRef 3) h = Ok h' /\
    h' !! 1 = Some (ODict da') /\
    dict_get "x" da' = Some (VRef 2) /\
    h' !! 2 = Some (OList [VStr "a"; VStr "b"]).
Proof.
  intros h.
  destruct (proj1 dict_merge_sequences 5 h
              [OList [VStr "p"; VStr "q"]; ODict [("x", VRef 2)];
               OList [VStr "a"; VStr "b"]; ODict [("x", VRef 2)]]
              1 3 [("x", VRef 0)] [("x", VRef 2)] "x" 0 2
              [VStr "p"; VStr "q"] [VStr "^"; VStr "a"; VStr "b"])
    as (da' & Ha & Hx & Hl); try reflexivity.
  - repeat constructor. simpl. intros H. by apply elem_of_nil in H.
  - apply two_docs_separate; intros p Hin; simpl in Hin; intuition discriminate.
  - eexists _, da'. split; [reflexivity|]. auto.
Defined.

(** C10.  [dict_merge(a, b)] does not return when a key holds a list
    in [a] and the empty list in [b]: the test of the first element of
    [b]'s list for the sentinel fails.  For two separate documents no
    merge returns, and merging [{"x": []}] into [{"x": ["p","q"]}]
    raises [IndexError]. *)
Theorem dict_merge_empty_sequence_fails :
  (forall lim h a pb da db x la lb xs,
     h !! a = Some (ODict da) -> h !! pb = Some (ODict db) ->
     NoDup (keys db) ->
     dict_get x da = Some (VRef la) -> dict_get x db = Some (VRef lb) ->
     h !! la = Some (OList xs) -> h !! lb = Some (OList []) ->
     separate a pb la lb x db h da ->
     forall h', dict_merge lim a (VRef pb) h <> Ok h')
  /\ merge_trees 10 (TDict [("x", str_list ["p"; "q"])])
                    (TDict [("x", str_list [])])
     = Raise IndexError.
Proof.
  split; [|reflexivity].
  intros lim h a pb da db x la lb xs Ha Hb Hnd Hax Hbx Hla Hlb Hsep h' H.
  exact (merge_list_key _ _ _ _ _ _ _ _ _ _ _ _
           Ha Hb Hnd Hax Hbx Hla Hlb Hsep H).
Qed.

Lemma dict_merge_empty_sequence_fails_witness :
  ~ (exists h',
       dict_merge 5 1 (VRef 3) (two_docs [VStr "p"; VStr "q"] []) = Ok h').
Proof.
  intros [h' H]. revert H.
  apply (proj1 dict_merge_empty_sequence_fails 5
           (two_docs [VStr "p"; VStr "q"] [])
           1 3 [("x", VRef 0)] [("x", VRef 2)] "x" 0 2 [VStr "p"; VStr "q"]);
    try reflexivity.
  - repeat constructor. simpl. intros H. by apply elem_of_nil in H.
  - apply two_docs_separate; intros p Hin; simpl in Hin; intuition discriminate.
Defined.

(** ** Class and node files *)

Lemma lookup_snoc (h : heap) (o : obj) : (h ++ [o]) !! List.length h = Some o.
Proof. rewrite lookup_app_r by lia. by rewrite Nat.sub_diag. Qed.

(** C8.  When none of the three candidate files of a class exists, the
    class loader returns the empty document and logs a warning, and the
    expansion goes on: the class is recorded with an empty document. *)
Theorem get_class_missing os_walk render_yaml lim rec _class sd ec w :
  class_missing os_walk _class sd ->
  get_class os_walk render_yaml _class sd w
  = Ok (TDict [], warn w (_class +++ ": Class definition not found"))
  /\ (mem _class (w_seen w) = false ->
      expand_class os_walk render_yaml lim rec sd _class ec w
      = Ok (od_update ec [(_class, List.length (w_heap w))],
            {| w_heap := w_heap w ++ [ODict []];
               w_seen := w_seen w ++ [_class];
               w_log := w_log w ++
                          [_class +++ ": Class definition not found"] |})).
Proof.
  unfold class_missing.
  assert (Hg : forall w0,
    (let '(straight, sub_init, sub_straight) :=
       get_class_paths _class (sd_path sd) in
     let l_files := walk_files os_walk (path_join (sd_path sd) "classes") in
     mem straight l_files = false /\ mem sub_straight l_files = false /\
     mem sub_init l_files = false) ->
    get_class os_walk render_yaml _class sd w0
    = Ok (TDict [], warn w0 (_class +++ ": Class definition not found"))).
  { intros w0. unfold get_class.
    destruct (get_class_paths _class (sd_path sd)) as [[s1 s2] s3].
    intros (-> & -> & ->). reflexivity. }
  intros Hm. split; [by apply Hg|].
  intros Hseen. unfold expand_class. rewrite Hseen, Hg by done. simpl.
  unfold doc_get. rewrite lookup_snoc. simpl. rewrite lookup_snoc. simpl.
  reflexivity.
Qed.

Lemma get_class_missing_witness :
  get_class (fun _ => []) (fun _ _ _ => Raises KeyError) "web"
    {| sd_path := "/srv"; sd_pillar := 0; sd_minion_id := "n" |}
    {| w_heap := [ODict []]; w_seen := []; w_log := [] |}
  = Ok (TDict [],
        {| w_heap := [ODict []]; w_seen := [];
           w_log := ["web: Class definition not found"] |}).
Proof.
  apply (get_class_missing (fun _ => []) (fun _ _ _ => Raises KeyError) 0
           (fun _ w => Ok ([], w)) "web"
           {| sd_path := "/srv"; sd_pillar := 0; sd_minion_id := "n" |} []
           {| w_heap := [ODict []]; w_seen := []; w_log := [] |}).
  repeat split.
Defined.

Lemma last_cons_default {A} (x : A) l d :
  List.last (x :: l) d = List.last l x.
Proof.
  revert x d. induction l as [|y l IH]; intros x d; auto.
  change (List.last (y :: l) d = List.last (y :: l) x).
  by rewrite !IH.
Qed.

Lemma last_app_default {A} (l1 l2 : list A) d :
  List.last (l1 ++ l2) d = List.last l2 (List.last l1 d).
Proof.
  revert d. induction l1 as [|x l1 IH]; intros d; auto.
  change (List.last (x :: (l1 ++ l2)) d = List.last l2 (List.last (x :: l1) d)).
  by rewrite !last_cons_default, IH.
Qed.

Lemma fold_minion_file_last name root files acc :
  fold_left (fun _file minion_file =>
               if String.eqb minion_file name
               then path_join root minion_file else _file) files acc
  = List.last (map (path_join root)
                 (List.filter (fun f => String.eqb f name) files)) acc.
Proof.
  revert acc. induction files as [|f files IH]; intros acc; auto.
  cbn [fold_left List.filter]. rewrite IH.
  destruct (String.eqb f name); auto.
  cbn [map]. by rewrite last_cons_default.
Qed.

(** C9, as the code has it.  The node's document is the last file
    named [<minion_id>.yml] that the walk of [nodes/] meets; when there
    is none, no file is selected. *)
Theorem find_minion_file_last os_walk minion_id sd :
  find_minion_file os_walk minion_id sd
  = List.last (node_matches os_walk minion_id sd) "".
Proof.
  unfold find_minion_file, node_matches.
  set (name := minion_id +++ ".yml").
  generalize (os_walk (path_join (sd_path sd) "nodes")). intros l.
  assert (H : forall acc,
    fold_left
      (fun _file rf =>
         fold_left
           (fun _file minion_file =>
              if String.eqb minion_file name
              then path_join (fst rf) minion_file else _file)
           (snd rf) _file) l acc
    = List.last
        (flat_map
           (fun rf => map (path_join (fst rf))
                        (List.filter (fun f => String.eqb f name) (snd rf)))
           l) acc).
  { induction l as [|[root files] l IH]; intros acc; auto.
    cbn [fold_left flat_map fst snd].
    by rewrite IH, fold_minion_file_last, last_app_default. }
  apply H.
Qed.

(** With the same file name in two directories the first match is not
    the one selected. *)
Lemma find_minion_file_not_first :
  let os_walk := fun _ : string =>
    [("/srv/nodes/a", ["web.yml"]); ("/srv/nodes/b", ["web.yml"])] in
  let sd := {| sd_path := "/srv"; sd_pillar := 0; sd_minion_id := "web" |} in
  hd "" (node_matches os_walk "web" sd) = "/srv/nodes/a/web.yml" /\
  find_minion_file os_walk "web" sd = "/srv/nodes/b/web.yml" /\
  find_minion_file os_walk "web" sd <> hd "" (node_matches os_walk "web" sd).
Proof. repeat split. discriminate. Qed.

(** ** References that do not resolve *)

(** A reference whose path leaves the dictionaries at a missing key is
    returned as it is. *)
Lemma find_value_absent h x v :
  absent h x (split_colon (slice_2_m1 v)) ->
  find_value_to_expand h x v = Ok (VStr v).
Proof.
  unfold find_value_to_expand.
  generalize (split_colon (slice_2_m1 v)). intros segs Habs.
  induction Habs as [p d i r Hp Hi|i r|p d i a r Hp Hi Ha IH]; auto.
  - by rewrite Hp, Hi.
  - by rewrite Hp, Hi.
Qed.

Example find_value_missing_ex :
  find_value_to_expand [ODict [("c", VStr "${missing:key}")]] (VRef 0)
    "${missing:key}" = Ok (VStr "${missing:key}").
Proof. apply find_value_absent. by eapply absent_key. Qed.

(** C7, where the code departs from it.  When the path of a reference
    runs into a number the membership test raises [TypeError], and when
    it runs into a string that contains the next segment the call of
    [get] raises [AttributeError]: the reference is not left as it is. *)
Theorem find_value_through_scalar_raises :
  find_value_to_expand [ODict [("a", VInt 5); ("c", VStr "${a:b}")]]
    (VRef 0) "${a:b}" = Raise TypeError
  /\ expand_tree 10 (TDict [("a", TInt 5); ("c", TStr "${a:b}")])
     = Raise TypeError
  /\ expand_tree 10 (TDict [("a", TStr "abc"); ("c", TStr "${a:b}")])
     = Raise AttributeError.
Proof. repeat split. Qed.

(** ** What a replacement changes

    A replacement of [old] by [new] changes values only: a cell keeps
    its kind, its length and its keys, and a value either stays or
    goes from the string [old] to the string [new]. *)

Section Replaced.

Variables old new : string.

Definition keeps (v v' : val) : Prop :=
  v' = v \/ (v = VStr old /\ v' = VStr new).

Definition keeps_entry (kv kv' : string * val) : Prop :=
  fst kv' = fst kv /\ keeps (snd kv) (snd kv').

Definition mono_obj (o o' : obj) : Prop :=
  match o, o' with
  | OList l, OList l' => Forall2 keeps l l'
  | ODict d, ODict d' => Forall2 keeps_entry d d'
  | _, _ => False
  end.

Definition mono (h h' : heap) : Prop := Forall2 mono_obj h h'.

Lemma keeps_refl v : keeps v v.
Proof. by left. Qed.

Lemma keeps_trans v1 v2 v3 : keeps v1 v2 -> keeps v2 v3 -> keeps v1 v3.
Proof.
  unfold keeps. intros [->|[-> ->]] [->|[E ->]]; auto.
Qed.

Lemma Forall2_refl_of {A} (P : A -> A -> Prop) (l : list A) :
  (forall x, P x x) -> Forall2 P l l.
Proof. intros HP. induction l; constructor; auto. Qed.

Lemma Forall2_trans_of {A} (P : A -> A -> Prop) :
  (forall x y z, P x y -> P y z -> P x z) ->
  forall l1 l2 l3, Forall2 P l1 l2 -> Forall2 P l2 l3 -> Forall2 P l1 l3.
Proof.
  intros HP l1 l2 l3 H12. revert l3.
  induction H12; intros l3 H23; inversion H23; subst; constructor; eauto.
Qed.

Lemma keeps_entry_trans e1 e2 e3 :
  keeps_entry e1 e2 -> keeps_entry e2 e3 -> keeps_entry e1 e3.
Proof.
  intros [E1 K1] [E2 K2]. split; [congruence|by eapply keeps_trans].
Qed.

Lemma mono_obj_refl o : mono_obj o o.
Proof.
  destruct o; simpl; apply Forall2_refl_of.
  - apply keeps_refl.
  - intros x. split; auto. apply keeps_refl.
Qed.

Lemma mono_obj_trans o1 o2 o3 :
  mono_obj o1 o2 -> mono_obj o2 o3 -> mono_obj o1 o3.
Proof.
  destruct o1, o2, o3; simpl; try tauto.
  - apply Forall2_trans_of, keeps_trans.
  - apply Forall2_trans_of, keeps_entry_trans.
Qed.

Lemma mono_refl h : mono h h.
Proof. apply Forall2_refl_of, mono_obj_refl. Qed.

Lemma mono_trans h1 h2 h3 : mono h1 h2 -> mono h2 h3 -> mono h1 h3.
Proof. apply Forall2_trans_of, mono_obj_trans. Qed.

Lemma mono_lookup h h' p o :
  mono h h' -> h !! p = Some o ->
  exists o', h' !! p = Some o' /\ mono_obj o o'.
Proof. intros Hm Hp. by eapply Forall2_lookup_l in Hm. Qed.

Lemma mono_insert h p o o' :
  h !! p = Some o -> mono_obj o o' -> mono h (<[p := o']> h).
Proof.
  intros Hp Ho. unfold mono.
  rewrite <- (list_insert_id h p o) at 1 by done.
  apply Forall2_insert; auto. apply mono_refl.
Qed.

Lemma dict_mono_get d d' k v :
  Forall2 keeps_entry d d' -> dict_get k d = Some v ->
  exists v', dict_get k d' = Some v' /\ keeps v v'.
Proof.
  induction 1 as [|[k1 v1] [k2 v2] d d' [E K] _ IH]; simpl; [discriminate|].
  simpl in E, K. subst k2.
  destruct (String.eqb k k1); auto. intros [= <-]. eauto.
Qed.

Lemma dict_mono_keys d d' : Forall2 keeps_entry d d' -> keys d' = keys d.
Proof.
  induction 1 as [|[k1 v1] [k2 v2] d d' [E K] _ IH]; simpl; auto.
  simpl in E. congruence.
Qed.

Lemma dict_set_mono d k :
  dict_get k d = Some (VStr old) ->
  Forall2 keeps_entry d (dict_set k (VStr new) d).
Proof.
  induction d as [|[k1 v1] d IH]; simpl; [discriminate|].
  destruct (String.eqb k k1).
  - intros [= ->]. constructor.
    + split; auto. by right.
    + apply Forall2_refl_of. intros x. split; auto. apply keeps_refl.
  - intros H. constructor; auto. split; auto. apply keeps_refl.
Qed.

Lemma list_set_mono (l : list val) x :
  l !! x = Some (VStr old) -> Forall2 keeps l (<[x := VStr new]> l).
Proof.
  intros Hx. rewrite <- (list_insert_id l x (VStr old)) at 1 by done.
  apply Forall2_insert; [|by right].
  apply Forall2_refl_of, keeps_refl.
Qed.

Lemma holds_mono h h' pl v :
  mono h h' -> holds h pl v -> exists v', holds h' pl v' /\ keeps v v'.
Proof.
  intros Hm. destruct pl as [c k|l i]; simpl.
  - intros (dd & Hc & Hk).
    destruct (mono_lookup _ _ _ _ Hm Hc) as ([|dd'] & Hc' & Ho);
      simpl in Ho; [tauto|].
    destruct (dict_mono_get _ _ _ _ Ho Hk) as (v' & Hk' & Hv). eauto.
  - intros (items & Hl & Hi).
    destruct (mono_lookup _ _ _ _ Hm Hl) as ([items'|] & Hl' & Ho);
      simpl in Ho; [|tauto].
    destruct (Forall2_lookup_l _ _ _ _ _ Ho Hi) as (v' & Hi' & Hv). eauto.
Qed.

Lemma holds_new_mono h h' pl :
  mono h h' -> holds h pl (VStr new) -> holds h' pl (VStr new).
Proof.
  intros Hm H. destruct (holds_mono _ _ _ _ Hm H) as (v' & H' & [->|[_ ->]]);
    auto.
Qed.

Lemma holds_ref_mono h h' pl p :
  mono h h' -> holds h pl (VRef p) -> holds h' pl (VRef p).
Proof.
  intros Hm H. destruct (holds_mono _ _ _ _ Hm H) as (v' & H' & [->|[E _]]);
    [auto|discriminate].
Qed.

Lemma is_dict_mono h h' v : mono h h' -> is_dict h' v = is_dict h v.
Proof.
  intros Hm. destruct v as [| | | |p]; auto. simpl.
  destruct (h !! p) as [o|] eqn:Hp.
  - destruct (mono_lookup _ _ _ _ Hm Hp) as (o' & -> & Ho).
    destruct o, o'; simpl in Ho; tauto.
  - assert (h' !! p = None) as ->; auto.
    apply lookup_ge_None. apply lookup_ge_None in Hp.
    by rewrite <- (Forall2_length _ _ _ Hm).
Qed.

Lemma is_list_mono h h' v : mono h h' -> is_list h' v = is_list h v.
Proof.
  intros Hm. destruct v as [| | | |p]; auto. simpl.
  destruct (h !! p) as [o|] eqn:Hp.
  - destruct (mono_lookup _ _ _ _ Hm Hp) as (o' & -> & Ho).
    destruct o, o'; simpl in Ho; tauto.
  - assert (h' !! p = None) as ->; auto.
    apply lookup_ge_None. apply lookup_ge_None in Hp.
    by rewrite <- (Forall2_length _ _ _ Hm).
Qed.

Lemma child_mono h h' c c' : mono h h' -> child h c c' -> child h' c c'.
Proof.
  intros Hm [dd k Hc Hk Hd|dd k l items i Hc Hk Hl Hi Hd].
  - destruct (holds_ref_mono h h' (AtKey c k) c' Hm) as (dd' & Hc' & Hk');
      [simpl; eauto|].
    eapply child_value; eauto. by rewrite (is_dict_mono h h').
  - destruct (holds_ref_mono h h' (AtKey c k) l Hm) as (dd' & Hc' & Hk');
      [simpl; eauto|].
    destruct (holds_ref_mono h h' (AtIndex l i) c' Hm) as (it' & Hl' & Hi');
      [simpl; eauto|].
    eapply child_item; eauto. by rewrite (is_dict_mono h h').
Qed.

Lemma enters_mono h h' c c' :
  mono h h' -> rtc (child h) c c' -> rtc (child h') c c'.
Proof.
  intros Hm. induction 1; [constructor|].
  eapply rtc_l; eauto. by eapply child_mono.
Qed.

Lemma reached_mono h h' d pl : mono h h' -> reached h d pl -> reached h' d pl.
Proof.
  intros Hm [c k Hr|c dd k l i Hr Hc Hk].
  - constructor. by eapply enters_mono.
  - destruct (holds_ref_mono h h' (AtKey c k) l Hm) as (dd' & Hc' & Hk');
      [simpl; eauto|].
    eapply reached_index; eauto. by eapply enters_mono.
Qed.

Lemma py_eq_str v : py_eq v (VStr old) = true -> v = VStr old.
Proof.
  destruct v; simpl; try discriminate.
  intros H. apply String.eqb_eq in H. by subst.
Qed.

End Replaced.

Section ReplaceCorrect.

Variables old new : string.

#[local] Abbreviation mono := (mono old new).

Definition replace_ok (rec : addr -> heap -> res heap) : Prop :=
  forall c h h', rec c h = Ok h' ->
    mono h h' /\
    forall pl, reached h c pl -> holds h pl (VStr old) ->
               holds h' pl (VStr new).

Lemma holds_old_mono h h' pl :
  mono h h' -> holds h pl (VStr old) ->
  holds h' pl (VStr old) \/ holds h' pl (VStr new).
Proof.
  intros Hm H.
  destruct (holds_mono _ _ _ _ _ _ Hm H) as (v' & H' & [->|[_ ->]]); auto.
Qed.

Lemma under_mono h h' d k pl : mono h h' -> under h d k pl -> under h' d k pl.
Proof.
  intros Hm Hu. destruct Hu as [|c' pl Hk Hd Hr|l i Hk|l i c' pl Hk Hi Hd Hr].
  - constructor.
  - eapply under_dict; eauto using holds_ref_mono, reached_mono.
    by rewrite (is_dict_mono old new h h').
  - eapply under_index; eauto using holds_ref_mono.
  - eapply under_item; eauto using holds_ref_mono, reached_mono.
    by rewrite (is_dict_mono old new h h').
Qed.

Lemma dict_get_In_keys {A} k (v : A) d : dict_get k d = Some v -> In k (keys d).
Proof.
  induction d as [|[k' v'] d IH]; simpl; [discriminate|].
  destruct (String.eqb k k') eqn:E; auto.
  apply String.eqb_eq in E. auto.
Qed.

Lemma reached_under h d dd pl v :
  h !! d = Some (ODict dd) -> reached h d pl -> holds h pl v ->
  exists k, In k (keys dd) /\ under h d k pl.
Proof.
  intros Hd [c k Hr|c dc k l i Hr Hc Hk] Hv.
  - apply rtc_inv in Hr as [<-|(c1 & Hch & Hr)].
    + destruct Hv as (dd' & Hd' & Hk). exists k. split; [|constructor].
      rewrite Hd in Hd'. injection Hd' as <-. by eapply dict_get_In_keys.
    + destruct Hch as [d1 k1 Hd1 Hk1 Hdc|d1 k1 l items i Hd1 Hk1 Hl Hi Hdc];
        rewrite Hd in Hd1; injection Hd1 as <-; exists k1;
        (split; [by eapply dict_get_In_keys|]).
      * eapply under_dict; simpl; eauto. by constructor.
      * eapply under_item; simpl; eauto. by constructor.
  - apply rtc_inv in Hr as [<-|(c1 & Hch & Hr)].
    + rewrite Hd in Hc. injection Hc as <-. exists k.
      split; [by eapply dict_get_In_keys|].
      eapply under_index; simpl; eauto.
    + destruct Hch as [d1 k1 Hd1 Hk1 Hdc|d1 k1 l1 items i1 Hd1 Hk1 Hl Hi Hdc];
        rewrite Hd in Hd1; injection Hd1 as <-; exists k1;
        (split; [by eapply dict_get_In_keys|]).
      * eapply under_dict; simpl; eauto. by eapply reached_index.
      * eapply under_item; simpl; eauto. by eapply reached_index.
Qed.

Lemma set_item_mono d k h h' :
  holds h (AtKey d k) (VStr old) \/ holds h (AtKey d k) (VStr new) ->
  set_item d k (VStr new) h = Ok h' ->
  mono h h' /\ holds h' (AtKey d k) (VStr new).
Proof.
  intros Hk H. unfold set_item in H.
  destruct (h !! d) as [[|dd]|] eqn:Hd; try discriminate. injection H as <-.
  assert (Hlt : (d < List.length h)%nat) by (by eapply lookup_lt_Some).
  split.
  - eapply mono_insert; eauto. simpl.
    destruct Hk as [(dd' & Hd' & Hk)|(dd' & Hd' & Hk)];
      rewrite Hd in Hd'; injection Hd' as <-.
    + by apply dict_set_mono.
    + clear -Hk. induction dd as [|[k1 v1] dd IH]; simpl in *; [discriminate|].
      destruct (String.eqb k k1).
      * injection Hk as ->. apply Forall2_refl_of.
        intros x. split; auto. apply keeps_refl.
      * constructor; auto. split; auto. apply keeps_refl.
  - simpl. eexists. split; [by apply list_lookup_insert_eq|].
    apply dict_get_set_eq.
Qed.

Lemma set_index_mono l x h h' :
  holds h (AtIndex l x) (VStr old) \/ holds h (AtIndex l x) (VStr new) ->
  set_index l x (VStr new) h = Ok h' ->
  mono h h' /\ holds h' (AtIndex l x) (VStr new).
Proof.
  intros Hk H. unfold set_index in H.
  destruct (h !! l) as [[items|]|] eqn:Hl; try discriminate. injection H as <-.
  assert (Hlt : (l < List.length h)%nat) by (by eapply lookup_lt_Some).
  split.
  - eapply mono_insert; eauto. simpl.
    destruct Hk as [(it' & Hl' & Hk)|(it' & Hl' & Hk)];
      rewrite Hl in Hl'; injection Hl' as <-.
    + by apply list_set_mono.
    + rewrite list_insert_id by done.
      apply Forall2_refl_of, keeps_refl.
  - simpl. eexists. split; [by apply list_lookup_insert_eq|].
    apply list_lookup_insert_eq.
    destruct Hk as [(it' & Hl' & Hk)|(it' & Hl' & Hk)];
      rewrite Hl in Hl'; injection Hl' as <-; by eapply lookup_lt_Some.
Qed.

Section WithRec.

Variable rec : addr -> heap -> res heap.
Hypothesis Hrec : replace_ok rec.

Lemma rec_if_dict_ok h v h' :
  rec_if_dict rec h v = Ok h' ->
  mono h h' /\
  forall c', v = VRef c' -> is_dict h v = true ->
    forall pl, reached h c' pl -> holds h pl (VStr old) ->
               holds h' pl (VStr new).
Proof.
  unfold rec_if_dict. destruct (is_dict h v) eqn:Hd.
  - destruct v as [| | | |p]; try discriminate. intros H.
    destruct (Hrec _ _ _ H) as [Hm Hp]. split; auto.
    intros c' [= <-] _. auto.
  - intros [= <-]. split; [apply mono_refl|]. discriminate.
Qed.

Lemma replace_in_list_ok n : forall x l h h' items,
  replace_in_list rec old new l x n h = Ok h' ->
  h !! l = Some (OList items) -> x + n = List.length items ->
  mono h h' /\
  (forall i, x <= i -> holds h (AtIndex l i) (VStr old) ->
             holds h' (AtIndex l i) (VStr new)) /\
  (forall i c' pl, x <= i -> holds h (AtIndex l i) (VRef c') ->
     is_dict h (VRef c') = true -> reached h c' pl ->
     holds h pl (VStr old) -> holds h' pl (VStr new)).
Proof.
  induction n as [|n IH]; intros x l h h' items H Hl Hn.
  - simpl in H. injection H as <-. split; [apply mono_refl|]. split.
    + intros i Hi (it & Hl' & Hv). rewrite Hl in Hl'. injection Hl' as <-.
      apply lookup_lt_Some in Hv. lia.
    + intros i c' pl Hi (it & Hl' & Hv). rewrite Hl in Hl'.
      injection Hl' as <-. apply lookup_lt_Some in Hv. lia.
  - simpl in H. rewrite Hl in H.
    destruct (items !! x) as [iv|] eqn:Hx.
    2:{ apply lookup_ge_None in Hx. lia. }
    destruct (rec_if_dict rec h iv) as [h1| | |] eqn:H1; try discriminate.
    simpl in H. apply rec_if_dict_ok in H1 as [Hm1 Hd1].
    set (st := match iv with
               | VStr s => if String.eqb s old
                           then set_index l x (VStr new) h1 else Ok h1
               | _ => Ok h1
               end) in H.
    destruct st as [h2| | |] eqn:H2; try discriminate. simpl in H.
    assert (Hx1 : holds h (AtIndex l x) iv) by (simpl; eauto).
    assert (Hm2 : mono h1 h2 /\
                  (iv = VStr old -> holds h2 (AtIndex l x) (VStr new))).
    { subst st. destruct iv as [| | |s|]; try (injection H2 as <-);
        try (split; [apply mono_refl|discriminate]).
      destruct (String.eqb s old) eqn:E.
      - apply String.eqb_eq in E. subst s.
        apply set_index_mono in H2 as [? ?]; auto.
        by eapply holds_old_mono.
      - injection H2 as <-. split; [apply mono_refl|].
        intros [= ->]. by rewrite String.eqb_refl in E. }
    destruct Hm2 as [Hm2 Hx2].
    assert (Hm : mono h h2) by (by eapply mono_trans).
    destruct (mono_lookup _ _ _ _ _ _ Hm Hl) as ([items2|] & Hl2 & Ho);
      simpl in Ho; [|tauto].
    assert (Hlen : List.length items2 = List.length items).
    { symmetry. by eapply Forall2_length. }
    destruct (IH (S x) l h2 h' items2 H Hl2) as (Hm3 & Hi3 & Hc3); [lia|].
    split; [by eapply mono_trans|]. split.
    + intros i Hi Hv. destruct (decide (i = x)) as [->|Hne].
      * eapply holds_new_mono; eauto. apply Hx2.
        destruct Hv as (it & Hl' & Hv). rewrite Hl in Hl'.
        injection Hl' as <-. congruence.
      * destruct (holds_old_mono _ _ _ Hm Hv) as [Hv2|Hv2].
        -- apply Hi3; auto. lia.
        -- by eapply holds_new_mono.
    + intros i c' pl Hi Hv Hd Hr Hp. destruct (decide (i = x)) as [->|Hne].
      * eapply (holds_new_mono old new h1);
          [exact (mono_trans _ _ _ _ _ Hm2 Hm3)|].
        assert (Hiv : iv = VRef c').
        { destruct Hv as (it & Hl' & Hv). rewrite Hl in Hl'.
          injection Hl' as <-. congruence. }
        subst iv. eapply Hd1; eauto.
      * destruct (holds_old_mono _ _ _ Hm Hp) as [Hp2|Hp2].
        -- eapply (Hc3 i c' pl); eauto using holds_ref_mono, reached_mono.
           ++ lia.
           ++ by rewrite (is_dict_mono old new h h2).
        -- by eapply holds_new_mono.
Qed.

Lemma holds_inj h pl v w : holds h pl v -> holds h pl w -> v = w.
Proof.
  destruct pl; simpl; intros (x1 & H1 & E1) (x2 & H2 & E2);
    rewrite H1 in H2; injection H2 as <-; congruence.
Qed.

Lemma holds_index_is_list h l i v w :
  holds h (AtIndex l i) v -> w = VRef l -> is_list h w = true.
Proof. intros (items & Hl & _) ->. simpl. by rewrite Hl. Qed.

Lemma replace_loop_ok ks : forall d h h',
  replace_loop rec old new d ks h = Ok h' ->
  mono h h' /\
  forall k pl, In k ks -> under h d k pl -> holds h pl (VStr old) ->
               holds h' pl (VStr new).
Proof.
  induction ks as [|k ks IH]; intros d h h' H.
  - injection H as <-. split; [apply mono_refl|]. intros k pl [].
  - simpl in H.
    destruct (h !! d) as [[|dd]|] eqn:Hd; try discriminate.
    destruct (dict_get k dd) as [v|] eqn:Hk; try discriminate.
    assert (Hv : holds h (AtKey d k) v) by (simpl; eauto).
    destruct (rec_if_dict rec h v) as [h1| | |] eqn:H1; try discriminate.
    simpl in H. apply rec_if_dict_ok in H1 as [Hm1 Hd1].
    set (lst := if is_list h v
                then match v with
                     | VRef p =>
                         match h1 !! p with
                         | Some (OList l) =>
                             replace_in_list rec old new p 0 (List.length l) h1
                         | _ => Beyond
                         end
                     | _ => Beyond
                     end
                else Ok h1) in H.
    destruct lst as [h2| | |] eqn:H2; try discriminate. simpl in H.
    assert (Hm2 : mono h1 h2 /\
      forall l, v = VRef l -> is_list h v = true ->
        (forall i, holds h1 (AtIndex l i) (VStr old) ->
                   holds h2 (AtIndex l i) (VStr new)) /\
        (forall i c' pl, holds h1 (AtIndex l i) (VRef c') ->
           is_dict h1 (VRef c') = true -> reached h1 c' pl ->
           holds h1 pl (VStr old) -> holds h2 pl (VStr new))).
    { subst lst. destruct (is_list h v) eqn:Hl.
      - destruct v as [| | | |p]; try discriminate.
        destruct (h1 !! p) as [[items|]|] eqn:Hp; try discriminate.
        eapply replace_in_list_ok in H2 as (Ha & Hb & Hc); eauto.
        split; auto. intros l [= <-] _. split.
        + intros i. apply Hb. lia.
        + intros i c' pl. apply Hc. lia.
      - injection H2 as <-. split; [apply mono_refl|]. discriminate. }
    destruct Hm2 as [Hm2 Hl2].
    assert (Hm12 : mono h h2) by (by eapply mono_trans).
    set (st := if py_eq v (VStr old)
               then set_item d k (VStr new) h2 else Ok h2) in H.
    destruct st as [h3| | |] eqn:H3; try discriminate. simpl in H.
    assert (Hm3 : mono h2 h3 /\
                  (v = VStr old -> holds h3 (AtKey d k) (VStr new))).
    { subst st. destruct (py_eq v (VStr old)) eqn:E.
      - apply py_eq_str in E. subst v.
        apply set_item_mono in H3 as [? ?]; auto.
        by eapply holds_old_mono.
      - injection H3 as <-. split; [apply mono_refl|].
        intros ->. simpl in E. by rewrite String.eqb_refl in E. }
    destruct Hm3 as [Hm3 Hk3].
    assert (Hm13 : mono h h3) by (by eapply mono_trans).
    destruct (IH _ _ _ H) as [Hm4 Hks].
    assert (Hm24 : mono h2 h') by (by eapply mono_trans).
    assert (Hm14 : mono h1 h') by (by eapply mono_trans).
    split; [by eapply mono_trans|].
    intros k0 pl Hin Hu Hp. destruct (decide (k0 = k)) as [->|Hne].
    + destruct Hu as [|c' pl Hkc Hdc Hr|l i Hkl|l i c' pl Hkl Hi Hdc Hr].
      * eapply holds_new_mono; [exact Hm4|]. apply Hk3.
        by eapply holds_inj.
      * eapply holds_new_mono; [exact Hm14|].
        eapply Hd1; eauto using holds_inj.
        rewrite (holds_inj _ _ _ _ Hv Hkc). done.
      * pose proof (holds_inj _ _ _ _ Hv Hkl) as Ev.
        destruct (Hl2 l Ev) as [Hb _];
          [by eapply holds_index_is_list|].
        destruct (holds_old_mono _ _ _ Hm1 Hp) as [Hp1|Hp1].
        -- eapply holds_new_mono; [exact Hm24|]. by apply Hb.
        -- by eapply holds_new_mono.
      * pose proof (holds_inj _ _ _ _ Hv Hkl) as Ev.
        destruct (Hl2 l Ev) as [_ Hc];
          [by eapply holds_index_is_list|].
        destruct (holds_old_mono _ _ _ Hm1 Hp) as [Hp1|Hp1].
        -- eapply holds_new_mono; [exact Hm24|].
           eapply (Hc i c' pl); eauto using holds_ref_mono, reached_mono.
           by rewrite (is_dict_mono old new h h1).
        -- by eapply holds_new_mono.
    + destruct Hin as [?|Hin]; [congruence|].
      destruct (holds_old_mono _ _ _ Hm13 Hp) as [Hp3|Hp3].
      * eapply Hks; eauto using under_mono.
      * eapply holds_new_mono; [exact Hm4|done].
Qed.

End WithRec.

Lemma dict_search_and_replace_ok lim :
  replace_ok (dict_search_and_replace lim old new).
Proof.
  induction lim as [|lim IH]; intros d h h' H; simpl in H; [discriminate|].
  destruct (h !! d) as [[|dd]|] eqn:Hd; try discriminate.
  destruct (replace_loop_ok _ IH _ _ _ _ H) as [Hm Hks]. split; auto.
  intros pl Hr Hp.
  destruct (reached_under _ _ _ _ _ Hd Hr Hp) as (k & Hin & Hu). eauto.
Qed.

End ReplaceCorrect.

(** ** The matches of a string, one after the other *)

(** The matches [ms] of the string [S] taken in turn from the store
    [h]: each token is resolved in the store as it then stands, the
    string computed so far gets the resolved string for every
    occurrence of the token, and the search puts the new string where
    it finds the old one.  [S'] and [h'] are the string and the store
    after the last match. *)
Inductive in_turn (lim : nat) (b : addr)
  : list string -> string -> heap -> string -> heap -> Prop :=
| in_turn_nil S h : in_turn lim b [] S h S h
| in_turn_cons m ms S h e h1 S' h' :
    find_value_to_expand h (VRef b) (token_of m) = Ok (VStr e) ->
    dict_search_and_replace lim S (str_replace S (token_of m) e) b h
    = Ok h1 ->
    in_turn lim b ms (str_replace S (token_of m) e) h1 S' h' ->
    in_turn lim b (m :: ms) S h S' h'.

(** One match that is not escaped; a match that begins with [$] takes
    the string from [v] when [v] is a string. *)
Lemma process_match_turn lim b m S v h S1 v1 h1 :
  startswith m "\" = false ->
  (startswith m "$" = true -> forall s, v = VStr s -> s = S) ->
  process_match lim b m (S, v) h = Ok (S1, v1, h1) ->
  exists e,
    find_value_to_expand h (VRef b) (token_of m) = Ok (VStr e) /\
    S1 = str_replace S (token_of m) e /\
    dict_search_and_replace lim S S1 b h = Ok h1.
Proof.
  intros Hesc Hv H. unfold process_match in H. rewrite Hesc in H.
  unfold token_of. destruct (startswith m "$") eqn:Hd; simpl negb in H;
    cbv iota in H.
  - destruct (find_value_to_expand h (VRef b) m) as [[| | |e|]| | |];
      try discriminate.
    cbn [rbind] in H.
    assert (Hnew : match v with
                   | VStr vs => str_replace vs m e
                   | _ => str_replace S m e
                   end = str_replace S m e).
    { destruct v as [| | |vs|]; auto. by rewrite (Hv eq_refl vs). }
    rewrite Hnew in H.
    destruct (dict_search_and_replace lim S _ b h) as [h2| | |] eqn:Hs;
      try discriminate.
    injection H as <- _ <-. eauto.
  - destruct (find_value_to_expand h (VRef b) (drop1 m)) as [[| | |e|]| | |];
      try discriminate.
    cbn [rbind] in H.
    destruct (dict_search_and_replace lim S _ b h) as [h2| | |] eqn:Hs;
      try discriminate.
    injection H as <- _ <-. eauto.
Qed.

Lemma process_matches_in_turn lim b : forall ms S v h h',
  Forall (fun m => startswith m "\" = false /\ startswith m "$" = false) ms ->
  process_matches lim b ms (S, v) h = Ok h' ->
  exists S', in_turn lim b ms S h S' h'.
Proof.
  induction ms as [|m ms IH]; intros S v h h' Hms H.
  - injection H as <-. exists S. constructor.
  - apply Forall_cons in Hms as [[Hesc Hd] Hms]. cbn [process_matches] in H.
    destruct (process_match lim b m (S, v) h) as [[[S1 v1] h1]| | |] eqn:Hm;
      try discriminate.
    cbn [rbind fst snd] in H.
    destruct (process_match_turn _ _ _ _ _ _ _ _ _ Hesc
                ltac:(congruence) Hm) as (e & He & -> & Hs).
    destruct (IH _ _ _ _ Hms H) as (S' & Hturn).
    exists S'. by eapply in_turn_cons.
Qed.

(** What the matches taken in turn do to the places that held the
    string. *)
Lemma in_turn_places lim b ms S h S' h' :
  in_turn lim b ms S h S' h' ->
  forall pl, reached h b pl -> holds h pl (VStr S) -> holds h' pl (VStr S').
Proof.
  induction 1 as [S h|m ms S h e h1 S' h' He Hs Hturn IH]; [done|].
  intros pl Hr Hp.
  destruct (dict_search_and_replace_ok _ _ lim _ _ _ Hs) as [Hmono Hnew].
  apply IH; [by eapply reached_mono|by apply Hnew].
Qed.

(** C6, as the code has it.  [find_and_process_re] gets the string
    [_str] together with [v], which the expander takes to be [_str]
    itself or the list that holds it.  When no match of the pattern in
    [_str] is escaped and none after the first begins with [$], and the
    call returns, the matches were taken in turn, each token resolved
    to a string in the store as it then stood, and every place that
    the replacement reaches from the root and that held [_str] holds
    the string computed last.  The places reached are the keys of the
    dictionaries that the replacement enters and the items of the lists
    these hold, so two keys that hold the same unresolved string are
    updated together. *)
Theorem expansion_replaces_reached_occurrences lim _str v b h h' m ms :
  find_and_process_re lim _str v b h = Ok h' ->
  (forall s, v = VStr s -> s = _str) ->
  finditer _str = m :: ms ->
  startswith m "\" = false ->
  Forall (fun m' => startswith m' "\" = false /\ startswith m' "$" = false)
    ms ->
  exists S',
    in_turn lim b (m :: ms) _str h S' h' /\
    forall pl, reached h b pl -> holds h pl (VStr _str) ->
               holds h' pl (VStr S').
Proof.
  intros H Hv Hfind Hesc Hms. unfold find_and_process_re in H.
  rewrite Hfind in H. cbn [process_matches] in H.
  destruct (process_match lim b m (_str, v) h) as [[[S1 v1] h1]| | |] eqn:Hm;
    try discriminate.
  cbn [rbind fst snd] in H.
  destruct (process_match_turn _ _ _ _ _ _ _ _ _ Hesc (fun _ => Hv) Hm)
    as (e & He & -> & Hs).
  destruct (process_matches_in_turn _ _ _ _ _ _ _ Hms H) as (S' & Hturn).
  assert (Hall : in_turn lim b (m :: ms) _str h S' h')
    by (by eapply in_turn_cons).
  exists S'. split; [done|]. exact (in_turn_places _ _ _ _ _ _ _ Hall).
Qed.

Lemma expansion_replaces_reached_occurrences_witness :
  let h := [ODict [("a", VStr "v"); ("b", VStr "w");
                   ("x", VStr "${a}-${b}"); ("y", VStr "${a}-${b}")]] in
  exists h',
    find_and_process_re 5 "${a}-${b}" (VStr "${a}-${b}") 0 h = Ok h' /\
    holds h' (AtKey 0 "x") (VStr "v-w") /\
    holds h' (AtKey 0 "y") (VStr "v-w") /\
    exists S',
      in_turn 5 0 ["${a}"; "-${b}"] "${a}-${b}" h S' h' /\
      forall pl, reached h 0 pl -> holds h pl (VStr "${a}-${b}") ->
                 holds h' pl (VStr S').
Proof.
  intros h. eexists. split; [reflexivity|].
  split; [simpl; eauto|]. split; [simpl; eauto|].
  apply (expansion_replaces_reached_occurrences 5 "${a}-${b}"
           (VStr "${a}-${b}") 0 h _ "${a}" ["-${b}"]).
  - reflexivity.
  - by intros s [= <-].
  - reflexivity.
  - reflexivity.
  - apply Forall_cons. split; [split; reflexivity|by apply Forall_nil].
Defined.

(** The claim as it is written fails at these trees.  A string in a
    list that is itself an item of a list is not reached: the
    occurrence under [y] keeps the unresolved string while the one
    under [x] is expanded.  After a match that does not begin with [$],
    a match that does is computed from the string as it was passed in,
    so a token that resolves stays in the result.  After an escaped
    match, the string that the search looks for is no longer in the
    tree, so a later token that resolves is not replaced.  A token that
    resolves to a number stops the expansion. *)
Lemma expansion_misses_nested_list :
  expand_tree 10
    (TDict [("a", TStr "v"); ("x", TStr "${a}");
            ("y", TList [TList [TStr "${a}"]])])
  = Ok (Some (TDict [("a", TStr "v"); ("x", TStr "v");
                     ("y", TList [TList [TStr "${a}"]])]))
  /\ expand_tree 10
       (TDict [("{a", TStr "Q"); ("a", TStr "A"); ("c", TStr "x${a}$${a}")])
     = Ok (Some (TDict [("{a", TStr "Q"); ("a", TStr "A");
                        ("c", TStr "x${a}Q")]))
  /\ expand_tree 10 (TDict [("b", TStr "w"); ("c", TStr "\${a} ${b}")])
     = Ok (Some (TDict [("b", TStr "w"); ("c", TStr "${a} ${b}")]))
  /\ expand_tree 10 (TDict [("a", TInt 5); ("c", TStr "${a}")])
     = Raise TypeError.
Proof. repeat split. Qed.

(** ** The order of the expansion *)

Lemma mem_In x l : mem x l = true <-> In x l.
Proof.
  unfold mem. rewrite existsb_exists. split.
  - intros (y & Hy & E). apply String.eqb_eq in E. by subst.
  - intros H. exists x. split; auto. apply String.eqb_refl.
Qed.

Lemma mem_not_In x l : mem x l = false <-> ~ In x l.
Proof.
  rewrite <- mem_In. destruct (mem x l); split; auto; try discriminate.
  intros H. by destruct H.
Qed.

Lemma dict_set_notin {A} k (v : A) d :
  ~ In k (keys d) -> dict_set k v d = d ++ [(k, v)].
Proof.
  induction d as [|[k' v'] d IH]; simpl; auto. intros H.
  destruct (String.eqb k k') eqn:E.
  - apply String.eqb_eq in E. subst. tauto.
  - rewrite IH; auto.
Qed.

Lemma keys_dict_set {A} k (v : A) d :
  keys (dict_set k v d) = if mem k (keys d) then keys d else keys d ++ [k].
Proof.
  induction d as [|[k' v'] d IH]; simpl; auto.
  destruct (String.eqb k k') eqn:E; simpl; auto.
  rewrite IH. unfold mem. by destruct (existsb _ _).
Qed.

Lemma keys_app {A} (d e : list (string * A)) : keys (d ++ e) = keys d ++ keys e.
Proof. apply map_app. Qed.

Lemma od_update_disjoint {A} (e : list (string * A)) : forall d,
  NoDup (keys e) -> (forall k, In k (keys e) -> ~ In k (keys d)) ->
  od_update d e = d ++ e.
Proof.
  unfold od_update. induction e as [|[k v] e IH]; intros d Hnd Hdis; simpl.
  - by rewrite app_nil_r.
  - simpl in Hnd. apply NoDup_cons in Hnd as [Hk Hnd].
    rewrite dict_set_notin by (apply Hdis; by left).
    rewrite IH; auto.
    + by rewrite <- app_assoc.
    + intros k' Hk' Hin. rewrite keys_app in Hin.
      apply in_app_or in Hin as [Hin|[<-|[]]].
      * eapply Hdis; eauto. by right.
      * apply Hk. by apply list_elem_of_In.
Qed.

Lemma od_move_to_end_head {A} k (v : A) n :
  ~ In k (keys n) -> od_move_to_end k ((k, v) :: n) = n ++ [(k, v)].
Proof.
  intros Hk. unfold od_move_to_end. simpl. rewrite !String.eqb_refl. simpl.
  f_equal. induction n as [|[k' v'] n IH]; simpl; auto.
  simpl in Hk. destruct (String.eqb k' k) eqn:E.
  - apply String.eqb_eq in E. subst. tauto.
  - simpl. f_equal. apply IH. tauto.
Qed.

Lemma keys_od_update_subset {A} (e d : list (string * A)) k :
  In k (keys (od_update d e)) -> In k (keys d) \/ In k (keys e).
Proof.
  unfold od_update. revert d. induction e as [|[k1 v1] e IH]; intros d; simpl.
  - auto.
  - intros H. apply IH in H as [H|H]; auto.
    rewrite keys_dict_set in H. destruct (mem k1 (keys d)); auto.
    apply in_app_or in H as [H|[<-|[]]]; auto.
Qed.

(** ** Dictionaries do not shrink *)

Lemma grows_refl h : grows h h.
Proof. intros p d Hp. eauto. Qed.

Lemma grows_trans h1 h2 h3 : grows h1 h2 -> grows h2 h3 -> grows h1 h3.
Proof.
  intros H12 H23 p d Hp.
  destruct (H12 p d Hp) as (d2 & Hp2 & Hd2).
  destruct (H23 p d2 Hp2) as (d3 & Hp3 & Hd3). eauto.
Qed.

Lemma grows_app h new : grows h (h ++ new).
Proof. intros p d Hp. exists d. split; auto. by apply lookup_app_l_Some. Qed.

Lemma grows_insert_list h l xs ys :
  h !! l = Some (OList xs) -> grows h (<[l := OList ys]> h).
Proof.
  intros Hl p d Hp. exists d. split; auto.
  rewrite list_lookup_insert_ne; auto. congruence.
Qed.

Lemma dict_set_nonempty {A} k (v : A) d : dict_set k v d <> [].
Proof. destruct d as [|[k' v'] d]; simpl; [|destruct (String.eqb k k')]; done. Qed.

Lemma set_item_grows a k v h h' : set_item a k v h = Ok h' -> grows h h'.
Proof.
  unfold set_item. destruct (h !! a) as [[|da]|] eqn:Ha; try discriminate.
  intros [= <-] p d Hp. destruct (decide (p = a)) as [->|Hne].
  - eexists. split.
    + apply list_lookup_insert_eq. by eapply lookup_lt_Some.
    + intros _. apply dict_set_nonempty.
  - exists d. split; auto. by rewrite list_lookup_insert_ne.
Qed.

Lemma merge_key_grows rec a pb k h h' :
  (forall a b h h', rec a b h = Ok h' -> grows h h') ->
  merge_key rec a pb k h = Ok h' -> grows h h'.
Proof.
  intros Hrec H. unfold merge_key in H.
  destruct (h !! a) as [[|da]|]; try discriminate.
  destruct (h !! pb) as [[|db]|]; try discriminate.
  destruct (dict_get k db) as [vb|]; try discriminate.
  destruct (dict_get k da) as [va|]; [|by eapply set_item_grows].
  destruct (is_list h va && is_list h vb).
  - destruct va as [| | | |la]; try discriminate.
    destruct vb as [| | | |lb]; try discriminate.
    destruct (h !! lb) as [[[|y ys]|]|] eqn:Hlb; try discriminate.
    destruct (py_eq y (VStr "^")).
    + eapply grows_trans; [by eapply grows_insert_list|].
      by eapply set_item_grows.
    + destruct (h !! la) as [[xs|]|] eqn:Hla; try discriminate.
      injection H as <-. by eapply grows_insert_list.
  - destruct (is_dict h va && is_dict h vb).
    + destruct va; try discriminate. eauto.
    + destruct (py_eq va vb); [injection H as <-; apply grows_refl|].
      by eapply set_item_grows.
Qed.

Lemma merge_loop_grows rec a pb n0 ks : forall h h',
  (forall a b h h', rec a b h = Ok h' -> grows h h') ->
  merge_loop rec a pb n0 ks h = Ok h' -> grows h h'.
Proof.
  induction ks as [|k ks IH]; intros h h' Hrec H; simpl in H;
    destruct (h !! pb) as [[|]|]; try discriminate;
    destruct (negb _); try discriminate.
  - injection H as <-. apply grows_refl.
  - destruct (merge_key rec a pb k h) as [h1| | |] eqn:Hk; try discriminate.
    simpl in H. eapply grows_trans; [by eapply merge_key_grows|eauto].
Qed.

Lemma dict_merge_grows lim : forall a b h h',
  dict_merge lim a b h = Ok h' -> grows h h'.
Proof.
  induction lim as [|lim IH]; intros a b h h' H; simpl in H; [discriminate|].
  destruct b as [| | |s|pb]; try discriminate.
  - destruct s; try discriminate. injection H as <-. apply grows_refl.
  - destruct (h !! pb) as [[[|[]]|]|]; try discriminate.
    + injection H as <-. apply grows_refl.
    + by eapply merge_loop_grows.
Qed.

Section TreeInd.

Variable P : tree -> Prop.
Hypothesis HNone : P TNone.
Hypothesis HBool : forall b, P (TBool b).
Hypothesis HInt : forall z, P (TInt z).
Hypothesis HStr : forall s, P (TStr s).
Hypothesis HList : forall l, Forall P l -> P (TList l).
Hypothesis HDict : forall d, Forall (fun kv => P (snd kv)) d -> P (TDict d).

Fixpoint tree_induction (t : tree) : P t :=
  match t with
  | TNone => HNone
  | TBool b => HBool b
  | TInt z => HInt z
  | TStr s => HStr s
  | TList l =>
      HList l ((fix go (l : list tree) : Forall P l :=
                  match l with
                  | [] => List.Forall_nil P
                  | x :: r =>
                      @List.Forall_cons _ P x r (tree_induction x) (go r)
                  end) l)
  | TDict d =>
      HDict d ((fix go (d : list (string * tree))
                  : Forall (fun kv => P (snd kv)) d :=
                  match d with
                  | [] => List.Forall_nil _
                  | (k, x) :: r =>
                      @List.Forall_cons _ (fun kv => P (snd kv)) (k, x) r
                        (tree_induction x) (go r)
                  end) d)
  end.

End TreeInd.

Lemma alloc_all_extends {A} (f : A -> heap -> val * heap) l :
  Forall (fun x => forall h v h', f x h = (v, h') ->
                                  exists new, h' = h ++ new) l ->
  forall h vs h', alloc_all f l h = (vs, h') -> exists new, h' = h ++ new.
Proof.
  induction 1 as [|x l Hx _ IH]; intros h vs h' H; simpl in H.
  - injection H as <- <-. exists []. by rewrite app_nil_r.
  - destruct (f x h) as [v h1] eqn:Hf.
    destruct (alloc_all f l h1) as [vs1 h2] eqn:Hl. injection H as <- <-.
    destruct (Hx _ _ _ Hf) as (n1 & ->). destruct (IH _ _ _ Hl) as (n2 & ->).
    exists (n1 ++ n2). by rewrite app_assoc.
Qed.

Lemma alloc_extends t : forall h v h',
  alloc t h = (v, h') -> exists new, h' = h ++ new.
Proof.
  induction t as [|b|z|s|l IH|d IH] using tree_induction;
    intros h v h' H; simpl in H;
    try (injection H as <- <-; exists []; by rewrite app_nil_r).
  - destruct (alloc_all alloc l h) as [vs h1] eqn:Hl. injection H as <- <-.
    destruct (alloc_all_extends _ _ IH _ _ _ Hl) as (n & ->).
    exists (n ++ [OList vs]). by rewrite app_assoc.
  - destruct (alloc_all _ d h) as [vs h1] eqn:Hl. injection H as <- <-.
    destruct (alloc_all_extends _ _ IH _ _ _ Hl) as (n & ->).
    eexists (n ++ [_]). by rewrite app_assoc.
Qed.

Lemma alloc_grows t h v h' : alloc t h = (v, h') -> grows h h'.
Proof. intros H. apply alloc_extends in H as (n & ->). apply grows_app. Qed.


(** ** Only the class expansion consumes fuel *)

Lemma set_item_fuel a k v h : set_item a k v h <> OutOfFuel.
Proof. unfold set_item. by destruct (h !! a) as [[|]|]. Qed.

Lemma merge_key_fuel rec a pb k h :
  (forall a b h, rec a b h <> OutOfFuel) ->
  merge_key rec a pb k h <> OutOfFuel.
Proof.
  intros Hrec. unfold merge_key.
  repeat match goal with
         | |- context [match ?x with _ => _ end] => destruct x
         end;
    try discriminate; auto using set_item_fuel.
Qed.

Lemma merge_loop_fuel rec a pb n0 ks : forall h,
  (forall a b h, rec a b h <> OutOfFuel) ->
  merge_loop rec a pb n0 ks h <> OutOfFuel.
Proof.
  induction ks as [|k ks IH]; intros h Hrec; simpl;
    destruct (h !! pb) as [[|]|]; try discriminate;
    destruct (negb _); try discriminate.
  pose proof (merge_key_fuel rec a pb k h Hrec).
  destruct (merge_key rec a pb k h); simpl; try discriminate; auto.
Qed.

Lemma dict_merge_fuel lim : forall a b h, dict_merge lim a b h <> OutOfFuel.
Proof.
  induction lim as [|lim IH]; intros a b h; simpl; [discriminate|].
  destruct b as [| | |s|pb]; try discriminate.
  - by destruct s.
  - destruct (h !! pb) as [[[|[]]|]|]; try discriminate.
    by apply merge_loop_fuel.
Qed.

Lemma iter_val_fuel h v : iter_val h v <> OutOfFuel.
Proof.
  unfold iter_val. destruct v; try discriminate.
  by destruct (h !! p) as [[|]|].
Qed.

Lemma unseen_see U seen k :
  In k U -> ~ In k seen -> unseen U (seen ++ [k]) < unseen U seen.
Proof.
  unfold unseen. induction U as [|u U IH]; intros Hin Hk; [destruct Hin|].
  destruct Hin as [->|Hin]; simpl.
  - assert (mem k (seen ++ [k]) = true) as ->.
    { apply mem_In, in_or_app. right. by left. }
    apply mem_not_In in Hk. rewrite Hk. simpl.
    clear. apply Nat.lt_succ_r. induction U as [|u U IH]; simpl; auto.
    destruct (mem u seen) eqn:E.
    + assert (mem u (seen ++ [k]) = true) as ->; auto.
      apply mem_In, in_or_app. left. by apply mem_In.
    + simpl. destruct (negb (mem u (seen ++ [k]))); simpl; lia.
  - specialize (IH Hin Hk). destruct (mem u seen) eqn:E.
    + assert (mem u (seen ++ [k]) = true) as ->; auto.
      apply mem_In, in_or_app. left. by apply mem_In.
    + simpl. destruct (negb (mem u (seen ++ [k]))); simpl; lia.
Qed.

Lemma unseen_app U seen added : unseen U (seen ++ added) <= unseen U seen.
Proof.
  unfold unseen. induction U as [|u U IH]; simpl; auto.
  destruct (mem u seen) eqn:E.
  - assert (mem u (seen ++ added) = true) as ->; auto.
    apply mem_In, in_or_app. left. by apply mem_In.
  - simpl. destruct (negb (mem u (seen ++ added))); simpl; lia.
Qed.

Lemma dedup_into_In l : forall acc x,
  In x (dedup_into acc l) -> In x acc \/ In x l.
Proof.
  induction l as [|y l IH]; intros acc x H; simpl in *; auto.
  apply IH in H as [H|H]; auto.
  destruct (mem y acc); auto.
  apply in_app_or in H as [H|[<-|[]]]; auto.
Qed.

Section Expansion.

Variable os_walk : string -> list (string * list string).
Variable glob : string -> list string.
Variable render_yaml : string -> salt_data -> heap -> outcome tree.
Variable lim : nat.

(** What a call of the expansion does to [seen_classes] and what it
    returns: the classes it adds to the list are exactly those of the
    entries it returns, and no class enters the list twice. *)
Definition expansion_ok
  (f : world -> res (list (string * addr) * world)) : Prop :=
  forall w ec w', f w = Ok (ec, w') -> NoDup (w_seen w) ->
    exists added, w_seen w' = w_seen w ++ added /\ NoDup (w_seen w') /\
                  Permutation (keys ec) added /\
                  grows (w_heap w) (w_heap w').

Lemma get_class_seen _class sd w t w' :
  get_class os_walk render_yaml _class sd w = Ok (t, w') ->
  w_seen w' = w_seen w /\ w_heap w' = w_heap w.
Proof.
  unfold get_class.
  destruct (get_class_paths _class (sd_path sd)) as [[s1 s2] s3].
  repeat match goal with
         | |- context [if ?b then _ else _] => destruct b
         | |- context [lift ?o] => destruct o; simpl
         end; intros [= <- <-]; auto.
Qed.

Lemma expand_class_ok rec sd klass ec0 w ec1 w1 :
  (forall cs, expansion_ok (rec cs)) ->
  expand_class os_walk render_yaml lim rec sd klass ec0 w = Ok (ec1, w1) ->
  NoDup (w_seen w) -> (forall k, In k (keys ec0) -> In k (w_seen w)) ->
  exists added ys,
    w_seen w1 = w_seen w ++ added /\ NoDup (w_seen w1) /\
    ec1 = ec0 ++ ys /\ Permutation (keys ys) added /\
    grows (w_heap w) (w_heap w1) /\
    (mem klass (w_seen w) = false ->
     exists d ns, ys = ns ++ [(klass, d)]).
Proof.
  intros Hrec H Hnd Hsub. unfold expand_class in H.
  destruct (mem klass (w_seen w)) eqn:Hseen.
  { injection H as <- <-. exists [], []. rewrite !app_nil_r.
    repeat split; auto using grows_refl. discriminate. }
  apply mem_not_In in Hseen.
  destruct (get_class _ _ klass sd (see w klass)) as [[t wg]| | |] eqn:Hg;
    try discriminate.
  apply get_class_seen in Hg as [Hgs Hgh]. simpl in Hgs, Hgh.
  cbv beta iota delta [rbind] in H.
  destruct (match t with TNone => TDict [] | _ => t end) as [| | | | |dd];
    try discriminate.
  destruct (alloc (TDict dd) (w_heap wg)) as [[| | | |d] h1] eqn:Ha;
    try discriminate.
  apply alloc_grows in Ha. rewrite Hgh in Ha.
  destruct (match doc_get h1 d "pillars" with
            | Some np => if truthy h1 np
                         then dict_merge lim (sd_pillar sd) np h1 else Ok h1
            | None => Ok h1
            end) as [h2| | |] eqn:Hmg; try discriminate.
  assert (Hg2 : grows (w_heap w) h2).
  { eapply grows_trans; [exact Ha|].
    destruct (doc_get h1 d "pillars") as [np|];
      [destruct (truthy h1 np)|];
      try (injection Hmg as <-; apply grows_refl).
    by eapply dict_merge_grows. }
  assert (Hnd1 : NoDup (w_seen w ++ [klass])).
  { apply NoDup_app. split; [done|]. split.
    - intros x Hx Hin. apply list_elem_of_In in Hx.
      apply list_elem_of_singleton in Hin. by subst.
    - apply NoDup_singleton. }
  destruct (doc_get h2 d "classes") as [cs|].
  - destruct (rec cs (with_heap wg h2)) as [[ns wn]| | |] eqn:Hr;
      try discriminate.
    simpl in H. injection H as <- <-.
    destruct (Hrec cs _ _ _ Hr) as (added & Hs & Hnd2 & Hperm & Hgr).
    { simpl. by rewrite Hgs. }
    simpl in Hs, Hgr. rewrite Hgs in Hs.
    assert (Hkn : forall k, In k (keys ns) -> ~ In k (w_seen w ++ [klass])).
    { intros k Hk Hin. rewrite Hs in Hnd2.
      apply NoDup_app in Hnd2 as (_ & Hdis & _).
      apply (Hdis k); apply list_elem_of_In; auto.
      eapply Permutation_in; eauto. }
    assert (Hndn : NoDup (keys ns)).
    { rewrite Hs in Hnd2. apply NoDup_app in Hnd2 as (_ & _ & Hnd2).
      by rewrite Hperm. }
    assert (Hu : od_update [(klass, d)] ns = (klass, d) :: ns).
    { rewrite od_update_disjoint; auto.
      intros k Hk [E|[]]. simpl in E. subst k.
      apply (Hkn klass Hk). apply in_or_app. right. by left. }
    rewrite Hu, od_move_to_end_head.
    2:{ intros Hk. apply (Hkn klass Hk). apply in_or_app. right. by left. }
    exists (klass :: added), (ns ++ [(klass, d)]).
    split; [by rewrite Hs, <- app_assoc|]. split; [done|].
    split; [|split; [|split]].
    + apply od_update_disjoint.
      * rewrite keys_app. simpl. apply NoDup_app. split; [done|]. split.
        -- intros x Hx Hin. apply list_elem_of_singleton in Hin. subst.
           apply list_elem_of_In in Hx. apply (Hkn klass Hx).
           apply in_or_app. right. by left.
        -- apply NoDup_singleton.
      * intros k Hk Hin. apply Hsub in Hin. rewrite keys_app in Hk.
        apply in_app_or in Hk as [Hk|[E|[]]].
        -- apply (Hkn k Hk). apply in_or_app. by left.
        -- simpl in E. by subst k.
    + rewrite keys_app. simpl. rewrite Hperm.
      symmetry. apply Permutation_cons_append.
    + by eapply grows_trans.
    + eauto.
  - injection H as <- <-. exists [klass], [(klass, d)].
    simpl. rewrite Hgs. split; [done|]. split; [done|].
    split; [|split; [|split]].
    + apply dict_set_notin. auto.
    + done.
    + done.
    + intros _. by exists d, [].
Qed.

Lemma expand_loop_classes_ok rec sd ks : forall ec0 w ec1 w1,
  (forall cs, expansion_ok (rec cs)) ->
  expand_loop_classes os_walk render_yaml lim rec sd ks ec0 w
  = Ok (ec1, w1) ->
  NoDup (w_seen w) -> (forall k, In k (keys ec0) -> In k (w_seen w)) ->
  exists added ys,
    w_seen w1 = w_seen w ++ added /\ NoDup (w_seen w1) /\
    ec1 = ec0 ++ ys /\ Permutation (keys ys) added /\
    grows (w_heap w) (w_heap w1).
Proof.
  induction ks as [|k ks IH]; intros ec0 w ec1 w1 Hrec H Hnd Hsub; simpl in H.
  - injection H as <- <-. exists [], []. rewrite !app_nil_r.
    repeat split; auto using grows_refl.
  - destruct (expand_class _ _ _ rec sd k ec0 w) as [[ec w2]| | |] eqn:Hc;
      try discriminate.
    simpl in H.
    destruct (expand_class_ok _ _ _ _ _ _ _ Hrec Hc Hnd Hsub)
      as (a1 & y1 & Hs1 & Hnd1 & -> & Hp1 & Hg1 & _).
    destruct (IH _ _ _ _ Hrec H Hnd1)
      as (a2 & y2 & Hs2 & Hnd2 & -> & Hp2 & Hg2).
    { intros k0 Hk0. rewrite keys_app in Hk0. rewrite Hs1.
      apply in_or_app. apply in_app_or in Hk0 as [Hk0|Hk0]; auto.
      right. eapply Permutation_in; eauto. }
    exists (a1 ++ a2), (y1 ++ y2). split; [by rewrite Hs2, Hs1, app_assoc|].
    split; [done|]. split; [by rewrite app_assoc|].
    split; [|by eapply grows_trans].
    rewrite keys_app. by apply Permutation_app.
Qed.

Lemma expand_classes_glob_seen l sd w x w' :
  expand_classes_glob glob l sd w = Ok (x, w') ->
  w_seen w' = w_seen w /\ w_heap w' = w_heap w.
Proof.
  unfold expand_classes_glob.
  assert (Hg : forall l w x w', glob_all glob l (sd_path sd) w = Ok (x, w') ->
                 w_seen w' = w_seen w /\ w_heap w' = w_heap w).
  { clear. induction l as [|c l IH]; intros w x w' H.
    - by injection H as <- <-.
    - cbn [glob_all] in H. destruct c as [| | |c|]; try discriminate.
      destruct (match_class_glob glob c (sd_path sd) w) as [m w1] eqn:Hm.
      destruct (glob_all glob l (sd_path sd) w1) as [[y w2]| | |] eqn:Hy;
        cbn [rbind fst snd] in H; try discriminate.
      injection H as <- <-.
      apply IH in Hy as [-> ->]. unfold match_class_glob in Hm.
      destruct (get_class_paths c (sd_path sd)) as [[s1 s2] s3].
      injection Hm as _ <-. by destruct (_ ++ _). }
  destruct (glob_all glob l (sd_path sd) w) as [[y w2]| | |] eqn:Hy;
    try discriminate.
  simpl. intros [= <- <-]. eauto.
Qed.

Lemma expand_classes_in_order_ok fuel : forall sd cte,
  expansion_ok
    (expand_classes_in_order os_walk glob render_yaml lim fuel sd None cte).
Proof.
  induction fuel as [|fuel IH]; intros sd cte w ec w' H Hnd;
    [discriminate|].
  cbn [expand_classes_in_order] in H.
  set (l := match match cte, @None val with
                  | None, Some c => Some c
                  | Some v, Some c => if truthy (w_heap w) v then Some v
                                      else Some c
                  | c, None => c
                  end with
            | Some v => iter_val (w_heap w) v
            | None => Ok []
            end) in H.
  destruct l as [l| | |]; try discriminate. cbn [rbind] in H.
  destruct (expand_classes_glob glob l sd w) as [[ks wg]| | |] eqn:Hg;
    try discriminate.
  apply expand_classes_glob_seen in Hg as [Hgs Hgh]. cbn [rbind fst snd] in H.
  destruct (expand_loop_classes _ _ _ _ sd ks [] wg) as [[y wy]| | |] eqn:Hl;
    try discriminate.
  cbn [rbind] in H. injection H as <- <-.
  destruct (expand_loop_classes_ok _ _ _ _ _ _ _ (fun cs => IH sd (Some cs)) Hl)
    as (added & ys & Hs & Hnd' & -> & Hp & Hgr).
  - by rewrite Hgs.
  - intros k [].
  - exists added. rewrite <- Hgs, <- Hgh. auto.
Qed.

Lemma rbind_fuel {A B} (r : res A) (f : A -> res B) :
  r <> OutOfFuel -> (forall x, r = Ok x -> f x <> OutOfFuel) ->
  rbind r f <> OutOfFuel.
Proof. destruct r; simpl; auto; discriminate. Qed.

Lemma get_class_fuel _class sd w :
  get_class os_walk render_yaml _class sd w <> OutOfFuel.
Proof.
  unfold get_class.
  destruct (get_class_paths _class (sd_path sd)) as [[s1 s2] s3].
  repeat match goal with
         | |- context [if ?b then _ else _] => destruct b
         | |- context [lift ?o] => destruct o; simpl
         end; discriminate.
Qed.

Section Universe.

(** A finite class universe: every class name that globbing can produce
    is in the list [U]. *)
Variable U : list string.
Variable sd : salt_data.
Hypothesis glob_in_U :
  forall pat m, In m (glob pat) -> In (get_class_from_file m (sd_path sd)) U.

Lemma glob_all_U l : forall w ks w',
  glob_all glob l (sd_path sd) w = Ok (ks, w') -> forall k, In k ks -> In k U.
Proof.
  induction l as [|c l IH]; intros w ks w' H k Hk.
  - injection H as <- <-. destruct Hk.
  - cbn [glob_all] in H. destruct c as [| | |c|]; try discriminate.
    destruct (match_class_glob glob c (sd_path sd) w) as [m w1] eqn:Hm.
    destruct (glob_all glob l (sd_path sd) w1) as [[y w2]| | |] eqn:Hy;
      cbn [rbind fst snd] in H; try discriminate.
    injection H as <- <-. apply in_app_or in Hk as [Hk|Hk]; [|by eapply IH].
    unfold match_class_glob in Hm.
    destruct (get_class_paths c (sd_path sd)) as [[s1 s2] s3].
    injection Hm as <- _. apply in_map_iff in Hk as (f & <- & Hf).
    apply in_app_or in Hf as [Hf|Hf]; [by eapply glob_in_U|].
    apply in_app_or in Hf as [Hf|Hf]; by eapply glob_in_U.
Qed.

Lemma expand_classes_glob_U l w ks w' :
  expand_classes_glob glob l sd w = Ok (ks, w') ->
  forall k, In k ks -> In k U.
Proof.
  unfold expand_classes_glob.
  destruct (glob_all glob l (sd_path sd) w) as [[y w2]| | |] eqn:Hy;
    try discriminate.
  cbn [rbind fst snd]. intros [= <- <-] k Hk.
  apply dedup_into_In in Hk as [[]|Hk]. by eapply glob_all_U.
Qed.

Lemma expand_classes_glob_fuel l w :
  expand_classes_glob glob l sd w <> OutOfFuel.
Proof.
  unfold expand_classes_glob. apply rbind_fuel; [|discriminate].
  revert w. induction l as [|c l IH]; intros w; [discriminate|].
  cbn [glob_all]. destruct c; try discriminate.
  destruct (match_class_glob glob s (sd_path sd) w) as [m w1].
  apply rbind_fuel; [apply IH|discriminate].
Qed.

Definition fuel_ok (n : nat)
  (rec : val -> world -> res (list (string * addr) * world)) : Prop :=
  forall cs w, NoDup (w_seen w) -> unseen U (w_seen w) < n ->
               rec cs w <> OutOfFuel.

Lemma expand_class_fuel n rec klass ec0 w :
  fuel_ok n rec -> In klass U -> NoDup (w_seen w) ->
  unseen U (w_seen w) <= n ->
  expand_class os_walk render_yaml lim rec sd klass ec0 w <> OutOfFuel.
Proof.
  intros Hrec HU Hnd Hn. unfold expand_class.
  destruct (mem klass (w_seen w)) eqn:Hseen; [discriminate|].
  apply mem_not_In in Hseen.
  apply rbind_fuel; [apply get_class_fuel|]. intros [t wg] Hg.
  apply get_class_seen in Hg as [Hgs Hgh]. simpl in Hgs.
  destruct (match t with TNone => TDict [] | _ => t end) as [| | | | |dd];
    try discriminate.
  destruct (alloc (TDict dd) (w_heap wg)) as [[| | | |d] h1];
    try discriminate.
  apply rbind_fuel.
  { destruct (doc_get h1 d "pillars") as [np|]; [|discriminate].
    destruct (truthy h1 np); [apply dict_merge_fuel|discriminate]. }
  intros h2 _. apply rbind_fuel; [|discriminate].
  destruct (doc_get h2 d "classes") as [cs|]; [|discriminate].
  apply rbind_fuel; [|discriminate]. apply Hrec; simpl; rewrite Hgs.
  - apply NoDup_app. split; [done|]. split; [|apply NoDup_singleton].
    intros x Hx Hin. apply list_elem_of_In in Hx.
    apply list_elem_of_singleton in Hin. by subst.
  - pose proof (unseen_see U (w_seen w) klass HU Hseen). lia.
Qed.

Lemma expand_loop_classes_fuel n rec ks : forall ec0 w,
  (forall cs, expansion_ok (rec cs)) -> fuel_ok n rec ->
  (forall k, In k ks -> In k U) ->
  NoDup (w_seen w) -> (forall k, In k (keys ec0) -> In k (w_seen w)) ->
  unseen U (w_seen w) <= n ->
  expand_loop_classes os_walk render_yaml lim rec sd ks ec0 w <> OutOfFuel.
Proof.
  induction ks as [|k ks IH]; intros ec0 w Hok Hrec HU Hnd Hsub Hn;
    [discriminate|].
  cbn [expand_loop_classes]. apply rbind_fuel.
  - apply (expand_class_fuel n); auto. apply HU. by left.
  - intros [ec1 w1] Hc. cbn [fst snd].
    destruct (expand_class_ok _ _ _ _ _ _ _ Hok Hc Hnd Hsub)
      as (a1 & y1 & Hs1 & Hnd1 & -> & Hp1 & _ & _).
    apply IH; auto.
    + intros k0 Hk0. apply HU. by right.
    + intros k0 Hk0. rewrite keys_app in Hk0. rewrite Hs1.
      apply in_or_app. apply in_app_or in Hk0 as [Hk0|Hk0]; auto.
      right. eapply Permutation_in; eauto.
    + rewrite Hs1. pose proof (unseen_app U (w_seen w) a1). lia.
Qed.

Lemma expand_classes_in_order_fuel fuel : forall md cte w,
  NoDup (w_seen w) -> unseen U (w_seen w) < fuel ->
  expand_classes_in_order os_walk glob render_yaml lim fuel sd md cte w
  <> OutOfFuel.
Proof.
  induction fuel as [|fuel IH]; intros md cte w Hnd Hn; [lia|].
  cbn [expand_classes_in_order].
  apply rbind_fuel.
  { destruct (match cte, match md with
                         | Some m => doc_get (w_heap w) m "classes"
                         | None => None
                         end with
              | None, Some c => Some c
              | Some v, Some c => if truthy (w_heap w) v then Some v
                                  else Some c
              | c, None => c
              end); [apply iter_val_fuel|discriminate]. }
  intros l _. apply rbind_fuel; [apply expand_classes_glob_fuel|].
  intros [ks wg] Hg. cbn [fst snd].
  pose proof (expand_classes_glob_U _ _ _ _ Hg) as HU.
  apply expand_classes_glob_seen in Hg as [Hgs Hgh].
  apply rbind_fuel.
  - apply (expand_loop_classes_fuel fuel); auto.
    + intros cs. apply expand_classes_in_order_ok.
    + intros cs w0 Hnd0 Hn0. by apply IH.
    + by rewrite Hgs.
    + intros k [].
    + rewrite Hgs. lia.
  - intros y _. destruct md as [m|]; [|discriminate].
    by destruct (truthy _ _).
Qed.

End Universe.

(** C4, as the code has it.  After the class list has been processed
    the node's document is added under the node id when it is not
    empty, and then it is the last entry provided the node id is not
    the name of a class that was expanded; every other entry is a class
    in [seen_classes].  For an empty node document no entry is added. *)
Theorem node_entry_last fuel sd m cte w ec w' :
  expand_classes_in_order os_walk glob render_yaml lim fuel sd (Some m) cte w
  = Ok (ec, w') ->
  NoDup (w_seen w) ->
  (truthy (w_heap w') (VRef m) = true ->
   ~ In (sd_minion_id sd) (w_seen w') ->
   exists ec', ec = ec' ++ [(sd_minion_id sd, m)] /\
               forall k, In k (keys ec') -> In k (w_seen w'))
  /\ (truthy (w_heap w') (VRef m) = false ->
      forall k, In k (keys ec) -> In k (w_seen w')).
Proof.
  intros H Hnd. destruct fuel as [|fuel]; [discriminate|].
  cbn [expand_classes_in_order] in H.
  set (l := match match cte, doc_get (w_heap w) m "classes" with
                  | None, Some c => Some c
                  | Some v, Some c => if truthy (w_heap w) v then Some v
                                      else Some c
                  | c, None => c
                  end with
            | Some v => iter_val (w_heap w) v
            | None => Ok []
            end) in H.
  destruct l as [l| | |]; try discriminate. cbn [rbind] in H.
  destruct (expand_classes_glob glob l sd w) as [[ks wg]| | |] eqn:Hg;
    try discriminate.
  apply expand_classes_glob_seen in Hg as [Hgs Hgh]. cbn [rbind fst snd] in H.
  destruct (expand_loop_classes _ _ _ _ sd ks [] wg) as [[y wy]| | |] eqn:Hl;
    try discriminate.
  cbn [rbind fst snd] in H.
  destruct (expand_loop_classes_ok _ _ _ _ _ _ _
              (fun cs => expand_classes_in_order_ok fuel sd (Some cs)) Hl)
    as (added & ys & Hs & Hnd' & -> & Hp & Hgr).
  { by rewrite Hgs. }
  { intros k []. }
  cbn [app fst snd] in H.
  assert (Hsub : forall k, In k (keys ys) -> In k (w_seen wy)).
  { intros k Hk. rewrite Hs. apply in_or_app. right.
    eapply Permutation_in; eauto. }
  destruct (truthy (w_heap wy) (VRef m)) eqn:Ht; injection H as <- <-.
  - split; [|by rewrite Ht]. intros _ Hid. exists ys. split; auto.
    unfold od_update. simpl. apply dict_set_notin. auto.
  - split; [by rewrite Ht|]. auto.
Qed.

Lemma merge_docs_fuel docs : forall pd st h,
  merge_docs lim pd docs st h <> OutOfFuel.
Proof.
  induction docs as [|d docs IH]; intros pd st h; [discriminate|].
  cbn [merge_docs]. apply rbind_fuel.
  { destruct (doc_get h d "pillars"); [apply dict_merge_fuel|discriminate]. }
  intros h1 _. apply rbind_fuel; [|intros; apply IH].
  destruct (doc_get h1 d "states"); [|discriminate].
  apply rbind_fuel; [apply iter_val_fuel|discriminate].
Qed.

Lemma dedup_states_fuel l : forall seen, dedup_states seen l <> OutOfFuel.
Proof.
  induction l as [|x l IH]; intros seen; [discriminate|].
  cbn [dedup_states]. destruct x; try discriminate;
    match goal with
    | |- context [existsb ?f ?l] => destruct (existsb f l)
    end; auto; (apply rbind_fuel; [apply IH|discriminate]).
Qed.

Lemma alloc_dict_root dd h node h1 :
  alloc (TDict dd) h = (VRef node, h1) ->
  exists d, h1 !! node = Some (ODict d) /\ keys d = keys dd.
Proof.
  simpl. destruct (alloc_all _ dd h) as [vs h0] eqn:Hl. intros [= <- <-].
  eexists. split; [apply lookup_snoc|].
  assert (Hlen : List.length vs = List.length dd).
  { clear -Hl. revert h vs h0 Hl.
    induction dd as [|kv dd IH]; intros h vs h0 Hl; simpl in Hl.
    - by injection Hl as <- <-.
    - destruct (alloc (snd kv) h) as [v h1].
      destruct (alloc_all _ dd h1) as [vs1 h2] eqn:Hl1.
      injection Hl as <- <-. simpl. f_equal. eauto. }
  unfold keys. clear -Hlen. revert vs Hlen.
  induction dd as [|[k t] dd IH]; intros [|v vs] Hlen; simpl in *;
    try discriminate; auto.
  f_equal. apply IH. lia.
Qed.

Lemma NoDup_removelast {A} (l : list A) : NoDup l -> NoDup (removelast l).
Proof.
  induction l as [|x l IH]; simpl; auto. intros Hnd.
  apply NoDup_cons in Hnd as [Hx Hnd]. destruct l as [|y l]; [constructor|].
  apply NoDup_cons. split; auto.
  intros Hin. apply Hx. apply list_elem_of_In in Hin. apply list_elem_of_In.
  clear -Hin. revert Hin. generalize (y :: l). intros l0.
  induction l0 as [|z l0 IH]; simpl; auto.
  destruct l0; [tauto|]. intros [?|?]; auto.
Qed.

Lemma In_removelast {A} (l : list A) x : In x (removelast l) -> In x l.
Proof.
  induction l as [|z l IH]; simpl; auto.
  destruct l; [tauto|]. intros [?|?]; auto.
Qed.

(** The classes of the top-level call. *)
Lemma expand_top fuel sd m w ec w' :
  expand_classes_in_order os_walk glob render_yaml lim fuel sd (Some m) None w
  = Ok (ec, w') ->
  NoDup (w_seen w) ->
  exists added ys,
    w_seen w' = w_seen w ++ added /\ NoDup (w_seen w') /\
    Permutation (keys ys) added /\ grows (w_heap w) (w_heap w') /\
    ec = (if truthy (w_heap w') (VRef m)
          then od_update ys [(sd_minion_id sd, m)] else ys) /\
    (doc_get (w_heap w) m "classes" = None -> ys = []).
Proof.
  intros H Hnd. destruct fuel as [|fuel]; [discriminate|].
  cbn [expand_classes_in_order] in H.
  destruct (doc_get (w_heap w) m "classes") as [c|] eqn:Hc.
  - destruct (iter_val (w_heap w) c) as [l| | |]; try discriminate.
    cbn [rbind] in H.
    destruct (expand_classes_glob glob l sd w) as [[ks wg]| | |] eqn:Hg;
      try discriminate.
    apply expand_classes_glob_seen in Hg as [Hgs Hgh].
    cbn [rbind fst snd] in H.
    destruct (expand_loop_classes _ _ _ _ sd ks [] wg) as [[y wy]| | |] eqn:Hl;
      try discriminate.
    cbn [rbind fst snd] in H.
    destruct (expand_loop_classes_ok _ _ _ _ _ _ _
                (fun cs => expand_classes_in_order_ok fuel sd (Some cs)) Hl)
      as (added & ys & Hs & Hnd' & -> & Hp & Hgr).
    { by rewrite Hgs. }
    { intros k []. }
    cbn [app] in H. exists added, ys. rewrite <- Hgs, <- Hgh.
    destruct (truthy (w_heap wy) (VRef m)) eqn:Ht; injection H as <- <-;
      rewrite Ht; repeat split; auto; discriminate.
  - cbn [rbind] in H.
    assert (Hg : expand_classes_glob glob [] sd w = Ok ([], w)) by done.
    rewrite Hg in H. cbn [rbind fst snd expand_loop_classes] in H.
    exists [], []. rewrite app_nil_r.
    destruct (truthy (w_heap w) (VRef m)) eqn:Ht; injection H as <- <-;
      rewrite Ht; repeat split; auto using grows_refl.
Qed.

Lemma keys_with_node ys id (m : addr) added seen' :
  Permutation (keys ys) added -> NoDup added ->
  (forall c, In c added -> In c seen') ->
  let cl := removelast (keys (od_update ys [(id, m)])) in
  NoDup cl /\ (forall c, In c cl -> In c seen') /\
  (~ In id added -> cl = keys ys).
Proof.
  intros Hp Hnd Hsub. unfold od_update. simpl. rewrite keys_dict_set.
  assert (Hndk : NoDup (keys ys)) by (by rewrite Hp).
  destruct (mem id (keys ys)) eqn:Hm.
  - split; [by apply NoDup_removelast|]. split.
    + intros c Hc. apply In_removelast in Hc. apply Hsub.
      eapply Permutation_in; eauto.
    + intros Hid. exfalso. apply Hid. apply mem_In in Hm.
      eapply Permutation_in; eauto.
  - rewrite removelast_last. split; [done|]. split; auto.
    intros c Hc. apply Hsub. eapply Permutation_in; eauto.
Qed.

Lemma unseen_nil U : unseen U [] <= List.length U.
Proof.
  unfold unseen. induction U as [|u U IH]; simpl in *; auto. lia.
Qed.

(** X3.  The class expansion of a node: with a finite class universe it
    ends, also when classes include each other; no class enters
    [seen_classes], and so none is loaded, twice; the classes list has
    no class twice and only loaded classes, and it has every loaded
    class when the node id is not itself the name of a loaded class. *)
Lemma class_expansion_once U fuel minion_id sd w :
  (forall pat m, In m (glob pat) ->
                 In (get_class_from_file m (sd_path sd)) U) ->
  (List.length U < fuel ->
   expanded_dict_from_minion os_walk glob render_yaml lim fuel minion_id sd w
   <> OutOfFuel)
  /\ forall e w',
       expanded_dict_from_minion os_walk glob render_yaml lim fuel
         minion_id sd w = Ok (e, w') ->
       NoDup (w_seen w') /\ NoDup (classes_list e) /\
       (forall c, In c (classes_list e) -> In c (w_seen w')) /\
       (~ In (sd_minion_id sd) (w_seen w') ->
        Permutation (classes_list e) (w_seen w')).
Proof.
  intros HU. unfold expanded_dict_from_minion. split.
  - intros Hfuel. apply rbind_fuel.
    { destruct (negb _); [|discriminate].
      destruct (render_yaml _ sd (w_heap w)); discriminate. }
    intros [t w1] _. destruct t as [| | | | |dd]; try discriminate.
    destruct (alloc (TDict dd) (w_heap w1)) as [[| | | |node] h1];
      try discriminate.
    destruct (match dict_get "pillars" dd with
              | Some p => alloc p h1
              | None => alloc (TDict []) h1
              end) as [np h2].
    apply rbind_fuel; [apply dict_merge_fuel|]. intros h3 _.
    apply rbind_fuel.
    { apply (expand_classes_in_order_fuel U sd HU); simpl.
      - constructor.
      - pose proof (unseen_nil U). lia. }
    intros [ec w2] _.
    destruct (halloc (ODict []) (w_heap w2)) as [pd h4].
    apply rbind_fuel; [apply merge_docs_fuel|]. intros z _.
    apply rbind_fuel; [apply dedup_states_fuel|discriminate].
  - intros e w' H.
    destruct (if negb (String.eqb (find_minion_file os_walk minion_id sd) "")
              then t <- lift (render_yaml _ sd (w_heap w)) ;; Ok (t, w)
              else Ok (TDict [], warn w _)) as [[t w1]| | |];
      try discriminate.
    cbn [rbind] in H. destruct t as [| | | | |dd]; try discriminate.
    destruct (alloc (TDict dd) (w_heap w1)) as [[| | | |node] h1] eqn:Ha;
      try discriminate.
    destruct (alloc_dict_root _ _ _ _ Ha) as (d1 & Hd1 & Hk1).
    destruct (match dict_get "pillars" dd with
              | Some p => alloc p h1
              | None => alloc (TDict []) h1
              end) as [np h2] eqn:Hnp.
    assert (Hg12 : grows h1 h2).
    { destruct (dict_get "pillars" dd); by eapply alloc_grows. }
    destruct (dict_merge lim (sd_pillar sd) np h2) as [h3| | |] eqn:Hm;
      try discriminate.
    apply dict_merge_grows in Hm. cbn [rbind] in H.
    destruct (expand_classes_in_order _ _ _ _ fuel sd (Some node) None _)
      as [[ec w2]| | |] eqn:He; try discriminate.
    cbn [rbind] in H.
    destruct (expand_top _ _ _ _ _ _ He) as
      (added & ys & Hs & Hnd & Hp & Hgr & Hec & Hys); [constructor|].
    simpl in Hs, Hgr, Hys.
    destruct (halloc (ODict []) (w_heap w2)) as [pd h4].
    destruct (merge_docs lim pd (map snd ec) [] h4) as [z| | |];
      try discriminate.
    cbn [rbind] in H.
    destruct (dedup_states [] (fst z)) as [sl| | |]; try discriminate.
    cbn [rbind] in H. injection H as <- <-. simpl.
    split; [done|]. rewrite Hs in *.
    destruct (Hg12 _ _ Hd1) as (d2 & Hd2 & Hne2).
    destruct (Hm _ _ Hd2) as (d3 & Hd3 & Hne3).
    destruct (Hgr _ _ Hd3) as (d4 & Hd4 & Hne4).
    destruct (truthy (w_heap w2) (VRef node)) eqn:Ht; subst ec.
    + destruct (keys_with_node ys (sd_minion_id sd) node added added Hp Hnd)
        as (Hc1 & Hc2 & Hc3); auto.
      split; [done|]. split; [done|].
      intros Hid. by rewrite Hc3.
    + assert (ys = []) as ->.
      { apply Hys. unfold doc_get. rewrite Hd3.
        simpl in Ht. rewrite Hd4 in Ht. destruct d4; [|discriminate].
        destruct d3; auto. by destruct Hne4. }
      apply Permutation_nil in Hp. simpl. rewrite Hp.
      split; [apply NoDup_nil_2|]. split; [intros c []|].
      intros _. apply perm_nil.
Qed.

End Expansion.

(** ** The final composition

    [F] is the dictionary [pillars_dict], [roots] are the documents of
    the expansion and [h0] is the store when the composition begins.
    A cell held by a document under a key is held by that document and
    that key only: the documents are separate. *)

Section Compose.

Variables (F : addr) (roots : list addr) (h0 : heap).

Definition is_doc_root (p : addr) : Prop := p = F \/ In p roots.

Definition held_by (r p : addr) : Prop :=
  exists d k, h0 !! r = Some (ODict d) /\ dict_get k d = Some (VRef p).

Definition held (p : addr) : Prop := exists r, In r roots /\ held_by r p.

Definition guarded (p : addr) : Prop := is_doc_root p \/ held p.

Definition one_holder : Prop :=
  forall r1 r2 d1 d2 k1 k2 p,
    In r1 roots -> In r2 roots ->
    h0 !! r1 = Some (ODict d1) -> h0 !! r2 = Some (ODict d2) ->
    dict_get k1 d1 = Some (VRef p) -> dict_get k2 d2 = Some (VRef p) ->
    r1 = r2 /\ k1 = k2.

(** The store while the documents [done] have been merged into [F]. *)
Definition composing (done : list addr) (h : heap) : Prop :=
  Inv guarded is_doc_root h /\
  (forall r, In r done -> In r roots) /\
  (forall r, In r roots -> h !! r = h0 !! r) /\
  (exists dF, h !! F = Some (ODict dF) /\
     forall k v, dict_get k dF = Some v ->
       exists r, In r done /\ doc_get h0 r k = Some v) /\
  (forall p, held p -> (forall r, In r done -> ~ held_by r p) ->
             h !! p = h0 !! p).

Hypothesis Hone : one_holder.
Hypothesis F_fresh : ~ In F roots.

Lemma composing_more done D h :
  In D roots -> composing done h -> composing (D :: done) h.
Proof.
  intros HD (HI & Hdn & Hr & (dF & HF & Hent) & Hun).
  split; [done|]. split; [|split; [done|split]].
  - intros r [<-|Hr']; auto.
  - exists dF. split; auto. intros k v Hk.
    destruct (Hent k v Hk) as (r & Hr' & Hv). exists r. split; auto. by right.
  - intros p Hp Hn. apply Hun; auto. intros r Hr'. apply Hn. by right.
Qed.

(** One key of the merge of the document [D] into [F]. *)
Lemma root_step lim dn D dD dF key h h' :
  composing dn h -> In D dn -> h0 !! D = Some (ODict dD) ->
  h !! F = Some (ODict dF) ->
  merge_key (dict_merge lim) F D key h = Ok h' ->
  composing dn h' /\
  (forall p, guarded p -> p <> F ->
     dict_get key dF <> Some (VRef p) -> dict_get key dD <> Some (VRef p) ->
     h' !! p = h !! p) /\
  (exists dF', h' !! F = Some (ODict dF') /\
     (dict_get key dF' = dict_get key dF \/
      dict_get key dF' = dict_get key dD) /\
     forall k', k' <> key -> dict_get k' dF' = dict_get k' dF).
Proof.
  intros (HI & Hdn & Hr & (dF0 & HF0 & Hent) & Hun) HD HdD HF H.
  rewrite HF in HF0. injection HF0 as <-.
  assert (HDr : In D roots) by auto.
  assert (HD' : h !! D = Some (ODict dD)) by (by rewrite Hr).
  destruct (merge_key_gen guarded is_doc_root _
              (dict_merge_frame guarded is_doc_root lim)
              _ _ _ _ _ _ _ H HI HF HD') as (HI' & Hfr & HdF').
  { intros _. by left. }
  destruct HdF' as (dF' & HF' & Hkey & Hoth); [by left; left|].
  assert (Hnoroot : forall q d k0 p, h !! q = Some (ODict d) ->
            dict_get k0 d = Some (VRef p) -> ~ is_doc_root p).
  { intros q d k0 p Hq Hg. apply dict_get_In in Hg.
    by destruct (HI q (ODict d) p Hq Hg). }
  split; [|split; [exact Hfr|eauto]].
  split; [done|]. split; [done|]. split; [|split].
  - intros r Hr'. rewrite <- Hr by done. apply Hfr.
    + left. by right.
    + intros ->. by apply F_fresh.
    + intros Hg. apply (Hnoroot F dF key r HF Hg). by right.
    + intros Hg. apply (Hnoroot D dD key r HD' Hg). by right.
  - exists dF'. split; auto. intros k0 v Hk0.
    destruct (decide (k0 = key)) as [->|Hne].
    + destruct Hkey as [E|E]; rewrite E in Hk0.
      * by apply Hent.
      * exists D. split; auto. unfold doc_get. by rewrite HdD.
    + rewrite Hoth in Hk0 by done. by apply Hent.
  - intros p Hp Hn. rewrite <- Hun by done. apply Hfr.
    + by right.
    + intros ->. destruct Hp as (r & Hr' & d & k0 & Hd & Hg).
      rewrite <- Hr in Hd by done.
      apply (Hnoroot r d k0 F Hd Hg). by left.
    + intros Hg. destruct (Hent _ _ Hg) as (r & Hr' & Hv).
      apply (Hn r Hr'). unfold doc_get in Hv.
      destruct (h0 !! r) as [[|d]|] eqn:Hd; try discriminate.
      by exists d, key.
    + intros Hg. apply (Hn D HD). by exists dD, key.
Qed.

(** *** The key [k] of the pillars *)

Variables (k : string) (s : val).
Hypothesis s_scalar : py_eq s s = true.

(** [F] holds a pillars dictionary whose value under [k] equals [s]. *)
Definition settled (h : heap) : Prop :=
  exists P dP v, doc_get h F "pillars" = Some (VRef P) /\
                 h !! P = Some (ODict dP) /\
                 dict_get k dP = Some v /\ py_eq v s = true.

Lemma scalar_not_container h : is_list h s = false /\ is_dict h s = false.
Proof. destruct s; auto. discriminate. Qed.

(** The step for a key under which [b] holds the scalar [s]. *)
Lemma scalar_step rec a pb key h h' da db :
  h !! a = Some (ODict da) -> h !! pb = Some (ODict db) ->
  dict_get key db = Some s ->
  merge_key rec a pb key h = Ok h' ->
  exists da' v, h' !! a = Some (ODict da') /\
    dict_get key da' = Some v /\ py_eq v s = true /\
    (forall p, p <> a -> h' !! p = h !! p).
Proof.
  intros Ha Hb Hs H. unfold merge_key in H. rewrite Ha, Hb, Hs in H.
  destruct (scalar_not_container h) as [Hl Hd].
  assert (Hset : forall h2, set_item a key s h = Ok h2 ->
            exists da' v, h2 !! a = Some (ODict da') /\
              dict_get key da' = Some v /\ py_eq v s = true /\
              (forall p, p <> a -> h2 !! p = h !! p)).
  { intros h2 H2. unfold set_item in H2. rewrite Ha in H2.
    injection H2 as <-. exists (dict_set key s da), s.
    split; [|split; [apply dict_get_set_eq|split; [done|]]].
    - apply list_lookup_insert_eq. by eapply lookup_lt_Some.
    - intros p Hp. by rewrite list_lookup_insert_ne. }
  destruct (dict_get key da) as [va|] eqn:Hva; [|by apply Hset].
  rewrite Hl, Hd, !andb_false_r in H.
  destruct (py_eq va s) eqn:E; [|by apply Hset].
  injection H as <-. exists da, va. auto.
Qed.

(** The merge of a pillars dictionary [Xp] into the pillars dictionary
    [P]; neither is a document. *)
Lemma nested_loop lim P Xp dXp n0 ks : forall h h' dP,
  Inv guarded is_doc_root h ->
  ~ is_doc_root P -> ~ is_doc_root Xp -> guarded P -> guarded Xp ->
  P <> Xp ->
  h !! P = Some (ODict dP) -> h !! Xp = Some (ODict dXp) ->
  (In k ks -> dict_get k dXp = Some s) ->
  (In k ks \/ exists v, dict_get k dP = Some v /\ py_eq v s = true) ->
  merge_loop (dict_merge lim) P Xp n0 ks h = Ok h' ->
  exists dP' v, h' !! P = Some (ODict dP') /\
                dict_get k dP' = Some v /\ py_eq v s = true.
Proof.
  induction ks as [|key ks IH];
    intros h h' dP HI RP RX GP GX Hne HP HX Hks Hst H; simpl in H;
    rewrite HX in H; destruct (negb _); try discriminate.
  - injection H as <-. destruct Hst as [[]|(v & Hv & Ev)]. eauto.
  - destruct (merge_key _ P Xp key h) as [h1| | |] eqn:Hk; try discriminate.
    simpl in H.
    destruct (merge_key_frame guarded is_doc_root _
                (dict_merge_frame guarded is_doc_root lim)
                _ _ _ _ _ Hk HI RP RX) as [HI1 Hfr1].
    assert (HX1 : h1 !! Xp = Some (ODict dXp)).
    { rewrite Hfr1; auto. }
    destruct (decide (key = k)) as [->|Hkk].
    + destruct (scalar_step _ _ _ _ _ _ _ _ HP HX (Hks (or_introl eq_refl)) Hk)
        as (dP1 & v1 & HP1 & Hv1 & Ev1 & _).
      eapply (IH h1 h' dP1); eauto.
      intros Hin. apply Hks. by right.
    + destruct (merge_key_gen guarded is_doc_root _
                  (dict_merge_frame guarded is_doc_root lim)
                  _ _ _ _ _ _ _ Hk HI HP HX) as (_ & _ & HdP).
      { tauto. }
      destruct (HdP GP) as (dP1 & HP1 & _ & Hoth).
      eapply (IH h1 h' dP1); eauto.
      * intros Hin. apply Hks. by right.
      * destruct Hst as [[?|Hin]|(v & Hv & Ev)]; [congruence|by left|].
        right. exists v. split; auto. rewrite Hoth; auto.
Qed.

Lemma dict_get_keys_None {A} key (d : list (string * A)) :
  dict_get key d = None -> ~ In key (keys d).
Proof.
  induction d as [|[k' v'] d IH]; simpl; auto.
  destruct (String.eqb key k') eqn:E; [discriminate|].
  apply String.eqb_neq in E. intros H [?|?]; [congruence|]. by apply IH.
Qed.

Lemma nested_merge lim P Xp dP dXp h h' :
  Inv guarded is_doc_root h ->
  ~ is_doc_root P -> ~ is_doc_root Xp -> guarded P -> guarded Xp ->
  P <> Xp ->
  h !! P = Some (ODict dP) -> h !! Xp = Some (ODict dXp) ->
  dict_get k dXp = Some s \/
  (dict_get k dXp = None /\
   exists v, dict_get k dP = Some v /\ py_eq v s = true) ->
  dict_merge lim P (VRef Xp) h = Ok h' ->
  (exists dP' v, h' !! P = Some (ODict dP') /\
                 dict_get k dP' = Some v /\ py_eq v s = true) /\
  Inv guarded is_doc_root h' /\
  (forall p, guarded p -> p <> P -> h' !! p = h !! p).
Proof.
  intros HI RP RX GP GX Hne HP HX Hk H.
  destruct (dict_merge_frame guarded is_doc_root lim _ _ _ _ H HI RP)
    as [HI' Hfr]; [by intros ? [= <-]|].
  split; [|by split].
  destruct lim as [|lim]; [discriminate|]. simpl in H. rewrite HX in H.
  refine (nested_loop lim P Xp dXp _ _ h h' dP HI RP RX GP GX Hne HP HX _ _ H).
  - intros Hin. destruct Hk as [Hk|[Hk _]]; auto.
    by apply dict_get_keys_None in Hk.
  - destruct Hk as [Hk|[_ Hk]]; auto. left. by eapply dict_get_In_keys.
Qed.

(** A cell that a document holds under ["pillars"]. *)
Definition pillars_of (r p : addr) : Prop :=
  exists d, h0 !! r = Some (ODict d) /\ dict_get "pillars" d = Some (VRef p).

Lemma composing_entry dn h dF key p :
  composing dn h -> h !! F = Some (ODict dF) ->
  dict_get key dF = Some (VRef p) ->
  exists r d, In r roots /\ h0 !! r = Some (ODict d) /\
              dict_get key d = Some (VRef p).
Proof.
  intros (_ & Hdn & _ & (dF0 & HF0 & Hent) & _) HF Hk.
  rewrite HF in HF0. injection HF0 as <-.
  destruct (Hent _ _ Hk) as (r & Hr & Hv). unfold doc_get in Hv.
  destruct (h0 !! r) as [[|d]|] eqn:E; try discriminate.
  exists r, d. auto.
Qed.

Lemma composing_not_root dn h q d key p :
  composing dn h -> h !! q = Some (ODict d) ->
  dict_get key d = Some (VRef p) -> ~ is_doc_root p.
Proof.
  intros (HI & _) Hq Hg. apply dict_get_In in Hg.
  by destruct (HI q (ODict d) p Hq Hg).
Qed.

(** A step for another key leaves the pillars of every document alone. *)
Lemma pillars_child_frame lim dn D dD dF key h h' r p :
  composing dn h -> In D dn -> h0 !! D = Some (ODict dD) ->
  h !! F = Some (ODict dF) -> key <> "pillars" ->
  merge_key (dict_merge lim) F D key h = Ok h' ->
  In r roots -> pillars_of r p -> h' !! p = h !! p.
Proof.
  intros Hc HD HdD HF Hkey H Hr (d & Hd & Hp).
  destruct (root_step _ _ _ _ _ _ _ _ Hc HD HdD HF H) as (_ & Hfr & _).
  assert (HDr : In D roots) by (destruct Hc as (_ & Hdn & _); auto).
  apply Hfr.
  - right. exists r. split; auto. by exists d, "pillars".
  - intros ->. destruct Hc as (HI & _ & Hrt & _).
    assert (Hd' : h !! r = Some (ODict d)) by (by rewrite Hrt).
    apply dict_get_In in Hp. destruct (HI r _ F Hd' Hp) as [Hn _].
    apply Hn. by left.
  - intros Hk. destruct (composing_entry _ _ _ _ _ Hc HF Hk)
      as (r2 & d2 & Hr2 & Hd2 & Hk2).
    destruct (Hone r r2 d d2 _ _ p Hr Hr2 Hd Hd2 Hp Hk2) as [_ E]. congruence.
  - intros Hk.
    destruct (Hone r D d dD _ _ p Hr HDr Hd HdD Hp Hk) as [_ E]. congruence.
Qed.

Lemma other_key_settled lim dn D dD dF key h h' :
  composing dn h -> In D dn -> h0 !! D = Some (ODict dD) ->
  h !! F = Some (ODict dF) -> key <> "pillars" ->
  merge_key (dict_merge lim) F D key h = Ok h' ->
  doc_get h' F "pillars" = doc_get h F "pillars" /\
  (settled h -> settled h').
Proof.
  intros Hc HD HdD HF Hkey H.
  destruct (root_step _ _ _ _ _ _ _ _ Hc HD HdD HF H)
    as (_ & _ & dF' & HF' & _ & Hoth).
  assert (HFp : doc_get h' F "pillars" = doc_get h F "pillars").
  { unfold doc_get. rewrite HF, HF'. apply Hoth. congruence. }
  split; [done|].
  intros (P & dP & v & HP & HdP & Hv & Ev).
  exists P, dP, v. rewrite HFp. split; [done|]. split; [|done].
  rewrite <- HdP. unfold doc_get in HP. rewrite HF in HP.
  destruct (composing_entry _ _ _ _ _ Hc HF HP) as (r & d & Hr & Hd & Hk).
  eapply pillars_child_frame; eauto. by exists d.
Qed.

Lemma py_eq_ref v p : py_eq v (VRef p) = false.
Proof. by destruct v. Qed.

(** The step for ["pillars"], of a document whose pillars [Xp] either
    define [k] as [s] or leave [k] out. *)
Lemma pillars_step lim dn D dD Xp dXp dF h h' :
  composing dn h -> In D dn -> h0 !! D = Some (ODict dD) ->
  dict_get "pillars" dD = Some (VRef Xp) ->
  h !! Xp = Some (ODict dXp) ->
  h !! F = Some (ODict dF) ->
  dict_get "pillars" dF <> Some (VRef Xp) ->
  dict_get k dXp = Some s \/ (dict_get k dXp = None /\ settled h) ->
  merge_key (dict_merge lim) F D "pillars" h = Ok h' ->
  settled h' /\
  (dict_get k dXp = None ->
   h' !! Xp = Some (ODict dXp) /\
   doc_get h' F "pillars" = doc_get h F "pillars").
Proof.
  intros Hc HD HdD HpD HX HF Hfresh Hk H.
  assert (HDr : In D roots) by (destruct Hc as (_ & Hdn & _); auto).
  assert (HD' : h !! D = Some (ODict dD)).
  { destruct Hc as (_ & _ & Hrt & _). by rewrite Hrt. }
  assert (RX : ~ is_doc_root Xp) by (eapply composing_not_root; eauto).
  assert (HXF : Xp <> F) by (intros ->; apply RX; by left).
  assert (GX : guarded Xp).
  { right. exists D. split; auto. by exists dD, "pillars". }
  assert (Hset : forall h2, dict_get k dXp = Some s ->
            set_item F "pillars" (VRef Xp) h = Ok h2 -> settled h2).
  { intros h2 Hs H2. unfold set_item in H2. rewrite HF in H2.
    injection H2 as <-. exists Xp, dXp, s.
    split; [|split; [|done]].
    - unfold doc_get. rewrite list_lookup_insert_eq
        by (by eapply lookup_lt_Some).
      apply dict_get_set_eq.
    - by rewrite list_lookup_insert_ne. }
  unfold merge_key in H. rewrite HF, HD', HpD in H.
  destruct (dict_get "pillars" dF) as [va|] eqn:Hva.
  - assert (Hl : is_list h (VRef Xp) = false) by (simpl; by rewrite HX).
    assert (Hd : is_dict h (VRef Xp) = true) by (simpl; by rewrite HX).
    rewrite Hl, Hd, andb_false_r, andb_true_r, py_eq_ref in H.
    destruct (is_dict h va) eqn:Hdva.
    + destruct va as [| | | |P]; try discriminate. simpl in Hdva.
      destruct (h !! P) as [[|dP]|] eqn:HP; try discriminate.
      assert (RP : ~ is_doc_root P)
        by exact (composing_not_root _ _ _ _ _ _ Hc HF Hva).
      assert (GP : guarded P).
      { destruct (composing_entry _ _ _ _ _ Hc HF Hva)
          as (r & d & Hr & Hd' & Hk').
        right. exists r. split; auto. by exists d, "pillars". }
      assert (HPX : P <> Xp) by congruence.
      destruct Hc as (HI & _).
      destruct (nested_merge lim P Xp dP dXp h h' HI RP RX GP GX HPX HP HX)
        as ((dP' & v & HP' & Hv & Ev) & _ & Hfr); auto.
      { destruct Hk as [Hk|[Hk (P' & dP2 & v & HP' & HdP' & Hv & Ev)]]; auto.
        right. split; auto. unfold doc_get in HP'.
        rewrite HF, Hva in HP'. injection HP' as <-.
        rewrite HP in HdP'. injection HdP' as <-. eauto. }
      assert (HF' : h' !! F = h !! F).
      { apply Hfr; [by left; left|]. intros ->. apply RP. by left. }
      assert (Hdg : doc_get h' F "pillars" = doc_get h F "pillars").
      { unfold doc_get. by rewrite HF'. }
      split.
      * exists P, dP', v. rewrite Hdg. unfold doc_get. by rewrite HF, Hva.
      * intros _. split; auto. rewrite Hfr; auto.
    + destruct Hk as [Hk|[Hk (P' & dP2 & v & HP' & HdP' & _)]].
      * split; [by apply Hset|]. intros E. congruence.
      * unfold doc_get in HP'. rewrite HF, Hva in HP'. injection HP' as ->.
        simpl in Hdva. by rewrite HdP' in Hdva.
  - destruct Hk as [Hk|[Hk (P' & dP2 & v & HP' & _)]].
    + split; [by apply Hset|]. intros E. congruence.
    + unfold doc_get in HP'. rewrite HF, Hva in HP'. discriminate.
Qed.

Lemma composing_F dn h : composing dn h -> exists dF, h !! F = Some (ODict dF).
Proof. intros (_ & _ & _ & (dF & HF & _) & _). eauto. Qed.

Lemma composing_root dn h r : composing dn h -> In r dn -> h !! r = h0 !! r.
Proof. intros (_ & Hdn & Hrt & _) Hr. auto. Qed.

(** The merge of any document keeps the store well separated. *)
Lemma any_loop lim dn D dD n0 ks : forall h h',
  In D dn -> h0 !! D = Some (ODict dD) -> composing dn h ->
  merge_loop (dict_merge lim) F D n0 ks h = Ok h' -> composing dn h'.
Proof.
  induction ks as [|key ks IH]; intros h h' HD HdD Hc H; simpl in H;
    rewrite (composing_root _ _ _ Hc HD), HdD in H;
    destruct (negb _); try discriminate.
  - by injection H as <-.
  - destruct (merge_key _ F D key h) as [h1| | |] eqn:Hk; try discriminate.
    simpl in H. destruct (composing_F _ _ Hc) as (dF & HF).
    destruct (root_step _ _ _ _ _ _ _ _ Hc HD HdD HF Hk) as (Hc1 & _).
    eauto.
Qed.

(** The merge of the document that defines [k]. *)
Lemma define_loop lim dn D dD Xp dXp n0 ks : forall h h',
  In D dn -> h0 !! D = Some (ODict dD) ->
  dict_get "pillars" dD = Some (VRef Xp) -> dict_get k dXp = Some s ->
  NoDup ks -> composing dn h ->
  (In "pillars" ks /\ h !! Xp = Some (ODict dXp) /\
   doc_get h F "pillars" <> Some (VRef Xp)) \/
  (settled h /\ ~ In "pillars" ks) ->
  merge_loop (dict_merge lim) F D n0 ks h = Ok h' ->
  composing dn h' /\ settled h'.
Proof.
  induction ks as [|key ks IH]; intros h h' HD HdD HpD Hs Hnd Hc Hst H;
    simpl in H; rewrite (composing_root _ _ _ Hc HD), HdD in H;
    destruct (negb _); try discriminate.
  - injection H as <-. destruct Hst as [([] & _)|[Hst _]]. auto.
  - destruct (merge_key _ F D key h) as [h1| | |] eqn:Hk; try discriminate.
    simpl in H. destruct (composing_F _ _ Hc) as (dF & HF).
    destruct (root_step _ _ _ _ _ _ _ _ Hc HD HdD HF Hk) as (Hc1 & _).
    apply NoDup_cons in Hnd as [Hnin Hnd].
    assert (HDr : In D roots) by (destruct Hc as (_ & Hdn & _); auto).
    apply (IH h1 h'); auto.
    destruct (decide (key = "pillars")) as [->|Hne].
    + right. split; [|intros Hin; apply Hnin; by apply list_elem_of_In].
      destruct Hst as [(_ & HX & HFX)|[_ Hn]]; [|destruct Hn; by left].
      destruct (pillars_step lim dn D dD Xp dXp dF h h1) as [Hst1 _]; auto.
      unfold doc_get in HFX. by rewrite HF in HFX.
    + destruct (other_key_settled _ _ _ _ _ _ _ _ Hc HD HdD HF Hne Hk)
        as [HFp Hset].
      destruct Hst as [([E|Hin] & HX & HFX)|[Hst Hn]]; [congruence| |].
      * left. split; [done|]. rewrite HFp. split; [|done].
        rewrite <- HX. eapply pillars_child_frame; eauto. by exists dD.
      * right. split; auto. intros Hin. apply Hn. by right.
Qed.

(** The merge of a document whose pillars leave [k] out. *)
Lemma keep_loop lim dn D dD Xp dXp n0 ks : forall h h',
  In D dn -> h0 !! D = Some (ODict dD) ->
  dict_get "pillars" dD = Some (VRef Xp) -> dict_get k dXp = None ->
  composing dn h -> settled h -> h !! Xp = Some (ODict dXp) ->
  doc_get h F "pillars" <> Some (VRef Xp) ->
  merge_loop (dict_merge lim) F D n0 ks h = Ok h' ->
  composing dn h' /\ settled h'.
Proof.
  induction ks as [|key ks IH]; intros h h' HD HdD HpD Hs Hc Hst HX HFX H;
    simpl in H; rewrite (composing_root _ _ _ Hc HD), HdD in H;
    destruct (negb _); try discriminate.
  - by injection H as <-.
  - destruct (merge_key _ F D key h) as [h1| | |] eqn:Hk; try discriminate.
    simpl in H. destruct (composing_F _ _ Hc) as (dF & HF).
    destruct (root_step _ _ _ _ _ _ _ _ Hc HD HdD HF Hk) as (Hc1 & _).
    assert (HDr : In D roots) by (destruct Hc as (_ & Hdn & _); auto).
    destruct (decide (key = "pillars")) as [->|Hne].
    + destruct (pillars_step lim dn D dD Xp dXp dF h h1) as [Hst1 Hrest]; auto.
      { unfold doc_get in HFX. by rewrite HF in HFX. }
      destruct (Hrest Hs) as [HX1 HFp].
      apply (IH h1 h'); auto. by rewrite HFp.
    + destruct (other_key_settled _ _ _ _ _ _ _ _ Hc HD HdD HF Hne Hk)
        as [HFp Hset].
      apply (IH h1 h'); auto; [|by rewrite HFp].
      rewrite <- HX. eapply pillars_child_frame; eauto. by exists dD.
Qed.

(** *** The documents, one after the other *)

(** [D] sets the pillar [k] to [s]. *)
Definition defines (D : addr) : Prop :=
  exists dD Xp dXp, h0 !! D = Some (ODict dD) /\ NoDup (keys dD) /\
    dict_get "pillars" dD = Some (VRef Xp) /\
    h0 !! Xp = Some (ODict dXp) /\ dict_get k dXp = Some s.

(** [D] has no pillars, or pillars without [k]. *)
Definition leaves_out (D : addr) : Prop :=
  exists dD, h0 !! D = Some (ODict dD) /\
    (dict_get "pillars" dD = None \/
     exists Xp dXp, dict_get "pillars" dD = Some (VRef Xp) /\
       h0 !! Xp = Some (ODict dXp) /\ dict_get k dXp = None).

Definition a_document (D : addr) : Prop :=
  In D roots /\ exists dD, h0 !! D = Some (ODict dD).

(** The pillars of a document that was not merged yet. *)
Lemma fresh_pillars dn h D dD Xp :
  composing dn h -> In D roots -> ~ In D dn ->
  h0 !! D = Some (ODict dD) -> dict_get "pillars" dD = Some (VRef Xp) ->
  h !! Xp = h0 !! Xp /\ doc_get h F "pillars" <> Some (VRef Xp).
Proof.
  intros (_ & Hdn & _ & (dF & HF & Hent) & Hun) HD Hnd HdD HpD. split.
  - apply Hun.
    + exists D. split; auto. by exists dD, "pillars".
    + intros r Hr (d & k' & Hd & Hk').
      destruct (Hone r D d dD _ _ Xp (Hdn _ Hr) HD Hd HdD Hk' HpD) as [-> _].
      auto.
  - unfold doc_get. rewrite HF. intros Hk'.
    destruct (Hent _ _ Hk') as (r & Hr & Hv). unfold doc_get in Hv.
    destruct (h0 !! r) as [[|d]|] eqn:Hd; try discriminate.
    destruct (Hone r D d dD _ _ Xp (Hdn _ Hr) HD Hd HdD Hv HpD) as [-> _].
    auto.
Qed.

Lemma merge_any lim dn D h h' :
  composing dn h -> In D dn -> (exists dD, h0 !! D = Some (ODict dD)) ->
  dict_merge lim F (VRef D) h = Ok h' -> composing dn h'.
Proof.
  intros Hc HD (dD & HdD) H. destruct lim as [|lim]; [discriminate|].
  simpl in H. rewrite (composing_root _ _ _ Hc HD), HdD in H.
  eapply any_loop; eauto.
Qed.

Lemma merge_defining lim dn D h h' :
  composing dn h -> In D roots -> ~ In D dn -> defines D ->
  dict_merge lim F (VRef D) h = Ok h' ->
  composing (D :: dn) h' /\ settled h'.
Proof.
  intros Hc HD Hnd (dD & Xp & dXp & HdD & Hnk & HpD & HX & Hs) H.
  destruct (fresh_pillars _ _ _ _ _ Hc HD Hnd HdD HpD) as [HX' HFX].
  apply composing_more with (D := D) in Hc; auto.
  destruct lim as [|lim]; [discriminate|]. simpl in H.
  rewrite (composing_root _ _ D Hc), HdD in H by by left.
  eapply (define_loop lim (D :: dn) D dD Xp dXp); eauto; [by left|].
  left. split; [by eapply dict_get_In_keys|]. split; [congruence|done].
Qed.

Lemma merge_leaving lim dn D dD Xp dXp h h' :
  composing dn h -> settled h -> In D roots -> ~ In D dn ->
  h0 !! D = Some (ODict dD) -> dict_get "pillars" dD = Some (VRef Xp) ->
  h0 !! Xp = Some (ODict dXp) -> dict_get k dXp = None ->
  dict_merge lim F (VRef D) h = Ok h' ->
  composing (D :: dn) h' /\ settled h'.
Proof.
  intros Hc Hst HD Hnd HdD HpD HX Hs H.
  destruct (fresh_pillars _ _ _ _ _ Hc HD Hnd HdD HpD) as [HX' HFX].
  apply composing_more with (D := D) in Hc; auto.
  destruct lim as [|lim]; [discriminate|]. simpl in H.
  rewrite (composing_root _ _ D Hc), HdD in H by by left.
  eapply (keep_loop lim (D :: dn) D dD Xp dXp); eauto; [by left|congruence].
Qed.

Lemma merge_docs_cons lim D docs st h z :
  merge_docs lim F (D :: docs) st h = Ok z ->
  exists h1 st1,
    match doc_get h D "pillars" with
    | Some _ => dict_merge lim F (VRef D) h
    | None => Ok h
    end = Ok h1 /\ merge_docs lim F docs st1 h1 = Ok z.
Proof.
  cbn [merge_docs]. intros H.
  destruct (match doc_get h D "pillars" with Some _ => _ | None => _ end)
    as [h1| | |]; try discriminate.
  cbn [rbind] in H.
  destruct (match doc_get h1 D "states" with Some _ => _ | None => _ end)
    as [st1| | |]; try discriminate.
  cbn [rbind] in H. eauto.
Qed.

Lemma merge_docs_pre lim pre dn rest : forall st h z,
  composing dn h -> (forall r, In r pre -> In r dn /\ a_document r) ->
  merge_docs lim F (pre ++ rest) st h = Ok z ->
  exists st' h', composing dn h' /\ merge_docs lim F rest st' h' = Ok z.
Proof.
  induction pre as [|D pre IH]; intros st h z Hc Hpre H; [by eauto|].
  simpl in H. apply merge_docs_cons in H as (h1 & st1 & Hm & H).
  destruct (Hpre D) as (HD & _ & HdD); [by left|].
  apply (IH st1 h1 z); auto; [|intros r Hr; apply Hpre; by right].
  destruct (doc_get h D "pillars"); [|by injection Hm as <-].
  eapply merge_any; eauto.
Qed.

Lemma merge_docs_post lim post : forall dn st h z,
  composing dn h -> settled h -> NoDup post ->
  (forall r, In r post -> In r roots /\ ~ In r dn /\ leaves_out r) ->
  merge_docs lim F post st h = Ok z -> settled (snd z).
Proof.
  induction post as [|D post IH]; intros dn st h z Hc Hst Hnd Hpost H.
  - by injection H as <-.
  - apply merge_docs_cons in H as (h1 & st1 & Hm & H).
    apply NoDup_cons in Hnd as [Hnin Hnd].
    destruct (Hpost D) as (HD & HDn & dD & HdD & Hp); [by left|].
    assert (HD' : h !! D = Some (ODict dD)).
    { destruct Hc as (_ & _ & Hrt & _). by rewrite Hrt. }
    unfold doc_get in Hm. rewrite HD' in Hm.
    destruct Hp as [Hp|(Xp & dXp & Hp & HX & Hs)]; rewrite Hp in Hm.
    + injection Hm as <-. apply (IH dn st1 h z); auto.
      intros r Hr. apply Hpost. by right.
    + destruct (merge_leaving _ _ _ _ _ _ _ _ Hc Hst HD HDn HdD Hp HX Hs Hm)
        as [Hc1 Hst1].
      apply (IH (D :: dn) st1 h1 z); auto.
      intros r Hr. destruct (Hpost r) as (Hr1 & Hr2 & Hr3); [by right|].
      split; [done|]. split; [|done].
      intros [<-|Hin]; [|done]. apply Hnin. by apply list_elem_of_In.
Qed.

(** The composition takes the value of the last document that sets
    [k]. *)
Lemma last_definer_wins lim pre D post st z :
  composing [] h0 -> NoDup (D :: post) ->
  (forall r, In r pre -> ~ In r (D :: post)) ->
  (forall r, In r pre -> a_document r) ->
  In D roots -> defines D ->
  (forall r, In r post -> In r roots /\ leaves_out r) ->
  merge_docs lim F (pre ++ D :: post) st h0 = Ok z ->
  settled (snd z).
Proof.
  intros Hc Hnd Hdis Hpre HD Hdef Hpost H.
  assert (Hc' : composing pre h0).
  { clear H Hdis. induction pre as [|r pre IH]; [done|].
    apply composing_more; [apply Hpre; by left|].
    apply IH. intros r' Hr'. apply Hpre. by right. }
  apply NoDup_cons in Hnd as [HDpost Hnd].
  apply merge_docs_pre with (dn := pre) in H as (st1 & h1 & Hc1 & H); auto.
  apply merge_docs_cons in H as (h2 & st2 & Hm & H).
  assert (HDpre : ~ In D pre).
  { intros Hin. apply (Hdis D Hin). by left. }
  assert (Hp : exists v, doc_get h1 D "pillars" = Some v).
  { destruct Hdef as (dD & Xp & dXp & HdD & _ & HpD & _).
    exists (VRef Xp). unfold doc_get.
    destruct Hc1 as (_ & _ & Hrt & _). by rewrite Hrt, HdD. }
  destruct Hp as (v & Hp). rewrite Hp in Hm.
  destruct (merge_defining _ _ _ _ _ Hc1 HD HDpre Hdef Hm) as [Hc2 Hst2].
  apply (merge_docs_post lim post (D :: pre) st2 h2 z); auto.
  intros r Hr. destruct (Hpost r Hr) as [Hr1 Hr2].
  split; [done|]. split; [|done].
  intros [<-|Hin]; [by apply HDpost, list_elem_of_In|].
  apply (Hdis r Hin). by right.
Qed.

End Compose.

(** ** The cells of a parsed document

    [alloc] places a document in fresh cells that form a tree: a cell
    refers only to cells placed before it and after the start of the
    document, and no cell is referred to twice. *)

Definition fresh_cells (lo : nat) (h : heap) : Prop :=
  forall q o p, lo <= q -> h !! q = Some o -> In (VRef p) (vals_of o) ->
                lo <= p < q.

Definition shape_one (h : heap) (v : val) (h' : heap) : Prop :=
  (exists new, h' = h ++ new) /\ fresh_cells (List.length h) h' /\
  (forall p, v = VRef p -> List.length h <= p /\ S p = List.length h').

Definition shape_all (h : heap) (vs : list val) (h' : heap) : Prop :=
  (exists new, h' = h ++ new) /\ fresh_cells (List.length h) h' /\
  (forall p, In (VRef p) vs -> List.length h <= p < List.length h') /\
  (forall p q o, In (VRef p) vs -> List.length h <= q -> h' !! q = Some o ->
                 ~ In (VRef p) (vals_of o)) /\
  (forall i j p, vs !! i = Some (VRef p) -> vs !! j = Some (VRef p) -> i = j).

Lemma alloc_all_shape {A} (f : A -> heap -> val * heap) l :
  Forall (fun x => forall h v h', f x h = (v, h') -> shape_one h v h') l ->
  forall h vs h', alloc_all f l h = (vs, h') -> shape_all h vs h'.
Proof.
  induction 1 as [|x l Hx _ IH]; intros h vs h' H; simpl in H.
  - injection H as <- <-. split; [exists []; by rewrite app_nil_r|].
    split; [|split; [|split]].
    + intros q o p Hq Hl. apply lookup_lt_Some in Hl. lia.
    + intros p [].
    + intros p q o [].
    + intros i j p Hi. by rewrite lookup_nil in Hi.
  - destruct (f x h) as [v h1] eqn:Hf.
    destruct (alloc_all f l h1) as [vs1 h2] eqn:Hl. injection H as <- <-.
    destruct (Hx _ _ _ Hf) as ((n1 & E1) & Hfr1 & Hv).
    destruct (IH _ _ _ Hl) as ((n2 & E2) & Hfr2 & Hb & Hun & Hinj).
    assert (Hlen1 : List.length h <= List.length h1).
    { rewrite E1, length_app. lia. }
    assert (Hold : forall q, q < List.length h1 -> h2 !! q = h1 !! q).
    { intros q Hq. rewrite E2. by apply lookup_app_l. }
    split; [exists (n1 ++ n2); by rewrite E2, E1, app_assoc|].
    split; [|split; [|split]].
    + intros q o p Hq Ho Hp. destruct (decide (q < List.length h1)) as [L|L].
      * rewrite Hold in Ho by done. eauto.
      * destruct (Hfr2 q o p) as [? ?]; auto; lia.
    + intros p [->|Hp].
      * destruct (Hv p eq_refl) as [? ?]. split; [done|].
        rewrite E2, length_app. lia.
      * destruct (Hb p Hp). lia.
    + intros p q o [->|Hp] Hq Ho Hin.
      * destruct (Hv p eq_refl) as [? Hlast].
        destruct (decide (q < List.length h1)) as [L|L].
        -- rewrite Hold in Ho by done. destruct (Hfr1 q o p Hq Ho Hin). lia.
        -- destruct (Hfr2 q o p) as [? ?]; auto; lia.
      * destruct (decide (q < List.length h1)) as [L|L].
        -- rewrite Hold in Ho by done. destruct (Hfr1 q o p Hq Ho Hin).
           destruct (Hb p Hp). lia.
        -- apply (Hun p q o); auto. lia.
    + intros [|i] [|j] p Hi Hj; simpl in Hi, Hj; auto.
      * injection Hi as ->. destruct (Hv p eq_refl) as [_ Hlast].
        apply list_elem_of_lookup_2, list_elem_of_In in Hj.
        destruct (Hb p Hj). lia.
      * injection Hj as ->. destruct (Hv p eq_refl) as [_ Hlast].
        apply list_elem_of_lookup_2, list_elem_of_In in Hi.
        destruct (Hb p Hi). lia.
      * f_equal. eauto.
Qed.

Lemma In_snd_combine {A B} (ks : list A) (vs : list B) v :
  In v (map snd (combine ks vs)) -> In v vs.
Proof.
  intros H. apply in_map_iff in H as ([k v'] & <- & H).
  by apply in_combine_r in H.
Qed.

Lemma shape_all_cell h vs h1 o :
  shape_all h vs h1 -> (forall v, In v (vals_of o) -> In v vs) ->
  shape_one h (VRef (List.length h1)) (h1 ++ [o]).
Proof.
  intros ((n & E) & Hfr & Hb & _) Hsub.
  split; [exists (n ++ [o]); by rewrite E, app_assoc|]. split.
  - intros q o' p Hq Ho Hp.
    destruct (decide (q < List.length h1)) as [L|L].
    + rewrite lookup_app_l in Ho by done. eauto.
    + assert (q = List.length h1) as ->.
      { apply lookup_lt_Some in Ho. rewrite length_app in Ho. simpl in Ho.
        lia. }
      rewrite lookup_snoc in Ho. injection Ho as <-.
      apply Hsub, Hb in Hp. done.
  - intros p [= <-]. rewrite length_app. simpl. split; [|lia].
    rewrite E, length_app. lia.
Qed.

Lemma alloc_shape t : forall h v h', alloc t h = (v, h') -> shape_one h v h'.
Proof.
  assert (Hsc : forall h v, (forall p, v <> VRef p) -> shape_one h v h).
  { intros h v Hv. split; [exists []; by rewrite app_nil_r|]. split.
    - intros q o p Hq Hl. apply lookup_lt_Some in Hl. lia.
    - intros p E. by destruct (Hv p). }
  induction t as [|b|z|s|l IH|d IH] using tree_induction;
    intros h v h' H; simpl in H;
    try (injection H as <- <-; by apply Hsc).
  - destruct (alloc_all alloc l h) as [vs h1] eqn:Hl. injection H as <- <-.
    eapply shape_all_cell; [by eapply alloc_all_shape|]. auto.
  - destruct (alloc_all _ d h) as [vs h1] eqn:Hl. injection H as <- <-.
    eapply shape_all_cell;
      [exact (alloc_all_shape (fun kv => alloc (snd kv)) d IH _ _ _ Hl)|].
    intros v. apply In_snd_combine.
Qed.

Lemma alloc_children (dd : list (string * tree)) h vs h1 :
  alloc_all (fun kv => alloc (snd kv)) dd h = (vs, h1) -> shape_all h vs h1.
Proof.
  apply alloc_all_shape. apply Forall_forall. intros kv _ h0 v h'.
  apply alloc_shape.
Qed.


(** ** Stores without dangling references *)

Definition closed (h : heap) : Prop :=
  forall q o p, h !! q = Some o -> In (VRef p) (vals_of o) ->
                p < List.length h.

Lemma closed_insert h a o :
  closed h -> (forall p, In (VRef p) (vals_of o) -> p < List.length h) ->
  closed (<[a := o]> h).
Proof.
  intros Hc Ho q o' p Hq Hp. rewrite length_insert.
  destruct (lookup_insert_inv _ _ _ _ _ Hq) as [[-> ->]|[_ Hq']]; eauto.
Qed.

Lemma closed_get h a d key p :
  closed h -> h !! a = Some (ODict d) -> dict_get key d = Some (VRef p) ->
  p < List.length h.
Proof. intros Hc Ha Hk. apply dict_get_In in Hk. eauto. Qed.

Lemma set_item_closed a key v h h' :
  set_item a key v h = Ok h' -> closed h ->
  (forall p, v = VRef p -> p < List.length h) ->
  closed h' /\ List.length h' = List.length h.
Proof.
  unfold set_item. destruct (h !! a) as [[|da]|] eqn:Ha; try discriminate.
  intros [= <-] Hc Hv. split; [|apply length_insert].
  apply closed_insert; auto. intros p Hp. simpl in Hp.
  apply In_dict_set in Hp as [E|Hin]; [by apply Hv|].
  by apply (Hc a (ODict da) p Ha).
Qed.

Definition keeps_closed (rec : addr -> val -> heap -> res heap) : Prop :=
  forall a b h h', rec a b h = Ok h' -> closed h ->
                   closed h' /\ List.length h' = List.length h.

Lemma merge_key_closed rec a pb key h h' :
  keeps_closed rec -> merge_key rec a pb key h = Ok h' -> closed h ->
  closed h' /\ List.length h' = List.length h.
Proof.
  intros Hrec H Hc. unfold merge_key in H.
  destruct (h !! a) as [[|da]|] eqn:Ha; try discriminate.
  destruct (h !! pb) as [[|db]|] eqn:Hb; try discriminate.
  destruct (dict_get key db) as [vb|] eqn:Hvb; try discriminate.
  assert (Hvb' : forall p, vb = VRef p -> p < List.length h).
  { intros p ->. eapply closed_get; eauto. }
  destruct (dict_get key da) as [va|]; [|by eapply set_item_closed].
  destruct (is_list h va && is_list h vb).
  - destruct va as [| | | |la]; try discriminate.
    destruct vb as [| | | |lb]; try discriminate.
    destruct (h !! lb) as [[[|y ys]|]|] eqn:Hlb; try discriminate.
    destruct (py_eq y (VStr "^")).
    + apply set_item_closed in H as [Hc' Hlen].
      * split; [done|]. by rewrite Hlen, length_insert.
      * apply closed_insert; auto. intros p Hp.
        apply (Hc lb _ p Hlb). by right.
      * intros p [= <-]. rewrite length_insert. by eapply lookup_lt_Some.
    + destruct (h !! la) as [[xs|]|] eqn:Hla; try discriminate.
      injection H as <-. split; [|apply length_insert].
      apply closed_insert; auto. intros p Hp. simpl in Hp.
      apply in_app_or in Hp as [Hp|Hp]; eauto.
  - destruct (is_dict h va && is_dict h vb).
    + destruct va; try discriminate. eauto.
    + destruct (py_eq va vb); [by injection H as <-|].
      by eapply set_item_closed.
Qed.

Lemma merge_loop_closed rec a pb n0 ks : forall h h',
  keeps_closed rec -> merge_loop rec a pb n0 ks h = Ok h' -> closed h ->
  closed h' /\ List.length h' = List.length h.
Proof.
  induction ks as [|key ks IH]; intros h h' Hrec H Hc; simpl in H;
    destruct (h !! pb) as [[|]|]; try discriminate;
    destruct (negb _); try discriminate.
  - by injection H as <-.
  - destruct (merge_key rec a pb key h) as [h1| | |] eqn:Hk; try discriminate.
    simpl in H. destruct (merge_key_closed _ _ _ _ _ _ Hrec Hk Hc) as [Hc1 E1].
    destruct (IH _ _ Hrec H Hc1) as [Hc2 E2]. split; [done|congruence].
Qed.

Lemma dict_merge_closed lim : keeps_closed (dict_merge lim).
Proof.
  induction lim as [|lim IH]; intros a b h h' H Hc; simpl in H;
    [discriminate|].
  destruct b as [| | |s|pb]; try discriminate.
  - destruct s; try discriminate. by injection H as <-.
  - destruct (h !! pb) as [[[|[]]|]|]; try discriminate.
    + by injection H as <-.
    + by eapply merge_loop_closed.
Qed.

(** ** The documents of an expansion

    [roots] are the documents placed so far, all at or after [lo]; a
    cell that a document holds is held by that document only, under one
    key, and no cell refers to a document. *)

Definition held_in (roots : list addr) (h : heap) (p : addr) : Prop :=
  exists r d key, In r roots /\ h !! r = Some (ODict d) /\
                  dict_get key d = Some (VRef p).

Definition owned (roots : list addr) (h : heap) (p : addr) : Prop :=
  In p roots \/ held_in roots h p.

Definition separated (lo : nat) (roots : list addr) (h : heap) : Prop :=
  closed h /\
  (forall r, In r roots -> lo <= r /\ exists d, h !! r = Some (ODict d)) /\
  (forall p, held_in roots h p -> lo <= p) /\
  Inv (owned roots h) (fun p => In p roots) h /\
  (forall r1 r2 d1 d2 k1 k2 p, In r1 roots -> In r2 roots ->
     h !! r1 = Some (ODict d1) -> h !! r2 = Some (ODict d2) ->
     dict_get k1 d1 = Some (VRef p) -> dict_get k2 d2 = Some (VRef p) ->
     r1 = r2 /\ k1 = k2).

Lemma held_in_same roots h h' p :
  (forall r, In r roots -> h' !! r = h !! r) ->
  held_in roots h' p -> held_in roots h p.
Proof.
  intros Hr (r & d & key & Hin & Hd & Hk). exists r, d, key.
  rewrite <- Hr; auto.
Qed.

Lemma owned_same roots h h' p :
  (forall r, In r roots -> h' !! r = h !! r) ->
  owned roots h' p -> owned roots h p.
Proof. intros Hr [?|?]; [by left|right]. by eapply held_in_same. Qed.

Lemma separated_same lo roots h h' :
  separated lo roots h -> closed h' ->
  (forall r, In r roots -> h' !! r = h !! r) ->
  Inv (owned roots h) (fun p => In p roots) h' ->
  separated lo roots h'.
Proof.
  intros (Hc & Hr & Hlo & HI & Hone) Hc' Hsame HI'.
  split; [done|]. split; [|split; [|split]].
  - intros r Hin. rewrite Hsame by done. auto.
  - intros p Hp. apply Hlo. by eapply held_in_same.
  - intros q o p Hq Hp. destruct (HI' q o p Hq Hp) as [Hn Hq'].
    split; [done|]. intros Ho. apply Hq'. by eapply owned_same.
  - intros r1 r2 d1 d2 k1 k2 p H1 H2. rewrite !Hsame by done. by apply Hone.
Qed.

(** New cells that refer to each other only. *)
Lemma separated_extend lo roots h h1 :
  separated lo roots h -> (exists n, h1 = h ++ n) ->
  fresh_cells (List.length h) h1 -> separated lo roots h1.
Proof.
  intros Hs (n & ->) Hfr. pose proof Hs as (Hc & Hr & Hlo & HI & Hone).
  assert (Hold : forall q, q < List.length h -> (h ++ n) !! q = h !! q).
  { intros q Hq. by apply lookup_app_l. }
  assert (Hrl : forall r, In r roots -> r < List.length h).
  { intros r Hin. destruct (Hr r Hin) as (_ & d & Hd).
    by eapply lookup_lt_Some. }
  apply (separated_same lo roots h); auto.
  - intros q o p Hq Hp. destruct (decide (q < List.length h)) as [L|L].
    + rewrite Hold in Hq by done. rewrite length_app.
      specialize (Hc q o p Hq Hp). lia.
    + destruct (Hfr q o p) as [_ ?]; auto; [lia|].
      apply lookup_lt_Some in Hq. lia.
  - intros q o p Hq Hp. destruct (decide (q < List.length h)) as [L|L].
    + rewrite Hold in Hq by done. eauto.
    + destruct (Hfr q o p) as [Hp1 _]; auto; [lia|]. split.
      * intros Hin. apply Hrl in Hin. lia.
      * intros [Hin|(r & d & key & Hin & Hd & Hk)].
        -- apply Hrl in Hin. lia.
        -- pose proof (closed_get _ _ _ _ _ Hc Hd Hk). lia.
Qed.

(** A dictionary that no cell refers to, with content of its own,
    becomes a document. *)
Lemma separated_promote lo roots h D dD :
  separated lo roots h -> h !! D = Some (ODict dD) -> lo <= D ->
  (forall q o, h !! q = Some o -> ~ In (VRef D) (vals_of o)) ->
  (forall p key, dict_get key dD = Some (VRef p) ->
     lo <= p /\
     forall q o, h !! q = Some o -> In (VRef p) (vals_of o) -> q = D) ->
  (forall k1 k2 p, dict_get k1 dD = Some (VRef p) ->
                   dict_get k2 dD = Some (VRef p) -> k1 = k2) ->
  separated lo (D :: roots) h.
Proof.
  intros (Hc & Hr & Hlo & HI & Hone) HD HloD Hunref Hch Hinj.
  split; [done|]. split; [|split; [|split]].
  - intros r [<-|Hin]; eauto.
  - intros p (r & d & key & [<-|Hin] & Hd & Hk).
    + rewrite HD in Hd. injection Hd as <-. by destruct (Hch p key Hk).
    + apply Hlo. by exists r, d, key.
  - intros q o p Hq Hp. destruct (HI q o p Hq Hp) as [Hn Hq']. split.
    + intros [<-|Hin]; [by apply (Hunref q o Hq)|done].
    + intros [[<-|Hin]|(r & d & key & [<-|Hin] & Hd & Hk)].
      * by destruct (Hunref q o Hq).
      * done.
      * rewrite HD in Hd. injection Hd as <-.
        destruct (Hch p key Hk) as [_ Hq2]. left. symmetry. eauto.
      * right. apply Hq'. right. by exists r, d, key.
  - intros r1 r2 d1 d2 k1 k2 p [<-|H1] [<-|H2] Hd1 Hd2 Hk1 Hk2.
    + rewrite HD in Hd1, Hd2. injection Hd1 as <-. injection Hd2 as <-.
      split; eauto.
    + rewrite HD in Hd1. injection Hd1 as <-.
      destruct (Hch p k1 Hk1) as [_ Hq].
      specialize (Hq r2 _ Hd2 (dict_get_In _ _ _ Hk2)). subst r2.
      rewrite HD in Hd2. injection Hd2 as <-. split; eauto.
    + rewrite HD in Hd2. injection Hd2 as <-.
      destruct (Hch p k2 Hk2) as [_ Hq].
      specialize (Hq r1 _ Hd1 (dict_get_In _ _ _ Hk1)). subst r1.
      rewrite HD in Hd1. injection Hd1 as <-. split; eauto.
    + eauto.
Qed.

Lemma dict_get_combine {A} key (ks : list string) : forall (vs : list A) v,
  dict_get key (combine ks vs) = Some v ->
  exists i, ks !! i = Some key /\ vs !! i = Some v.
Proof.
  induction ks as [|k0 ks IH]; intros [|v0 vs] v H; simpl in H;
    try discriminate.
  destruct (String.eqb key k0) eqn:E.
  - apply String.eqb_eq in E. subst k0. injection H as <-. by exists 0.
  - destruct (IH vs v H) as (i & Hk & Hv). by exists (S i).
Qed.

(** A parsed mapping becomes a document. *)
Lemma separated_alloc_root lo roots h dd D h1 :
  separated lo roots h -> lo <= List.length h ->
  alloc (TDict dd) h = (VRef D, h1) ->
  separated lo (D :: roots) h1 /\ (exists n, h1 = h ++ n) /\
  List.length h <= D.
Proof.
  intros Hs Hlo Ha. pose proof (alloc_shape _ _ _ _ Ha) as (Hext & Hfr & Hv).
  destruct (Hv D eq_refl) as [HDlo HDlast].
  split; [|by split].
  pose proof (separated_extend _ _ _ _ Hs Hext Hfr) as Hs1.
  simpl in Ha. destruct (alloc_all _ dd h) as [vs h0] eqn:Hl.
  injection Ha as <- <-.
  pose proof (alloc_children _ _ _ _ Hl) as ((n0 & E0) & Hfr0 & Hb & Hun & Hinj).
  assert (Hold : forall q o, (h0 ++ [ODict (combine (keys dd) vs)]) !! q
                             = Some o ->
            (q < List.length h /\ h !! q = Some o) \/
            (List.length h <= q < List.length h0 /\ h0 !! q = Some o) \/
            (q = List.length h0 /\ o = ODict (combine (keys dd) vs))).
  { intros q o Hq. destruct (decide (q < List.length h0)) as [L|L].
    - rewrite lookup_app_l in Hq by done.
      destruct (decide (q < List.length h)) as [L'|L'].
      + left. split; [done|]. rewrite E0 in Hq.
        by rewrite lookup_app_l in Hq.
      + right. left. split; [lia|done].
    - right. right. pose proof (lookup_lt_Some _ _ _ Hq) as Hlt.
      rewrite length_app in Hlt. simpl in Hlt.
      assert (q = List.length h0) as -> by lia.
      rewrite lookup_snoc in Hq. by injection Hq as <-. }
  destruct Hs as (Hc & _).
  eapply separated_promote; eauto using lookup_snoc; [lia| | |].
  - intros q o Hq Hin.
    destruct (Hold q o Hq) as [[L Hq']|[[L Hq']|[-> ->]]].
    + specialize (Hc q o _ Hq' Hin). lia.
    + destruct (Hfr0 q o _ (proj1 L) Hq' Hin). lia.
    + apply In_snd_combine, Hb in Hin. lia.
  - intros p key Hk. apply dict_get_In, In_snd_combine in Hk.
    split; [destruct (Hb p Hk); lia|].
    intros q o Hq Hin. destruct (Hold q o Hq) as [[L Hq']|[[L Hq']|[-> _]]].
    + specialize (Hc q o _ Hq' Hin). destruct (Hb p Hk). lia.
    + destruct (Hun p q o Hk) with (1 := proj1 L); auto.
    + done.
  - intros k1 k2 p Hk1 Hk2.
    apply dict_get_combine in Hk1 as (i & Hi & Hvi).
    apply dict_get_combine in Hk2 as (j' & Hj & Hvj).
    assert (i = j') as -> by eauto. congruence.
Qed.

(** A merge into a dictionary placed before the documents leaves them
    and what they hold as they are. *)
Lemma separated_merge lo roots lim a b h h' :
  separated lo roots h -> dict_merge lim a b h = Ok h' -> a < lo ->
  (forall pb, b = VRef pb -> ~ In pb roots) ->
  separated lo roots h' /\
  (forall p, owned roots h p -> h' !! p = h !! p) /\
  List.length h' = List.length h.
Proof.
  intros Hs H Ha Hb. pose proof Hs as (Hc & Hr & Hlo & HI & Hone).
  destruct (dict_merge_closed lim _ _ _ _ H Hc) as [Hc' Hlen].
  destruct (dict_merge_frame (owned roots h) (fun p => In p roots) lim
              _ _ _ _ H HI) as [HI' Hfr]; auto.
  { intros Hin. destruct (Hr a Hin). lia. }
  assert (Hsame : forall p, owned roots h p -> h' !! p = h !! p).
  { intros p Hp. apply Hfr; auto. intros ->.
    destruct Hp as [Hin|Hp]; [destruct (Hr a Hin)|apply Hlo in Hp]; lia. }
  split; [|by split].
  apply (separated_same lo roots h); auto.
  intros r Hin. apply Hsame. by left.
Qed.

Lemma separated_child lo roots h r d key p :
  separated lo roots h -> In r roots -> h !! r = Some (ODict d) ->
  dict_get key d = Some (VRef p) -> ~ In p roots /\ lo <= p.
Proof.
  intros (_ & _ & Hlo & HI & _) Hin Hd Hk. split.
  - by destruct (HI r _ p Hd (dict_get_In _ _ _ Hk)).
  - apply Hlo. by exists r, d, key.
Qed.

(** What a piece of the expansion does to the store: it places the
    documents [new] and leaves the earlier ones, and what they hold, as
    they are. *)
Definition sep_step (lo : nat) (roots : list addr) (h : heap)
  (new : list addr) (h' : heap) : Prop :=
  separated lo (new ++ roots) h' /\
  List.length h <= List.length h' /\
  (forall r, In r new -> List.length h <= r) /\
  (forall p, owned roots h p -> h' !! p = h !! p).

Lemma owned_lt lo roots h p :
  separated lo roots h -> owned roots h p -> p < List.length h.
Proof.
  intros (Hc & Hr & _) [Hin|(r & d & key & Hin & Hd & Hk)].
  - destruct (Hr p Hin) as (_ & d & Hd). by eapply lookup_lt_Some.
  - by eapply closed_get.
Qed.

Lemma owned_mono roots new h h' p :
  (forall p, owned roots h p -> h' !! p = h !! p) ->
  owned roots h p -> owned (new ++ roots) h' p.
Proof.
  intros Hfr [Hin|(r & d & key & Hin & Hd & Hk)].
  - left. apply in_or_app. by right.
  - right. exists r, d, key. split; [apply in_or_app; by right|].
    split; [|done]. rewrite Hfr; [done|by left].
Qed.

Lemma sep_step_refl lo roots h : separated lo roots h -> sep_step lo roots h [] h.
Proof. intros Hs. split; [done|]. split; [done|]. split; [intros r []|done]. Qed.

Lemma sep_step_trans lo roots h n1 h1 n2 h2 :
  sep_step lo roots h n1 h1 -> sep_step lo (n1 ++ roots) h1 n2 h2 ->
  sep_step lo roots h (n2 ++ n1) h2.
Proof.
  intros (Hs1 & Hl1 & Hn1 & Hf1) (Hs2 & Hl2 & Hn2 & Hf2).
  split; [by rewrite <- app_assoc|]. split; [lia|]. split.
  - intros r Hin. apply in_app_or in Hin as [Hin|Hin].
    + specialize (Hn2 r Hin). lia.
    + auto.
  - intros p Hp. rewrite Hf2; [auto|]. by apply owned_mono with (h := h).
Qed.

Lemma sep_step_extend lo roots h h1 :
  separated lo roots h -> (exists n, h1 = h ++ n) ->
  fresh_cells (List.length h) h1 -> sep_step lo roots h [] h1.
Proof.
  intros Hs Hext Hfr. split; [by eapply separated_extend|].
  destruct Hext as (n & ->). split; [rewrite length_app; lia|].
  split; [intros r []|]. intros p Hp. apply lookup_app_l.
  by eapply owned_lt.
Qed.

Lemma sep_step_alloc lo roots h t v h1 :
  separated lo roots h -> alloc t h = (v, h1) -> sep_step lo roots h [] h1.
Proof.
  intros Hs Ha. destruct (alloc_shape _ _ _ _ Ha) as (Hext & Hfr & _).
  by apply sep_step_extend.
Qed.

Lemma sep_step_alloc_root lo roots h dd D h1 :
  separated lo roots h -> lo <= List.length h ->
  alloc (TDict dd) h = (VRef D, h1) -> sep_step lo roots h [D] h1.
Proof.
  intros Hs Hlo Ha.
  destruct (separated_alloc_root _ _ _ _ _ _ Hs Hlo Ha) as (Hs1 & Hext & HD).
  split; [done|]. destruct Hext as (n & ->).
  split; [rewrite length_app; lia|]. split; [by intros r [<-|[]]|].
  intros p Hp. apply lookup_app_l. by eapply owned_lt.
Qed.

Lemma sep_step_merge lo roots lim a b h h' :
  separated lo roots h -> dict_merge lim a b h = Ok h' -> a < lo ->
  (forall pb, b = VRef pb -> ~ In pb roots) ->
  sep_step lo roots h [] h'.
Proof.
  intros Hs H Ha Hb.
  destruct (separated_merge _ _ _ _ _ _ _ Hs H Ha Hb) as (Hs' & Hfr & Hlen).
  split; [done|]. split; [lia|]. split; [intros r []|done].
Qed.

Lemma vals_od_update {A} (e : list (string * A)) : forall d w,
  In w (map snd (od_update d e)) -> In w (map snd d) \/ In w (map snd e).
Proof.
  unfold od_update. induction e as [|[k v] e IH]; intros d w H; simpl in *;
    [by left|].
  destruct (IH _ _ H) as [H1|H1]; [|by right; right].
  apply In_dict_set in H1 as [->|H1]; auto.
Qed.

Lemma vals_od_move_to_end {A} k (d : list (string * A)) w :
  In w (map snd (od_move_to_end k d)) -> In w (map snd d).
Proof.
  unfold od_move_to_end. destruct (dict_get k d) as [v|] eqn:Hk; [|done].
  rewrite map_app. intros H. apply in_app_or in H as [H|[<-|[]]].
  - apply in_map_iff in H as (x & <- & Hx). apply filter_In in Hx as [Hx _].
    by apply in_map.
  - by eapply dict_get_In.
Qed.

Section ExpansionStore.

Variable os_walk : string -> list (string * list string).
Variable glob : string -> list string.
Variable render_yaml : string -> salt_data -> heap -> outcome tree.
Variable lim : nat.
Variable sd : salt_data.
Variable lo : nat.
Hypothesis pillar_before : sd_pillar sd < lo.

(** Every entry that a call of the expansion returns is a document
    that the call placed. *)
Definition expansion_sep
  (f : world -> res (list (string * addr) * world)) : Prop :=
  forall w ec w' roots, f w = Ok (ec, w') ->
    separated lo roots (w_heap w) -> lo <= List.length (w_heap w) ->
    exists new, sep_step lo roots (w_heap w) new (w_heap w') /\
                forall a, In a (map snd ec) -> In a new.

Lemma expand_class_sep rec klass ec0 w ec1 w1 roots :
  (forall cs, expansion_sep (rec cs)) ->
  expand_class os_walk render_yaml lim rec sd klass ec0 w = Ok (ec1, w1) ->
  separated lo roots (w_heap w) -> lo <= List.length (w_heap w) ->
  exists new, sep_step lo roots (w_heap w) new (w_heap w1) /\
              forall a, In a (map snd ec1) ->
                        In a (map snd ec0) \/ In a new.
Proof.
  intros Hrec H Hs Hlo. unfold expand_class in H.
  destruct (mem klass (w_seen w)).
  { injection H as <- <-. exists []. split; [by apply sep_step_refl|auto]. }
  destruct (get_class _ _ klass sd (see w klass)) as [[t wg]| | |] eqn:Hg;
    try discriminate.
  apply get_class_seen in Hg as [_ Hgh]. simpl in Hgh.
  cbv beta iota delta [rbind] in H.
  destruct (match t with TNone => TDict [] | _ => t end) as [| | | | |dd];
    try discriminate.
  destruct (alloc (TDict dd) (w_heap wg)) as [[| | | |d] h1] eqn:Ha;
    try discriminate.
  rewrite Hgh in Ha.
  pose proof (sep_step_alloc_root _ _ _ _ _ _ Hs Hlo Ha) as Hst1.
  destruct (match doc_get h1 d "pillars" with
            | Some np => if truthy h1 np
                         then dict_merge lim (sd_pillar sd) np h1 else Ok h1
            | None => Ok h1
            end) as [h2| | |] eqn:Hmg; try discriminate.
  assert (Hst2 : sep_step lo roots (w_heap w) [d] h2).
  { destruct Hst1 as (Hs1 & Hrest).
    assert (Hm : sep_step lo ([d] ++ roots) h1 [] h2).
    { destruct (doc_get h1 d "pillars") as [np|] eqn:Hp;
        [destruct (truthy h1 np)|];
        try (injection Hmg as <-; by apply sep_step_refl).
      eapply sep_step_merge; eauto. intros pb ->.
      unfold doc_get in Hp.
      destruct (h1 !! d) as [[|dd1]|] eqn:Hd; try discriminate.
      eapply (separated_child lo ([d] ++ roots) h1 d); eauto. by left. }
    apply (sep_step_trans _ _ _ [d] h1 [] h2); [by split|done]. }
  clear Hst1 Hmg.
  destruct (doc_get h2 d "classes") as [cs|].
  - destruct (rec cs (with_heap wg h2)) as [[ns wn]| | |] eqn:Hr;
      try discriminate.
    simpl in H. injection H as <- <-.
    destruct (Hrec cs _ _ _ ([d] ++ roots) Hr) as (nn & Hst3 & Hns).
    { by destruct Hst2. }
    { simpl. destruct Hst2 as (_ & Hl & _). lia. }
    simpl in Hst3. exists (nn ++ [d]).
    split; [exact (sep_step_trans _ _ _ _ _ _ _ Hst2 Hst3)|].
    intros a Hin. apply vals_od_update in Hin as [Hin|Hin]; [by left|].
    right. apply in_or_app.
    apply vals_od_move_to_end, vals_od_update in Hin as [[<-|[]]|Hin]; auto.
    right. by left.
  - injection H as <- <-. exists [d]. split; [done|].
    intros a Hin. apply In_dict_set in Hin as [->|Hin]; auto.
    right. by left.
Qed.

Lemma expand_loop_classes_sep rec ks : forall ec0 w ec1 w1 roots,
  (forall cs, expansion_sep (rec cs)) ->
  expand_loop_classes os_walk render_yaml lim rec sd ks ec0 w
  = Ok (ec1, w1) ->
  separated lo roots (w_heap w) -> lo <= List.length (w_heap w) ->
  exists new, sep_step lo roots (w_heap w) new (w_heap w1) /\
              forall a, In a (map snd ec1) ->
                        In a (map snd ec0) \/ In a new.
Proof.
  induction ks as [|k ks IH]; intros ec0 w ec1 w1 roots Hrec H Hs Hlo;
    simpl in H.
  - injection H as <- <-. exists []. split; [by apply sep_step_refl|auto].
  - destruct (expand_class _ _ _ rec sd k ec0 w) as [[ec w2]| | |] eqn:Hc;
      try discriminate.
    simpl in H.
    destruct (expand_class_sep _ _ _ _ _ _ _ Hrec Hc Hs Hlo)
      as (n1 & Hst1 & He1).
    destruct (IH _ _ _ _ (n1 ++ roots) Hrec H) as (n2 & Hst2 & He2).
    { by destruct Hst1. }
    { destruct Hst1 as (_ & Hl & _). lia. }
    exists (n2 ++ n1). split; [exact (sep_step_trans _ _ _ _ _ _ _ Hst1 Hst2)|].
    intros a Hin. destruct (He2 a Hin) as [Hin'|Hin'].
    + destruct (He1 a Hin'); auto. right. apply in_or_app. by right.
    + right. apply in_or_app. by left.
Qed.

Lemma expand_classes_in_order_sep fuel : forall cte,
  expansion_sep
    (expand_classes_in_order os_walk glob render_yaml lim fuel sd None cte).
Proof.
  induction fuel as [|fuel IH]; intros cte w ec w' roots H Hs Hlo;
    [discriminate|].
  cbn [expand_classes_in_order] in H.
  set (l := match match cte, @None val with
                  | None, Some c => Some c
                  | Some v, Some c => if truthy (w_heap w) v then Some v
                                      else Some c
                  | c, None => c
                  end with
            | Some v => iter_val (w_heap w) v
            | None => Ok []
            end) in H.
  destruct l as [l| | |]; try discriminate. cbn [rbind] in H.
  destruct (expand_classes_glob glob l sd w) as [[ks wg]| | |] eqn:Hg;
    try discriminate.
  apply expand_classes_glob_seen in Hg as [_ Hgh]. cbn [rbind fst snd] in H.
  destruct (expand_loop_classes _ _ _ _ sd ks [] wg) as [[y wy]| | |] eqn:Hl;
    try discriminate.
  cbn [rbind] in H. injection H as <- <-.
  destruct (expand_loop_classes_sep _ _ _ _ _ _ roots
              (fun cs => IH (Some cs)) Hl) as (new & Hst & He).
  - by rewrite Hgh.
  - by rewrite Hgh.
  - rewrite Hgh in Hst. exists new. split; [done|].
    intros a Hin. by destruct (He a Hin) as [[]|].
Qed.

(** The call for the node. *)
Lemma expand_top_sep fuel m w ec w' roots :
  expand_classes_in_order os_walk glob render_yaml lim fuel sd (Some m) None w
  = Ok (ec, w') ->
  NoDup (w_seen w) ->
  separated lo roots (w_heap w) -> lo <= List.length (w_heap w) ->
  exists new ys,
    sep_step lo roots (w_heap w) new (w_heap w') /\
    (forall a, In a (map snd ys) -> In a new) /\
    (forall c, In c (keys ys) -> In c (w_seen w')) /\
    ec = (if truthy (w_heap w') (VRef m)
          then od_update ys [(sd_minion_id sd, m)] else ys).
Proof.
  intros H Hnd Hs Hlo. destruct fuel as [|fuel]; [discriminate|].
  cbn [expand_classes_in_order] in H.
  set (l := match match @None val, doc_get (w_heap w) m "classes" with
                  | None, Some c => Some c
                  | Some v, Some c => if truthy (w_heap w) v then Some v
                                      else Some c
                  | c, None => c
                  end with
            | Some v => iter_val (w_heap w) v
            | None => Ok []
            end) in H.
  destruct l as [l| | |]; try discriminate. cbn [rbind] in H.
  destruct (expand_classes_glob glob l sd w) as [[ks wg]| | |] eqn:Hg;
    try discriminate.
  apply expand_classes_glob_seen in Hg as [Hgs Hgh]. cbn [rbind fst snd] in H.
  destruct (expand_loop_classes _ _ _ _ sd ks [] wg) as [[y wy]| | |] eqn:Hl;
    try discriminate.
  cbn [rbind fst snd] in H.
  destruct (expand_loop_classes_sep _ _ _ _ _ _ roots
              (fun cs => expand_classes_in_order_sep fuel (Some cs)) Hl)
    as (new & Hst & He); [by rewrite Hgh|by rewrite Hgh|].
  destruct (expand_loop_classes_ok os_walk render_yaml lim _ _ _ _ _ _ _
              (fun cs => expand_classes_in_order_ok os_walk glob render_yaml
                           lim fuel sd (Some cs)) Hl)
    as (added & ys & Hsn & _ & Hy & Hp & _); [by rewrite Hgs|by intros k []|].
  simpl in Hy. subst y. rewrite Hgh in Hst.
  assert (Hkeys : forall c, In c (keys ys) -> In c (w_seen wy)).
  { intros c Hc. rewrite Hsn. apply in_or_app. right.
    eapply Permutation_in; eauto. }
  assert (Hnew : forall a, In a (map snd ys) -> In a new).
  { intros a Hin. by destruct (He a Hin) as [[]|]. }
  destruct (truthy (w_heap wy) (VRef m)) eqn:Ht; injection H as <- <-;
    exists new, ys; rewrite Ht; auto.
Qed.

End ExpansionStore.

(** ** Reading a placed document *)

(** The value of a document that is not a container. *)
Definition scalar_of (t : tree) : option val :=
  match t with
  | TNone => Some VNone
  | TBool b => Some (VBool b)
  | TInt z => Some (VInt z)
  | TStr s => Some (VStr s)
  | TList _ | TDict _ => None
  end.

Lemma alloc_scalar t s h v h' :
  scalar_of t = Some s -> alloc t h = (v, h') -> v = s /\ h' = h.
Proof. destruct t; simpl; intros [= <-] [= <- <-]; auto. Qed.

Lemma scalar_of_eq t s : scalar_of t = Some s -> py_eq s s = true.
Proof.
  destruct t; simpl; intros [= <-]; simpl; auto.
  - by destruct b.
  - apply Z.eqb_refl.
  - apply String.eqb_refl.
Qed.

Lemma alloc_all_get (dd : list (string * tree)) : forall h vs h1 key t,
  alloc_all (fun kv => alloc (snd kv)) dd h = (vs, h1) ->
  dict_get key dd = Some t ->
  exists v ha hb, dict_get key (combine (keys dd) vs) = Some v /\
                  alloc t ha = (v, hb) /\ exists n, h1 = hb ++ n.
Proof.
  induction dd as [|[k0 t0] dd IH]; intros h vs h1 key t H Hk; simpl in *;
    [discriminate|].
  destruct (alloc t0 h) as [v0 h2] eqn:Ha.
  destruct (alloc_all _ dd h2) as [vs1 h3] eqn:Hl. injection H as <- <-.
  simpl. destruct (String.eqb key k0).
  - injection Hk as <-. exists v0, h, h2. split; [done|]. split; [done|].
    by destruct (alloc_children _ _ _ _ Hl) as (Hext & _).
  - eauto.
Qed.

Lemma alloc_dict_get dd h D h1 key t :
  alloc (TDict dd) h = (VRef D, h1) -> dict_get key dd = Some t ->
  exists dD v ha hb, h1 !! D = Some (ODict dD) /\ keys dD = keys dd /\
    dict_get key dD = Some v /\ alloc t ha = (v, hb) /\
    exists n, h1 = hb ++ n.
Proof.
  intros Ha Hk. destruct (alloc_dict_root _ _ _ _ Ha) as (dD & HD & Hkeys).
  simpl in Ha. destruct (alloc_all _ dd h) as [vs h0] eqn:Hl.
  injection Ha as <- <-. rewrite lookup_snoc in HD. injection HD as <-.
  destruct (alloc_all_get _ _ _ _ _ _ Hl Hk) as (v & ha & hb & Hv & Hal & n & E).
  exists (combine (keys dd) vs), v, ha, hb. rewrite lookup_snoc.
  repeat split; auto. exists (n ++ [ODict (combine (keys dd) vs)]).
  by rewrite E, app_assoc.
Qed.

(** A node document with [pillars: {k: s}]. *)
Lemma alloc_pillar dd pp h D h1 k t s :
  alloc (TDict dd) h = (VRef D, h1) ->
  dict_get "pillars" dd = Some (TDict pp) -> dict_get k pp = Some t ->
  scalar_of t = Some s ->
  exists dD Xp dXp, h1 !! D = Some (ODict dD) /\ keys dD = keys dd /\
    dict_get "pillars" dD = Some (VRef Xp) /\
    h1 !! Xp = Some (ODict dXp) /\ dict_get k dXp = Some s.
Proof.
  intros Ha Hp Hk Hs.
  destruct (alloc_dict_get _ _ _ _ _ _ Ha Hp)
    as (dD & v & ha & hb & HD & Hkeys & Hv & Hal & n & E).
  assert (exists Xp, v = VRef Xp) as (Xp & ->).
  { simpl in Hal. destruct (alloc_all _ pp ha). injection Hal as <- _. eauto. }
  destruct (alloc_dict_get _ _ _ _ _ _ Hal Hk)
    as (dXp & v' & ha' & hb' & HX & _ & Hv' & Hal' & _).
  apply (alloc_scalar _ _ _ _ _ Hs) in Hal' as [-> _].
  exists dD, Xp, dXp. repeat split; auto.
  rewrite E, lookup_app_l; [done|]. by eapply lookup_lt_Some.
Qed.

(** ** From the expansion to the composition *)

Lemma separated_nil lo h : closed h -> separated lo [] h.
Proof.
  intros Hc. split; [done|]. split; [intros r []|].
  split; [by intros p (r & d & key & [] & _)|]. split.
  - intros q o p Hq Hp. split; [by intros []|].
    by intros [[]|(r & d & key & [] & _)].
  - by intros r1 r2 d1 d2 k1 k2 p [].
Qed.

Lemma separated_composing lo F roots h :
  separated lo (F :: roots) h -> h !! F = Some (ODict []) ->
  composing F roots h [] h /\ one_holder roots h.
Proof.
  intros (Hc & Hr & Hlo & HI & Hone) HF. split.
  - split; [|split; [by intros r []|split; [done|split]]].
    + intros q o p Hq Hp. destruct (HI q o p Hq Hp) as [Hn Hq']. split.
      * intros [->|Hin]; apply Hn; [by left|by right].
      * intros Hg.
        assert (Ho : owned (F :: roots) h p).
        { destruct Hg as [[->|Hin]|(r & Hin & d & key & Hd & Hk)].
          - left. by left.
          - left. by right.
          - right. exists r, d, key. split; [by right|done]. }
        destruct (Hq' Ho) as [<-|Hin]; [by left|by right].
    + exists []. split; [done|]. intros k v Hk. discriminate.
    + done.
  - intros r1 r2 d1 d2 k1 k2 p H1 H2. apply Hone; by right.
Qed.

Section NodeWins.

Variable os_walk : string -> list (string * list string).
Variable glob : string -> list string.
Variable render_yaml : string -> salt_data -> heap -> outcome tree.
Variable lim : nat.

(** The store when the composition of a node with a pillar [k] begins:
    the documents are separate, the node's document is the last one,
    and it still holds the value [s] of its file. *)
Lemma node_before_composition fuel sd h dd pp k t s node h1 np h2 h3 lg ec w2 :
  closed h -> sd_pillar sd < List.length h ->
  NoDup (keys dd) ->
  dict_get "pillars" dd = Some (TDict pp) -> dict_get k pp = Some t ->
  scalar_of t = Some s ->
  alloc (TDict dd) h = (VRef node, h1) ->
  alloc (TDict pp) h1 = (np, h2) ->
  dict_merge lim (sd_pillar sd) np h2 = Ok h3 ->
  expand_classes_in_order os_walk glob render_yaml lim fuel sd (Some node)
    None {| w_heap := h3; w_seen := []; w_log := lg |} = Ok (ec, w2) ->
  ~ In (sd_minion_id sd) (w_seen w2) ->
  let pd := List.length (w_heap w2) in
  let h4 := w_heap w2 ++ [ODict []] in
  exists roots pre,
    separated (List.length h) (pd :: roots) h4 /\
    ~ In pd roots /\
    map snd ec = pre ++ [node] /\
    (forall r, In r pre -> In r roots /\ r <> node) /\
    In node roots /\ defines h4 k s node.
Proof.
  intros Hcl Hpil Hnd Hp Hk Hs Ha Hnp Hm He Hcol pd h4.
  set (lo := List.length h) in *.
  pose proof (sep_step_alloc_root lo [] h dd node h1 (separated_nil _ _ Hcl)
                (Nat.le_refl _) Ha) as Hst1.
  destruct Hst1 as (Hs1 & Hl1 & _ & _). simpl in Hs1.
  destruct (alloc_pillar _ _ _ _ _ _ _ _ Ha Hp Hk Hs)
    as (dD & Xp & dXp & HD & Hkeys & HpD & HX & HkX).
  assert (Hnode : node < List.length h1) by (by eapply lookup_lt_Some).
  pose proof (sep_step_alloc lo [node] h1 _ _ _ Hs1 Hnp) as Hst2.
  assert (Hst3 : sep_step lo [node] h2 [] h3).
  { eapply sep_step_merge; eauto; [by destruct Hst2|].
    intros pb E [E2|[]].
    destruct (alloc_shape _ _ _ _ Hnp) as (_ & _ & Hv).
    destruct (Hv pb E). lia. }
  pose proof (sep_step_trans _ _ _ _ _ _ _ Hst2 Hst3) as Hst13.
  simpl in Hst13.
  destruct (expand_top_sep os_walk glob render_yaml lim sd lo Hpil fuel node
              _ _ _ [node] He) as (new & ys & Hst4 & Hnew & Hys & Hec).
  { constructor. }
  { by destruct Hst13. }
  { simpl. destruct Hst13 as (_ & Hl & _). lia. }
  simpl in Hst4.
  pose proof (sep_step_trans _ _ _ _ _ _ _ Hst13 Hst4) as Hst14.
  rewrite app_nil_r in Hst14.
  destruct Hst14 as (Hs4 & Hl4 & Hn4 & Hf4).
  assert (Hpd : alloc (TDict []) (w_heap w2) = (VRef pd, h4)) by done.
  destruct (separated_alloc_root lo _ _ _ _ _ Hs4 ltac:(lia) Hpd)
    as (Hs5 & _ & _).
  assert (Hold : forall p, p < List.length (w_heap w2) ->
                           h4 !! p = w_heap w2 !! p).
  { intros p Hlt. by apply lookup_app_l. }
  assert (Hown : forall p, owned [node] h1 p -> h4 !! p = h1 !! p).
  { intros p Ho. rewrite <- Hf4 by done. apply Hold.
    apply lookup_lt_is_Some. rewrite Hf4 by done.
    apply lookup_lt_is_Some. by eapply owned_lt. }
  assert (HD4 : h4 !! node = Some (ODict dD)).
  { rewrite Hown; [done|]. left. by left. }
  assert (HX4 : h4 !! Xp = Some (ODict dXp)).
  { rewrite Hown; [done|]. right. exists node, dD, "pillars".
    split; [by left|done]. }
  assert (Ht : truthy (w_heap w2) (VRef node) = true).
  { simpl. rewrite <- Hold, HD4 by lia. destruct dD; [discriminate|done]. }
  rewrite Ht in Hec. unfold od_update in Hec. simpl in Hec.
  rewrite dict_set_notin in Hec by (intros Hin; apply Hcol; auto).
  exists (new ++ [node]), (map snd ys). split; [done|]. split; [|split; [|split]].
  - intros Hin. destruct Hs4 as (_ & Hr & _).
    destruct (Hr pd Hin) as (_ & d & Hd). apply lookup_lt_Some in Hd.
    unfold pd in Hd. lia.
  - subst ec. by rewrite map_app.
  - intros r Hr. apply Hnew in Hr. split; [apply in_or_app; by left|].
    specialize (Hn4 r Hr). lia.
  - split; [apply in_or_app; right; by left|].
    exists dD, Xp, dXp. rewrite Hkeys. auto.
Qed.

(** The node's pillar in the composition. *)
Lemma node_pillar_composed fuel minion_id sd w e w' dd pp k t s :
  expanded_dict_from_minion os_walk glob render_yaml lim fuel minion_id sd w
  = Ok (e, w') ->
  closed (w_heap w) -> sd_pillar sd < List.length (w_heap w) ->
  find_minion_file os_walk minion_id sd <> "" ->
  render_yaml (find_minion_file os_walk minion_id sd) sd (w_heap w)
  = Returns (TDict dd) ->
  NoDup (keys dd) ->
  dict_get "pillars" dd = Some (TDict pp) -> dict_get k pp = Some t ->
  scalar_of t = Some s ->
  ~ In (sd_minion_id sd) (w_seen w') ->
  exists P dP v,
    doc_get (w_heap w') (pillars_dict e) "pillars" = Some (VRef P) /\
    w_heap w' !! P = Some (ODict dP) /\
    dict_get k dP = Some v /\ py_eq v s = true.
Proof.
  intros H Hcl Hpil Hfile Hrender Hnd Hp Hk Hs Hcol.
  unfold expanded_dict_from_minion in H.
  apply String.eqb_neq in Hfile. rewrite Hfile, Hrender in H.
  cbn [negb lift rbind] in H.
  destruct (alloc (TDict dd) (w_heap w)) as [[| | | |node] h1] eqn:Ha;
    try discriminate.
  rewrite Hp in H.
  destruct (alloc (TDict pp) h1) as [np h2] eqn:Hnp.
  destruct (dict_merge lim (sd_pillar sd) np h2) as [h3| | |] eqn:Hm;
    try discriminate.
  cbn [rbind] in H.
  destruct (expand_classes_in_order _ _ _ _ fuel sd (Some node) None _)
    as [[ec w2]| | |] eqn:He; try discriminate.
  cbn [rbind] in H. unfold halloc in H.
  destruct (merge_docs lim _ (map snd ec) [] _) as [z| | |] eqn:Hz;
    try discriminate.
  cbn [rbind] in H.
  destruct (dedup_states [] (fst z)) as [sl| | |]; try discriminate.
  cbn [rbind] in H. injection H as <- <-. simpl in Hcol |- *.
  destruct (node_before_composition fuel sd _ _ _ _ _ _ _ _ _ _ _ _ _ _
              Hcl Hpil Hnd Hp Hk Hs Ha Hnp Hm He Hcol)
    as (roots & pre & Hsep & Hfresh & Hec & Hpre & Hnode & Hdef).
  destruct (separated_composing _ _ _ _ Hsep (lookup_snoc _ _)) as [Hc Hone].
  rewrite Hec in Hz.
  refine (last_definer_wins _ roots _ Hone Hfresh k s (scalar_of_eq _ _ Hs)
            lim pre node [] [] z Hc _ _ _ Hnode Hdef _ Hz).
  - apply NoDup_singleton.
  - intros r Hr [E|[]]. by destruct (Hpre r Hr).
  - intros r Hr. destruct (Hpre r Hr) as [Hin _]. split; [done|].
    destruct Hsep as (_ & Hr' & _). destruct (Hr' r) as (_ & d & Hd); eauto.
    by right.
  - intros r [].
Qed.

(** X1.  Node precedence in [expanded_dict_from_minion].  When the
    node's file renders to a mapping whose [pillars] mapping sets the
    key [k] to a scalar [s], the node id is not the name of a class that
    was loaded, and the call returns, then the composed pillars hold
    under [k] a value equal to [s] (Python's [==]), whatever the classes
    set for [k]. *)
Theorem node_pillar_wins fuel minion_id sd w e w' dd pp k t s :
  expanded_dict_from_minion os_walk glob render_yaml lim fuel minion_id sd w
  = Ok (e, w') ->
  closed (w_heap w) -> sd_pillar sd < List.length (w_heap w) ->
  find_minion_file os_walk minion_id sd <> "" ->
  render_yaml (find_minion_file os_walk minion_id sd) sd (w_heap w)
  = Returns (TDict dd) ->
  NoDup (keys dd) ->
  dict_get "pillars" dd = Some (TDict pp) -> dict_get k pp = Some t ->
  scalar_of t = Some s ->
  ~ In (sd_minion_id sd) (w_seen w') ->
  exists P dP v,
    doc_get (w_heap w') (pillars_dict e) "pillars" = Some (VRef P) /\
    w_heap w' !! P = Some (ODict dP) /\
    dict_get k dP = Some v /\ py_eq v s = true.
Proof. apply node_pillar_composed. Qed.

End NodeWins.

Lemma closed_start : closed (w_heap w_start).
Proof.
  intros q o p Hq Hp. destruct q as [|q]; [|discriminate].
  injection Hq as <-. destruct Hp.
Qed.

Lemma node_pillar_wins_witness :
  exists e w',
    expanded_dict_from_minion (fs_walk fs_override) (fs_glob fs_override)
      (fs_render fs_override) 10 10 "web" sd_web w_start = Ok (e, w') /\
    exists P dP v,
      doc_get (w_heap w') (pillars_dict e) "pillars" = Some (VRef P) /\
      w_heap w' !! P = Some (ODict dP) /\
      dict_get "k" dP = Some v /\ py_eq v (VInt 2) = true.
Proof.
  eexists _, _. split; [reflexivity|].
  apply (node_pillar_wins (fs_walk fs_override) (fs_glob fs_override)
           (fs_render fs_override) 10 10 "web" sd_web w_start _ _
           [("classes", TList [TStr "A"]); ("pillars", TDict [("k", TInt 2)])]
           [("k", TInt 2)] "k" (TInt 2) (VInt 2)).
  - reflexivity.
  - apply closed_start.
  - simpl. lia.
  - discriminate.
  - reflexivity.
  - apply NoDup_cons. split; [|apply NoDup_singleton].
    intros H. apply list_elem_of_singleton in H. discriminate.
  - reflexivity.
  - reflexivity.
  - reflexivity.
  - simpl. intros [H|[]]. discriminate.
Defined.

(** X2.  The composition of the documents of a node takes, for a pillar
    key, the value of the last document that sets it: when the
    documents are separate in the store, [D] sets [k] to the scalar [s]
    and every document after [D] has no pillars or pillars without [k],
    the composed pillars hold under [k] a value equal to [s]. *)
Theorem composition_last_definer lo F roots h0 k s lim pre D post st z :
  separated lo (F :: roots) h0 -> h0 !! F = Some (ODict []) ->
  ~ In F roots -> py_eq s s = true ->
  NoDup (D :: post) ->
  (forall r, In r pre -> In r roots /\ ~ In r (D :: post)) ->
  In D roots -> defines h0 k s D ->
  (forall r, In r post -> In r roots /\ leaves_out h0 k r) ->
  merge_docs lim F (pre ++ D :: post) st h0 = Ok z ->
  exists P dP v,
    doc_get (snd z) F "pillars" = Some (VRef P) /\
    snd z !! P = Some (ODict dP) /\
    dict_get k dP = Some v /\ py_eq v s = true.
Proof.
  intros Hsep HF Hfresh Hs Hnd Hpre HD Hdef Hpost H.
  destruct (separated_composing _ _ _ _ Hsep HF) as [Hc Hone].
  refine (last_definer_wins F roots h0 Hone Hfresh k s Hs lim pre D post st z
            Hc Hnd _ _ HD Hdef Hpost H).
  - intros r Hr. by destruct (Hpre r Hr).
  - intros r Hr. destruct (Hpre r Hr) as [Hin _]. split; [done|].
    destruct Hsep as (_ & Hr' & _). destruct (Hr' r) as (_ & d & Hd); eauto.
    by right.
Qed.

Lemma closed_nil : closed [].
Proof. intros q o p Hq. discriminate. Qed.

Lemma composition_last_definer_witness :
  let h0 :=
    [ODict [("k", VStr "c")]; ODict [("pillars", VRef 0)];
     ODict [("k", VStr "p")]; ODict [("pillars", VRef 2)];
     OList [VStr "x"]; ODict [("states", VRef 4)]; ODict []] in
  exists z, merge_docs 10 6 ([1] ++ 3 :: [5]) [] h0 = Ok z /\
    exists P dP v,
      doc_get (snd z) 6 "pillars" = Some (VRef P) /\
      snd z !! P = Some (ODict dP) /\
      dict_get "k" dP = Some v /\ py_eq v (VStr "p") = true.
Proof.
  intros h0. eexists. split; [reflexivity|].
  apply (composition_last_definer 0 6 [5; 3; 1] h0 "k" (VStr "p") 10
           [1] 3 [5] []).
  - pose proof (separated_nil 0 [] closed_nil) as H0.
    pose proof (separated_alloc_root 0 [] []
                  [("pillars", TDict [("k", TStr "c")])] 1 _ H0
                  (Nat.le_refl _) eq_refl) as (H1 & _).
    pose proof (separated_alloc_root 0 [1] _
                  [("pillars", TDict [("k", TStr "p")])] 3 _ H1
                  (Nat.le_0_l _) eq_refl) as (H2 & _).
    pose proof (separated_alloc_root 0 [3; 1] _
                  [("states", TList [TStr "x"])] 5 _ H2
                  (Nat.le_0_l _) eq_refl) as (H3 & _).
    exact (proj1 (separated_alloc_root 0 [5; 3; 1] _ [] 6 _ H3
                    (Nat.le_0_l _) eq_refl)).
  - reflexivity.
  - simpl. intros [H|[H|[H|[]]]]; discriminate.
  - reflexivity.
  - apply NoDup_cons. split; [|apply NoDup_singleton].
    intros H. apply list_elem_of_singleton in H. discriminate.
  - intros r [<-|[]]. split; [simpl; auto|].
    simpl. intros [H|[H|[]]]; discriminate.
  - simpl. auto.
  - exists [("pillars", VRef 2)], 2, [("k", VStr "p")].
    repeat split; try reflexivity. apply NoDup_singleton.
  - intros r [<-|[]]. split; [simpl; auto|].
    exists [("states", VRef 4)]. split; [reflexivity|by left].
  - reflexivity.
Defined.


Lemma fs_override_universe pat m :
  In m (fs_glob fs_override pat) ->
  In (get_class_from_file m (sd_path sd_web)) ["A"; "b"].
Proof.
  unfold fs_glob, dict_has. simpl.
  destruct (String.eqb pat "/srv/classes/A.yml") eqn:E1.
  { apply String.eqb_eq in E1. subst pat. intros [<-|[]]. by left. }
  destruct (String.eqb pat "/srv/nodes/web.yml") eqn:E2.
  { apply String.eqb_eq in E2. subst pat. intros [<-|[]]. right. by left. }
  intros [].
Qed.

Lemma class_expansion_once_witness :
  exists e w',
    expanded_dict_from_minion (fs_walk fs_override) (fs_glob fs_override)
      (fs_render fs_override) 10 5 "web" sd_web w_start = Ok (e, w') /\
    NoDup (w_seen w') /\ NoDup (classes_list e) /\
    (forall c, In c (classes_list e) -> In c (w_seen w')) /\
    (~ In (sd_minion_id sd_web) (w_seen w') ->
     Permutation (classes_list e) (w_seen w')).
Proof.
  eexists _, _. split; [reflexivity|].
  apply (proj2 (class_expansion_once (fs_walk fs_override)
                  (fs_glob fs_override) (fs_render fs_override) 10
                  ["A"; "b"] 5 "web" sd_web w_start fs_override_universe)).
  reflexivity.
Defined.

(** ** dict_merge with a mapping of scalars *)

(** What [a[key]] is after the step for [key], from what it was and
    from the scalar [b[key]]. *)
Definition merged_scalar (va : option val) (vb : val) : val :=
  match va with
  | Some x => if py_eq x vb then x else vb
  | None => vb
  end.

Lemma py_eq_scalar_refl v : (forall p, v <> VRef p) -> py_eq v v = true.
Proof.
  destruct v as [|b|z|s|q]; simpl; intros H; auto.
  - by destruct b.
  - apply Z.eqb_refl.
  - apply String.eqb_refl.
  - by destruct (H q).
Qed.

Lemma merged_scalar_again va vb :
  (forall p, vb <> VRef p) ->
  merged_scalar (Some (merged_scalar va vb)) vb = merged_scalar va vb.
Proof.
  intros Hs. unfold merged_scalar at 1.
  destruct (py_eq (merged_scalar va vb) vb) eqn:E; [done|].
  destruct va as [x|]; simpl in *.
  - destruct (py_eq x vb) eqn:E'; [congruence|].
    by rewrite py_eq_scalar_refl in E.
  - by rewrite py_eq_scalar_refl in E.
Qed.

Lemma In_keys_dict_get {A} k (d : list (string * A)) :
  In k (keys d) -> exists v, dict_get k d = Some v.
Proof.
  induction d as [|[k' v'] d IH]; simpl; [done|].
  destruct (String.eqb k k') eqn:E; [eauto|].
  apply String.eqb_neq in E. intros [?|?]; [congruence|auto].
Qed.

Lemma dict_set_same {A} key (v : A) d :
  dict_get key d = Some v -> dict_set key v d = d.
Proof.
  induction d as [|[k' v'] d IH]; simpl; [discriminate|].
  destruct (String.eqb key k') eqn:E.
  - intros [= ->]. done.
  - intros H. f_equal. auto.
Qed.

Lemma merge_key_scalar rec a b key h da db vb :
  h !! a = Some (ODict da) -> h !! b = Some (ODict db) ->
  dict_get key db = Some vb -> (forall p, vb <> VRef p) ->
  merge_key rec a b key h
  = Ok (<[a := ODict (dict_set key (merged_scalar (dict_get key da) vb) da)]> h)
  /\ dict_get key (dict_set key (merged_scalar (dict_get key da) vb) da)
     = Some (merged_scalar (dict_get key da) vb).
Proof.
  intros Ha Hb Hk Hs. split; [|apply dict_get_set_eq].
  unfold merge_key. rewrite Ha, Hb, Hk.
  assert (Hl : is_list h vb = false).
  { destruct vb as [| | | |q]; auto. by destruct (Hs q). }
  assert (Hd : is_dict h vb = false).
  { destruct vb as [| | | |q]; auto. by destruct (Hs q). }
  destruct (dict_get key da) as [va|] eqn:Hva; simpl.
  - rewrite Hl, Hd, !andb_false_r. destruct (py_eq va vb).
    + by rewrite dict_set_same, list_insert_id.
    + unfold set_item. by rewrite Ha.
  - unfold set_item. by rewrite Ha.
Qed.

Lemma merge_loop_scalars rec a b db ks : forall h da,
  h !! a = Some (ODict da) -> h !! b = Some (ODict db) -> a <> b ->
  (forall k v, dict_get k db = Some v -> forall p, v <> VRef p) ->
  (forall k, In k ks -> In k (keys db)) ->
  exists da',
    merge_loop rec a b (List.length db) ks h = Ok (<[a := ODict da']> h) /\
    (forall k vb, dict_get k db = Some vb -> In k ks ->
       dict_get k da' = Some (merged_scalar (dict_get k da) vb)) /\
    (forall k, ~ In k ks -> dict_get k da' = dict_get k da).
Proof.
  induction ks as [|key ks IH]; intros h da Ha Hb Hab Hs Hks; simpl;
    rewrite Hb, Nat.eqb_refl; simpl.
  - exists da. split; [by rewrite list_insert_id|]. split; [by intros k vb _ []|done].
  - destruct (In_keys_dict_get key db) as (vb & Hvb); [apply Hks; by left|].
    destruct (merge_key_scalar rec a b key h da db vb Ha Hb Hvb (Hs _ _ Hvb))
      as [-> Hget].
    simpl. set (da1 := dict_set key _ da) in *.
    assert (Ha1 : <[a := ODict da1]> h !! a = Some (ODict da1)).
    { apply list_lookup_insert_eq. by eapply lookup_lt_Some. }
    destruct (IH (<[a := ODict da1]> h) da1) as (da' & -> & Hin & Hout); auto.
    { by rewrite list_lookup_insert_ne. }
    { intros k Hk. apply Hks. by right. }
    exists da'. split; [by rewrite list_insert_insert_eq|]. split.
    + intros k vb' Hk Hk'.
      destruct (in_dec String.string_dec k ks) as [Hi|Hi].
      * rewrite (Hin _ _ Hk Hi). f_equal.
        destruct (String.eqb_spec key k) as [->|Hne].
        -- assert (vb' = vb) as -> by congruence. rewrite Hget.
           apply merged_scalar_again. eauto.
        -- unfold da1. by rewrite dict_get_set_ne.
      * destruct Hk' as [<-|Hk']; [|done].
        assert (vb' = vb) as -> by congruence. by rewrite Hout.
    + intros k Hk. rewrite Hout by (intros ?; apply Hk; by right).
      unfold da1. rewrite dict_get_set_ne; [done|]. intros ->. apply Hk. by left.
Qed.
(** X5.  Merging a mapping of scalars.  When every value of [b] is a
    scalar and [b] is not [a] itself, [dict_merge(a, b)] returns, it
    changes no cell but [a], and afterwards [a] has under each key of
    [b] the value of [b], or its own former value where that one is
    equal to [b]'s; the other keys of [a] keep their values. *)
Theorem dict_merge_scalars lim a b h da db :
  h !! a = Some (ODict da) -> h !! b = Some (ODict db) -> a <> b ->
  (forall k v, dict_get k db = Some v -> forall p, v <> VRef p) ->
  exists da',
    dict_merge (S lim) a (VRef b) h = Ok (<[a := ODict da']> h) /\
    (forall k vb, dict_get k db = Some vb ->
       dict_get k da' = Some (merged_scalar (dict_get k da) vb)) /\
    (forall k, dict_get k db = None -> dict_get k da' = dict_get k da).
Proof.
  intros Ha Hb Hab Hs. simpl. rewrite Hb.
  destruct (merge_loop_scalars (dict_merge lim) a b db (keys db) h da)
    as (da' & Hm & Hin & Hout); auto.
  exists da'. split; [done|]. split.
  - intros k vb Hk. apply Hin; [done|]. by eapply dict_get_In_keys.
  - intros k Hk. apply Hout. by apply dict_get_keys_None.
Qed.

Lemma dict_merge_scalars_witness :
  let h := [ODict [("x", VInt 1); ("y", VStr "a")];
            ODict [("x", VBool true); ("y", VStr "b"); ("z", VNone)]] in
  exists da',
    dict_merge 1 0 (VRef 1) h = Ok (<[0 := ODict da']> h) /\
    (forall k vb, dict_get k [("x", VBool true); ("y", VStr "b"); ("z", VNone)]
                  = Some vb ->
       dict_get k da'
       = Some (merged_scalar
                 (dict_get k [("x", VInt 1); ("y", VStr "a")]) vb)) /\
    (forall k, dict_get k [("x", VBool true); ("y", VStr "b"); ("z", VNone)]
               = None ->
       dict_get k da' = dict_get k [("x", VInt 1); ("y", VStr "a")]).
Proof.
  intros h.
  apply (dict_merge_scalars 0 0 1 h [("x", VInt 1); ("y", VStr "a")]
           [("x", VBool true); ("y", VStr "b"); ("z", VNone)]).
  - reflexivity.
  - reflexivity.
  - lia.
  - intros k v Hk p ->. simpl in Hk.
    repeat match type of Hk with
           | (if ?c then _ else _) = _ => destruct c
           end; discriminate.
Defined.

(** ** dict_merge never removes a key *)

Definition keys_kept (h h' : heap) : Prop :=
  forall p d, h !! p = Some (ODict d) ->
    exists d', h' !! p = Some (ODict d') /\
               forall k, In k (keys d) -> In k (keys d').

Lemma keys_kept_refl h : keys_kept h h.
Proof. intros p d Hp. eauto. Qed.

Lemma keys_kept_trans h1 h2 h3 :
  keys_kept h1 h2 -> keys_kept h2 h3 -> keys_kept h1 h3.
Proof.
  intros H12 H23 p d Hp. destruct (H12 p d Hp) as (d2 & Hp2 & Hk2).
  destruct (H23 p d2 Hp2) as (d3 & Hp3 & Hk3). eauto.
Qed.

Lemma keys_kept_insert_list h l xs ys :
  h !! l = Some (OList xs) -> keys_kept h (<[l := OList ys]> h).
Proof.
  intros Hl p d Hp. exists d. split; auto.
  rewrite list_lookup_insert_ne; auto. congruence.
Qed.

Lemma In_keys_dict_set {A} k k' (v : A) d :
  In k (keys d) \/ k = k' -> In k (keys (dict_set k' v d)).
Proof.
  rewrite keys_dict_set. destruct (mem k' (keys d)) eqn:E.
  - intros [?| ->]; [done|]. by apply mem_In.
  - intros [?| ->]; apply in_or_app; [by left|right; by left].
Qed.

Lemma set_item_keys a key v h h' :
  set_item a key v h = Ok h' ->
  keys_kept h h' /\
  exists da', h' !! a = Some (ODict da') /\ In key (keys da').
Proof.
  unfold set_item. destruct (h !! a) as [[|da]|] eqn:Ha; try discriminate.
  intros [= <-].
  assert (Hlt : a < List.length h) by (by eapply lookup_lt_Some).
  split.
  - intros p d Hp. destruct (decide (p = a)) as [->|Hne].
    + rewrite Ha in Hp. injection Hp as <-. eexists.
      split; [by apply list_lookup_insert_eq|].
      intros k Hk. apply In_keys_dict_set. by left.
    + exists d. split; auto. by rewrite list_lookup_insert_ne.
  - eexists. split; [by apply list_lookup_insert_eq|].
    apply In_keys_dict_set. by right.
Qed.

Lemma merge_key_keys rec a pb key h h' :
  (forall a b h h', rec a b h = Ok h' -> keys_kept h h') ->
  merge_key rec a pb key h = Ok h' ->
  keys_kept h h' /\
  exists da', h' !! a = Some (ODict da') /\ In key (keys da').
Proof.
  intros Hrec H. unfold merge_key in H.
  destruct (h !! a) as [[|da]|] eqn:Ha; try discriminate.
  destruct (h !! pb) as [[|db]|]; try discriminate.
  destruct (dict_get key db) as [vb|]; try discriminate.
  destruct (dict_get key da) as [va|] eqn:Hva; [|by eapply set_item_keys].
  assert (Hhas : forall h1, keys_kept h h1 ->
            keys_kept h h1 /\
            exists da', h1 !! a = Some (ODict da') /\ In key (keys da')).
  { intros h1 Hk. split; [done|]. destruct (Hk a da Ha) as (da' & Ha' & Hin).
    exists da'. split; [done|]. apply Hin. by eapply dict_get_In_keys. }
  destruct (is_list h va && is_list h vb).
  - destruct va as [| | | |la]; try discriminate.
    destruct vb as [| | | |lb]; try discriminate.
    destruct (h !! lb) as [[[|y ys]|]|] eqn:Hlb; try discriminate.
    destruct (py_eq y (VStr "^")).
    + apply set_item_keys in H as [Hk Hin]. split; [|done].
      eapply keys_kept_trans; [by eapply keys_kept_insert_list|done].
    + destruct (h !! la) as [[xs|]|] eqn:Hla; try discriminate.
      injection H as <-. apply Hhas. by eapply keys_kept_insert_list.
  - destruct (is_dict h va && is_dict h vb).
    + destruct va; try discriminate. apply Hhas. eauto.
    + destruct (py_eq va vb); [injection H as <-; apply Hhas, keys_kept_refl|].
      by eapply set_item_keys.
Qed.

Lemma merge_loop_keys_kept rec a pb n0 ks : forall h h',
  (forall a b h h', rec a b h = Ok h' -> keys_kept h h') ->
  merge_loop rec a pb n0 ks h = Ok h' -> keys_kept h h'.
Proof.
  induction ks as [|key ks IH]; intros h h' Hrec H; simpl in H;
    destruct (h !! pb) as [[|]|]; try discriminate;
    destruct (negb _); try discriminate.
  - injection H as <-. apply keys_kept_refl.
  - destruct (merge_key rec a pb key h) as [h1| | |] eqn:Hk; try discriminate.
    simpl in H. destruct (merge_key_keys _ _ _ _ _ _ Hrec Hk) as (Hk1 & _).
    eapply keys_kept_trans; eauto.
Qed.

Lemma merge_loop_has_keys rec a pb n0 ks : forall h h' da,
  (forall a b h h', rec a b h = Ok h' -> keys_kept h h') ->
  merge_loop rec a pb n0 ks h = Ok h' -> h !! a = Some (ODict da) ->
  exists da', h' !! a = Some (ODict da') /\
              forall k, In k ks -> In k (keys da').
Proof.
  induction ks as [|key ks IH]; intros h h' da Hrec H Ha; simpl in H;
    destruct (h !! pb) as [[|]|]; try discriminate;
    destruct (negb _); try discriminate.
  - injection H as <-. exists da. split; [done|]. intros k [].
  - destruct (merge_key rec a pb key h) as [h1| | |] eqn:Hk; try discriminate.
    simpl in H.
    destruct (merge_key_keys _ _ _ _ _ _ Hrec Hk) as (Hk1 & da1 & Ha1 & Hin1).
    pose proof (merge_loop_keys_kept _ _ _ _ _ _ _ Hrec H) as Hk2.
    destruct (IH _ _ _ Hrec H Ha1) as (da2 & Ha2 & Hin2).
    exists da2. split; [done|].
    intros k [<-|Hin]; [|auto].
    destruct (Hk2 a da1 Ha1) as (d' & Hd' & Hsub).
    rewrite Ha2 in Hd'. injection Hd' as <-. auto.
Qed.

Lemma dict_merge_keys_kept lim : forall a b h h',
  dict_merge lim a b h = Ok h' -> keys_kept h h'.
Proof.
  induction lim as [|lim IH]; intros a b h h' H; simpl in H; [discriminate|].
  destruct b as [| | |s|pb]; try discriminate.
  - destruct s; try discriminate. injection H as <-. apply keys_kept_refl.
  - destruct (h !! pb) as [[[|[]]|]|]; try discriminate.
    + injection H as <-. apply keys_kept_refl.
    + by eapply merge_loop_keys_kept.
Qed.

(** X6.  [dict_merge] removes no key: every mapping of the store keeps
    its keys, and when [b] is a mapping, [a] has afterwards every key
    of [b]. *)
Theorem dict_merge_keys lim a b h h' :
  dict_merge lim a b h = Ok h' ->
  keys_kept h h' /\
  forall pb da db, b = VRef pb -> h !! a = Some (ODict da) ->
    h !! pb = Some (ODict db) ->
    exists da', h' !! a = Some (ODict da') /\
                forall k, In k (keys db) -> In k (keys da').
Proof.
  intros H. split; [by eapply dict_merge_keys_kept|].
  intros pb da db -> Ha Hb. destruct lim as [|lim]; [discriminate|].
  simpl in H. rewrite Hb in H.
  exact (merge_loop_has_keys _ _ _ _ _ _ _ _ (dict_merge_keys_kept lim) H Ha).
Qed.

Lemma dict_merge_keys_witness :
  let h := [ODict [("x", VInt 1); ("l", VRef 2)];
            ODict [("l", VRef 3); ("y", VInt 5)];
            OList [VInt 1]; OList [VStr "^"; VInt 2]] in
  exists h', dict_merge 2 0 (VRef 1) h = Ok h' /\
    keys_kept h h' /\
    forall pb da db, VRef 1 = VRef pb -> h !! 0 = Some (ODict da) ->
      h !! pb = Some (ODict db) ->
      exists da', h' !! 0 = Some (ODict da') /\
                  forall k, In k (keys db) -> In k (keys da').
Proof.
  intros h. eexists. split; [reflexivity|].
  apply (dict_merge_keys 2 0 (VRef 1) h). reflexivity.
Defined.

(** ** Class names and their files *)

Lemma length_sapp a b :
  String.length (a +++ b) = String.length a + String.length b.
Proof. induction a as [|c a IH]; simpl; auto. Qed.

Lemma sapp_assoc a b c : (a +++ b) +++ c = a +++ (b +++ c).
Proof.
  unfold sapp. induction a as [|x a IH]; [done|].
  change (String x ((a +:+ b) +:+ c) = String x (a +:+ (b +:+ c))).
  f_equal. exact IH.
Qed.

Lemma substring_all s : String.substring 0 (String.length s) s = s.
Proof. induction s as [|c s IH]; simpl; auto. by f_equal. Qed.

Lemma substring_sapp_l x s :
  String.substring 0 (String.length x) (x +++ s) = x.
Proof.
  induction x as [|c x IH]; simpl.
  - by destruct s.
  - by f_equal.
Qed.

Lemma substring_sapp_r p q i n :
  String.substring (String.length p + i) n (p +++ q) = String.substring i n q.
Proof. induction p as [|c p IH]; simpl; auto. Qed.

Lemma drop_first_sapp p x : drop_first (String.length p) (p +++ x) = x.
Proof.
  unfold drop_first. rewrite length_sapp.
  replace (String.length p + String.length x - String.length p)
    with (String.length x) by lia.
  rewrite <- (Nat.add_0_r (String.length p)) at 1.
  rewrite substring_sapp_r. apply substring_all.
Qed.

Lemma drop_last_sapp x s : drop_last (String.length s) (x +++ s) = x.
Proof.
  unfold drop_last. rewrite length_sapp.
  replace (String.length x + String.length s - String.length s)
    with (String.length x) by lia.
  apply substring_sapp_l.
Qed.

Lemma endswith_sapp x s : endswith (x +++ s) s = true.
Proof.
  unfold endswith. rewrite length_sapp.
  replace (String.length x + String.length s - String.length s)
    with (String.length x + 0) by lia.
  rewrite substring_sapp_r, substring_all, String.eqb_refl. simpl.
  apply Nat.leb_le. lia.
Qed.

(** The last character decides [endswith] for a one-character
    suffix. *)
Lemma endswith_sapp_char a b c :
  b <> "" -> endswith (a +++ b) (String c "") = endswith b (String c "").
Proof.
  intros Hb. unfold endswith. rewrite length_sapp. simpl String.length.
  assert (0 < String.length b) by (destruct b; [done|simpl; lia]).
  replace (String.length a + String.length b - 1)
    with (String.length a + (String.length b - 1)) by lia.
  rewrite substring_sapp_r. f_equal.
  transitivity true; [|symmetry]; apply Nat.leb_le; lia.
Qed.
Fixpoint map_char (f : ascii -> ascii) (s : string) : string :=
  match s with
  | EmptyString => EmptyString
  | String c r => String (f c) (map_char f r)
  end.

Fixpoint last_char (s : string) : option ascii :=
  match s with
  | EmptyString => None
  | String c EmptyString => Some c
  | String _ r => last_char r
  end.

Definition swap_char (a b c : ascii) : ascii := if Ascii.eqb c a then b else c.

Lemma prefix_char a x r :
  String.prefix (String a "") (String x r) = Ascii.eqb a x.
Proof.
  simpl. destruct (ascii_dec a x) as [->|Hne].
  - rewrite Ascii.eqb_refl. by destruct r.
  - symmetry. by apply Ascii.eqb_neq.
Qed.

Lemma replace_char s a b :
  str_replace s (String a "") (String b "") = map_char (swap_char a b) s.
Proof.
  unfold str_replace. induction s as [|x r IH]; [done|].
  cbn [replace_go]. rewrite prefix_char.
  change (map_char (swap_char a b) (String x r))
    with (String (swap_char a b x) (map_char (swap_char a b) r)).
  unfold swap_char at 1. rewrite (Ascii.eqb_sym x a).
  simpl String.length. simpl Nat.sub.
  destruct (Ascii.eqb a x); simpl; by rewrite IH.
Qed.

Lemma str_contains_char c x r :
  str_contains (String c "") (String x r)
  = Ascii.eqb c x || str_contains (String c "") r.
Proof. cbn [str_contains]. by rewrite prefix_char. Qed.

Lemma map_char_sapp f a b :
  map_char f (a +++ b) = map_char f a +++ map_char f b.
Proof. induction a as [|x a IH]; [done|]. simpl. f_equal. exact IH. Qed.

Lemma map_char_id f s :
  (forall c, f c = c) -> map_char f s = s.
Proof. intros Hf. induction s as [|x r IH]; simpl; [done|]. by rewrite Hf, IH. Qed.

(** Dots to slashes and back. *)
Lemma swap_back s :
  str_contains "/" s = false ->
  map_char (swap_char "/" ".") (map_char (swap_char "." "/") s) = s.
Proof.
  induction s as [|x r IH]; [done|]. rewrite str_contains_char.
  intros H. apply orb_false_iff in H as [Hx Hr]. simpl. rewrite IH by done.
  f_equal. unfold swap_char. destruct (Ascii.eqb x ".") eqn:E.
  - apply Ascii.eqb_eq in E. by subst.
  - rewrite Ascii.eqb_sym in Hx. by rewrite Hx.
Qed.

Lemma swap_none s :
  str_contains "/" s = false -> map_char (swap_char "/" ".") s = s.
Proof.
  induction s as [|x r IH]; [done|]. rewrite str_contains_char.
  intros H. apply orb_false_iff in H as [Hx Hr]. simpl. rewrite IH by done.
  f_equal. unfold swap_char. rewrite Ascii.eqb_sym in Hx. by rewrite Hx.
Qed.

Lemma endswith_last s c :
  endswith s (String c "")
  = match last_char s with Some x => Ascii.eqb x c | None => false end.
Proof.
  induction s as [|x r IH]; [done|]. destruct r as [|y r].
  - unfold endswith. simpl. destruct (Ascii.eqb x c); done.
  - change (String x (String y r)) with (String x "" +++ String y r).
    rewrite endswith_sapp_char by done. exact IH.
Qed.

Lemma last_char_map f s : last_char (map_char f s) = option_map f (last_char s).
Proof.
  induction s as [|x r IH]; [done|]. destruct r as [|y r]; [done|].
  exact IH.
Qed.

Lemma last_char_in s x c :
  last_char s = Some x -> str_contains (String c "") s = false ->
  Ascii.eqb c x = false.
Proof.
  induction s as [|y r IH]; [done|]. rewrite str_contains_char.
  intros Hl H. apply orb_false_iff in H as [Hy Hr].
  destruct r as [|z r]; [by injection Hl as <-|]. by apply IH.
Qed.

Lemma endswith_swapped s :
  str_contains "/" s = false ->
  endswith (map_char (swap_char "." "/") s) "/" = endswith s ".".
Proof.
  intros H. rewrite !endswith_last, last_char_map.
  destruct (last_char s) as [x|] eqn:E; [|done]. simpl.
  pose proof (last_char_in _ _ _ E H) as Hx. unfold swap_char.
  destruct (Ascii.eqb x ".") eqn:E'; [done|]. by rewrite Ascii.eqb_sym.
Qed.

Lemma startswith_char s c :
  startswith s (String c "")
  = match s with String x _ => Ascii.eqb c x | EmptyString => false end.
Proof. unfold startswith. destruct s as [|x r]; [done|]. apply prefix_char. Qed.
Lemma path_join_plain a b :
  startswith b "/" = false -> a <> "" -> endswith a "/" = false ->
  path_join a b = a +++ "/" +++ b.
Proof.
  intros Hb Ha He. unfold path_join. rewrite Hb, He.
  destruct (String.eqb_spec a ""); [done|]. done.
Qed.

(** The directory of the classes: never empty, never with a slash at
    its end. *)
Lemma classes_dir path :
  let base := path_join path "classes" in
  base <> "" /\ endswith base "/" = false.
Proof.
  simpl. unfold path_join. simpl startswith. cbv iota.
  destruct (String.eqb path "" || endswith path "/").
  - split; [by destruct path|]. by rewrite endswith_sapp_char.
  - split; [by destruct path|].
    rewrite <- sapp_assoc. by rewrite endswith_sapp_char.
Qed.

Lemma from_file_strip base x path :
  base = path_join path "classes" ->
  get_class_from_file (base +++ "/" +++ x +++ ".yml") path
  = let f := str_replace x "/" "." in
    if endswith f ".init" then drop_last 5 f else f.
Proof.
  intros ->. unfold get_class_from_file.
  set (base := path_join path "classes").
  rewrite <- (sapp_assoc base "/").
  replace (String.length base + 1) with (String.length (base +++ "/"))
    by (rewrite length_sapp; simpl; lia).
  rewrite drop_first_sapp.
  change 4 with (String.length ".yml"). by rewrite drop_last_sapp.
Qed.

(** X7.  From a class name to its candidate files and back.  For a
    name with no slash, that neither begins nor ends with a dot and
    does not end in [.init], each of the three files that
    [get_class_paths] proposes is read back by [get_class_from_file] as
    the name itself. *)
Theorem class_paths_round_trip _class path :
  _class <> "" ->
  str_contains "/" _class = false ->
  startswith _class "." = false ->
  endswith _class "." = false ->
  endswith _class ".init" = false ->
  let '(straight, sub_init, sub_straight) := get_class_paths _class path in
  get_class_from_file straight path = _class /\
  get_class_from_file sub_init path = _class /\
  get_class_from_file sub_straight path = _class.
Proof.
  intros Hne Hsl Hdot Hend Hinit. unfold get_class_paths.
  destruct (classes_dir path) as [Hb1 Hb2].
  set (base := path_join path "classes") in *.
  rewrite (replace_char _class "." "/").
  set (y := map_char (swap_char "." "/") _class).
  assert (Hc : exists c r, _class = String c r).
  { destruct _class as [|c r]; [done|eauto]. }
  destruct Hc as (c & r & Ec).
  assert (Hc1 : Ascii.eqb "/" c = false).
  { rewrite Ec, str_contains_char in Hsl. by apply orb_false_iff in Hsl as [? _]. }
  assert (Hc2 : Ascii.eqb "." c = false).
  { by rewrite Ec, startswith_char in Hdot. }
  assert (Hy : y = String c (map_char (swap_char "." "/") r)).
  { unfold y. rewrite Ec. simpl. unfold swap_char at 1.
    rewrite Ascii.eqb_sym in Hc2. by rewrite Hc2. }
  rewrite (path_join_plain base (_class +++ ".yml")); auto.
  2:{ rewrite Ec, startswith_char. exact Hc1. }
  rewrite (path_join_plain base (y +++ ".yml")); auto.
  2:{ rewrite Hy, startswith_char. exact Hc1. }
  rewrite (path_join_plain base y); auto.
  2:{ rewrite Hy, startswith_char. exact Hc1. }
  rewrite (path_join_plain (base +++ "/" +++ y) "init.yml"); auto.
  2:{ by destruct base. }
  2:{ rewrite <- sapp_assoc, endswith_sapp_char by (by rewrite Hy).
      unfold y. by rewrite endswith_swapped. }
  split; [|split].
  - rewrite (from_file_strip base _class path eq_refl). cbv zeta.
    rewrite (replace_char _class "/" "."), swap_none by done.
    by rewrite Hinit.
  - replace (((base +++ "/" +++ y) +++ "/" +++ "init.yml"))
      with (base +++ "/" +++ (y +++ "/init") +++ ".yml").
    2:{ rewrite !sapp_assoc. do 3 f_equal. }
    rewrite (from_file_strip base (y +++ "/init") path eq_refl). cbv zeta.
    rewrite (replace_char (y +++ "/init") "/" "."), map_char_sapp.
    unfold y. rewrite swap_back by done.
    change (map_char (swap_char "/" ".") "/init") with ".init".
    rewrite endswith_sapp. change 5 with (String.length ".init").
    apply drop_last_sapp.
  - rewrite (from_file_strip base y path eq_refl). cbv zeta.
    rewrite (replace_char y "/" "."). unfold y. rewrite swap_back by done.
    by rewrite Hinit.
Qed.

Lemma class_paths_round_trip_witness :
  let '(straight, sub_init, sub_straight) :=
    get_class_paths "services.nginx" "/srv/saltclass" in
  get_class_from_file straight "/srv/saltclass" = "services.nginx" /\
  get_class_from_file sub_init "/srv/saltclass" = "services.nginx" /\
  get_class_from_file sub_straight "/srv/saltclass" = "services.nginx".
Proof.
  apply (class_paths_round_trip "services.nginx" "/srv/saltclass");
    [discriminate|reflexivity..].
Defined.

(** ** Globbing of class names *)

Lemma dedup_into_NoDup l : forall acc, NoDup acc -> NoDup (dedup_into acc l).
Proof.
  induction l as [|x l IH]; intros acc Hnd; simpl; [done|].
  apply IH. destruct (mem x acc) eqn:E; [done|].
  apply NoDup_app. split; [done|]. split; [|apply NoDup_singleton].
  intros y Hy Hx. apply list_elem_of_singleton in Hx. subst y.
  apply mem_not_In in E. apply E. by apply list_elem_of_In.
Qed.

Lemma dedup_into_all l : forall acc x,
  In x acc \/ In x l -> In x (dedup_into acc l).
Proof.
  induction l as [|y l IH]; intros acc x H; simpl.
  - by destruct H.
  - apply IH. destruct H as [H|[<-|H]]; auto; left.
    + destruct (mem y acc); [done|]. apply in_or_app. by left.
    + destruct (mem y acc) eqn:E; [by apply mem_In|].
      apply in_or_app. right. by left.
Qed.

(** The files that globbing finds for a class name. *)
Definition class_matches (glob : string -> list string)
  (_class path : string) : list string :=
  let '(straight, sub_init, sub_straight) := get_class_paths _class path in
  glob straight ++ glob sub_straight ++ glob sub_init.

Lemma glob_all_spec glob l path : forall w ks w',
  glob_all glob l path w = Ok (ks, w') ->
  forall c, In c ks <->
    exists cl m, In (VStr cl) l /\ In m (class_matches glob cl path) /\
                 c = get_class_from_file m path.
Proof.
  induction l as [|x l IH]; intros w ks w' H c.
  - injection H as <- <-. split; [done|]. by intros (cl & m & [] & _).
  - cbn [glob_all] in H. destruct x as [| | |cl0|]; try discriminate.
    destruct (match_class_glob glob cl0 path w) as [m0 w1] eqn:Hm.
    destruct (glob_all glob l path w1) as [[y w2]| | |] eqn:Hy;
      cbn [rbind fst snd] in H; try discriminate.
    injection H as <- <-.
    assert (Hm0 : m0 = map (fun m => get_class_from_file m path)
                         (class_matches glob cl0 path)).
    { unfold match_class_glob, class_matches in *.
      destruct (get_class_paths cl0 path) as [[s1 s2] s3].
      by injection Hm as <- _. }
    rewrite in_app_iff, (IH _ _ _ Hy c), Hm0, in_map_iff. split.
    + intros [(m & <- & Hin)|(cl & m & Hcl & Hin & ->)].
      * exists cl0, m. split; [by left|done].
      * exists cl, m. split; [by right|done].
    + intros (cl & m & [[= ->]|Hcl] & Hin & ->).
      * left. eauto.
      * right. eauto.
Qed.

(** X8.  [expand_classes_glob] returns each class name once; the names
    are exactly those that [get_class_from_file] gives for the files
    that globbing finds for the listed classes; the store and
    [seen_classes] are left alone. *)
Theorem expand_classes_glob_spec glob classes sd w ks w' :
  expand_classes_glob glob classes sd w = Ok (ks, w') ->
  NoDup ks /\
  (forall c, In c ks <->
     exists cl m, In (VStr cl) classes /\
                  In m (class_matches glob cl (sd_path sd)) /\
                  c = get_class_from_file m (sd_path sd)) /\
  w_seen w' = w_seen w /\ w_heap w' = w_heap w.
Proof.
  intros H. pose proof (expand_classes_glob_seen _ _ _ _ _ _ H) as Hw.
  unfold expand_classes_glob in H.
  destruct (glob_all glob classes (sd_path sd) w) as [[y w2]| | |] eqn:Hy;
    try discriminate.
  cbn [rbind fst snd] in H. injection H as <- <-.
  split; [apply dedup_into_NoDup, NoDup_nil_2|]. split; [|done].
  intros c. rewrite <- (glob_all_spec _ _ _ _ _ _ Hy c). split.
  - intros Hin. by apply dedup_into_In in Hin as [[]|Hin].
  - intros Hin. apply dedup_into_all. by right.
Qed.

Lemma expand_classes_glob_spec_witness :
  let fs := [("/srv/classes/a.yml", TDict []);
             ("/srv/classes/a/init.yml", TDict [])] in
  exists ks w',
    expand_classes_glob (fs_glob fs) [VStr "a"; VStr "a"] sd_web w_start
    = Ok (ks, w') /\ ks = ["a"] /\
    NoDup ks /\
    (forall c, In c ks <->
       exists cl m, In (VStr cl) [VStr "a"; VStr "a"] /\
                    In m (class_matches (fs_glob fs) cl (sd_path sd_web)) /\
                    c = get_class_from_file m (sd_path sd_web)) /\
    w_seen w' = w_seen w_start /\ w_heap w' = w_heap w_start.
Proof.
  intros fs. eexists _, _. split; [reflexivity|]. split; [reflexivity|].
  apply (expand_classes_glob_spec (fs_glob fs) [VStr "a"; VStr "a"] sd_web
           w_start).
  reflexivity.
Defined.
(** ** The environment and the states *)

(** X9.  [get_env_from_dict] returns the [environment] of the last
    document that has one, and the empty string when none has. *)
Theorem get_env_from_dict_last h l :
  ((forall d, In d l -> doc_get h d "environment" = None) ->
   get_env_from_dict h l = VStr "") /\
  (forall pre d post e, l = pre ++ d :: post ->
     doc_get h d "environment" = Some e ->
     (forall d', In d' post -> doc_get h d' "environment" = None) ->
     get_env_from_dict h l = e).
Proof.
  unfold get_env_from_dict. split.
  - intros Hn. induction l as [|d l IH] using rev_ind; [done|].
    rewrite fold_left_app. simpl. rewrite Hn by (apply in_or_app; right; by left).
    apply IH. intros d' Hd'. apply Hn. apply in_or_app. by left.
  - intros pre d post e -> Hd Hpost. rewrite fold_left_app. simpl. rewrite Hd.
    clear Hd. induction post as [|d' post IH] using rev_ind; [done|].
    rewrite fold_left_app. simpl.
    rewrite Hpost by (apply in_or_app; right; by left).
    apply IH. intros d0 Hd0. apply Hpost. apply in_or_app. by left.
Qed.

Lemma existsb_py_eq_app x l1 l2 :
  existsb (py_eq x) (l1 ++ l2) = existsb (py_eq x) l1 || existsb (py_eq x) l2.
Proof. apply existsb_app. Qed.

Lemma dedup_states_ok l : forall seen l',
  dedup_states seen l = Ok l' ->
  Forall (fun x => existsb (py_eq x) seen = false /\ In x l) l' /\
  ForallOrdPairs (fun x y => py_eq y x = false) l' /\
  (forall x, In x l -> existsb (py_eq x) (seen ++ l') = true).
Proof.
  induction l as [|x l IH]; intros seen l' H.
  - injection H as <-. split; [constructor|]. split; [constructor|]. by intros x [].
  - cbn [dedup_states] in H.
    assert (Hx : forall p, x <> VRef p).
    { intros p ->. discriminate. }
    assert (Hcase :
      (if existsb (py_eq x) seen then dedup_states seen l
       else x0 <- dedup_states (seen ++ [x]) l ;; Ok (x :: x0)) = Ok l').
    { by destruct x. }
    clear H. destruct (existsb (py_eq x) seen) eqn:E.
    + destruct (IH _ _ Hcase) as (Hf & Hp & Hall). split; [|split; [done|]].
      * eapply Forall_impl; [exact Hf|]. intros y [? ?]. split; [done|by right].
      * intros y [<-|Hy]; [|auto]. rewrite existsb_py_eq_app, E. done.
    + destruct (dedup_states (seen ++ [x]) l) as [r| | |] eqn:Hr;
        try discriminate.
      injection Hcase as <-. destruct (IH _ _ Hr) as (Hf & Hp & Hall).
      split; [|split].
      * constructor; [split; [done|by left]|].
        eapply Forall_impl; [exact Hf|]. intros y [Hy ?].
        rewrite existsb_py_eq_app in Hy. apply orb_false_iff in Hy as [? _].
        split; [done|by right].
      * constructor; [|done].
        eapply Forall_impl; [exact Hf|]. intros y [Hy _].
        rewrite existsb_py_eq_app in Hy. apply orb_false_iff in Hy as [_ Hy].
        simpl in Hy. by apply orb_false_iff in Hy as [? _].
      * intros y [<-|Hy].
        -- rewrite existsb_py_eq_app. simpl.
           rewrite py_eq_scalar_refl by done. by rewrite orb_true_r.
        -- specialize (Hall y Hy). rewrite <- app_assoc in Hall. exact Hall.
Qed.

Lemma dedup_states_total l : forall seen,
  (forall p, ~ In (VRef p) l) -> exists l', dedup_states seen l = Ok l'.
Proof.
  induction l as [|x l IH]; intros seen Hs; [by exists []|].
  assert (Hl : forall p, ~ In (VRef p) l) by (intros p Hp; apply (Hs p); by right).
  cbn [dedup_states].
  assert (Hgoal : exists l',
    (if existsb (py_eq x) seen then dedup_states seen l
     else x0 <- dedup_states (seen ++ [x]) l ;; Ok (x :: x0)) = Ok l').
  { destruct (existsb (py_eq x) seen); [by apply IH|].
    destruct (IH (seen ++ [x]) Hl) as (r & ->). simpl. eauto. }
  destruct x as [| | | |q]; try done. destruct (Hs q). by left.
Qed.

Lemma dedup_states_unhashable l p : forall seen,
  In (VRef p) l -> dedup_states seen l = Raise TypeError.
Proof.
  induction l as [|x l IH]; intros seen Hin; [destruct Hin|].
  cbn [dedup_states]. destruct Hin as [->|Hin]; [done|].
  destruct x; try done;
    (destruct (existsb _ seen); [by apply IH|by rewrite IH]).
Qed.

(** X10.  The states of a node.  When no state is a list or a mapping,
    the deduplication returns a list in which no two states are equal,
    with states of the input only and an equal of each of them; when
    some state is a list or a mapping it raises [TypeError]. *)
Theorem dedup_states_spec l :
  ((forall p, ~ In (VRef p) l) ->
   exists l', dedup_states [] l = Ok l' /\
     ForallOrdPairs (fun x y => py_eq y x = false) l' /\
     (forall x, In x l' -> In x l) /\
     (forall x, In x l -> existsb (py_eq x) l' = true)) /\
  (forall p, In (VRef p) l -> dedup_states [] l = Raise TypeError).
Proof.
  split.
  - intros Hs. destruct (dedup_states_total l [] Hs) as (l' & H).
    exists l'. split; [done|].
    destruct (dedup_states_ok _ _ _ H) as (Hf & Hp & Hall).
    split; [done|]. split; [|done].
    intros x Hx. rewrite Forall_forall in Hf.
    apply list_elem_of_In in Hx. by destruct (Hf x Hx).
  - intros p Hp. by eapply dedup_states_unhashable.
Qed.
(** ** Class names without a file *)

Definition glob_warning (c : string) : string :=
  c +++ ": Class globbing did not yield any results".

Lemma glob_all_unmatched glob path cs : forall w,
  (forall c, In c cs -> class_matches glob c path = []) ->
  glob_all glob (map VStr cs) path w
  = Ok ([], {| w_heap := w_heap w; w_seen := w_seen w;
               w_log := w_log w ++ map glob_warning cs |}).
Proof.
  induction cs as [|c cs IH]; intros w Hcs.
  - simpl. rewrite app_nil_r. by destruct w.
  - cbn [map glob_all].
    assert (Hm : match_class_glob glob c path w = ([], warn w (glob_warning c))).
    { specialize (Hcs c (or_introl eq_refl)).
      unfold match_class_glob, class_matches in *.
      destruct (get_class_paths c path) as [[s1 s2] s3]. by rewrite Hcs. }
    rewrite Hm, IH by (intros c' Hc'; apply Hcs; by right).
    cbn [rbind fst snd app warn w_heap w_seen w_log].
    by rewrite <- app_assoc.
Qed.

(** X11.  A class name for which globbing finds no file is skipped.
    When none of the listed names matches a file, the expansion loads
    nothing: it returns no entry, leaves the store and [seen_classes]
    as they are, and logs one warning for each name. *)
Theorem unmatched_classes_skipped
  os_walk glob render_yaml lim fuel sd p cs w :
  w_heap w !! p = Some (OList (map VStr cs)) ->
  (forall c, In c cs -> class_matches glob c (sd_path sd) = []) ->
  expand_classes_in_order os_walk glob render_yaml lim (S fuel) sd None
    (Some (VRef p)) w
  = Ok ([], {| w_heap := w_heap w; w_seen := w_seen w;
               w_log := w_log w ++ map glob_warning cs |}).
Proof.
  intros Hp Hcs. cbn [expand_classes_in_order iter_val]. rewrite Hp.
  cbn [rbind]. unfold expand_classes_glob.
  rewrite (glob_all_unmatched glob (sd_path sd) cs w Hcs).
  reflexivity.
Qed.

Lemma unmatched_classes_skipped_witness :
  let w := {| w_heap := [ODict []; OList [VStr "x"; VStr "y.z"]];
              w_seen := ["a"]; w_log := [] |} in
  expand_classes_in_order (fs_walk []) (fs_glob []) (fs_render []) 10 1
    sd_web None (Some (VRef 1)) w
  = Ok ([], {| w_heap := w_heap w; w_seen := w_seen w;
               w_log := w_log w ++ map glob_warning ["x"; "y.z"] |}).
Proof.
  intros w.
  apply (unmatched_classes_skipped (fs_walk []) (fs_glob []) (fs_render [])
           10 0 sd_web 1 ["x"; "y.z"] w).
  - reflexivity.
  - intros c _. unfold class_matches.
    by destruct (get_class_paths c (sd_path sd_web)) as [[s1 s2] s3].
Defined.

(** ** What the expander can change

    The expander writes through [dict_search_and_replace] only, which
    puts a string where a string was: keys, lengths, and every value
    that is not a string stay as they are. *)

Definition str_or_same (v v' : val) : Prop :=
  v' = v \/ exists a b, v = VStr a /\ v' = VStr b.

Definition retext_entry (kv kv' : string * val) : Prop :=
  fst kv' = fst kv /\ str_or_same (snd kv) (snd kv').

Definition retext_obj (o o' : obj) : Prop :=
  match o, o' with
  | OList l, OList l' => Forall2 str_or_same l l'
  | ODict d, ODict d' => Forall2 retext_entry d d'
  | _, _ => False
  end.

Definition retext (h h' : heap) : Prop := Forall2 retext_obj h h'.

Lemma str_or_same_trans v1 v2 v3 :
  str_or_same v1 v2 -> str_or_same v2 v3 -> str_or_same v1 v3.
Proof.
  intros [->|(a & b & -> & ->)] [->|(a' & b' & E & ->)].
  - by left.
  - right. eauto.
  - right. eauto.
  - right. eauto.
Qed.

Lemma retext_obj_refl o : retext_obj o o.
Proof.
  destruct o; simpl; apply Forall2_refl_of.
  - by left.
  - intros x. split; [done|by left].
Qed.

Lemma retext_obj_trans o1 o2 o3 :
  retext_obj o1 o2 -> retext_obj o2 o3 -> retext_obj o1 o3.
Proof.
  destruct o1, o2, o3; simpl; try tauto.
  - apply Forall2_trans_of, str_or_same_trans.
  - apply Forall2_trans_of. intros x y z [E1 K1] [E2 K2].
    split; [congruence|by eapply str_or_same_trans].
Qed.

Lemma retext_refl h : retext h h.
Proof. apply Forall2_refl_of, retext_obj_refl. Qed.

Lemma retext_trans h1 h2 h3 : retext h1 h2 -> retext h2 h3 -> retext h1 h3.
Proof. apply Forall2_trans_of, retext_obj_trans. Qed.

Lemma mono_retext old new h h' : mono old new h h' -> retext h h'.
Proof.
  intros H. eapply Forall2_impl; [exact H|].
  intros o o'. destruct o, o'; simpl; try tauto.
  - intros Hl. eapply Forall2_impl; [exact Hl|].
    intros v v' [K|[K1 K2]]; [by left|right; eauto].
  - intros Hd. eapply Forall2_impl; [exact Hd|].
    intros kv kv' [E K]. split; [done|].
    destruct K as [K|[K1 K2]]; [by left|right; eauto].
Qed.

Lemma dict_search_and_replace_retext lim old new d h h' :
  dict_search_and_replace lim old new d h = Ok h' -> retext h h'.
Proof.
  intros H. apply (mono_retext old new).
  by destruct (dict_search_and_replace_ok old new lim d h h' H).
Qed.

Lemma process_match_retext lim b re_str st h st' h' :
  process_match lim b re_str st h = Ok (st', h') -> retext h h'.
Proof.
  unfold process_match. destruct st as [_str v].
  destruct (startswith re_str "\").
  - destruct (dict_search_and_replace lim _ _ b h) as [h1| | |] eqn:H1;
      try discriminate.
    intros [= _ <-]. by eapply dict_search_and_replace_retext.
  - destruct (negb (startswith re_str "$")).
    + destruct (find_value_to_expand h (VRef b) _) as [[| | |e|]| | |];
        try discriminate.
      cbn [rbind].
      destruct (dict_search_and_replace lim _ _ b h) as [h1| | |] eqn:H1;
        try discriminate.
      intros [= _ <-]. by eapply dict_search_and_replace_retext.
    + destruct (find_value_to_expand h (VRef b) _) as [[| | |e|]| | |];
        try discriminate.
      cbn [rbind].
      destruct (dict_search_and_replace lim _ _ b h) as [h1| | |] eqn:H1;
        try discriminate.
      intros [= _ <-]. by eapply dict_search_and_replace_retext.
Qed.

Lemma process_matches_retext lim b ms : forall st h h',
  process_matches lim b ms st h = Ok h' -> retext h h'.
Proof.
  induction ms as [|m ms IH]; intros st h h' H; simpl in H.
  - injection H as <-. apply retext_refl.
  - destruct (process_match lim b m st h) as [[st1 h1]| | |] eqn:Hm;
      try discriminate.
    cbn [rbind fst snd] in H.
    eapply retext_trans; [by eapply process_match_retext|eauto].
Qed.

Lemma find_and_process_re_retext lim s v b h h' :
  find_and_process_re lim s v b h = Ok h' -> retext h h'.
Proof. apply process_matches_retext. Qed.
Lemma rec_if_dict_retext rec h v h' :
  (forall a h h', rec a h = Ok h' -> retext h h') ->
  rec_if_dict rec h v = Ok h' -> retext h h'.
Proof.
  intros Hrec. unfold rec_if_dict. destruct (is_dict h v).
  - destruct v; try discriminate. apply Hrec.
  - intros [= <-]. apply retext_refl.
Qed.

Lemma expand_list_retext lim b rec v n : forall x h h',
  (forall a h h', rec a h = Ok h' -> retext h h') ->
  expand_list lim b rec v x n h = Ok h' -> retext h h'.
Proof.
  induction n as [|n IH]; intros x h h' Hrec H; simpl in H.
  - injection H as <-. apply retext_refl.
  - destruct (h !! v) as [[l|]|]; try discriminate.
    destruct (l !! x) as [i|]; [|injection H as <-; apply retext_refl].
    destruct (rec_if_dict rec h i) as [h1| | |] eqn:H1; try discriminate.
    cbn [rbind] in H.
    destruct (match i with
              | VStr s => find_and_process_re lim s (VRef v) b h1
              | _ => Ok h1
              end) as [h2| | |] eqn:H2; try discriminate.
    cbn [rbind] in H.
    eapply retext_trans; [by eapply rec_if_dict_retext|].
    eapply retext_trans; [|by eapply IH].
    destruct i; try (injection H2 as <-; apply retext_refl).
    by eapply find_and_process_re_retext.
Qed.

Lemma expand_loop_retext lim b rec a ks : forall h h',
  (forall a h h', rec a h = Ok h' -> retext h h') ->
  expand_loop lim b rec a ks h = Ok h' -> retext h h'.
Proof.
  induction ks as [|k ks IH]; intros h h' Hrec H; simpl in H.
  - injection H as <-. apply retext_refl.
  - destruct (h !! a) as [[|da]|]; try discriminate.
    destruct (dict_get k da) as [v|]; try discriminate.
    match type of H with
    | (x <- ?e ;; _) = _ => destruct e as [h1| | |] eqn:H1; try discriminate
    end.
    cbn [rbind] in H. eapply retext_trans; [|by eapply IH].
    clear H. destruct (is_dict h v); [by eapply rec_if_dict_retext|].
    match type of H1 with
    | (x <- ?e ;; _) = _ => destruct e as [h0| | |] eqn:H0; try discriminate
    end.
    cbn [rbind] in H1.
    eapply retext_trans.
    + destruct v as [| | | |p]; try (injection H0 as <-; apply retext_refl).
      destruct (h !! p) as [[l|]|];
        try (injection H0 as <-; apply retext_refl).
      by eapply expand_list_retext.
    + destruct v; try (injection H1 as <-; apply retext_refl).
      by eapply find_and_process_re_retext.
Qed.

Lemma expand_variables_in_retext lim : forall b a h h',
  expand_variables_in lim b a h = Ok h' -> retext h h'.
Proof.
  induction lim as [|lim IH]; intros b a h h' H; simpl in H; [discriminate|].
  destruct (h !! a) as [[|da]|]; try discriminate.
  eapply expand_loop_retext; [|exact H]. intros a0 h0 h0'. apply IH.
Qed.

Lemma retext_dict d d' :
  Forall2 retext_entry d d' ->
  keys d' = keys d /\
  forall k v, dict_get k d = Some v ->
    exists v', dict_get k d' = Some v' /\ str_or_same v v'.
Proof.
  induction 1 as [|[k0 v0] [k0' v0'] d d' [E K] _ [IHk IHv]]; [done|].
  simpl in E. subst k0'. split; [simpl; by f_equal|].
  intros k v. simpl. destruct (String.eqb k k0); [|apply IHv].
  intros [= <-]. eauto.
Qed.

(** The result of [expand_variables] and the store after it. *)
Lemma expand_variables_shape lim a da h b h' :
  h !! a = Some (ODict da) ->
  expand_variables lim (VRef a) h = Ok (b, h') ->
  b = List.length h /\
  retext (h ++ [ODict da]) h' /\
  exists db, h' !! b = Some (ODict db) /\ keys db = keys da /\
    (forall k v, dict_get k da = Some v -> (forall s, v <> VStr s) ->
                 dict_get k db = Some v) /\
    (forall k s, dict_get k da = Some (VStr s) ->
                 exists s', dict_get k db = Some (VStr s')).
Proof.
  intros Ha H. unfold expand_variables in H. rewrite Ha in H.
  unfold halloc in H.
  destruct (expand_loop lim _ _ a (keys da) _) as [h2| | |] eqn:Hl;
    try discriminate.
  cbn [rbind] in H. injection H as <- <-.
  assert (Hr : retext (h ++ [ODict da]) h2).
  { eapply expand_loop_retext; [|exact Hl].
    intros a0 h0 h0'. apply expand_variables_in_retext. }
  split; [done|]. split; [done|].
  destruct (Forall2_lookup_l _ _ _ (List.length h) (ODict da) Hr
              (lookup_snoc _ _)) as (o' & Ho' & Hobj).
  destruct o' as [|db]; [done|]. simpl in Hobj.
  destruct (retext_dict _ _ Hobj) as [Hk Hv].
  exists db. split; [done|]. split; [done|]. split.
  - intros k v Hkv Hns. destruct (Hv k v Hkv) as (v' & Hv' & [->|(s & t & -> & _)]);
      [done|by destruct (Hns s)].
  - intros k s Hks. destruct (Hv k _ Hks) as (v' & Hv' & [->|(s0 & t & _ & ->)]);
      eauto.
Qed.

(** X12.  What [expand_variables] can change.  The call returns a new
    mapping with the keys of [a]; it puts strings where strings were,
    in the result and in the lists and mappings that [a] holds, and
    changes nothing else: no key, no length, and no value that is not a
    string, whatever the references are. *)
Theorem expand_variables_keeps_shape lim a da h b h' :
  h !! a = Some (ODict da) ->
  expand_variables lim (VRef a) h = Ok (b, h') ->
  b = List.length h /\
  retext (h ++ [ODict da]) h' /\
  exists db, h' !! b = Some (ODict db) /\ keys db = keys da /\
    (forall k v, dict_get k da = Some v -> (forall s, v <> VStr s) ->
                 dict_get k db = Some v) /\
    (forall k s, dict_get k da = Some (VStr s) ->
                 exists s', dict_get k db = Some (VStr s')).
Proof. apply expand_variables_shape. Qed.

Lemma expand_variables_keeps_shape_witness :
  let h := [OList [VStr "${x}"; VInt 3];
            ODict [("x", VStr "v"); ("n", VInt 1); ("l", VRef 0);
                   ("s", VStr "a ${x}")]] in
  exists b h',
    expand_variables 5 (VRef 1) h = Ok (b, h') /\
    b = List.length h /\
    retext (h ++ [ODict [("x", VStr "v"); ("n", VInt 1); ("l", VRef 0);
                         ("s", VStr "a ${x}")]]) h' /\
    exists db, h' !! b = Some (ODict db) /\
      keys db = ["x"; "n"; "l"; "s"] /\
      (forall k v, dict_get k [("x", VStr "v"); ("n", VInt 1); ("l", VRef 0);
                               ("s", VStr "a ${x}")] = Some v ->
                   (forall s, v <> VStr s) -> dict_get k db = Some v) /\
      (forall k s, dict_get k [("x", VStr "v"); ("n", VInt 1); ("l", VRef 0);
                               ("s", VStr "a ${x}")] = Some (VStr s) ->
                   exists s', dict_get k db = Some (VStr s')).
Proof.
  intros h. eexists _, _. split; [vm_compute; reflexivity|].
  exact (expand_variables_keeps_shape 5 1
           [("x", VStr "v"); ("n", VInt 1); ("l", VRef 0);
            ("s", VStr "a ${x}")] h _ _ eq_refl eq_refl).
Defined.

(** X13.  An escaped token.  For a match that begins with a backslash
    the expander makes no lookup: it takes the backslashes off the
    front of the match and puts the resulting string in every place
    that holds the original string and that the replacement reaches;
    the string it goes on with for the later matches is the original
    one. *)
Theorem escaped_token_unescaped lim b re_str _str v h st' h' :
  startswith re_str "\" = true ->
  process_match lim b re_str (_str, v) h = Ok (st', h') ->
  st' = (_str, v) /\
  forall pl, reached h b pl -> holds h pl (VStr _str) ->
    holds h' pl (VStr (str_replace _str re_str (lstrip_backslash re_str))).
Proof.
  intros Hesc H. unfold process_match in H. rewrite Hesc in H.
  destruct (dict_search_and_replace lim _ _ b h) as [h1| | |] eqn:H1;
    try discriminate.
  cbn [rbind] in H. injection H as <- <-. split; [done|].
  intros pl Hr Hp. by eapply dict_search_and_replace_ok.
Qed.

Lemma escaped_token_unescaped_witness :
  let h := [ODict [("k", VStr "a \${x}"); ("x", VStr "v")]] in
  exists st' h',
    process_match 5 0 "\${x}" ("a \${x}", VStr "a \${x}") h = Ok (st', h') /\
    st' = ("a \${x}", VStr "a \${x}") /\
    forall pl, reached h 0 pl -> holds h pl (VStr "a \${x}") ->
      holds h' pl (VStr (str_replace "a \${x}" "\${x}"
                           (lstrip_backslash "\${x}"))).
Proof.
  intros h. eexists _, _. split; [vm_compute; reflexivity|].
  apply (escaped_token_unescaped 5 0 "\${x}" "a \${x}" (VStr "a \${x}") h);
    reflexivity.
Defined.

(** ** Mappings have each key once

    A Python mapping has no key twice.  The store keeps this: a new
    key goes to the end, an old one keeps its place. *)

Definition well_keyed (h : heap) : Prop :=
  forall p d, h !! p = Some (ODict d) -> NoDup (keys d).

Lemma NoDup_keys_dict_set {A} k (v : A) d :
  NoDup (keys d) -> NoDup (keys (dict_set k v d)).
Proof.
  intros Hnd. rewrite keys_dict_set. destruct (mem k (keys d)) eqn:E; [done|].
  apply NoDup_app. split; [done|]. split; [|apply NoDup_singleton].
  intros x Hx Hk. apply list_elem_of_singleton in Hk. subst x.
  apply mem_not_In in E. apply E. by apply list_elem_of_In.
Qed.

Lemma well_keyed_insert h a o :
  well_keyed h -> (forall d, o = ODict d -> NoDup (keys d)) ->
  well_keyed (<[a := o]> h).
Proof.
  intros Hw Ho p d Hp.
  destruct (lookup_insert_inv _ _ _ _ _ Hp) as [[_ E]|[_ Hp']]; eauto.
Qed.

Lemma well_keyed_snoc h o :
  well_keyed h -> (forall d, o = ODict d -> NoDup (keys d)) ->
  well_keyed (h ++ [o]).
Proof.
  intros Hw Ho p d Hp. destruct (decide (p < List.length h)) as [L|L].
  - rewrite lookup_app_l in Hp by done. eauto.
  - assert (p = List.length h) as ->.
    { apply lookup_lt_Some in Hp. rewrite length_app in Hp. simpl in Hp. lia. }
    rewrite lookup_snoc in Hp. injection Hp as ->. eauto.
Qed.

Lemma set_item_well_keyed a key v h h' :
  set_item a key v h = Ok h' -> well_keyed h -> well_keyed h'.
Proof.
  unfold set_item. destruct (h !! a) as [[|da]|] eqn:Ha; try discriminate.
  intros [= <-] Hw. apply well_keyed_insert; [done|].
  intros d [= <-]. apply NoDup_keys_dict_set. eauto.
Qed.

Lemma merge_key_well_keyed rec a pb key h h' :
  (forall a b h h', rec a b h = Ok h' -> well_keyed h -> well_keyed h') ->
  merge_key rec a pb key h = Ok h' -> well_keyed h -> well_keyed h'.
Proof.
  intros Hrec H Hw. unfold merge_key in H.
  destruct (h !! a) as [[|da]|]; try discriminate.
  destruct (h !! pb) as [[|db]|]; try discriminate.
  destruct (dict_get key db) as [vb|]; try discriminate.
  destruct (dict_get key da) as [va|]; [|by eapply set_item_well_keyed].
  destruct (is_list h va && is_list h vb).
  - destruct va as [| | | |la]; try discriminate.
    destruct vb as [| | | |lb]; try discriminate.
    destruct (h !! lb) as [[[|y ys]|]|] eqn:Hlb; try discriminate.
    destruct (py_eq y (VStr "^")).
    + eapply set_item_well_keyed; [exact H|].
      apply well_keyed_insert; [done|discriminate].
    + destruct (h !! la) as [[xs|]|] eqn:Hla; try discriminate.
      injection H as <-. apply well_keyed_insert; [done|discriminate].
  - destruct (is_dict h va && is_dict h vb).
    + destruct va; try discriminate. eauto.
    + destruct (py_eq va vb); [by injection H as <-|].
      by eapply set_item_well_keyed.
Qed.

Lemma merge_loop_well_keyed rec a pb n0 ks : forall h h',
  (forall a b h h', rec a b h = Ok h' -> well_keyed h -> well_keyed h') ->
  merge_loop rec a pb n0 ks h = Ok h' -> well_keyed h -> well_keyed h'.
Proof.
  induction ks as [|key ks IH]; intros h h' Hrec H Hw; simpl in H;
    destruct (h !! pb) as [[|]|]; try discriminate;
    destruct (negb _); try discriminate.
  - by injection H as <-.
  - destruct (merge_key rec a pb key h) as [h1| | |] eqn:Hk; try discriminate.
    simpl in H. eapply IH; eauto. by eapply merge_key_well_keyed.
Qed.

Lemma dict_merge_well_keyed lim : forall a b h h',
  dict_merge lim a b h = Ok h' -> well_keyed h -> well_keyed h'.
Proof.
  induction lim as [|lim IH]; intros a b h h' H Hw; simpl in H; [discriminate|].
  destruct b as [| | |s|pb]; try discriminate.
  - destruct s; try discriminate. by injection H as <-.
  - destruct (h !! pb) as [[[|[]]|]|]; try discriminate.
    + by injection H as <-.
    + by eapply merge_loop_well_keyed.
Qed.

Lemma retext_well_keyed h h' : retext h h' -> well_keyed h -> well_keyed h'.
Proof.
  intros Hr Hw p d' Hp.
  destruct (Forall2_lookup_r _ _ _ _ _ Hr Hp) as (o & Ho & Hobj).
  destruct o as [|d]; [done|]. simpl in Hobj.
  destruct (retext_dict _ _ Hobj) as [-> _]. eauto.
Qed.
(** A parsed document in which no mapping has a key twice. *)
Fixpoint wf_tree (t : tree) : Prop :=
  match t with
  | TList l =>
      (fix all (l : list tree) : Prop :=
         match l with
         | [] => True
         | x :: r => wf_tree x /\ all r
         end) l
  | TDict d =>
      NoDup (keys d) /\
      (fix all (d : list (string * tree)) : Prop :=
         match d with
         | [] => True
         | (_, x) :: r => wf_tree x /\ all r
         end) d
  | _ => True
  end.

Lemma wf_tree_list l : wf_tree (TList l) -> Forall wf_tree l.
Proof.
  simpl. induction l as [|x l IH]; [constructor|].
  intros [Hx Hl]. constructor; auto.
Qed.

Lemma wf_tree_dict d :
  wf_tree (TDict d) ->
  NoDup (keys d) /\ Forall (fun kv => wf_tree (snd kv)) d.
Proof.
  simpl. intros [Hnd H]. split; [done|]. clear Hnd.
  induction d as [|[k x] d IH]; [constructor|].
  destruct H as [Hx Hd]. constructor; auto.
Qed.

Lemma alloc_all_well_keyed {A} (f : A -> heap -> val * heap)
  (P : A -> Prop) l :
  Forall (fun x => forall h v h', f x h = (v, h') -> P x ->
                                  well_keyed h -> well_keyed h') l ->
  forall h vs h', alloc_all f l h = (vs, h') -> Forall P l ->
                  well_keyed h -> well_keyed h'.
Proof.
  induction 1 as [|x l Hx _ IH]; intros h vs h' H HP Hw; simpl in H.
  - by injection H as <- <-.
  - destruct (f x h) as [v h1] eqn:Hf.
    destruct (alloc_all f l h1) as [vs1 h2] eqn:Hl. injection H as <- <-.
    apply Forall_cons in HP as [HPx HPl]. eauto.
Qed.

Lemma alloc_well_keyed t : forall h v h',
  alloc t h = (v, h') -> wf_tree t -> well_keyed h -> well_keyed h'.
Proof.
  induction t as [|b|z|s|l IH|d IH] using tree_induction;
    intros h v h' H Hwf Hw; try (simpl in H; by injection H as <- <-).
  - simpl in H. destruct (alloc_all alloc l h) as [vs h1] eqn:Hl.
    injection H as <- <-. apply well_keyed_snoc; [|discriminate].
    exact (alloc_all_well_keyed alloc wf_tree l IH _ _ _ Hl
             (wf_tree_list _ Hwf) Hw).
  - destruct (wf_tree_dict _ Hwf) as [Hnd Hall].
    assert (Hv : exists node, v = VRef node).
    { simpl in H. destruct (alloc_all _ d h). injection H as <- _. eauto. }
    destruct Hv as (node & ->).
    destruct (alloc_dict_root _ _ _ _ H) as (d' & Hd' & Hk).
    simpl in H. destruct (alloc_all _ d h) as [vs h1] eqn:Hl.
    injection H as <- <-. rewrite lookup_snoc in Hd'. injection Hd' as <-.
    apply well_keyed_snoc.
    + exact (alloc_all_well_keyed (fun kv => alloc (snd kv))
               (fun kv => wf_tree (snd kv)) d IH _ _ _ Hl Hall Hw).
    + intros d0 [= <-]. by rewrite Hk.
Qed.
Lemma dict_get_entry {A} k (v : A) d : dict_get k d = Some v -> In (k, v) d.
Proof.
  induction d as [|[k' v'] d IH]; simpl; [discriminate|].
  destruct (String.eqb k k') eqn:E; [|auto].
  apply String.eqb_eq in E. subst k'. intros [= ->]. by left.
Qed.

Section WellKeyed.

Variable os_walk : string -> list (string * list string).
Variable glob : string -> list string.
Variable render_yaml : string -> salt_data -> heap -> outcome tree.
Variable lim : nat.

(** The loader returns mappings as Python has them. *)
Hypothesis render_wf :
  forall f sd h t, render_yaml f sd h = Returns t -> wf_tree t.

Lemma get_class_wf _class sd w t w' :
  get_class os_walk render_yaml _class sd w = Ok (t, w') -> wf_tree t.
Proof.
  unfold get_class.
  destruct (get_class_paths _class (sd_path sd)) as [[s1 s2] s3].
  repeat match goal with
         | |- context [if ?b then _ else _] => destruct b
         | |- context [lift ?o] => destruct o eqn:?; simpl
         end; intros [= <- <-]; eauto.
  simpl. split; [constructor|done].
Qed.

Definition expansion_wk
  (f : world -> res (list (string * addr) * world)) : Prop :=
  forall w ec w', f w = Ok (ec, w') ->
    well_keyed (w_heap w) -> well_keyed (w_heap w').

Lemma expand_class_wk rec sd klass ec0 w ec1 w1 :
  (forall cs, expansion_wk (rec cs)) ->
  expand_class os_walk render_yaml lim rec sd klass ec0 w = Ok (ec1, w1) ->
  well_keyed (w_heap w) -> well_keyed (w_heap w1).
Proof.
  intros Hrec H Hw. unfold expand_class in H.
  destruct (mem klass (w_seen w)); [by injection H as <- <-|].
  destruct (get_class _ _ klass sd (see w klass)) as [[t wg]| | |] eqn:Hg;
    try discriminate.
  pose proof (get_class_wf _ _ _ _ _ Hg) as Hwf.
  apply get_class_seen in Hg as [_ Hgh]. simpl in Hgh.
  cbv beta iota delta [rbind] in H.
  assert (Hwf' : wf_tree (match t with TNone => TDict [] | _ => t end)).
  { destruct t; try done. simpl. split; [constructor|done]. }
  destruct (match t with TNone => TDict [] | _ => t end) as [| | | | |dd];
    try discriminate.
  destruct (alloc (TDict dd) (w_heap wg)) as [[| | | |d] h1] eqn:Ha;
    try discriminate.
  rewrite Hgh in Ha. pose proof (alloc_well_keyed _ _ _ _ Ha Hwf' Hw) as Hw1.
  destruct (match doc_get h1 d "pillars" with
            | Some np => if truthy h1 np
                         then dict_merge lim (sd_pillar sd) np h1 else Ok h1
            | None => Ok h1
            end) as [h2| | |] eqn:Hmg; try discriminate.
  assert (Hw2 : well_keyed h2).
  { destruct (doc_get h1 d "pillars") as [np|];
      [destruct (truthy h1 np)|]; try (by injection Hmg as <-).
    by eapply dict_merge_well_keyed. }
  destruct (doc_get h2 d "classes") as [cs|].
  - destruct (rec cs (with_heap wg h2)) as [[ns wn]| | |] eqn:Hr;
      try discriminate.
    simpl in H. injection H as <- <-. by eapply Hrec.
  - by injection H as <- <-.
Qed.

Lemma expand_loop_classes_wk rec sd ks : forall ec0 w ec1 w1,
  (forall cs, expansion_wk (rec cs)) ->
  expand_loop_classes os_walk render_yaml lim rec sd ks ec0 w
  = Ok (ec1, w1) ->
  well_keyed (w_heap w) -> well_keyed (w_heap w1).
Proof.
  induction ks as [|k ks IH]; intros ec0 w ec1 w1 Hrec H Hw; simpl in H.
  - by injection H as <- <-.
  - destruct (expand_class _ _ _ rec sd k ec0 w) as [[ec w2]| | |] eqn:Hc;
      try discriminate.
    simpl in H. eapply IH; eauto. by eapply expand_class_wk.
Qed.

Lemma expand_classes_in_order_wk fuel : forall sd md cte,
  expansion_wk
    (expand_classes_in_order os_walk glob render_yaml lim fuel sd md cte).
Proof.
  induction fuel as [|fuel IH]; intros sd md cte w ec w' H Hw;
    [discriminate|].
  cbn [expand_classes_in_order] in H.
  match type of H with
  | (l <- ?e ;; _) = _ => destruct e as [l| | |]; try discriminate
  end.
  cbn [rbind] in H.
  destruct (expand_classes_glob glob l sd w) as [[ks wg]| | |] eqn:Hg;
    try discriminate.
  apply expand_classes_glob_seen in Hg as [_ Hgh]. cbn [rbind fst snd] in H.
  destruct (expand_loop_classes _ _ _ _ sd ks [] wg) as [[y wy]| | |] eqn:Hl;
    try discriminate.
  cbn [rbind fst snd] in H.
  assert (Hwy : well_keyed (w_heap wy)).
  { eapply expand_loop_classes_wk; [|exact Hl|by rewrite Hgh].
    intros cs. apply IH. }
  destruct md as [m|]; [|by injection H as <- <-].
  destruct (truthy (w_heap wy) (VRef m)); by injection H as <- <-.
Qed.

Lemma merge_docs_wk docs : forall pd st h z,
  merge_docs lim pd docs st h = Ok z -> well_keyed h -> well_keyed (snd z).
Proof.
  induction docs as [|d docs IH]; intros pd st h z H Hw.
  - by injection H as <-.
  - cbn [merge_docs] in H.
    match type of H with
    | (h1 <- ?e ;; _) = _ => destruct e as [h1| | |] eqn:H1; try discriminate
    end.
    cbn [rbind] in H.
    match type of H with
    | (st <- ?e ;; _) = _ => destruct e as [st1| | |]; try discriminate
    end.
    cbn [rbind] in H. eapply IH; [exact H|].
    destruct (doc_get h d "pillars"); [|by injection H1 as <-].
    by eapply dict_merge_well_keyed.
Qed.

Lemma expanded_dict_from_minion_wk fuel minion_id sd w e w' :
  expanded_dict_from_minion os_walk glob render_yaml lim fuel minion_id sd w
  = Ok (e, w') ->
  well_keyed (w_heap w) -> well_keyed (w_heap w').
Proof.
  intros H Hw. unfold expanded_dict_from_minion in H.
  match type of H with
  | (x <- ?e ;; _) = _ => destruct e as [[t w1]| | |] eqn:Hx; try discriminate
  end.
  assert (Ht : wf_tree t /\ w_heap w1 = w_heap w).
  { destruct (negb _).
    - destruct (render_yaml _ sd (w_heap w)) as [t0|] eqn:Hr; try discriminate.
      simpl in Hx. injection Hx as <- <-. eauto.
    - injection Hx as <- <-. split; [|done]. simpl. split; [constructor|done]. }
  destruct Ht as [Hwf Hh]. cbn [rbind] in H.
  destruct t as [| | | | |dd]; try discriminate.
  destruct (alloc (TDict dd) (w_heap w1)) as [[| | | |node] h1] eqn:Ha;
    try discriminate.
  rewrite Hh in Ha. pose proof (alloc_well_keyed _ _ _ _ Ha Hwf Hw) as Hw1.
  destruct (match dict_get "pillars" dd with
            | Some p => alloc p h1
            | None => alloc (TDict []) h1
            end) as [np h2] eqn:Hnp.
  assert (Hw2 : well_keyed h2).
  { destruct (dict_get "pillars" dd) as [p|] eqn:Hp.
    - eapply alloc_well_keyed; eauto.
      destruct (wf_tree_dict _ Hwf) as [_ Hall]. rewrite Forall_forall in Hall.
      apply dict_get_entry, list_elem_of_In in Hp. exact (Hall _ Hp).
    - eapply alloc_well_keyed; eauto. simpl. split; [constructor|done]. }
  destruct (dict_merge lim (sd_pillar sd) np h2) as [h3| | |] eqn:Hm;
    try discriminate.
  pose proof (dict_merge_well_keyed _ _ _ _ _ Hm Hw2) as Hw3.
  cbn [rbind] in H.
  destruct (expand_classes_in_order _ _ _ _ fuel sd (Some node) None _)
    as [[ec w2]| | |] eqn:He; try discriminate.
  cbn [rbind] in H. unfold halloc in H.
  pose proof (expand_classes_in_order_wk _ _ _ _ _ _ _ He Hw3) as Hw4.
  destruct (merge_docs lim _ (map snd ec) [] _) as [z| | |] eqn:Hz;
    try discriminate.
  cbn [rbind] in H.
  destruct (dedup_states [] (fst z)) as [sl| | |]; try discriminate.
  cbn [rbind] in H. injection H as <- <-. simpl.
  eapply merge_docs_wk; [exact Hz|].
  apply well_keyed_snoc; [done|]. intros d [= <-]. constructor.
Qed.

End WellKeyed.

(** ** The node's pillar in the result of [get_pillars] *)

Lemma od_update_other {A} (e : list (string * A)) : forall d k,
  ~ In k (keys e) -> dict_get k (od_update d e) = dict_get k d.
Proof.
  unfold od_update. induction e as [|[k0 v0] e IH]; intros d k Hk; [done|].
  simpl in *. rewrite IH by tauto. apply dict_get_set_ne. tauto.
Qed.

Lemma od_update_get {A} (e : list (string * A)) : forall d k v,
  NoDup (keys e) -> dict_get k e = Some v ->
  dict_get k (od_update d e) = Some v.
Proof.
  induction e as [|[k0 v0] e IH]; intros d k v Hnd Hk; [discriminate|].
  simpl in Hnd, Hk. apply NoDup_cons in Hnd as [Hk0 Hnd].
  change (od_update d ((k0, v0) :: e)) with (od_update (dict_set k0 v0 d) e).
  destruct (String.eqb k k0) eqn:E.
  - apply String.eqb_eq in E. subst k0. injection Hk as ->.
    rewrite od_update_other; [apply dict_get_set_eq|].
    intros Hin. apply Hk0. by apply list_elem_of_In.
  - by apply IH.
Qed.

Lemma py_eq_not_str v s :
  py_eq v s = true -> (forall z, s <> VStr z) -> forall z, v <> VStr z.
Proof.
  intros E Hs z ->. destruct s as [| | |z'|]; try discriminate.
  by destruct (Hs z').
Qed.

(** X14.  Node precedence in the result of [get_pillars].  When the
    loader returns mappings without a repeated key, the node's file
    sets the pillar [k] to a scalar [s] that is not a string, the node
    id is not the name of a loaded class, and [get_pillars] returns,
    then the returned mapping holds under [k] a value equal to [s],
    whatever the classes of the node set for [k] and whatever the
    expansion of the variables replaced. *)
Theorem node_pillar_resolved
  os_walk glob render_yaml lim fuel minion_id sd w out w' dd pp k t s :
  get_pillars os_walk glob render_yaml lim fuel minion_id sd w
  = Ok (out, w') ->
  (forall f sd h t, render_yaml f sd h = Returns t -> wf_tree t) ->
  closed (w_heap w) -> well_keyed (w_heap w) ->
  sd_pillar sd < List.length (w_heap w) ->
  find_minion_file os_walk minion_id sd <> "" ->
  render_yaml (find_minion_file os_walk minion_id sd) sd (w_heap w)
  = Returns (TDict dd) ->
  dict_get "pillars" dd = Some (TDict pp) -> dict_get k pp = Some t ->
  scalar_of t = Some s -> (forall z, s <> VStr z) ->
  ~ In (sd_minion_id sd) (w_seen w') ->
  exists dout v,
    w_heap w' !! out = Some (ODict dout) /\
    dict_get k dout = Some v /\ py_eq v s = true.
Proof.
  intros H Hwf Hcl Hwk Hpil Hfile Hrender Hp Hk Hs Hns Hcol.
  unfold get_pillars in H.
  destruct (expanded_dict_from_minion _ _ _ _ fuel minion_id sd w)
    as [[e w1]| | |] eqn:He; try discriminate.
  cbn [rbind] in H.
  pose proof (expanded_dict_from_minion_wk _ _ _ _ Hwf _ _ _ _ _ _ He Hwk)
    as Hwk1.
  assert (Hseen : forall h, w_seen (with_heap w1 h) = w_seen w1) by done.
  destruct (wf_tree_dict _ (Hwf _ _ _ _ Hrender)) as [Hnd _].
  assert (Hcomp : ~ In (sd_minion_id sd) (w_seen w1) ->
            exists P dP v,
              doc_get (w_heap w1) (pillars_dict e) "pillars" = Some (VRef P) /\
              w_heap w1 !! P = Some (ODict dP) /\
              dict_get k dP = Some v /\ py_eq v s = true).
  { intros Hc. eapply node_pillar_composed; eauto. }
  destruct (doc_get (w_heap w1) (pillars_dict e) "pillars") as [p|] eqn:Hdp.
  2:{ exfalso.
      destruct (halloc (ODict []) (w_heap w1)) as [a0 h0].
      destruct (expand_variables lim (VRef a0) h0) as [[b h2]| | |];
        try discriminate.
      cbn [rbind] in H. unfold halloc in H.
      destruct (_ !! b) as [[|de]|]; try discriminate.
      injection H as <- <-. by destruct (Hcomp Hcol) as (P & dP & v & ? & _). }
  destruct (expand_variables lim p (w_heap w1)) as [[b h2]| | |] eqn:Hev;
    try discriminate.
  cbn [rbind] in H. unfold halloc in H.
  destruct (_ !! b) as [[|de]|] eqn:Hb; try discriminate.
  injection H as <- <-. rewrite Hseen in Hcol.
  destruct (Hcomp Hcol) as (P & dP & v & [= ->] & HP & Hv & Ev).
  destruct (expand_variables_shape _ _ _ _ _ _ HP Hev)
    as (_ & _ & db & Hdb & Hkeys & Hkeep & _).
  assert (Hlt : b < List.length h2) by (by eapply lookup_lt_Some).
  rewrite !lookup_app_l in Hb by (rewrite ?length_app; simpl; lia).
  rewrite Hdb in Hb. injection Hb as <-.
  eexists _, v. split; [apply lookup_snoc|]. split; [|done].
  apply od_update_get.
  - rewrite Hkeys. eauto.
  - apply Hkeep; [done|]. by eapply py_eq_not_str.
Qed.
Ltac nodup_strings :=
  repeat first
    [ apply NoDup_nil_2
    | apply NoDup_cons_2;
      [ let Hx := fresh in
        intros Hx; apply list_elem_of_In in Hx; simpl in Hx;
        intuition discriminate | ] ].

Lemma fs_override_wf f sd h t :
  fs_render fs_override f sd h = Returns t -> wf_tree t.
Proof.
  unfold fs_render. simpl.
  destruct (String.eqb f "/srv/classes/A.yml").
  { intros [= <-]. simpl. repeat split; nodup_strings. }
  destruct (String.eqb f "/srv/nodes/web.yml"); [|discriminate].
  intros [= <-]. simpl. repeat split; nodup_strings.
Qed.

Lemma well_keyed_start : well_keyed (w_heap w_start).
Proof.
  intros p d Hp. destruct p as [|p]; [|discriminate].
  injection Hp as <-. constructor.
Qed.

Lemma node_pillar_resolved_witness :
  exists out w',
    get_pillars (fs_walk fs_override) (fs_glob fs_override)
      (fs_render fs_override) 10 10 "web" sd_web w_start = Ok (out, w') /\
    exists dout v,
      w_heap w' !! out = Some (ODict dout) /\
      dict_get "k" dout = Some v /\ py_eq v (VInt 2) = true.
Proof.
  eexists _, _. split; [vm_compute; reflexivity|].
  apply (node_pillar_resolved (fs_walk fs_override) (fs_glob fs_override)
           (fs_render fs_override) 10 10 "web" sd_web w_start _ _
           [("classes", TList [TStr "A"]); ("pillars", TDict [("k", TInt 2)])]
           [("k", TInt 2)] "k" (TInt 2) (VInt 2)).
  - reflexivity.
  - apply fs_override_wf.
  - apply closed_start.
  - apply well_keyed_start.
  - simpl. lia.
  - discriminate.
  - reflexivity.
  - reflexivity.
  - reflexivity.
  - reflexivity.
  - discriminate.
  - simpl. intros [H|[]]. discriminate.
Defined.

(** ** The top file of a node *)

Lemma states_list_distinct os_walk glob render_yaml lim fuel minion_id sd w
  e w' :
  expanded_dict_from_minion os_walk glob render_yaml lim fuel minion_id sd w
  = Ok (e, w') ->
  ForallOrdPairs (fun x y => py_eq y x = false) (states_list e) /\
  forall x p, In x (states_list e) -> x <> VRef p.
Proof.
  intros H. unfold expanded_dict_from_minion in H.
  match type of H with
  | (x <- ?e ;; _) = _ => destruct e as [[t w1]| | |]; try discriminate
  end.
  cbn [rbind] in H. destruct t as [| | | | |dd]; try discriminate.
  destruct (alloc (TDict dd) (w_heap w1)) as [[| | | |node] h1];
    try discriminate.
  destruct (match dict_get "pillars" dd with
            | Some p => alloc p h1
            | None => alloc (TDict []) h1
            end) as [np h2].
  destruct (dict_merge lim (sd_pillar sd) np h2) as [h3| | |];
    try discriminate.
  cbn [rbind] in H.
  destruct (expand_classes_in_order _ _ _ _ fuel sd (Some node) None _)
    as [[ec w2]| | |]; try discriminate.
  cbn [rbind] in H. unfold halloc in H.
  destruct (merge_docs lim _ (map snd ec) [] _) as [z| | |];
    try discriminate.
  cbn [rbind] in H.
  destruct (dedup_states [] (fst z)) as [sl| | |] eqn:Hd; try discriminate.
  cbn [rbind] in H. injection H as <- <-. simpl.
  destruct (dedup_states_ok _ _ _ Hd) as (Hf & Hp & _). split; [done|].
  intros x p Hx ->. rewrite Forall_forall in Hf.
  apply list_elem_of_In in Hx. destruct (Hf _ Hx) as [_ Hin].
  by rewrite (dedup_states_unhashable _ p [] Hin) in Hd.
Qed.


(** ** A node without a file *)

Lemma lookup_app_plus (h l : heap) i :
  (h ++ l) !! (List.length h + i) = l !! i.
Proof. rewrite lookup_app_r by lia. f_equal. lia. Qed.

Lemma lookup_app_len (h l : heap) : (h ++ l) !! List.length h = l !! 0.
Proof. rewrite <- (Nat.add_0_r (List.length h)). apply lookup_app_plus. Qed.

Lemma no_file_expansion os_walk glob render_yaml lim fuel minion_id sd w :
  find_minion_file os_walk minion_id sd = "" ->
  expanded_dict_from_minion os_walk glob render_yaml (S lim) (S fuel)
    minion_id sd w
  = Ok ({| classes_values := [];
           pillars_dict := List.length (w_heap w) + 2;
           classes_list := []; states_list := [] |},
        {| w_heap := w_heap w ++ [ODict []; ODict []; ODict []];
           w_seen := [];
           w_log := w_log w ++ [minion_id +++ ": Node definition not found"] |}).
Proof.
  intros Hf. unfold expanded_dict_from_minion. rewrite Hf.
  cbn [String.eqb negb rbind warn w_heap w_log w_seen alloc alloc_all
       dict_get keys map combine].
  set (h := w_heap w).
  assert (E1 : (h ++ [ODict []]) ++ [ODict []] = h ++ [ODict []; ODict []]).
  { by rewrite <- app_assoc. }
  rewrite length_app. cbn [List.length]. rewrite E1.
  assert (Hm : dict_merge (S lim) (sd_pillar sd) (VRef (List.length h + 1))
                 (h ++ [ODict []; ODict []]) = Ok (h ++ [ODict []; ODict []])).
  { cbn [dict_merge]. rewrite lookup_app_plus. cbn [lookup list_lookup].
    cbn [keys map List.length merge_loop]. rewrite lookup_app_plus.
    reflexivity. }
  rewrite Hm. cbn [rbind expand_classes_in_order w_heap].
  unfold doc_get. rewrite lookup_app_len. cbn [lookup list_lookup dict_get].
  cbn [rbind expand_classes_glob glob_all fst snd dedup_into
       expand_loop_classes w_heap truthy].
  rewrite lookup_app_len. cbn [lookup list_lookup].
  cbn [fst snd map halloc merge_docs rbind dedup_states keys removelast
       w_heap with_heap w_seen w_log].
  rewrite length_app. cbn [List.length].
  do 3 f_equal. by rewrite <- app_assoc.
Qed.
Lemma lookup_snoc2 (h : heap) a b : ((h ++ [a]) ++ [b]) !! List.length h = Some a.
Proof.
  rewrite lookup_app_l by (rewrite length_app; simpl; lia). apply lookup_snoc.
Qed.

Lemma lookup_snoc3 (h : heap) a b c :
  (((h ++ [a]) ++ [b]) ++ [c]) !! List.length h = Some a.
Proof.
  rewrite lookup_app_l by (rewrite !length_app; simpl; lia).
  apply lookup_snoc2.
Qed.

Lemma lookup_snoc4 (h : heap) a b c d :
  ((((h ++ [a]) ++ [b]) ++ [c]) ++ [d]) !! List.length h = Some a.
Proof.
  rewrite lookup_app_l by (rewrite !length_app; simpl; lia).
  apply lookup_snoc3.
Qed.

Lemma lookup_snoc5 (h : heap) a b c d e :
  (((((h ++ [a]) ++ [b]) ++ [c]) ++ [d]) ++ [e]) !! List.length h = Some a.
Proof.
  rewrite lookup_app_l by (rewrite !length_app; simpl; lia).
  apply lookup_snoc4.
Qed.

(** X16.  A node without a file.  When no file of the nodes directory
    has the name of the node, [get_pillars] logs that the node
    definition was not found, loads no class, and returns a mapping
    with the one key [__saltclass__], which holds no states, no classes,
    the empty environment and the node id; the objects that were in
    memory are left as they were. *)
Theorem unknown_node_only_metadata
  os_walk glob render_yaml lim fuel minion_id sd w :
  find_minion_file os_walk minion_id sd = "" ->
  exists out w' meta states classes,
    get_pillars os_walk glob render_yaml (S lim) (S fuel) minion_id sd w
    = Ok (out, w') /\
    w_log w' = w_log w ++ [minion_id +++ ": Node definition not found"] /\
    w_seen w' = [] /\
    (exists new, w_heap w' = w_heap w ++ new) /\
    w_heap w' !! out = Some (ODict [("__saltclass__", VRef meta)]) /\
    w_heap w' !! meta
    = Some (ODict [("states", VRef states); ("classes", VRef classes);
                   ("environment", VStr "");
                   ("nodename", VStr minion_id)]) /\
    w_heap w' !! states = Some (OList []) /\
    w_heap w' !! classes = Some (OList []).
Proof.
  intros Hf. unfold get_pillars.
  rewrite (no_file_expansion _ _ _ _ _ _ _ _ Hf).
  cbn [rbind w_heap classes_values pillars_dict states_list classes_list
       get_env_from_dict fold_left map].
  set (h := w_heap w). unfold doc_get.
  rewrite lookup_app_plus. cbn [lookup list_lookup dict_get halloc].
  set (h3 := h ++ [ODict []; ODict []; ODict []]).
  assert (Hev : expand_variables (S lim) (VRef (List.length h3))
                  (h3 ++ [ODict []])
                = Ok (List.length (h3 ++ [ODict []]),
                      (h3 ++ [ODict []]) ++ [ODict []])).
  { cbn [expand_variables]. by rewrite lookup_snoc. }
  rewrite Hev. cbn [rbind]. set (h5 := (h3 ++ [ODict []]) ++ [ODict []]).
  assert (Hb : forall a b c,
            (((h5 ++ [a]) ++ [b]) ++ [c]) !! List.length (h3 ++ [ODict []])
            = Some (ODict [])).
  { intros a b c. unfold h5. apply lookup_snoc4. }
  rewrite Hb. eexists _, _, _, _, _. split; [reflexivity|].
  cbn [with_heap w_log w_seen w_heap]. split; [done|]. split; [done|]. split.
  { unfold h5, h3. rewrite <- !app_assoc. eauto. }
  split; [apply lookup_snoc|]. split; [apply lookup_snoc2|].
  split; [apply lookup_snoc4|apply lookup_snoc3].
Qed.
Lemma unknown_node_only_metadata_witness :
  exists out w' meta states classes,
    get_pillars (fs_walk []) (fs_glob []) (fs_render []) 1 1 "web" sd_web
      w_start = Ok (out, w') /\
    w_log w' = w_log w_start ++ ["web" +++ ": Node definition not found"] /\
    w_seen w' = [] /\
    (exists new, w_heap w' = w_heap w_start ++ new) /\
    w_heap w' !! out = Some (ODict [("__saltclass__", VRef meta)]) /\
    w_heap w' !! meta
    = Some (ODict [("states", VRef states); ("classes", VRef classes);
                   ("environment", VStr ""); ("nodename", VStr "web")]) /\
    w_heap w' !! states = Some (OList []) /\
    w_heap w' !! classes = Some (OList []).
Proof.
  apply (unknown_node_only_metadata (fs_walk []) (fs_glob []) (fs_render [])
           0 0 "web" sd_web w_start).
  reflexivity.
Defined.

(** ** Trees without a token *)

Lemma token_at_some s t :
  token_at s = Some t -> String.prefix "${" s = true.
Proof.
  destruct s as [|c [|c2 r]]; try discriminate.
  - destruct c as [[] [] [] [] [] [] [] []]; discriminate.
  - destruct c as [[] [] [] [] [] [] [] []]; try discriminate.
    destruct c2 as [[] [] [] [] [] [] [] []]; try discriminate.
    intros _. simpl. by destruct r.
Qed.

Lemma finditer_go_none s : forall start,
  str_contains "${" s = false -> finditer_go start 0 s = [].
Proof.
  induction s as [|c r IH]; intros start H; [done|].
  cbn [str_contains] in H. apply orb_false_iff in H as [Hp Hr].
  cbn [finditer_go].
  assert (Hm : match_at start (String c r) = None).
  { unfold match_at.
    assert (token_at (String c r) = None) as Ht.
    { destruct (token_at (String c r)) eqn:E; [|done].
      apply token_at_some in E. congruence. }
    assert (token_at r = None) as Hr'.
    { destruct (token_at r) eqn:E; [|done].
      apply token_at_some in E. destruct r; [done|].
      cbn [str_contains] in Hr. apply orb_false_iff in Hr as [? _]. congruence. }
    rewrite Ht, Hr'. destruct start; by destruct (Ascii.eqb c nl). }
  rewrite Hm. by apply IH.
Qed.

Lemma finditer_none s : str_contains "${" s = false -> finditer s = [].
Proof. apply finditer_go_none. Qed.

(** No string that the expander reads has a token. *)
Definition plain_item (rec : addr -> Prop) (h : heap) (i : val) : Prop :=
  match i with
  | VStr s => str_contains "${" s = false
  | VRef q =>
      match h !! q with
      | Some (ODict _) => rec q
      | Some (OList _) => True
      | None => False
      end
  | _ => True
  end.

Definition plain_value (rec : addr -> Prop) (h : heap) (v : val) : Prop :=
  match v with
  | VStr s => str_contains "${" s = false
  | VRef p =>
      match h !! p with
      | Some (ODict _) => rec p
      | Some (OList l) => Forall (plain_item rec h) l
      | None => False
      end
  | _ => True
  end.

Fixpoint plain_dict (n : nat) (h : heap) (a : addr) : Prop :=
  match n with
  | 0 => False
  | S n' =>
      match h !! a with
      | Some (ODict da) =>
          Forall (fun kv => plain_value (plain_dict n' h) h (snd kv)) da
      | _ => False
      end
  end.

Lemma find_and_process_plain lim s v b h :
  str_contains "${" s = false -> find_and_process_re lim s v b h = Ok h.
Proof. intros H. unfold find_and_process_re. by rewrite finditer_none. Qed.

Lemma rec_if_dict_plain (rec : addr -> heap -> res heap) (P : addr -> Prop)
  h v :
  (forall a, P a -> rec a h = Ok h) ->
  (forall p, v = VRef p -> is_dict h v = true -> P p) ->
  rec_if_dict rec h v = Ok h.
Proof.
  intros Hrec Hv. unfold rec_if_dict. destruct (is_dict h v) eqn:E; [|done].
  destruct v; try discriminate. apply Hrec. by apply Hv.
Qed.

Lemma expand_list_plain lim b rec (P : addr -> Prop) h v l :
  (forall a, P a -> rec a h = Ok h) ->
  h !! v = Some (OList l) -> Forall (plain_item P h) l ->
  forall n x, expand_list lim b rec v x n h = Ok h.
Proof.
  intros Hrec Hv Hl. induction n as [|n IH]; intros x; [done|].
  cbn [expand_list]. rewrite Hv. destruct (l !! x) as [i|] eqn:Hi; [|done].
  rewrite Forall_forall in Hl.
  pose proof (Hl i (list_elem_of_lookup_2 _ _ _ Hi)) as Hpi.
  rewrite (rec_if_dict_plain rec P).
  - cbn [rbind]. destruct i; try (cbn [rbind]; apply IH).
    simpl in Hpi. rewrite find_and_process_plain by done. apply IH.
  - done.
  - intros p -> Hd. simpl in Hpi, Hd.
    by destruct (h !! p) as [[|]|].
Qed.

Lemma expand_loop_plain lim b rec (P : addr -> Prop) h a da :
  (forall a, P a -> rec a h = Ok h) ->
  h !! a = Some (ODict da) ->
  Forall (fun kv => plain_value P h (snd kv)) da ->
  forall ks, (forall k, In k ks -> In k (keys da)) ->
             expand_loop lim b rec a ks h = Ok h.
Proof.
  intros Hrec Ha Hda. induction ks as [|k ks IH]; intros Hks; [done|].
  cbn [expand_loop]. rewrite Ha.
  destruct (In_keys_dict_get k da) as (v & Hv); [apply Hks; by left|].
  rewrite Hv. rewrite Forall_forall in Hda.
  pose proof (Hda _ (proj2 (list_elem_of_In _ _) (dict_get_entry _ _ _ Hv)))
    as Hpv.
  simpl in Hpv.
  assert (Hstep :
    (if is_dict h v then rec_if_dict rec h v
     else h1 <- match v with
                | VRef p => match h !! p with
                            | Some (OList l) =>
                                expand_list lim b rec p 0 (List.length l) h
                            | _ => Ok h
                            end
                | _ => Ok h
                end ;;
          match v with
          | VStr s => find_and_process_re lim s v b h1
          | _ => Ok h1
          end) = Ok h).
  { destruct (is_dict h v) eqn:Hd.
    - apply (rec_if_dict_plain rec P); [done|].
      intros p -> _. simpl in Hd, Hpv. by destruct (h !! p) as [[|]|].
    - destruct v as [| | |s|p]; try done.
      + cbn [rbind]. simpl in Hpv. by apply find_and_process_plain.
      + simpl in Hpv. destruct (h !! p) as [[l|]|] eqn:Hp; try done.
        by rewrite (expand_list_plain lim b rec P h p l). }
  rewrite Hstep. cbn [rbind]. apply IH. intros k' Hk'. apply Hks. by right.
Qed.

Lemma expand_variables_in_plain b n : forall h a,
  plain_dict n h a -> expand_variables_in (S n) b a h = Ok h.
Proof.
  induction n as [|n IH]; intros h a Hp; [destruct Hp|].
  cbn [plain_dict] in Hp. cbn [expand_variables_in].
  destruct (h !! a) as [[|da]|] eqn:Ha; try done.
  eapply (expand_loop_plain _ b _ (plain_dict n h)); eauto.
Qed.
Lemma plain_item_ext (P Q : addr -> Prop) h l i :
  (forall q, P q -> Q q) ->
  plain_item P h i -> plain_item Q (h ++ l) i.
Proof.
  intros HPQ. destruct i as [| | | |q]; try done. simpl.
  destruct (h !! q) as [o|] eqn:Hq; [|done].
  rewrite (lookup_app_l_Some _ _ _ _ Hq). destruct o; auto.
Qed.

Lemma plain_value_ext (P Q : addr -> Prop) h l v :
  (forall q, P q -> Q q) ->
  plain_value P h v -> plain_value Q (h ++ l) v.
Proof.
  intros HPQ. destruct v as [| | | |p]; try done. simpl.
  destruct (h !! p) as [o|] eqn:Hp; [|done].
  rewrite (lookup_app_l_Some _ _ _ _ Hp). destruct o as [items|]; auto.
  intros H. eapply Forall_impl; [exact H|].
  intros i. by apply plain_item_ext.
Qed.

Lemma plain_dict_ext n h l : forall a,
  plain_dict n h a -> plain_dict n (h ++ l) a.
Proof.
  induction n as [|n IH]; intros a; [done|]. cbn [plain_dict].
  destruct (h !! a) as [o|] eqn:Ha; [|done].
  rewrite (lookup_app_l_Some _ _ _ _ Ha). destruct o as [|da]; [done|].
  intros H. eapply Forall_impl; [exact H|].
  intros kv. by apply plain_value_ext.
Qed.

(** X17.  Without a token the expansion changes nothing.  When no
    string that the expander reads in [a], in the mappings nested in
    [a] down to the depth [lim] and in the lists they hold, contains
    [${], then [expand_variables] returns a copy of [a] as a new
    mapping and leaves every object as it was. *)
Theorem expand_variables_plain lim a da h :
  h !! a = Some (ODict da) ->
  Forall (fun kv => plain_value (plain_dict lim h) h (snd kv)) da ->
  expand_variables (S lim) (VRef a) h
  = Ok (List.length h, h ++ [ODict da]).
Proof.
  intros Ha Hda. unfold expand_variables. rewrite Ha. unfold halloc.
  rewrite (expand_loop_plain (S lim) (List.length h)
             (expand_variables_in (S lim) (List.length h))
             (plain_dict lim (h ++ [ODict da])) (h ++ [ODict da]) a da).
  - done.
  - intros a0. apply expand_variables_in_plain.
  - by apply lookup_app_l_Some.
  - eapply Forall_impl; [exact Hda|]. intros kv.
    apply plain_value_ext. intros q. apply plain_dict_ext.
  - auto.
Qed.

Lemma expand_variables_plain_witness :
  let da := [("a", VStr "x"); ("d", VRef 1); ("l", VRef 2); ("n", VInt 3)] in
  let h := [ODict da; ODict [("b", VStr "$y{")];
            OList [VStr "z}"; VRef 1; VBool true]] in
  expand_variables 2 (VRef 0) h = Ok (List.length h, h ++ [ODict da]).
Proof.
  intros da h. apply (expand_variables_plain 1 0 da h); [reflexivity|].
  repeat constructor.
Defined.

(** ** The documents of the classes *)

(** What [expand_class] does for a class that was not seen: the steps
    of the source, with the objects they make. *)
Lemma expand_class_unseen os_walk render_yaml lim rec sd klass ec0 w ec1 w1 :
  (forall cs, expansion_ok (rec cs)) ->
  expand_class os_walk render_yaml lim rec sd klass ec0 w = Ok (ec1, w1) ->
  NoDup (w_seen w) -> (forall k, In k (keys ec0) -> In k (w_seen w)) ->
  mem klass (w_seen w) = false ->
  exists t wg dd d h1 h2 ns,
    get_class os_walk render_yaml klass sd (see w klass) = Ok (t, wg) /\
    match t with TNone => TDict [] | _ => t end = TDict dd /\
    alloc (TDict dd) (w_heap w) = (VRef d, h1) /\
    match doc_get h1 d "pillars" with
    | Some np => if truthy h1 np
                 then dict_merge lim (sd_pillar sd) np h1 else Ok h1
    | None => Ok h1
    end = Ok h2 /\
    match doc_get h2 d "classes" with
    | Some cs => rec cs (with_heap wg h2) = Ok (ns, w1)
    | None => ns = [] /\ w1 = with_heap wg h2
    end /\
    ec1 = ec0 ++ ns ++ [(klass, d)].
Proof.
  intros Hrec H Hnd Hsub Hseen. unfold expand_class in H. rewrite Hseen in H.
  apply mem_not_In in Hseen.
  destruct (get_class _ _ klass sd (see w klass)) as [[t wg]| | |] eqn:Hg;
    try discriminate.
  destruct (get_class_seen _ _ _ _ _ _ _ Hg) as [Hgs Hgh].
  simpl in Hgs, Hgh.
  cbv beta iota delta [rbind] in H.
  destruct (match t with TNone => TDict [] | _ => t end) as [| | | | |dd]
    eqn:Ht; try discriminate.
  destruct (alloc (TDict dd) (w_heap wg)) as [[| | | |d] h1] eqn:Ha;
    try discriminate.
  rewrite Hgh in Ha.
  destruct (match doc_get h1 d "pillars" with
            | Some np => if truthy h1 np
                         then dict_merge lim (sd_pillar sd) np h1 else Ok h1
            | None => Ok h1
            end) as [h2| | |] eqn:Hmg; try discriminate.
  assert (Hnd1 : NoDup (w_seen w ++ [klass])).
  { apply NoDup_app. split; [done|]. split.
    - intros x Hx Hin. apply list_elem_of_In in Hx.
      apply list_elem_of_singleton in Hin. by subst.
    - apply NoDup_singleton. }
  destruct (doc_get h2 d "classes") as [cs|] eqn:Hcs.
  - destruct (rec cs (with_heap wg h2)) as [[ns wn]| | |] eqn:Hr;
      try discriminate.
    simpl in H. injection H as <- <-.
    destruct (Hrec cs _ _ _ Hr) as (added & Hs & Hnd2 & Hperm & Hgr).
    { simpl. by rewrite Hgs. }
    simpl in Hs. rewrite Hgs in Hs.
    assert (Hkn : forall k, In k (keys ns) -> ~ In k (w_seen w ++ [klass])).
    { intros k Hk Hin. rewrite Hs in Hnd2.
      apply NoDup_app in Hnd2 as (_ & Hdis & _).
      apply (Hdis k); apply list_elem_of_In; auto.
      eapply Permutation_in; eauto. }
    assert (Hndn : NoDup (keys ns)).
    { rewrite Hs in Hnd2. apply NoDup_app in Hnd2 as (_ & _ & Hnd2).
      by rewrite Hperm. }
    assert (Hu : od_update [(klass, d)] ns = (klass, d) :: ns).
    { rewrite od_update_disjoint; auto.
      intros k Hk [E|[]]. simpl in E. subst k.
      apply (Hkn klass Hk). apply in_or_app. right. by left. }
    rewrite Hu, od_move_to_end_head.
    2:{ intros Hk. apply (Hkn klass Hk). apply in_or_app. right. by left. }
    exists t, wg, dd, d, h1, h2, ns. rewrite Hcs.
    repeat split; auto.
    apply od_update_disjoint.
    + rewrite keys_app. simpl. apply NoDup_app. split; [done|]. split.
      * intros x Hx Hin. apply list_elem_of_singleton in Hin. subst.
        apply list_elem_of_In in Hx. apply (Hkn klass Hx).
        apply in_or_app. right. by left.
      * apply NoDup_singleton.
    + intros k Hk Hin. apply Hsub in Hin. rewrite keys_app in Hk.
      apply in_app_or in Hk as [Hk|[E|[]]].
      * apply (Hkn k Hk). apply in_or_app. by left.
      * simpl in E. by subst k.
  - injection H as <- <-.
    exists t, wg, dd, d, h1, h2, []. rewrite Hcs. repeat split; auto.
    simpl. apply dict_set_notin. intros Hin. apply Hseen. auto.
Qed.

Section ClassDocs.

Variable os_walk : string -> list (string * list string).
Variable glob : string -> list string.
Variable render_yaml : string -> salt_data -> heap -> outcome tree.
Variable lim : nat.
Variable sd : salt_data.
Variable lo : nat.
Hypothesis pillar_before : sd_pillar sd < lo.

(** The object [d] of the store [h] is the document of the class [c]:
    it was placed from what [get_class] returned for [c], and neither
    it nor the objects it holds were changed since. *)
Definition loaded_as (c : string) (d : addr) (h : heap) : Prop :=
  exists w0 t w0' dd ha hb,
    get_class os_walk render_yaml c sd w0 = Ok (t, w0') /\
    match t with TNone => TDict [] | _ => t end = TDict dd /\
    alloc (TDict dd) ha = (VRef d, hb) /\
    forall p, owned [d] hb p -> h !! p = hb !! p.

Lemma loaded_as_frame roots h h' c d :
  loaded_as c d h -> In d roots ->
  (forall p, owned roots h p -> h' !! p = h !! p) ->
  loaded_as c d h'.
Proof.
  intros (w0 & t & w0' & dd & ha & hb & Hg & Ht & Ha & Hf) Hd Hfr.
  exists w0, t, w0', dd, ha, hb. repeat split; auto.
  intros p Hp. rewrite <- (Hf p Hp). apply Hfr.
  destruct Hp as [[<-|[]]|(r & dr & key & [<-|[]] & Hr & Hk)]; [by left|].
  right. exists d, dr, key. split; [done|]. split; [|done].
  rewrite Hf; [done|]. left. by left.
Qed.

(** The entries that a call of the expansion returns are documents of
    their classes, each one an object of its own. *)
Definition expansion_docs
  (f : world -> res (list (string * addr) * world)) : Prop :=
  forall w ec w' roots, f w = Ok (ec, w') -> NoDup (w_seen w) ->
    separated lo roots (w_heap w) -> lo <= List.length (w_heap w) ->
    (forall c d, In (c, d) ec -> loaded_as c d (w_heap w')) /\
    NoDup (map snd ec).

Lemma In_entry_snd (ec : list (string * addr)) a :
  In a (map snd ec) -> exists c, In (c, a) ec.
Proof.
  intros H. apply in_map_iff in H as ([c a'] & E & Hin). simpl in E.
  subst a'. eauto.
Qed.

Lemma expand_class_docs rec klass ec0 w ec1 w1 roots :
  (forall cs, expansion_ok (rec cs)) ->
  (forall cs, expansion_sep lo (rec cs)) ->
  (forall cs, expansion_docs (rec cs)) ->
  expand_class os_walk render_yaml lim rec sd klass ec0 w = Ok (ec1, w1) ->
  NoDup (w_seen w) -> (forall k, In k (keys ec0) -> In k (w_seen w)) ->
  separated lo roots (w_heap w) -> lo <= List.length (w_heap w) ->
  (forall c d, In (c, d) ec0 -> In d roots /\ loaded_as c d (w_heap w)) ->
  NoDup (map snd ec0) ->
  (forall c d, In (c, d) ec1 -> loaded_as c d (w_heap w1)) /\
  NoDup (map snd ec1).
Proof.
  intros Hok Hsep Hdocs H Hnd Hsub Hs Hlo Hec0 Hnd0.
  destruct (mem klass (w_seen w)) eqn:Hseen.
  { unfold expand_class in H. rewrite Hseen in H. injection H as <- <-.
    split; [|done]. intros c d Hin. by destruct (Hec0 c d Hin). }
  destruct (expand_class_unseen _ _ _ _ _ _ _ _ _ _ Hok H Hnd Hsub Hseen)
    as (t & wg & dd & d & h1 & h2 & ns & Hg & Ht & Ha & Hmg & Hcs & ->).
  destruct (get_class_seen _ _ _ _ _ _ _ Hg) as [Hgs Hgh].
  simpl in Hgs, Hgh. apply mem_not_In in Hseen.
  pose proof (sep_step_alloc_root _ _ _ _ _ _ Hs Hlo Ha) as Hst1.
  assert (Hm : sep_step lo ([d] ++ roots) h1 [] h2).
  { destruct Hst1 as (Hs1 & _).
    destruct (doc_get h1 d "pillars") as [np|] eqn:Hp;
      [destruct (truthy h1 np)|];
      try (injection Hmg as <-; by apply sep_step_refl).
    eapply sep_step_merge; eauto. intros pb ->.
    unfold doc_get in Hp.
    destruct (h1 !! d) as [[|dd1]|] eqn:Hd; try discriminate.
    eapply (separated_child lo ([d] ++ roots) h1 d); eauto. by left. }
  assert (Hrest : exists nn,
            sep_step lo ([d] ++ roots) h2 nn (w_heap w1) /\
            (forall a, In a (map snd ns) -> In a nn) /\
            (forall c a, In (c, a) ns -> loaded_as c a (w_heap w1)) /\
            NoDup (map snd ns)).
  { destruct (doc_get h2 d "classes") as [cs|].
    - assert (Hnd1 : NoDup (w_seen (with_heap wg h2))).
      { simpl. rewrite Hgs. apply NoDup_app. split; [done|]. split.
        - intros x Hx Hin. apply list_elem_of_In in Hx.
          apply list_elem_of_singleton in Hin. by subst.
        - apply NoDup_singleton. }
      assert (Hs2 : separated lo ([d] ++ roots) h2) by (by destruct Hm).
      assert (Hl2 : lo <= List.length h2).
      { destruct Hst1 as (_ & Hl1 & _). destruct Hm as (_ & Hl2 & _). lia. }
      destruct (Hsep cs _ _ _ ([d] ++ roots) Hcs Hs2 Hl2) as (nn & Hst3 & Hns).
      destruct (Hdocs cs _ _ _ ([d] ++ roots) Hcs Hnd1 Hs2 Hl2) as [Hld Hndn].
      exists nn. auto.
    - destruct Hcs as [-> ->]. exists []. simpl.
      split; [apply sep_step_refl; by destruct Hm|].
      split; [by intros a []|]. split; [by intros c a []|constructor]. }
  destruct Hrest as (nn & Hst3 & Hns & Hld & Hndn).
  pose proof (sep_step_trans _ _ _ _ _ _ _ Hm Hst3) as Hst23.
  pose proof (sep_step_trans _ _ _ _ _ _ _ Hst1 Hst23) as Hst13.
  split.
  - intros c a Hin. apply in_app_or in Hin as [Hin|Hin].
    + destruct (Hec0 c a Hin) as [Hr Hl].
      eapply loaded_as_frame; eauto. by destruct Hst13 as (_ & _ & _ & Hf).
    + apply in_app_or in Hin as [Hin|[[= <- <-]|[]]]; [by apply Hld|].
      apply (loaded_as_frame ([d] ++ roots) h1); [|by left|].
      * exists (see w klass), t, wg, dd, (w_heap w), h1. auto.
      * by destruct Hst23 as (_ & _ & _ & Hf).
  - assert (Hlt0 : forall a, In a (map snd ec0) ->
                             a < List.length (w_heap w)).
    { intros a Hin. apply In_entry_snd in Hin as (c & Hin).
      destruct (Hec0 c a Hin) as [Hr _].
      destruct Hs as (_ & Hr' & _). destruct (Hr' a Hr) as (_ & da & Hda).
      by eapply lookup_lt_Some. }
    assert (Hd1 : List.length (w_heap w) <= d < List.length h1).
    { destruct Hst1 as ((_ & Hr' & _) & _ & Hn & _). split.
      - apply Hn. by left.
      - destruct (Hr' d) as (_ & da & Hda); [by left|].
        by eapply lookup_lt_Some. }
    assert (Hge : forall a, In a (map snd ns) -> List.length h1 <= a).
    { intros a Hin. apply Hns in Hin.
      destruct Hst3 as (_ & _ & Hn & _). destruct Hm as (_ & Hl & _).
      specialize (Hn a Hin). lia. }
    rewrite !map_app. simpl.
    apply NoDup_app. split; [done|]. split.
    + intros a Ha' Hin. apply list_elem_of_In in Ha', Hin.
      specialize (Hlt0 a Ha'). apply in_app_or in Hin as [Hin|[<-|[]]].
      * specialize (Hge a Hin). lia.
      * lia.
    + apply NoDup_app. split; [done|]. split; [|apply NoDup_singleton].
      intros a Ha' Hin. apply list_elem_of_In in Ha'.
      apply list_elem_of_singleton in Hin. subst a.
      specialize (Hge d Ha'). lia.
Qed.

Lemma expand_loop_classes_docs rec ks : forall ec0 w ec1 w1 roots,
  (forall cs, expansion_ok (rec cs)) ->
  (forall cs, expansion_sep lo (rec cs)) ->
  (forall cs, expansion_docs (rec cs)) ->
  expand_loop_classes os_walk render_yaml lim rec sd ks ec0 w
  = Ok (ec1, w1) ->
  NoDup (w_seen w) -> (forall k, In k (keys ec0) -> In k (w_seen w)) ->
  separated lo roots (w_heap w) -> lo <= List.length (w_heap w) ->
  (forall c d, In (c, d) ec0 -> In d roots /\ loaded_as c d (w_heap w)) ->
  NoDup (map snd ec0) ->
  (forall c d, In (c, d) ec1 -> loaded_as c d (w_heap w1)) /\
  NoDup (map snd ec1).
Proof.
  induction ks as [|k ks IH];
    intros ec0 w ec1 w1 roots Hok Hsep Hdocs H Hnd Hsub Hs Hlo Hec0 Hnd0;
    simpl in H.
  - injection H as <- <-. split; [|done].
    intros c d Hin. by destruct (Hec0 c d Hin).
  - destruct (expand_class _ _ _ rec sd k ec0 w) as [[ec w2]| | |] eqn:Hc;
      try discriminate.
    simpl in H.
    destruct (expand_class_ok _ _ _ _ _ _ _ _ _ _ Hok Hc Hnd Hsub)
      as (added & ys & Hsn & Hnd2 & Hy & Hp & _).
    destruct (expand_class_sep _ _ _ _ _ pillar_before _ _ _ _ _ _ _
                Hsep Hc Hs Hlo) as (n1 & Hst1 & He1).
    destruct (expand_class_docs _ _ _ _ _ _ _ Hok Hsep Hdocs Hc Hnd Hsub
                Hs Hlo Hec0 Hnd0) as [Hld1 Hnd1].
    apply (IH _ _ _ _ (n1 ++ roots) Hok Hsep Hdocs H); auto.
    + intros c Hin. rewrite Hy, keys_app in Hin. rewrite Hsn.
      apply in_or_app. apply in_app_or in Hin as [Hin|Hin]; auto.
      right. eapply Permutation_in; eauto.
    + by destruct Hst1.
    + destruct Hst1 as (_ & Hl & _). lia.
    + intros c d Hin. split; [|by apply Hld1].
      apply in_or_app.
      destruct (He1 d) as [Hin'|Hin']; auto.
      * apply in_map_iff. by exists (c, d).
      * right. apply In_entry_snd in Hin' as (c' & Hin').
        by destruct (Hec0 c' d Hin').
Qed.

Lemma expand_classes_in_order_docs fuel : forall cte,
  expansion_docs
    (expand_classes_in_order os_walk glob render_yaml lim fuel sd None cte).
Proof.
  induction fuel as [|fuel IH]; intros cte w ec w' roots H Hnd Hs Hlo;
    [discriminate|].
  cbn [expand_classes_in_order] in H.
  set (l := match match cte, @None val with
                  | None, Some c => Some c
                  | Some v, Some c => if truthy (w_heap w) v then Some v
                                      else Some c
                  | c, None => c
                  end with
            | Some v => iter_val (w_heap w) v
            | None => Ok []
            end) in H.
  destruct l as [l| | |]; try discriminate. cbn [rbind] in H.
  destruct (expand_classes_glob glob l sd w) as [[ks wg]| | |] eqn:Hg;
    try discriminate.
  apply expand_classes_glob_seen in Hg as [Hgs Hgh]. cbn [rbind fst snd] in H.
  destruct (expand_loop_classes _ _ _ _ sd ks [] wg) as [[y wy]| | |] eqn:Hl;
    try discriminate.
  cbn [rbind] in H. injection H as <- <-.
  apply (expand_loop_classes_docs _ _ _ _ _ _ roots
           (fun cs => expand_classes_in_order_ok os_walk glob render_yaml
                        lim fuel sd (Some cs))
           (fun cs => expand_classes_in_order_sep os_walk glob render_yaml
                        lim sd lo pillar_before fuel (Some cs))
           (fun cs => IH (Some cs)) Hl).
  - by rewrite Hgs.
  - by intros k [].
  - by rewrite Hgh.
  - by rewrite Hgh.
  - by intros c d [].
  - constructor.
Qed.

(** The call for the node. *)
Lemma expand_top_docs fuel m w ec w' roots :
  expand_classes_in_order os_walk glob render_yaml lim fuel sd (Some m) None w
  = Ok (ec, w') ->
  NoDup (w_seen w) ->
  separated lo roots (w_heap w) -> lo <= List.length (w_heap w) ->
  exists new ys,
    sep_step lo roots (w_heap w) new (w_heap w') /\
    (forall a, In a (map snd ys) -> In a new) /\
    (forall c, In c (keys ys) -> In c (w_seen w')) /\
    NoDup (keys ys) /\
    (forall c d, In (c, d) ys -> loaded_as c d (w_heap w')) /\
    NoDup (map snd ys) /\
    ec = (if truthy (w_heap w') (VRef m)
          then od_update ys [(sd_minion_id sd, m)] else ys).
Proof.
  intros H Hnd Hs Hlo. destruct fuel as [|fuel]; [discriminate|].
  cbn [expand_classes_in_order] in H.
  set (l := match match @None val, doc_get (w_heap w) m "classes" with
                  | None, Some c => Some c
                  | Some v, Some c => if truthy (w_heap w) v then Some v
                                      else Some c
                  | c, None => c
                  end with
            | Some v => iter_val (w_heap w) v
            | None => Ok []
            end) in H.
  destruct l as [l| | |]; try discriminate. cbn [rbind] in H.
  destruct (expand_classes_glob glob l sd w) as [[ks wg]| | |] eqn:Hg;
    try discriminate.
  apply expand_classes_glob_seen in Hg as [Hgs Hgh]. cbn [rbind fst snd] in H.
  destruct (expand_loop_classes _ _ _ _ sd ks [] wg) as [[y wy]| | |] eqn:Hl;
    try discriminate.
  cbn [rbind fst snd] in H.
  pose proof (fun cs => expand_classes_in_order_ok os_walk glob render_yaml
                          lim fuel sd (Some cs)) as Hok.
  pose proof (fun cs => expand_classes_in_order_sep os_walk glob render_yaml
                          lim sd lo pillar_before fuel (Some cs)) as Hsep.
  destruct (expand_loop_classes_sep _ _ _ _ _ pillar_before _ _ _ _ _ _ roots
              Hsep Hl) as (new & Hst & He);
    [by rewrite Hgh|by rewrite Hgh|].
  destruct (expand_loop_classes_ok os_walk render_yaml lim _ _ _ _ _ _ _
              Hok Hl)
    as (added & ys & Hsn & Hnd' & Hy & Hp & _);
    [by rewrite Hgs|by intros k []|].
  destruct (expand_loop_classes_docs _ _ _ _ _ _ roots Hok Hsep
              (fun cs => expand_classes_in_order_docs fuel (Some cs)) Hl)
    as [Hld Hnda];
    [by rewrite Hgs|by intros k []|by rewrite Hgh|by rewrite Hgh
    |by intros c d []|constructor|].
  simpl in Hy. subst y. rewrite Hgh in Hst.
  assert (Hkeys : forall c, In c (keys ys) -> In c (w_seen wy)).
  { intros c Hc. rewrite Hsn. apply in_or_app. right.
    eapply Permutation_in; eauto. }
  assert (Hnew : forall a, In a (map snd ys) -> In a new).
  { intros a Hin. by destruct (He a Hin) as [[]|]. }
  assert (Hndk : NoDup (keys ys)).
  { rewrite Hp. rewrite Hsn in Hnd'. by apply NoDup_app in Hnd' as (_ & _ & ?). }
  destruct (truthy (w_heap wy) (VRef m)) eqn:Ht; injection H as <- <-;
    exists new, ys; rewrite Ht; auto 10.
Qed.

End ClassDocs.

(** ** What a document says about a pillar *)

(** The document [t] of a class sets the pillar [k] to the scalar
    [s]. *)
Definition tree_defines (k : string) (s : val) (t : tree) : Prop :=
  exists dd pp tv,
    match t with TNone => TDict [] | _ => t end = TDict dd /\
    NoDup (keys dd) /\
    dict_get "pillars" dd = Some (TDict pp) /\
    dict_get k pp = Some tv /\ scalar_of tv = Some s.

(** The mapping [dd] has no pillars, or pillars without [k]. *)
Definition dict_leaves_out (k : string) (dd : list (string * tree)) : Prop :=
  dict_get "pillars" dd = None \/
  exists pp, dict_get "pillars" dd = Some (TDict pp) /\ dict_get k pp = None.

Definition tree_leaves_out (k : string) (t : tree) : Prop :=
  exists dd, match t with TNone => TDict [] | _ => t end = TDict dd /\
             dict_leaves_out k dd.

Lemma dict_get_same_keys {A B} key (d : list (string * A))
  (e : list (string * B)) :
  keys d = keys e -> dict_get key e = None -> dict_get key d = None.
Proof.
  intros Hk He. destruct (dict_get key d) as [v|] eqn:Hd; [|done].
  apply dict_get_In_keys in Hd. rewrite Hk in Hd.
  by apply dict_get_keys_None in He.
Qed.

Lemma placed_defines h ha hb dd d k s pp tv :
  alloc (TDict dd) ha = (VRef d, hb) -> NoDup (keys dd) ->
  dict_get "pillars" dd = Some (TDict pp) -> dict_get k pp = Some tv ->
  scalar_of tv = Some s ->
  (forall p, owned [d] hb p -> h !! p = hb !! p) ->
  defines h k s d.
Proof.
  intros Ha Hnd Hp Hk Hs Hf.
  destruct (alloc_pillar _ _ _ _ _ _ _ _ Ha Hp Hk Hs)
    as (dD & Xp & dXp & HD & Hkeys & HpD & HX & HkX).
  exists dD, Xp, dXp. rewrite Hkeys. repeat split; auto.
  - rewrite Hf; [done|]. left. by left.
  - rewrite Hf; [done|]. right. exists d, dD, "pillars".
    split; [by left|done].
Qed.

Lemma placed_leaves_out h ha hb dd d k :
  alloc (TDict dd) ha = (VRef d, hb) -> dict_leaves_out k dd ->
  (forall p, owned [d] hb p -> h !! p = hb !! p) ->
  leaves_out h k d.
Proof.
  intros Ha [Hp|(pp & Hp & Hk)] Hf.
  - destruct (alloc_dict_root _ _ _ _ Ha) as (dD & HD & Hkeys).
    exists dD. split; [rewrite Hf; [done|]; left; by left|].
    left. by eapply dict_get_same_keys.
  - destruct (alloc_dict_get _ _ _ _ _ _ Ha Hp)
      as (dD & v & ha' & hb' & HD & Hkeys & Hv & Hal & n & E).
    assert (exists Xp, v = VRef Xp) as (Xp & ->).
    { simpl in Hal. destruct (alloc_all _ pp ha'). injection Hal as <- _.
      eauto. }
    destruct (alloc_dict_root _ _ _ _ Hal) as (dXp & HX & HkX).
    exists dD. split; [rewrite Hf; [done|]; left; by left|].
    right. exists Xp, dXp. split; [done|]. split.
    + rewrite Hf.
      * rewrite E, lookup_app_l; [done|]. by eapply lookup_lt_Some.
      * right. exists d, dD, "pillars". split; [by left|done].
    + by eapply dict_get_same_keys.
Qed.

Lemma split_keys {A} (ys : list (string * A)) a c b :
  keys ys = a ++ c :: b ->
  exists pre d post, ys = pre ++ (c, d) :: post /\
                     keys pre = a /\ keys post = b.
Proof.
  intros H. apply map_eq_app in H as (pre & r & -> & Hpre & Hr).
  apply map_eq_cons in Hr as ([c' d] & post & -> & Hc & Hpost).
  simpl in Hc. subst c'. by exists pre, d, post.
Qed.

Section ClassWins.

Variable os_walk : string -> list (string * list string).
Variable glob : string -> list string.
Variable render_yaml : string -> salt_data -> heap -> outcome tree.
Variable lim : nat.

(** The store when the composition begins, for a node whose file is a
    mapping with an entry: the documents are separate objects, those of
    the classes are as [get_class] gave them, the node's document is the
    last one and is as its file gave it. *)
Lemma docs_before_composition fuel sd h dd X node h1 np h2 h3 lg ec w2 :
  closed h -> sd_pillar sd < List.length h -> dd <> [] ->
  alloc (TDict dd) h = (VRef node, h1) ->
  alloc X h1 = (np, h2) ->
  dict_merge lim (sd_pillar sd) np h2 = Ok h3 ->
  expand_classes_in_order os_walk glob render_yaml lim fuel sd (Some node)
    None {| w_heap := h3; w_seen := []; w_log := lg |} = Ok (ec, w2) ->
  ~ In (sd_minion_id sd) (w_seen w2) ->
  let pd := List.length (w_heap w2) in
  let h4 := w_heap w2 ++ [ODict []] in
  exists roots ys,
    separated (List.length h) (pd :: roots) h4 /\
    ~ In pd roots /\
    ec = ys ++ [(sd_minion_id sd, node)] /\
    (forall c d, In (c, d) ys ->
       In d roots /\ d <> node /\
       loaded_as os_walk render_yaml sd c d h4) /\
    NoDup (map snd ys) /\
    In node roots /\
    (forall p, owned [node] h1 p -> h4 !! p = h1 !! p).
Proof.
  intros Hcl Hpil Hne Ha Hnp Hm He Hcol pd h4.
  set (lo := List.length h) in *.
  pose proof (sep_step_alloc_root lo [] h dd node h1 (separated_nil _ _ Hcl)
                (Nat.le_refl _) Ha) as Hst1.
  destruct Hst1 as (Hs1 & Hl1 & _ & _). simpl in Hs1.
  destruct (alloc_dict_root _ _ _ _ Ha) as (dD & HD & Hkeys).
  assert (Hnode : node < List.length h1) by (by eapply lookup_lt_Some).
  pose proof (sep_step_alloc lo [node] h1 _ _ _ Hs1 Hnp) as Hst2.
  assert (Hst3 : sep_step lo [node] h2 [] h3).
  { eapply sep_step_merge; eauto; [by destruct Hst2|].
    intros pb E [E2|[]].
    destruct (alloc_shape _ _ _ _ Hnp) as (_ & _ & Hv).
    destruct (Hv pb E). lia. }
  pose proof (sep_step_trans _ _ _ _ _ _ _ Hst2 Hst3) as Hst13.
  simpl in Hst13.
  destruct (expand_top_docs os_walk glob render_yaml lim sd lo Hpil fuel node
              _ _ _ [node] He)
    as (new & ys & Hst4 & Hnew & Hys & _ & Hld & Hnda & Hec).
  { constructor. }
  { by destruct Hst13. }
  { simpl. destruct Hst13 as (_ & Hl & _). lia. }
  simpl in Hst4.
  pose proof (sep_step_trans _ _ _ _ _ _ _ Hst13 Hst4) as Hst14.
  rewrite app_nil_r in Hst14.
  destruct Hst14 as (Hs4 & Hl4 & Hn4 & Hf4).
  assert (Hpd : alloc (TDict []) (w_heap w2) = (VRef pd, h4)) by done.
  destruct (separated_alloc_root lo _ _ _ _ _ Hs4 ltac:(lia) Hpd)
    as (Hs5 & _ & _).
  assert (Hold : forall p, p < List.length (w_heap w2) ->
                           h4 !! p = w_heap w2 !! p).
  { intros p Hlt. by apply lookup_app_l. }
  assert (Hown : forall p, owned [node] h1 p -> h4 !! p = h1 !! p).
  { intros p Ho. rewrite <- Hf4 by done. apply Hold.
    apply lookup_lt_is_Some. rewrite Hf4 by done.
    apply lookup_lt_is_Some. by eapply owned_lt. }
  assert (HD4 : h4 !! node = Some (ODict dD)).
  { rewrite Hown; [done|]. left. by left. }
  assert (Ht : truthy (w_heap w2) (VRef node) = true).
  { simpl. rewrite <- Hold, HD4 by lia.
    destruct dD; [|done]. destruct dd; [done|discriminate]. }
  rewrite Ht in Hec. unfold od_update in Hec. simpl in Hec.
  rewrite dict_set_notin in Hec by (intros Hin; apply Hcol; auto).
  exists (new ++ [node]), ys. split; [done|].
  split; [|split; [done|split; [|split; [done|split; [|done]]]]].
  - intros Hin. destruct Hs4 as (_ & Hr & _).
    destruct (Hr pd Hin) as (_ & d & Hd). apply lookup_lt_Some in Hd.
    unfold pd in Hd. lia.
  - intros c d Hin.
    assert (Hd : In d new).
    { apply Hnew, in_map_iff. by exists (c, d). }
    split; [apply in_or_app; by left|]. split.
    + specialize (Hn4 d Hd). lia.
    + apply (loaded_as_frame _ _ _ (new ++ [node]) (w_heap w2));
        [by apply Hld|apply in_or_app; by left|].
      intros p Hp. apply Hold. by eapply owned_lt.
  - apply in_or_app. right. by left.
Qed.


(** X18.  Class precedence in [expanded_dict_from_minion].  Take a node
    whose file is a mapping with an entry and sets no pillar [k], and
    whose id names no class that was loaded.  When the document of the
    class [c] of [classes_list] sets the pillar [k] to a scalar [s], and
    the documents of the classes that come after [c] in [classes_list]
    have no pillars or pillars without [k], the composed pillars hold
    under [k] a value equal to [s], whatever the classes before [c]
    set for [k]. *)
Theorem last_class_pillar_wins
  fuel minion_id sd w e w' dd k s c cpre cpost :
  expanded_dict_from_minion os_walk glob render_yaml lim fuel minion_id sd w
  = Ok (e, w') ->
  closed (w_heap w) -> sd_pillar sd < List.length (w_heap w) ->
  find_minion_file os_walk minion_id sd <> "" ->
  render_yaml (find_minion_file os_walk minion_id sd) sd (w_heap w)
  = Returns (TDict dd) ->
  dd <> [] -> dict_leaves_out k dd ->
  ~ In (sd_minion_id sd) (w_seen w') ->
  classes_list e = cpre ++ c :: cpost ->
  (forall w0 t w0', get_class os_walk render_yaml c sd w0 = Ok (t, w0') ->
                    tree_defines k s t) ->
  (forall c' w0 t w0', In c' cpost ->
     get_class os_walk render_yaml c' sd w0 = Ok (t, w0') ->
     tree_leaves_out k t) ->
  exists P dP v,
    doc_get (w_heap w') (pillars_dict e) "pillars" = Some (VRef P) /\
    w_heap w' !! P = Some (ODict dP) /\
    dict_get k dP = Some v /\ py_eq v s = true.
Proof.
  intros H Hcl Hpil Hfile Hrender Hne Hnode Hcol Hlist Hdef Hlv.
  unfold expanded_dict_from_minion in H.
  apply String.eqb_neq in Hfile. rewrite Hfile, Hrender in H.
  cbn [negb lift rbind] in H.
  destruct (alloc (TDict dd) (w_heap w)) as [[| | | |node] h1] eqn:Ha;
    try discriminate.
  set (al := match dict_get "pillars" dd with
             | Some p => alloc p h1
             | None => alloc (TDict []) h1
             end) in H.
  assert (HX : exists X, alloc X h1 = al).
  { unfold al. destruct (dict_get "pillars" dd); eauto. }
  destruct HX as (X & Hnp). destruct al as [np h2].
  destruct (dict_merge lim (sd_pillar sd) np h2) as [h3| | |] eqn:Hm;
    try discriminate.
  cbn [rbind] in H.
  destruct (expand_classes_in_order _ _ _ _ fuel sd (Some node) None _)
    as [[ec w2]| | |] eqn:He; try discriminate.
  cbn [rbind] in H. unfold halloc in H.
  destruct (merge_docs lim _ (map snd ec) [] _) as [z| | |] eqn:Hz;
    try discriminate.
  cbn [rbind] in H.
  destruct (dedup_states [] (fst z)) as [sl| | |]; try discriminate.
  cbn [rbind] in H. injection H as <- <-. simpl in Hcol, Hlist |- *.
  destruct (docs_before_composition fuel sd _ _ _ _ _ _ _ _ _ _ _
              Hcl Hpil Hne Ha Hnp Hm He Hcol)
    as (roots & ys & Hsep & Hfresh & Hec & Hys & Hnda & Hnr & Hown).
  subst ec. rewrite keys_app in Hlist. simpl in Hlist.
  rewrite removelast_last in Hlist.
  apply split_keys in Hlist as (pre & d & post & -> & Hpre & Hpost).
  assert (Hmap : map snd ((pre ++ (c, d) :: post) ++ [(sd_minion_id sd, node)])
                 = map snd pre ++ d :: (map snd post ++ [node])).
  { by rewrite !map_app, <- app_assoc. }
  rewrite Hmap in Hz. clear Hmap.
  destruct (separated_composing _ _ _ _ Hsep (lookup_snoc _ _)) as [Hc Hone].
  destruct (Hys c d) as (Hdr & Hdn & Hld);
    [apply in_or_app; right; by left|].
  destruct Hld as (w0 & t & w0' & dd' & ha & hb & Hg & Ht & Hal & Hf).
  destruct (Hdef _ _ _ Hg) as (dd2 & pp & tv & Ht2 & Hnd2 & Hp2 & Hk2 & Hs2).
  rewrite Ht in Ht2. injection Ht2 as <-.
  rewrite map_app in Hnda. simpl in Hnda.
  apply NoDup_app in Hnda as (_ & Hdis & Hndp).
  assert (Hpost_in : forall r, In r (map snd post) ->
            exists c', In c' cpost /\
                       In (c', r) (pre ++ (c, d) :: post)).
  { intros r Hr. apply in_map_iff in Hr as ([c' r'] & E & Hin).
    simpl in E. subst r'. exists c'. split.
    - rewrite <- Hpost. apply in_map_iff. by exists (c', r).
    - apply in_or_app. right. by right. }
  refine (last_definer_wins _ roots _ Hone Hfresh k s (scalar_of_eq _ _ Hs2)
            lim (map snd pre) d (map snd post ++ [node]) [] z Hc
            _ _ _ Hdr _ _ Hz).
  - rewrite app_comm_cons. apply NoDup_app. split; [done|].
    split; [|apply NoDup_singleton].
    intros r Hr Hin. apply list_elem_of_singleton in Hin. subst r.
    apply list_elem_of_In in Hr. destruct Hr as [<-|Hr]; [done|].
    destruct (Hpost_in _ Hr) as (c' & _ & Hin).
    by destruct (Hys _ _ Hin) as (_ & ? & _).
  - intros r Hr Hin. rewrite app_comm_cons in Hin.
    apply in_app_or in Hin as [Hin|[<-|[]]].
    + apply (Hdis r); by apply list_elem_of_In.
    + apply in_map_iff in Hr as ([c' r'] & E & Hin). simpl in E. subst r'.
      destruct (Hys c' node) as (_ & ? & _); [|done].
      apply in_or_app. by left.
  - intros r Hr. apply in_map_iff in Hr as ([c' r'] & E & Hin).
    simpl in E. subst r'.
    destruct (Hys c' r) as (Hrr & _); [apply in_or_app; by left|].
    split; [done|]. destruct Hsep as (_ & Hr' & _).
    destruct (Hr' r) as (_ & dr & Hd); eauto. by right.
  - by eapply placed_defines.
  - intros r Hr. apply in_app_or in Hr as [Hr|[<-|[]]].
    + destruct (Hpost_in _ Hr) as (c' & Hc' & Hin).
      destruct (Hys _ _ Hin) as (Hrr & _ & Hld). split; [done|].
      destruct Hld as (w1 & t1 & w1' & dd1 & ha1 & hb1 & Hg1 & Ht1 & Hal1
                       & Hf1).
      destruct (Hlv _ _ _ _ Hc' Hg1) as (dd3 & Ht3 & Hlo3).
      rewrite Ht1 in Ht3. injection Ht3 as <-.
      by eapply placed_leaves_out.
    + split; [done|]. by eapply placed_leaves_out.
Qed.

End ClassWins.

Lemma last_class_pillar_wins_witness :
  exists e w',
    expanded_dict_from_minion (fs_walk fs_precedence) (fs_glob fs_precedence)
      (fs_render fs_precedence) 10 10 "web" sd_web w_start = Ok (e, w') /\
    classes_list e = ["B"; "A"; "C"] /\
    exists P dP v,
      doc_get (w_heap w') (pillars_dict e) "pillars" = Some (VRef P) /\
      w_heap w' !! P = Some (ODict dP) /\
      dict_get "k" dP = Some v /\ py_eq v (VStr "p") = true.
Proof.
  eexists _, _. split; [vm_compute; reflexivity|]. split; [reflexivity|].
  apply (last_class_pillar_wins (fs_walk fs_precedence)
           (fs_glob fs_precedence) (fs_render fs_precedence) 10 10 "web"
           sd_web w_start _ _
           [("classes", TList [TStr "A"; TStr "C"]);
            ("pillars", TDict [("j", TInt 2)])]
           "k" (VStr "p") "A" ["B"] ["C"]).
  - vm_compute. reflexivity.
  - apply closed_start.
  - simpl. lia.
  - discriminate.
  - reflexivity.
  - discriminate.
  - right. exists [("j", TInt 2)]. split; reflexivity.
  - simpl. intros [H|[H|[H|[]]]]; discriminate.
  - reflexivity.
  - intros w0 t w0' Hg. vm_compute in Hg. injection Hg as <- _.
    exists [("classes", TList [TStr "B"]);
            ("pillars", TDict [("k", TStr "p")])],
           [("k", TStr "p")], (TStr "p").
    split; [reflexivity|]. split; [nodup_strings|].
    split; [reflexivity|]. split; reflexivity.
  - intros c' w0 t w0' [<-|[]] Hg. vm_compute in Hg. injection Hg as <- _.
    exists [("pillars", TDict [("j", TInt 1)])]. split; [reflexivity|].
    right. exists [("j", TInt 1)]. split; reflexivity.
Defined.


(** ** References that do not resolve *)

Lemma drop_first_0 s : drop_first 0 s = s.
Proof. unfold drop_first. rewrite Nat.sub_0_r. apply substring_all. Qed.

Lemma prefix_drop p : forall r,
  String.prefix p r = true -> p +++ drop_first (String.length p) r = r.
Proof.
  induction p as [|a p IH]; intros r H; [apply drop_first_0|].
  destruct r as [|c r]; [discriminate|]. simpl in H.
  destruct (ascii_dec a c) as [->|]; [|discriminate].
  change (String c (p +++ drop_first (String.length p) r) = String c r).
  by rewrite IH.
Qed.

Lemma replace_go_same old : old <> "" -> forall s k,
  replace_go old old k s = drop_first k s.
Proof.
  intros Hold. induction s as [|c r IH]; intros k.
  - by destruct k.
  - cbn [replace_go]. destruct k as [|k]; [|apply IH].
    rewrite drop_first_0.
    destruct (String.prefix old (String c r)) eqn:Hp.
    + rewrite IH. destruct old as [|a old']; [done|].
      simpl in Hp. destruct (ascii_dec a c) as [->|]; [|discriminate].
      replace (String.length (String c old') - 1) with (String.length old')
        by (simpl; lia).
      change (String c (old' +++ drop_first (String.length old') r)
              = String c r).
      by rewrite prefix_drop.
    + by rewrite IH, drop_first_0.
Qed.

Lemma intersperse_empty s : intersperse "" s = s.
Proof. induction s as [|c r IH]; [done|]. simpl. by rewrite IH. Qed.

(** Replacing a text by itself. *)
Lemma str_replace_same s t : str_replace s t t = s.
Proof.
  unfold str_replace. destruct t as [|a t]; [apply intersperse_empty|].
  rewrite replace_go_same by done. apply drop_first_0.
Qed.

(** A search that replaces a string by itself. *)
Lemma set_item_same d k v dd h :
  h !! d = Some (ODict dd) -> dict_get k dd = Some v ->
  set_item d k v h = Ok h.
Proof.
  intros Hd Hk. unfold set_item. rewrite Hd.
  by rewrite dict_set_same, list_insert_id.
Qed.

Lemma set_index_same v x w l h :
  h !! v = Some (OList l) -> l !! x = Some w -> set_index v x w h = Ok h.
Proof.
  intros Hv Hx. unfold set_index. rewrite Hv.
  by rewrite (list_insert_id l), list_insert_id.
Qed.

Lemma replace_in_list_same rec old h v l :
  h !! v = Some (OList l) ->
  (forall i, In i l -> rec_if_dict rec h i = Ok h) ->
  forall n x, replace_in_list rec old old v x n h = Ok h.
Proof.
  intros Hv Hl. induction n as [|n IH]; intros x; [done|].
  cbn [replace_in_list]. rewrite Hv.
  destruct (l !! x) as [i|] eqn:Hi; [|done].
  rewrite Hl by (apply list_elem_of_In; by eapply list_elem_of_lookup_2).
  cbn [rbind]. destruct i as [| | |s|q]; try (cbn [rbind]; apply IH).
  destruct (String.eqb s old) eqn:E; [|cbn [rbind]; apply IH].
  apply String.eqb_eq in E. subst s.
  rewrite (set_index_same _ _ _ l) by done. cbn [rbind]. apply IH.
Qed.

(** The reference of a match that is not escaped: the match itself, or
    the match without the character before the token. *)
Definition reference (m : string) : string :=
  if startswith m "$" then m else drop1 m.

(** No match of [s] is escaped, and the path of each one leaves the
    mappings under [x] at a key that is not there. *)
Definition unresolved (h : heap) (x : val) (s : string) : Prop :=
  Forall (fun m => startswith m "\" = false /\
                   absent h x (split_colon (slice_2_m1 (reference m))))
    (finditer s).

(** The mappings and lists that the expander and the search go
    through, with a condition [I] on the strings that the expander
    reads. *)
Definition quiet_item (I : string -> Prop) (rec : addr -> Prop) (h : heap)
  (i : val) : Prop :=
  match i with
  | VStr s => I s
  | VRef q =>
      match h !! q with
      | Some (ODict _) => rec q
      | Some (OList _) => True
      | None => False
      end
  | _ => True
  end.

Definition quiet_value (I : string -> Prop) (rec : addr -> Prop) (h : heap)
  (v : val) : Prop :=
  match v with
  | VStr s => I s
  | VRef p =>
      match h !! p with
      | Some (ODict _) => rec p
      | Some (OList l) => Forall (quiet_item I rec h) l
      | None => False
      end
  | _ => True
  end.

Fixpoint quiet_dict (I : string -> Prop) (n : nat) (h : heap) (a : addr)
  : Prop :=
  match n with
  | 0 => False
  | S n' =>
      match h !! a with
      | Some (ODict da) =>
          Forall (fun kv => quiet_value I (quiet_dict I n' h) h (snd kv)) da
      | _ => False
      end
  end.

Lemma quiet_item_ext (I J : string -> Prop) (P Q : addr -> Prop) h l i :
  (forall s, I s -> J s) -> (forall q, P q -> Q q) ->
  quiet_item I P h i -> quiet_item J Q (h ++ l) i.
Proof.
  intros HIJ HPQ. destruct i as [| | |s|q]; try done; simpl; auto.
  destruct (h !! q) as [o|] eqn:Hq; [|done].
  rewrite (lookup_app_l_Some _ _ _ _ Hq). destruct o; auto.
Qed.

Lemma quiet_value_ext (I J : string -> Prop) (P Q : addr -> Prop) h l v :
  (forall s, I s -> J s) -> (forall q, P q -> Q q) ->
  quiet_value I P h v -> quiet_value J Q (h ++ l) v.
Proof.
  intros HIJ HPQ. destruct v as [| | |s|p]; try done; simpl; auto.
  destruct (h !! p) as [o|] eqn:Hp; [|done].
  rewrite (lookup_app_l_Some _ _ _ _ Hp). destruct o as [items|]; auto.
  intros H. eapply Forall_impl; [exact H|].
  intros i. by apply quiet_item_ext.
Qed.

Lemma quiet_dict_ext (I J : string -> Prop) h l :
  (forall s, I s -> J s) ->
  forall n a, quiet_dict I n h a -> quiet_dict J n (h ++ l) a.
Proof.
  intros HIJ. induction n as [|n IH]; intros a; [done|]. cbn [quiet_dict].
  destruct (h !! a) as [o|] eqn:Ha; [|done].
  rewrite (lookup_app_l_Some _ _ _ _ Ha). destruct o as [|da]; [done|].
  intros H. eapply Forall_impl; [exact H|].
  intros kv. by apply quiet_value_ext.
Qed.

Lemma replace_loop_same rec old I (P : addr -> Prop) h d dd :
  (forall a, P a -> rec a h = Ok h) ->
  h !! d = Some (ODict dd) ->
  Forall (fun kv => quiet_value I P h (snd kv)) dd ->
  forall ks, (forall k, In k ks -> In k (keys dd)) ->
             replace_loop rec old old d ks h = Ok h.
Proof.
  intros Hrec Hd Hdd. induction ks as [|k ks IH]; intros Hks; [done|].
  cbn [replace_loop]. rewrite Hd.
  destruct (In_keys_dict_get k dd) as (v & Hv); [apply Hks; by left|].
  rewrite Hv. rewrite Forall_forall in Hdd.
  pose proof (Hdd _ (proj2 (list_elem_of_In _ _) (dict_get_entry _ _ _ Hv)))
    as Hpv.
  simpl in Hpv.
  assert (H1 : rec_if_dict rec h v = Ok h).
  { apply (rec_if_dict_plain rec P); [done|].
    intros p -> Hdi. simpl in Hdi, Hpv. by destruct (h !! p) as [[|]|]. }
  rewrite H1. cbn [rbind].
  assert (H2 : (if is_list h v then
                  match v with
                  | VRef p =>
                      match h !! p with
                      | Some (OList l) =>
                          replace_in_list rec old old p 0 (List.length l) h
                      | _ => Beyond
                      end
                  | _ => Beyond
                  end
                else Ok h) = Ok h).
  { destruct (is_list h v) eqn:Hl; [|done].
    destruct v as [| | | |p]; try discriminate. simpl in Hl, Hpv.
    destruct (h !! p) as [[l|]|] eqn:Hp; try discriminate.
    apply (replace_in_list_same rec old h p l Hp).
    intros i Hi. rewrite Forall_forall in Hpv.
    apply list_elem_of_In in Hi. specialize (Hpv i Hi).
    apply (rec_if_dict_plain rec P); [done|].
    intros q -> Hdi. simpl in Hdi, Hpv. by destruct (h !! q) as [[|]|]. }
  rewrite H2. cbn [rbind].
  assert (H3 : (if py_eq v (VStr old) then set_item d k (VStr old) h
                else Ok h) = Ok h).
  { destruct (py_eq v (VStr old)) eqn:E; [|done].
    apply py_eq_str in E. subst v. by eapply set_item_same. }
  rewrite H3. cbn [rbind]. apply IH. intros k' Hk'. apply Hks. by right.
Qed.

(** A search that replaces a string by itself changes nothing. *)
Lemma search_same I old h : forall n d m,
  quiet_dict I n h d -> n <= m ->
  dict_search_and_replace m old old d h = Ok h.
Proof.
  induction n as [|n IH]; intros d m Hq Hm; [destruct Hq|].
  destruct m as [|m]; [lia|]. cbn [quiet_dict] in Hq.
  cbn [dict_search_and_replace].
  destruct (h !! d) as [[|dd]|] eqn:Hd; try done.
  eapply (replace_loop_same _ old I (quiet_dict I n h)); eauto.
  intros a Ha. apply IH; [done|lia].
Qed.

(** One match with a reference that does not resolve. *)
Lemma process_match_unresolved lim b m s v h :
  startswith m "\" = false ->
  absent h (VRef b) (split_colon (slice_2_m1 (reference m))) ->
  (forall s', v = VStr s' -> s' = s) ->
  dict_search_and_replace lim s s b h = Ok h ->
  exists v', process_match lim b m (s, v) h = Ok (s, v', h) /\
             forall s', v' = VStr s' -> s' = s.
Proof.
  intros Hesc Habs Hv Hsr. unfold process_match. rewrite Hesc.
  unfold reference in Habs. destruct (startswith m "$") eqn:E; simpl negb;
    cbv iota; rewrite (find_value_absent _ _ _ Habs); cbn [rbind].
  - assert (Hn : match v with
                 | VStr vs => str_replace vs m m
                 | _ => str_replace s m m
                 end = s).
    { destruct v as [| | |vs|]; rewrite str_replace_same; auto. }
    rewrite Hn, Hsr. cbn [rbind]. exists (VStr s). split; [done|].
    by intros s' [= <-].
  - rewrite str_replace_same, Hsr. cbn [rbind]. by exists v.
Qed.

Lemma process_matches_unresolved lim b s h :
  dict_search_and_replace lim s s b h = Ok h ->
  forall ms v,
    Forall (fun m => startswith m "\" = false /\
                     absent h (VRef b)
                       (split_colon (slice_2_m1 (reference m)))) ms ->
    (forall s', v = VStr s' -> s' = s) ->
    process_matches lim b ms (s, v) h = Ok h.
Proof.
  intros Hsr. induction ms as [|m ms IH]; intros v Hms Hv; [done|].
  apply Forall_cons in Hms as [[Hesc Habs] Hms]. cbn [process_matches].
  destruct (process_match_unresolved lim b m s v h Hesc Habs Hv Hsr)
    as (v' & -> & Hv').
  cbn [rbind fst snd]. by apply IH.
Qed.

Lemma find_and_process_unresolved lim s v b h :
  unresolved h (VRef b) s -> (forall s', v = VStr s' -> s' = s) ->
  dict_search_and_replace lim s s b h = Ok h ->
  find_and_process_re lim s v b h = Ok h.
Proof.
  intros Hu Hv Hsr. unfold find_and_process_re.
  by apply process_matches_unresolved.
Qed.

Section Quiet.

Variable I : string -> Prop.
Variable b : addr.
Variable h : heap.
Variable m : nat.

(** With [m] levels of recursion left or more, a string of [I] is
    passed over. *)
Hypothesis passed : forall j s w,
  m <= j -> I s -> (forall s', w = VStr s' -> s' = s) ->
  find_and_process_re j s w b h = Ok h.

Lemma expand_list_quiet lim rec (P : addr -> Prop) v l :
  m <= lim ->
  (forall a, P a -> rec a h = Ok h) ->
  h !! v = Some (OList l) -> Forall (quiet_item I P h) l ->
  forall n x, expand_list lim b rec v x n h = Ok h.
Proof.
  intros Hm Hrec Hv Hl. induction n as [|n IH]; intros x; [done|].
  cbn [expand_list]. rewrite Hv. destruct (l !! x) as [i|] eqn:Hi; [|done].
  rewrite Forall_forall in Hl.
  pose proof (Hl i (list_elem_of_lookup_2 _ _ _ Hi)) as Hpi.
  rewrite (rec_if_dict_plain rec P).
  - cbn [rbind]. destruct i; try (cbn [rbind]; apply IH).
    simpl in Hpi. rewrite passed by (auto; discriminate). apply IH.
  - done.
  - intros p -> Hd. simpl in Hpi, Hd.
    by destruct (h !! p) as [[|]|].
Qed.

Lemma expand_loop_quiet lim rec (P : addr -> Prop) a da :
  m <= lim ->
  (forall a, P a -> rec a h = Ok h) ->
  h !! a = Some (ODict da) ->
  Forall (fun kv => quiet_value I P h (snd kv)) da ->
  forall ks, (forall k, In k ks -> In k (keys da)) ->
             expand_loop lim b rec a ks h = Ok h.
Proof.
  intros Hm Hrec Ha Hda. induction ks as [|k ks IH]; intros Hks; [done|].
  cbn [expand_loop]. rewrite Ha.
  destruct (In_keys_dict_get k da) as (v & Hv); [apply Hks; by left|].
  rewrite Hv. rewrite Forall_forall in Hda.
  pose proof (Hda _ (proj2 (list_elem_of_In _ _) (dict_get_entry _ _ _ Hv)))
    as Hpv.
  simpl in Hpv.
  assert (Hstep :
    (if is_dict h v then rec_if_dict rec h v
     else h1 <- match v with
                | VRef p => match h !! p with
                            | Some (OList l) =>
                                expand_list lim b rec p 0 (List.length l) h
                            | _ => Ok h
                            end
                | _ => Ok h
                end ;;
          match v with
          | VStr s => find_and_process_re lim s v b h1
          | _ => Ok h1
          end) = Ok h).
  { destruct (is_dict h v) eqn:Hd.
    - apply (rec_if_dict_plain rec P); [done|].
      intros p -> _. simpl in Hd, Hpv. by destruct (h !! p) as [[|]|].
    - destruct v as [| | |s|p]; try done.
      + cbn [rbind]. simpl in Hpv. apply passed; auto.
        by intros s' [= <-].
      + simpl in Hpv. destruct (h !! p) as [[l|]|] eqn:Hp; try done.
        by rewrite (expand_list_quiet lim rec P p l). }
  rewrite Hstep. cbn [rbind]. apply IH. intros k' Hk'. apply Hks. by right.
Qed.

Lemma expand_variables_in_quiet : forall n a,
  quiet_dict I n h a -> expand_variables_in (n + m) b a h = Ok h.
Proof.
  induction n as [|n IH]; intros a Hp; [destruct Hp|].
  cbn [quiet_dict] in Hp. cbn [Nat.add expand_variables_in].
  destruct (h !! a) as [[|da]|] eqn:Ha; try done.
  eapply (expand_loop_quiet _ _ (quiet_dict I n h)); eauto. lia.
Qed.

End Quiet.

Lemma absent_ext h l x segs : absent h x segs -> absent (h ++ l) x segs.
Proof.
  induction 1 as [p d i r Hp Hi|i r|p d i a r Hp Hi Ha IH].
  - eapply absent_key; eauto. by apply lookup_app_l_Some.
  - apply absent_none.
  - eapply absent_below; eauto. by apply lookup_app_l_Some.
Qed.

(** The copy [b] of the mapping [a] has the keys and values of [a]. *)
Lemma absent_copy h a b da segs :
  h !! a = Some (ODict da) -> h !! b = Some (ODict da) ->
  absent h (VRef a) segs -> absent h (VRef b) segs.
Proof.
  intros Ha Hb H. inversion H as [p d i r Hp Hi|i r|p d i x r Hp Hi Hx];
    subst; rewrite Ha in Hp; injection Hp as <-.
  - by eapply absent_key.
  - by eapply absent_below.
Qed.

(** X19.  References that do not resolve are left as they are.  When,
    in every string that the expander reads in [a] (in the mappings
    nested in [a] down to the depth [lim] and in the lists they hold),
    no match of the pattern is escaped and the path of every reference
    leaves the mappings of [a] at a key that is not there, then, with
    a recursion limit of [2 * lim + 2] or more, [expand_variables]
    returns a copy of [a] as a new mapping and leaves every object as
    it was. *)
Theorem unresolved_references_kept lim fuel a da h :
  h !! a = Some (ODict da) ->
  Forall (fun kv =>
            quiet_value (unresolved h (VRef a))
              (quiet_dict (unresolved h (VRef a)) lim h) h (snd kv)) da ->
  2 * lim + 2 <= fuel ->
  expand_variables fuel (VRef a) h = Ok (List.length h, h ++ [ODict da]).
Proof.
  intros Ha Hda Hfuel. unfold expand_variables. rewrite Ha. unfold halloc.
  set (b := List.length h). set (h' := h ++ [ODict da]).
  assert (Hb : h' !! b = Some (ODict da)) by apply lookup_snoc.
  assert (HI : forall s, unresolved h (VRef a) s -> unresolved h' (VRef b) s).
  { intros s Hs. unfold unresolved in *. eapply Forall_impl; [exact Hs|].
    intros x [Hesc Habs]. split; [done|].
    apply (absent_copy h' a b da); [by apply lookup_app_l_Some|done|].
    by apply absent_ext. }
  assert (Hda' : Forall (fun kv =>
                           quiet_value (unresolved h' (VRef b))
                             (quiet_dict (unresolved h' (VRef b)) lim h') h'
                             (snd kv)) da).
  { eapply Forall_impl; [exact Hda|]. intros kv.
    apply quiet_value_ext; [done|]. intros q. by apply quiet_dict_ext. }
  assert (Hqb : quiet_dict (unresolved h' (VRef b)) (S lim) h' b).
  { cbn [quiet_dict]. by rewrite Hb. }
  assert (Hpass : forall j s w,
            S lim <= j -> unresolved h' (VRef b) s ->
            (forall s', w = VStr s' -> s' = s) ->
            find_and_process_re j s w b h' = Ok h').
  { intros j s w Hj Hs Hw. apply find_and_process_unresolved; auto.
    by eapply search_same. }
  rewrite (expand_loop_quiet (unresolved h' (VRef b)) b h' (S lim) Hpass
             fuel (expand_variables_in fuel b)
             (quiet_dict (unresolved h' (VRef b)) lim h') a da).
  - done.
  - lia.
  - intros q Hq. replace fuel with (lim + (fuel - lim)) by lia.
    apply (expand_variables_in_quiet (unresolved h' (VRef b)) b h'
             (fuel - lim)); [|done].
    intros j s w Hj. apply Hpass. lia.
  - by apply lookup_app_l_Some.
  - done.
  - auto.
Qed.

Lemma unresolved_references_kept_witness :
  let da := [("a", VStr "${x}"); ("c", VStr "see ${d:y}.");
             ("d", VRef 1); ("l", VRef 2)] in
  let h := [ODict da; ODict [("b", VStr "${d:c}")];
            OList [VStr "${q}"; VRef 1]] in
  expand_variables 4 (VRef 0) h = Ok (List.length h, h ++ [ODict da]).
Proof.
  intros da h.
  assert (Hx : unresolved h (VRef 0) "${x}").
  { apply Forall_cons. split; [|by apply Forall_nil].
    split; [reflexivity|].
    apply (absent_key h 0 da "x" []); reflexivity. }
  assert (Hy : unresolved h (VRef 0) "see ${d:y}.").
  { apply Forall_cons. split; [|by apply Forall_nil].
    split; [reflexivity|].
    apply (absent_below h 0 da "d" (VRef 1) ["y"]); [reflexivity..|].
    apply (absent_key h 1 [("b", VStr "${d:c}")] "y" []); reflexivity. }
  assert (Hc : unresolved h (VRef 0) "${d:c}").
  { apply Forall_cons. split; [|by apply Forall_nil].
    split; [reflexivity|].
    apply (absent_below h 0 da "d" (VRef 1) ["c"]); [reflexivity..|].
    apply (absent_key h 1 [("b", VStr "${d:c}")] "c" []); reflexivity. }
  assert (Hq : unresolved h (VRef 0) "${q}").
  { apply Forall_cons. split; [|by apply Forall_nil].
    split; [reflexivity|].
    apply (absent_key h 0 da "q" []); reflexivity. }
  assert (H1 : quiet_dict (unresolved h (VRef 0)) 1 h 1).
  { simpl. apply Forall_cons. split; [exact Hc|by apply Forall_nil]. }
  apply (unresolved_references_kept 1 4 0 da h); [reflexivity| |lia].
  apply Forall_cons. split; [exact Hx|].
  apply Forall_cons. split; [exact Hy|].
  apply Forall_cons. split; [exact H1|].
  apply Forall_cons. split; [|by apply Forall_nil].
  simpl. apply Forall_cons. split; [exact Hq|].
  apply Forall_cons. split; [exact H1|by apply Forall_nil].
Defined.


(** ** The classes that a class includes *)

(** The document [t] of a class lists the classes [names] under
    [classes], or has no such key and [names] is empty. *)
Definition tree_includes (names : list string) (t : tree) : Prop :=
  exists dd,
    match t with TNone => TDict [] | _ => t end = TDict dd /\
    (dict_get "classes" dd = Some (TList (map TStr names)) \/
     (dict_get "classes" dd = None /\ names = [])).

Lemma alloc_all_strings names : forall h,
  alloc_all alloc (map TStr names) h = (map VStr names, h).
Proof.
  induction names as [|n names IH]; intros h; [done|].
  simpl. by rewrite IH.
Qed.

Lemma alloc_classes dd h d h1 names :
  alloc (TDict dd) h = (VRef d, h1) ->
  dict_get "classes" dd = Some (TList (map TStr names)) ->
  exists dD lst, h1 !! d = Some (ODict dD) /\
    dict_get "classes" dD = Some (VRef lst) /\
    h1 !! lst = Some (OList (map VStr names)).
Proof.
  intros Ha Hc.
  destruct (alloc_dict_get _ _ _ _ _ _ Ha Hc)
    as (dD & v & ha & hb & HD & _ & Hv & Hal & n & E).
  simpl in Hal. rewrite alloc_all_strings in Hal. injection Hal as <- <-.
  exists dD, (List.length ha). split; [done|]. split; [done|].
  rewrite E, lookup_app_l_Some with (x := OList (map VStr names)); [done|].
  apply lookup_snoc.
Qed.

Section Includes.

Variable os_walk : string -> list (string * list string).
Variable glob : string -> list string.
Variable render_yaml : string -> salt_data -> heap -> outcome tree.
Variable lim : nat.

(** Every class of the loop is in [seen_classes] afterwards. *)
Lemma expand_loop_classes_all_seen rec sd ks : forall ec0 w ec1 w1,
  (forall cs, expansion_ok (rec cs)) ->
  expand_loop_classes os_walk render_yaml lim rec sd ks ec0 w
  = Ok (ec1, w1) ->
  NoDup (w_seen w) -> (forall k, In k (keys ec0) -> In k (w_seen w)) ->
  forall k, In k ks -> In k (w_seen w1).
Proof.
  induction ks as [|k0 ks IH]; intros ec0 w ec1 w1 Hok H Hnd Hsub k Hk;
    [destruct Hk|].
  simpl in H.
  destruct (expand_class _ _ _ rec sd k0 ec0 w) as [[ec w2]| | |] eqn:Hc;
    try discriminate.
  simpl in H.
  destruct (expand_class_ok _ _ _ _ _ _ _ _ _ _ Hok Hc Hnd Hsub)
    as (added & ys & Hsn & Hnd2 & Hy & Hp & _ & Hlast).
  assert (Hsub2 : forall c, In c (keys ec) -> In c (w_seen w2)).
  { intros c Hin. rewrite Hy, keys_app in Hin. rewrite Hsn.
    apply in_or_app. apply in_app_or in Hin as [Hin|Hin]; auto.
    right. eapply Permutation_in; eauto. }
  destruct (expand_loop_classes_ok _ _ _ _ _ _ _ _ _ _ Hok H Hnd2 Hsub2)
    as (added' & ys' & Hsn' & _).
  destruct Hk as [<-|Hk]; [|by eapply IH].
  rewrite Hsn'. apply in_or_app. left.
  destruct (mem k0 (w_seen w)) eqn:Hm.
  - rewrite Hsn. apply in_or_app. left. by apply mem_In.
  - destruct (Hlast eq_refl) as (d & ns & ->). apply Hsub2.
    rewrite Hy, !keys_app. apply in_or_app. right. apply in_or_app.
    right. by left.
Qed.

(** X4.  The order of the expansion.  When a class that is not in
    [seen_classes] is expanded, the entries that the expansion adds
    are those of the classes that enter [seen_classes] in the course
    of it, one entry for each; the entry of the class itself comes
    last.  Every class that globbing finds for a name that the class
    lists under [classes] is then in [seen_classes]: it is the class
    itself, a class that was seen before, or a class whose entry comes
    before that of the class. *)
Theorem class_after_its_includes
  fuel sd klass ec0 w ec1 w1 names :
  expand_class os_walk render_yaml lim
    (fun cs => expand_classes_in_order os_walk glob render_yaml lim fuel sd
                 None (Some cs))
    sd klass ec0 w = Ok (ec1, w1) ->
  NoDup (w_seen w) -> (forall c, In c (keys ec0) -> In c (w_seen w)) ->
  ~ In klass (w_seen w) ->
  closed (w_heap w) -> sd_pillar sd < List.length (w_heap w) ->
  (forall w0 t w0', get_class os_walk render_yaml klass sd w0 = Ok (t, w0') ->
                    tree_includes names t) ->
  exists d ns added,
    ec1 = ec0 ++ ns ++ [(klass, d)] /\
    w_seen w1 = w_seen w ++ klass :: added /\
    NoDup (w_seen w1) /\
    Permutation (keys ns) added /\
    forall cl m,
      In cl names -> In m (class_matches glob cl (sd_path sd)) ->
      get_class_from_file m (sd_path sd) = klass \/
      In (get_class_from_file m (sd_path sd)) (w_seen w) \/
      In (get_class_from_file m (sd_path sd)) (keys ns).
Proof.
  intros H Hnd Hsub Hk Hcl Hpil Hdoc.
  pose proof (fun cs => expand_classes_in_order_ok os_walk glob render_yaml
                          lim fuel sd (Some cs)) as Hok.
  destruct (expand_class_unseen _ _ _ _ _ _ _ _ _ _ Hok H Hnd Hsub
              (proj2 (mem_not_In _ _) Hk))
    as (t & wg & dd & d & h1 & h2 & ns & Hg & Ht & Ha & Hmg & Hcs & ->).
  destruct (get_class_seen _ _ _ _ _ _ _ Hg) as [Hgs Hgh].
  simpl in Hgs, Hgh.
  assert (Hnd1 : NoDup (w_seen w ++ [klass])).
  { apply NoDup_app. split; [done|]. split.
    - intros x Hx Hin. apply list_elem_of_In in Hx.
      apply list_elem_of_singleton in Hin. by subst.
    - apply NoDup_singleton. }
  set (lo := List.length (w_heap w)).
  pose proof (sep_step_alloc_root lo [] _ _ _ _ (separated_nil _ _ Hcl)
                (Nat.le_refl _) Ha) as Hst1.
  assert (Hm : sep_step lo [d] h1 [] h2).
  { destruct Hst1 as (Hs1 & _). simpl in Hs1.
    destruct (doc_get h1 d "pillars") as [np|] eqn:Hp;
      [destruct (truthy h1 np)|];
      try (injection Hmg as <-; by apply sep_step_refl).
    eapply sep_step_merge; eauto. intros pb ->.
    unfold doc_get in Hp.
    destruct (h1 !! d) as [[|dd1]|] eqn:Hd; try discriminate.
    eapply (separated_child lo [d] h1 d); eauto. by left. }
  destruct Hm as (_ & _ & _ & Hfr).
  destruct (Hdoc _ _ _ Hg) as (dd' & Ht' & Hinc).
  rewrite Ht in Ht'. injection Ht' as <-.
  destruct Hinc as [Hinc|[Hinc ->]].
  - destruct (alloc_classes _ _ _ _ _ Ha Hinc) as (dD & lst & HD & Hc & Hl).
    assert (HD2 : h2 !! d = Some (ODict dD)).
    { rewrite Hfr; [done|]. left. by left. }
    assert (Hl2 : h2 !! lst = Some (OList (map VStr names))).
    { rewrite Hfr; [done|]. right. exists d, dD, "classes".
      split; [by left|done]. }
    unfold doc_get in Hcs. rewrite HD2, Hc in Hcs.
    destruct fuel as [|fuel]; [discriminate|].
    cbn [expand_classes_in_order] in Hcs. cbn [w_heap with_heap] in Hcs.
    unfold iter_val in Hcs. rewrite Hl2 in Hcs. cbn [rbind] in Hcs.
    destruct (expand_classes_glob glob (map VStr names) sd (with_heap wg h2))
      as [[ks wk]| | |] eqn:Hglob; try discriminate.
    cbn [rbind fst snd] in Hcs.
    destruct (expand_loop_classes _ _ _ _ sd ks [] wk) as [[y wy]| | |] eqn:Hl';
      try discriminate.
    cbn [rbind] in Hcs. injection Hcs as <- <-.
    destruct (expand_classes_glob_seen _ _ _ _ _ _ Hglob) as [Hks Hkh].
    simpl in Hks. rewrite Hgs in Hks.
    pose proof (fun cs => expand_classes_in_order_ok os_walk glob render_yaml
                            lim fuel sd (Some cs)) as Hok'.
    destruct (expand_loop_classes_ok _ _ _ _ _ _ _ _ _ _ Hok' Hl')
      as (added & ys & Hsn & Hnd2 & Hy & Hp & _);
      [by rewrite Hks|by intros k []|].
    simpl in Hy. subst ys. rewrite Hks in Hsn.
    exists d, y, added. split; [done|].
    split; [by rewrite Hsn, <- app_assoc|]. split; [done|]. split; [done|].
    intros cl m Hcl' Hmm.
    set (c := get_class_from_file m (sd_path sd)).
    assert (Hin : In c ks).
    { unfold expand_classes_glob in Hglob.
      destruct (glob_all glob (map VStr names) (sd_path sd) (with_heap wg h2))
        as [[gs wgs]| | |] eqn:Hga; try discriminate.
      cbn [rbind fst snd] in Hglob. injection Hglob as <- _.
      apply dedup_into_all. right.
      apply (glob_all_spec _ _ _ _ _ _ Hga). exists cl, m.
      split; [by apply in_map|done]. }
    pose proof (expand_loop_classes_all_seen _ _ _ _ _ _ _ Hok' Hl'
                  ltac:(by rewrite Hks) ltac:(by intros k []) c Hin) as Hseen.
    rewrite Hsn in Hseen.
    apply in_app_or in Hseen as [Hseen|Hseen].
    + apply in_app_or in Hseen as [Hseen|[<-|[]]]; auto.
    + right. right. eapply Permutation_in; [symmetry; exact Hp|done].
  - assert (Hnone : doc_get h2 d "classes" = None).
    { destruct (alloc_dict_root _ _ _ _ Ha) as (dD & HD & Hkeys).
      unfold doc_get. rewrite Hfr by (left; by left). rewrite HD.
      by eapply dict_get_same_keys. }
    rewrite Hnone in Hcs. destruct Hcs as [-> ->].
    exists d, [], []. simpl. rewrite Hgs.
    split; [done|]. split; [done|]. split; [done|]. split; [done|].
    by intros cl m [].
Qed.

End Includes.

Lemma class_after_its_includes_witness :
  exists ec1 w1,
    expand_class (fs_walk fs_includes) (fs_render fs_includes) 10
      (fun cs => expand_classes_in_order (fs_walk fs_includes)
                   (fs_glob fs_includes) (fs_render fs_includes) 10 5 sd_web
                   None (Some cs))
      sd_web "A" [] w_start = Ok (ec1, w1) /\
    keys ec1 = ["B"; "A"] /\
    exists d ns added,
      ec1 = [] ++ ns ++ [("A", d)] /\
      w_seen w1 = w_seen w_start ++ "A" :: added /\
      NoDup (w_seen w1) /\
      Permutation (keys ns) added /\
      forall cl m,
        In cl ["B"] -> In m (class_matches (fs_glob fs_includes) cl "/srv") ->
        get_class_from_file m "/srv" = "A" \/
        In (get_class_from_file m "/srv") (w_seen w_start) \/
        In (get_class_from_file m "/srv") (keys ns).
Proof.
  eexists _, _. split; [reflexivity|]. split; [reflexivity|].
  apply (class_after_its_includes (fs_walk fs_includes) (fs_glob fs_includes)
           (fs_render fs_includes) 10 5 sd_web "A" [] w_start _ _ ["B"]).
  - reflexivity.
  - apply NoDup_nil_2.
  - intros c [].
  - intros [].
  - apply closed_start.
  - simpl. lia.
  - intros w0 t w0' Hg. vm_compute in Hg. injection Hg as <- _.
    eexists. split; [reflexivity|]. left. reflexivity.
Defined.


(** ** The states that the loop over the documents collects *)

Section StatesRead.

Variables (F : addr) (roots : list addr) (h0 : heap).
Hypothesis Hone : one_holder roots h0.
Hypothesis F_fresh : ~ In F roots.

(** The document [D] holds the list [l0] under [states]. *)
Variables (D : addr) (dD : list (string * val)) (p : addr) (l0 : list val).
Hypothesis D_root : In D roots.
Hypothesis D_dict : h0 !! D = Some (ODict dD).
Hypothesis D_keys : NoDup (keys dD).
Hypothesis D_states : dict_get "states" dD = Some (VRef p).
Hypothesis p_list : h0 !! p = Some (OList l0).

(** The list is as the document has it, or lost the sentinel that it
    began with. *)
Definition states_read (h : heap) : Prop :=
  h !! p = Some (OList l0) \/
  exists t, l0 = VStr "^" :: t /\ h !! p = Some (OList t).

Lemma states_not_F dn h : composing F roots h0 dn h -> p <> F.
Proof.
  intros (HI & _ & Hr & _) ->.
  assert (HD : h !! D = Some (ODict dD)) by (by rewrite Hr).
  destruct (HI D (ODict dD) F HD) as [Hn _].
  - simpl. by eapply dict_get_In.
  - apply Hn. by left.
Qed.

Lemma states_only_key dn h r d key :
  composing F roots h0 dn h -> In r roots -> h0 !! r = Some (ODict d) ->
  dict_get key d = Some (VRef p) -> r = D /\ key = "states".
Proof.
  intros _ Hr Hd Hk.
  exact (Hone r D d dD key "states" p Hr D_root Hd D_dict Hk D_states).
Qed.

(** Before [D] is merged its list is as it was, and [F] does not hold
    it. *)
Lemma fresh_states dn h :
  composing F roots h0 dn h -> ~ In D dn ->
  h !! p = Some (OList l0) /\
  forall la, doc_get h F "states" = Some (VRef la) -> la <> p.
Proof.
  intros Hc Hnd. pose proof Hc as (_ & Hdn & _ & (dF & HF & Hent) & Hun).
  split.
  - rewrite <- p_list. apply Hun.
    + exists D. split; auto. by exists dD, "states".
    + intros r Hr (d & k' & Hd & Hk').
      destruct (states_only_key _ _ _ _ _ Hc (Hdn _ Hr) Hd Hk') as [-> _].
      auto.
  - unfold doc_get. rewrite HF. intros la Hk' ->.
    destruct (Hent _ _ Hk') as (r & Hr & Hv). unfold doc_get in Hv.
    destruct (h0 !! r) as [[|d]|] eqn:Hd; try discriminate.
    destruct (states_only_key _ _ _ _ _ Hc (Hdn _ Hr) Hd Hv) as [-> _].
    auto.
Qed.

(** A key other than [states]. *)
Lemma states_other_key lim dn key h h' :
  composing F roots h0 (D :: dn) h -> key <> "states" ->
  merge_key (dict_merge lim) F D key h = Ok h' ->
  composing F roots h0 (D :: dn) h' /\ h' !! p = h !! p /\
  doc_get h' F "states" = doc_get h F "states".
Proof.
  intros Hc Hkey H.
  pose proof Hc as (_ & Hdn & _ & (dF & HF & Hent) & _).
  destruct (root_step F roots h0 F_fresh lim _ D dD dF key h h' Hc
              ltac:(by left) D_dict HF H)
    as (Hc' & Hfr & dF' & HF' & _ & Hoth).
  split; [done|]. split.
  - apply Hfr.
    + right. exists D. split; auto. by exists dD, "states".
    + by eapply states_not_F.
    + intros Hk. destruct (Hent _ _ Hk) as (r & Hr & Hv).
      unfold doc_get in Hv.
      destruct (h0 !! r) as [[|d]|] eqn:Hd; try discriminate.
      destruct (states_only_key _ _ _ _ _ Hc (Hdn _ Hr) Hd Hv) as [_ E].
      auto.
    + intros Hk.
      destruct (states_only_key _ _ _ _ _ Hc D_root D_dict Hk) as [_ E].
      auto.
  - unfold doc_get. rewrite HF, HF'. apply Hoth. auto.
Qed.

Lemma states_no_key_loop lim dn n0 ks : forall h h',
  ~ In "states" ks -> composing F roots h0 (D :: dn) h ->
  merge_loop (dict_merge lim) F D n0 ks h = Ok h' ->
  composing F roots h0 (D :: dn) h' /\ h' !! p = h !! p /\
  doc_get h' F "states" = doc_get h F "states".
Proof.
  induction ks as [|key ks IH]; intros h h' Hks Hc H.
  - simpl in H. destruct (h !! D) as [[|db]|]; try discriminate.
    destruct (negb _); try discriminate. by injection H as <-.
  - cbn [merge_loop] in H.
    destruct (h !! D) as [[|db]|]; try discriminate.
    destruct (negb _); [discriminate|].
    destruct (merge_key (dict_merge lim) F D key h) as [h1| | |] eqn:Hk;
      try discriminate.
    cbn [rbind] in H.
    assert (Hne : key <> "states").
    { intros E. apply Hks. left. by symmetry. }
    assert (Hks' : ~ In "states" ks).
    { intros Hin. apply Hks. by right. }
    destruct (states_other_key _ _ _ _ _ Hc Hne Hk) as (Hc1 & Hp1 & Hs1).
    destruct (IH _ _ Hks' Hc1 H) as (Hc' & Hp' & Hs').
    split; [done|]. split; congruence.
Qed.

(** The key [states]. *)
Lemma states_key_step lim dn h h' :
  composing F roots h0 (D :: dn) h ->
  h !! p = Some (OList l0) ->
  (forall la, doc_get h F "states" = Some (VRef la) -> la <> p) ->
  merge_key (dict_merge lim) F D "states" h = Ok h' ->
  states_read h'.
Proof.
  intros Hc Hp Hla H.
  pose proof Hc as (_ & _ & Hr & (dF & HF & _) & _).
  pose proof (states_not_F _ _ Hc) as HpF.
  assert (HD : h !! D = Some (ODict dD)) by (rewrite Hr; auto).
  unfold merge_key in H. rewrite HF, HD, D_states in H.
  unfold doc_get in Hla. rewrite HF in Hla.
  assert (Hset : forall h1 h2,
            set_item F "states" (VRef p) h1 = Ok h2 -> h2 !! p = h1 !! p).
  { intros h1 h2 Hs. unfold set_item in Hs.
    destruct (h1 !! F) as [[|da]|]; try discriminate. injection Hs as <-.
    by rewrite list_lookup_insert_ne. }
  destruct (dict_get "states" dF) as [va|] eqn:Hva.
  2:{ left. by rewrite (Hset _ _ H). }
  assert (Hpl : is_list h (VRef p) = true) by (simpl; by rewrite Hp).
  assert (Hpd : is_dict h (VRef p) = false) by (simpl; by rewrite Hp).
  rewrite Hpl, Hpd, andb_true_r, andb_false_r in H.
  destruct (is_list h va) eqn:Hl.
  - destruct va as [| | | |la]; try discriminate.
    rewrite Hp in H. unfold states_read. clear p_list.
    destruct l0 as [|y ys]; [discriminate|].
    destruct (py_eq y (VStr "^")) eqn:Hy.
    + right. exists ys. apply py_eq_str in Hy. subst y. split; [done|].
      rewrite (Hset _ _ H). apply list_lookup_insert_eq.
      by eapply lookup_lt_Some.
    + left. destruct (h !! la) as [[xs|]|]; try discriminate.
      injection H as <-. rewrite list_lookup_insert_ne; [done|].
      by apply Hla.
  - assert (Hpe : py_eq va (VRef p) = false) by (by destruct va).
    rewrite Hpe in H. left. by rewrite (Hset _ _ H).
Qed.

Lemma states_loop lim dn n0 ks : forall h h',
  NoDup ks -> composing F roots h0 (D :: dn) h ->
  h !! p = Some (OList l0) ->
  (forall la, doc_get h F "states" = Some (VRef la) -> la <> p) ->
  merge_loop (dict_merge lim) F D n0 ks h = Ok h' ->
  states_read h'.
Proof.
  induction ks as [|key ks IH]; intros h h' Hnd Hc Hp Hla H.
  - left. destruct (states_no_key_loop lim dn n0 [] h h') as (_ & -> & _);
      auto.
  - pose proof H as H0. cbn [merge_loop] in H.
    destruct (h !! D) as [[|db]|] eqn:HD; try discriminate.
    destruct (negb _) eqn:Hn; [discriminate|].
    destruct (merge_key (dict_merge lim) F D key h) as [h1| | |] eqn:Hk;
      try discriminate.
    cbn [rbind] in H. apply NoDup_cons in Hnd as [Hnk Hnd].
    destruct (decide (key = "states")) as [->|Hne].
    + pose proof (states_key_step _ _ _ _ Hc Hp Hla Hk) as Hq.
      pose proof Hc as (_ & _ & _ & (dF & HF & _) & _).
      destruct (root_step F roots h0 F_fresh lim _ D dD dF _ h h1 Hc
                  ltac:(by left) D_dict HF Hk) as (Hc1 & _).
      destruct (states_no_key_loop lim dn n0 ks h1 h') as (_ & Hp' & _);
        auto.
      { intros Hin. apply Hnk. by apply list_elem_of_In. }
      destruct Hq as [Hq|(t & E & Hq)]; [left|right; exists t; split; auto];
        congruence.
    + destruct (states_other_key _ _ _ _ _ Hc Hne Hk) as (Hc1 & Hp1 & Hs1).
      apply (IH h1 h'); auto; [congruence|].
      intros la. rewrite Hs1. apply Hla.
Qed.

(** The step of the loop for [D]: the merge of the document, when it
    has pillars. *)
Lemma doc_states_read lim dn h h1 :
  composing F roots h0 dn h -> ~ In D dn ->
  match doc_get h D "pillars" with
  | Some _ => dict_merge lim F (VRef D) h
  | None => Ok h
  end = Ok h1 ->
  composing F roots h0 (D :: dn) h1 /\ states_read h1.
Proof.
  intros Hc Hnd H. destruct (fresh_states _ _ Hc Hnd) as [Hp Hla].
  pose proof (composing_more F roots h0 dn D h D_root Hc) as Hc1.
  destruct (doc_get h D "pillars").
  2:{ injection H as <-. split; [done|by left]. }
  split.
  - eapply merge_any; eauto. by left.
  - destruct lim as [|lim]; [discriminate|]. simpl in H.
    rewrite (composing_root _ _ _ _ _ _ Hc1 ltac:(by left)), D_dict in H.
    eapply states_loop; eauto.
Qed.

Lemma states_read_iter h :
  states_read h -> exists l1, iter_val h (VRef p) = Ok l1 /\
    forall x, In x l0 -> x <> VStr "^" -> In x l1.
Proof.
  intros [Hp|(t & E & Hp)]; simpl; rewrite Hp.
  - eauto.
  - exists t. split; [done|]. intros x Hx Hn. rewrite E in Hx.
    destruct Hx as [<-|Hx]; [done|done].
Qed.

End StatesRead.

(** What the loop has collected stays. *)
Lemma merge_docs_keeps lim F : forall docs st h st' h',
  merge_docs lim F docs st h = Ok (st', h') ->
  forall x, In x st -> In x st'.
Proof.
  induction docs as [|D docs IH]; intros st h st' h' H x Hx.
  - by injection H as <- _.
  - cbn [merge_docs] in H.
    destruct (match doc_get h D "pillars" with Some _ => _ | None => _ end)
      as [h1| | |]; try discriminate.
    cbn [rbind] in H.
    destruct (doc_get h1 D "states") as [s|].
    + destruct (iter_val h1 s) as [l| | |]; try discriminate.
      cbn [rbind] in H. apply (IH _ _ _ _ H). apply in_or_app. by left.
    + cbn [rbind] in H. by apply (IH _ _ _ _ H).
Qed.

Lemma composing_all F roots h0 h dn : forall docs,
  composing F roots h0 dn h -> (forall r, In r docs -> In r roots) ->
  composing F roots h0 (docs ++ dn) h.
Proof.
  induction docs as [|D docs IH]; intros Hc Hr; [done|].
  simpl. apply composing_more; [apply Hr; by left|].
  apply IH; auto. intros r Hin. apply Hr. by right.
Qed.

Section StatesCollected.

Variables (F : addr) (roots : list addr) (h0 : heap).
Hypothesis Hone : one_holder roots h0.
Hypothesis F_fresh : ~ In F roots.

(** The states of every document enter the list that the loop
    collects, a [^] apart. *)
Lemma merge_docs_states lim D dD p l0 :
  In D roots -> h0 !! D = Some (ODict dD) -> NoDup (keys dD) ->
  dict_get "states" dD = Some (VRef p) -> h0 !! p = Some (OList l0) ->
  forall docs dn st h st' h',
    composing F roots h0 dn h -> NoDup docs ->
    (forall r, In r docs ->
       In r roots /\ ~ In r dn /\ exists d, h0 !! r = Some (ODict d)) ->
    In D docs ->
    merge_docs lim F docs st h = Ok (st', h') ->
    forall x, In x l0 -> x <> VStr "^" -> In x st'.
Proof.
  intros HDr HdD Hkeys Hst Hp.
  induction docs as [|D0 docs IH];
    intros dn st h st' h' Hc Hnd Hdocs HD H x Hx Hne; [destruct HD|].
  cbn [merge_docs] in H.
  destruct (match doc_get h D0 "pillars" with Some _ => _ | None => _ end)
    as [h1| | |] eqn:Hm; try discriminate.
  cbn [rbind] in H. apply NoDup_cons in Hnd as [Hn0 Hnd].
  destruct (Hdocs D0 ltac:(by left)) as (H0r & H0n & d0 & Hd0).
  destruct (decide (D0 = D)) as [->|Hdiff].
  - destruct (doc_states_read F roots h0 Hone F_fresh D dD p l0 HDr HdD Hkeys
                Hst Hp lim dn h h1 Hc H0n Hm) as [Hc1 Hq].
    destruct (states_read_iter p l0 h1 Hq) as (l1 & Hit & Hl1).
    unfold doc_get in H.
    rewrite (composing_root _ _ _ _ _ _ Hc1 ltac:(by left)), HdD, Hst in H.
    rewrite Hit in H. cbn [rbind] in H.
    apply (merge_docs_keeps _ _ _ _ _ _ _ H). apply in_or_app. right. auto.
  - destruct HD as [E|HD]; [done|].
    assert (Hc1 : composing F roots h0 (D0 :: dn) h1).
    { pose proof (composing_more F roots h0 dn D0 h H0r Hc) as Hc0.
      destruct (doc_get h D0 "pillars"); [|by injection Hm as <-].
      eapply merge_any; eauto. by left. }
    destruct (match doc_get h1 D0 "states" with Some _ => _ | None => _ end)
      as [st1| | |]; try discriminate.
    cbn [rbind] in H.
    apply (IH (D0 :: dn) st1 h1 st' h'); auto.
    intros r Hr. destruct (Hdocs r ltac:(by right)) as (Hrr & Hrn & Hrd).
    split; [done|]. split; [|done].
    intros [<-|Hin]; [|done]. apply Hn0. by apply list_elem_of_In.
Qed.

(** The documents are as they were when the loop ends. *)
Lemma merge_docs_roots lim docs st z :
  composing F roots h0 [] h0 ->
  (forall r, In r docs -> In r roots /\ exists d, h0 !! r = Some (ODict d)) ->
  merge_docs lim F docs st h0 = Ok z ->
  forall r, In r roots -> snd z !! r = h0 !! r.
Proof.
  intros Hc Hdocs H.
  pose proof (composing_all F roots h0 h0 [] docs Hc
                (fun r Hr => proj1 (Hdocs r Hr))) as Hc'.
  rewrite app_nil_r in Hc'.
  destruct (merge_docs_pre F roots h0 F_fresh lim docs docs [] st h0 z Hc')
    as (st' & h' & Hc2 & Hz).
  - intros r Hr. split; [done|]. split; by apply Hdocs.
  - by rewrite app_nil_r.
  - injection Hz as <-. by destruct Hc2 as (_ & _ & Hr & _).
Qed.

End StatesCollected.

(** The scalars of a list are in the list that is placed for it. *)
Lemma alloc_all_scalars ts : forall h vs h',
  alloc_all alloc ts h = (vs, h') ->
  forall t s, In t ts -> scalar_of t = Some s -> In s vs.
Proof.
  induction ts as [|t0 ts IH]; intros h vs h' H t s Ht Hs; [destruct Ht|].
  simpl in H. destruct (alloc t0 h) as [v0 h1] eqn:Ha.
  destruct (alloc_all alloc ts h1) as [vs1 h2] eqn:Hl. injection H as <- <-.
  destruct Ht as [->|Ht].
  - left. by destruct (alloc_scalar _ _ _ _ _ Hs Ha).
  - right. eauto.
Qed.

Lemma alloc_states dd h D h1 ts :
  alloc (TDict dd) h = (VRef D, h1) ->
  dict_get "states" dd = Some (TList ts) ->
  exists dD p vs, h1 !! D = Some (ODict dD) /\ keys dD = keys dd /\
    dict_get "states" dD = Some (VRef p) /\
    h1 !! p = Some (OList vs) /\
    forall t s, In t ts -> scalar_of t = Some s -> In s vs.
Proof.
  intros Ha Hs.
  destruct (alloc_dict_get _ _ _ _ _ _ Ha Hs)
    as (dD & v & ha & hb & HD & Hkeys & Hv & Hal & n & E).
  simpl in Hal. destruct (alloc_all alloc ts ha) as [vs h'] eqn:Hl.
  injection Hal as <- <-.
  exists dD, (List.length h'), vs. repeat split; auto.
  - rewrite E, lookup_app_l_Some with (x := OList vs); [done|].
    apply lookup_snoc.
  - by eapply alloc_all_scalars.
Qed.

Lemma alloc_environment dd h D h1 env :
  alloc (TDict dd) h = (VRef D, h1) ->
  dict_get "environment" dd = Some (TStr env) ->
  exists dD, h1 !! D = Some (ODict dD) /\
             dict_get "environment" dD = Some (VStr env).
Proof.
  intros Ha Hs.
  destruct (alloc_dict_get _ _ _ _ _ _ Ha Hs)
    as (dD & v & ha & hb & HD & _ & Hv & Hal & _).
  simpl in Hal. injection Hal as <- _. eauto.
Qed.

(** The document [t] of a class lists the states [tc]. *)
Definition tree_states (tc : list tree) (t : tree) : Prop :=
  exists dd,
    match t with TNone => TDict [] | _ => t end = TDict dd /\
    NoDup (keys dd) /\ dict_get "states" dd = Some (TList tc).

Section Tops.

Variable os_walk : string -> list (string * list string).
Variable glob : string -> list string.
Variable render_yaml : string -> salt_data -> heap -> outcome tree.
Variable lim : nat.

(** The environment and the states that [expanded_dict_from_minion]
    returns for a node whose file is a mapping with an entry. *)
Lemma node_tops_composed fuel minion_id sd w e w' dd :
  expanded_dict_from_minion os_walk glob render_yaml lim fuel minion_id sd w
  = Ok (e, w') ->
  closed (w_heap w) -> sd_pillar sd < List.length (w_heap w) ->
  find_minion_file os_walk minion_id sd <> "" ->
  render_yaml (find_minion_file os_walk minion_id sd) sd (w_heap w)
  = Returns (TDict dd) ->
  dd <> [] -> NoDup (keys dd) ->
  ~ In (sd_minion_id sd) (w_seen w') ->
  (forall env, dict_get "environment" dd = Some (TStr env) ->
     get_env_from_dict (w_heap w') (classes_values e) = VStr env) /\
  (forall ts t s,
     dict_get "states" dd = Some (TList ts) ->
     In t ts -> scalar_of t = Some s -> s <> VStr "^" ->
     exists y, In y (states_list e) /\ py_eq s y = true) /\
  (forall c tc t s,
     In c (w_seen w') ->
     (forall w0 t0 w0',
        get_class os_walk render_yaml c sd w0 = Ok (t0, w0') ->
        tree_states tc t0) ->
     In t tc -> scalar_of t = Some s -> s <> VStr "^" ->
     exists y, In y (states_list e) /\ py_eq s y = true).
Proof.
  intros H Hcl Hpil Hfile Hrender Hne Hkeys Hcol.
  unfold expanded_dict_from_minion in H.
  apply String.eqb_neq in Hfile. rewrite Hfile, Hrender in H.
  cbn [negb lift rbind] in H.
  destruct (alloc (TDict dd) (w_heap w)) as [[| | | |node] h1] eqn:Ha;
    try discriminate.
  set (al := match dict_get "pillars" dd with
             | Some p => alloc p h1
             | None => alloc (TDict []) h1
             end) in H.
  assert (HX : exists X, alloc X h1 = al).
  { unfold al. destruct (dict_get "pillars" dd); eauto. }
  destruct HX as (X & Hnp). destruct al as [np h2].
  destruct (dict_merge lim (sd_pillar sd) np h2) as [h3| | |] eqn:Hm;
    try discriminate.
  cbn [rbind] in H.
  destruct (expand_classes_in_order _ _ _ _ fuel sd (Some node) None _)
    as [[ec w2]| | |] eqn:He; try discriminate.
  cbn [rbind] in H. unfold halloc in H.
  destruct (merge_docs lim _ (map snd ec) [] _) as [[st hz]| | |] eqn:Hz;
    try discriminate.
  cbn [rbind fst snd] in H.
  destruct (dedup_states [] st) as [sl| | |] eqn:Hsl; try discriminate.
  cbn [rbind] in H. injection H as <- <-. simpl in Hcol |- *.
  destruct (docs_before_composition os_walk glob render_yaml lim fuel sd
              _ _ _ _ _ _ _ _ _ _ _ Hcl Hpil Hne Ha Hnp Hm He Hcol)
    as (roots & ys & Hsep & Hfresh & Hec & Hys & Hnda & Hnr & Hown).
  set (pd := List.length (w_heap w2)) in *.
  set (h4 := w_heap w2 ++ [ODict []]) in *.
  destruct (separated_composing _ _ _ _ Hsep (lookup_snoc _ _)) as [Hc Hone].
  assert (Hmap : map snd ec = map snd ys ++ [node]).
  { rewrite Hec, map_app. done. }
  rewrite Hmap in Hz |- *.
  assert (Hroot : forall r, In r roots -> exists d, h4 !! r = Some (ODict d)).
  { intros r Hr. destruct Hsep as (_ & Hr' & _).
    destruct (Hr' r) as (_ & d & Hd); eauto. by right. }
  assert (Hdocs : forall r, In r (map snd ys ++ [node]) -> In r roots).
  { intros r Hr. apply in_app_or in Hr as [Hr|[<-|[]]]; [|done].
    apply in_map_iff in Hr as ([c d] & E & Hin). simpl in E. subst d.
    by destruct (Hys c r Hin). }
  assert (Hndd : NoDup (map snd ys ++ [node])).
  { apply NoDup_app. split; [done|]. split; [|apply NoDup_singleton].
    intros r Hr Hin. apply list_elem_of_singleton in Hin. subst r.
    apply list_elem_of_In, in_map_iff in Hr as ([c d] & E & Hin).
    simpl in E. subst d. by destruct (Hys c node Hin) as (_ & ? & _). }
  assert (Hsts : forall D dD p l0 x,
            In D (map snd ys ++ [node]) -> h4 !! D = Some (ODict dD) ->
            NoDup (keys dD) -> dict_get "states" dD = Some (VRef p) ->
            h4 !! p = Some (OList l0) -> In x l0 -> x <> VStr "^" ->
            exists y, In y sl /\ py_eq x y = true).
  { intros D dD p l0 x HD HdD HkD HsD Hp Hx Hxn.
    assert (Hin : In x st).
    { apply (merge_docs_states pd roots h4 Hone Hfresh lim D dD p l0
               (Hdocs D HD) HdD HkD HsD Hp _ [] [] h4 st hz Hc Hndd); auto. }
    destruct (dedup_states_ok _ _ _ Hsl) as (_ & _ & Hall).
    specialize (Hall x Hin). simpl in Hall.
    apply existsb_exists in Hall as (y & Hy & E). eauto. }
  split; [|split].
  - intros env Henv.
    destruct (alloc_environment _ _ _ _ _ Ha Henv) as (dD & HD & HeD).
    assert (HD4 : h4 !! node = Some (ODict dD)).
    { rewrite Hown; [done|]. left. by left. }
    assert (HDz : hz !! node = Some (ODict dD)).
    { rewrite <- HD4.
      apply (merge_docs_roots pd roots h4 Hfresh lim _ _ _ Hc
               ltac:(intros r Hr; split; [by apply Hdocs|];
                     apply Hroot; by apply Hdocs) Hz node Hnr). }
    unfold get_env_from_dict. rewrite fold_left_app. simpl.
    unfold doc_get at 1. by rewrite HDz, HeD.
  - intros ts t s Hst Ht Hs Hsn.
    destruct (alloc_states _ _ _ _ _ Ha Hst)
      as (dD & p & vs & HD & HkD & HsD & Hp & Hvs).
    apply (Hsts node dD p vs s).
    + apply in_or_app. right. by left.
    + rewrite Hown; [done|]. left. by left.
    + by rewrite HkD.
    + done.
    + rewrite Hown; [done|]. right. exists node, dD, "states".
      split; [by left|done].
    + eauto.
    + done.
  - intros c tc t s Hseen Hdoc Ht Hs Hsn.
    destruct (expand_top os_walk glob render_yaml lim fuel sd node _ _ _ He)
      as (added & ys' & Hsw & _ & Hperm & _ & Hec' & _); [constructor|].
    simpl in Hsw.
    assert (Hsub : forall k, In k (keys ys') -> In k (w_seen w2)).
    { intros k Hk. rewrite Hsw. eapply Permutation_in; eauto. }
    assert (Hsame : ys' = ys).
    { rewrite Hec in Hec'.
      destruct (truthy (w_heap w2) (VRef node)).
      - unfold od_update in Hec'. simpl in Hec'.
        rewrite dict_set_notin in Hec' by (intros Hk; apply Hcol; auto).
        by apply app_inj_tail in Hec' as [-> _].
      - exfalso. apply Hcol, Hsub. rewrite <- Hec', keys_app.
        apply in_or_app. right. by left. }
    subst ys'.
    assert (Hk : In c (keys ys)).
    { rewrite Hsw in Hseen. eapply Permutation_in; [symmetry; exact Hperm|].
      done. }
    apply in_map_iff in Hk as ([c' d] & E & Hin). simpl in E. subst c'.
    destruct (Hys c d Hin) as (Hdr & _ & Hld).
    destruct Hld as (w0 & t0 & w0' & ddc & ha & hb & Hg & Ht0 & Hal & Hf).
    destruct (Hdoc _ _ _ Hg) as (dd' & Ht' & Hkc & Hstc).
    rewrite Ht0 in Ht'. injection Ht' as <-.
    destruct (alloc_states _ _ _ _ _ Hal Hstc)
      as (dD & p & vs & HD & HkD & HsD & Hp & Hvs).
    apply (Hsts d dD p vs s).
    + apply in_or_app. left. apply in_map_iff. by exists (c, d).
    + rewrite Hf; [done|]. left. by left.
    + by rewrite HkD.
    + done.
    + rewrite Hf; [done|]. right. exists d, dD, "states".
      split; [by left|done].
    + eauto.
    + done.
Qed.

(** X15.  What [get_tops] returns for a node whose file is a mapping
    with an entry and whose id names no class that was loaded: a
    mapping with one key, the environment that [get_env_from_dict]
    gives for the documents of the node, which is the environment of
    the node's file when the file sets one.  The key holds the states
    that [expanded_dict_from_minion] returns: no state is there twice,
    none is a list or a mapping, and every scalar that the node's file
    or the document of a loaded class lists under [states] has an
    equal there, a [^] apart. *)
Theorem get_tops_states fuel minion_id sd w tops w' dd :
  get_tops os_walk glob render_yaml lim fuel minion_id sd w = Ok (tops, w') ->
  closed (w_heap w) -> sd_pillar sd < List.length (w_heap w) ->
  find_minion_file os_walk minion_id sd <> "" ->
  render_yaml (find_minion_file os_walk minion_id sd) sd (w_heap w)
  = Returns (TDict dd) ->
  dd <> [] -> NoDup (keys dd) ->
  ~ In (sd_minion_id sd) (w_seen w') ->
  exists e w1 environment states,
    expanded_dict_from_minion os_walk glob render_yaml lim fuel minion_id sd w
    = Ok (e, w1) /\
    get_env_from_dict (w_heap w1) (classes_values e) = VStr environment /\
    w_heap w' !! tops = Some (ODict [(environment, VRef states)]) /\
    w_heap w' !! states = Some (OList (states_list e)) /\
    ForallOrdPairs (fun x y => py_eq y x = false) (states_list e) /\
    (forall x p, In x (states_list e) -> x <> VRef p) /\
    (forall env, dict_get "environment" dd = Some (TStr env) ->
                 environment = env) /\
    (forall ts t s,
       dict_get "states" dd = Some (TList ts) ->
       In t ts -> scalar_of t = Some s -> s <> VStr "^" ->
       exists y, In y (states_list e) /\ py_eq s y = true) /\
    (forall c tc t s,
       In c (w_seen w') ->
       (forall w0 t0 w0',
          get_class os_walk render_yaml c sd w0 = Ok (t0, w0') ->
          tree_states tc t0) ->
       In t tc -> scalar_of t = Some s -> s <> VStr "^" ->
       exists y, In y (states_list e) /\ py_eq s y = true).
Proof.
  intros H Hcl Hpil Hfile Hrender Hne Hkeys Hcol. unfold get_tops in H.
  destruct (expanded_dict_from_minion _ _ _ _ fuel minion_id sd w)
    as [[e w1]| | |] eqn:He; try discriminate.
  cbn [rbind] in H.
  destruct (get_env_from_dict _ _) as [| | |environment|] eqn:Henv;
    try discriminate.
  unfold halloc in H. injection H as <- <-. simpl in Hcol |- *.
  destruct (node_tops_composed _ _ _ _ _ _ _ He Hcl Hpil Hfile Hrender Hne
              Hkeys Hcol) as (Hen & Hnode & Hclass).
  destruct (states_list_distinct _ _ _ _ _ _ _ _ _ _ He) as [Hdis Hnoref].
  exists e, w1, environment, (List.length (w_heap w1)).
  split; [done|]. split; [done|]. split; [|split; [|split; [|split]]].
  - apply (lookup_snoc (w_heap w1 ++ [OList (states_list e)])).
  - rewrite lookup_app_l by (rewrite length_app; simpl; lia).
    apply lookup_snoc.
  - done.
  - done.
  - split; [|by split].
    intros env Hd. specialize (Hen env Hd). congruence.
Qed.

End Tops.

Lemma get_tops_states_witness :
  exists tops w',
    get_tops (fs_walk fs_tops_node) (fs_glob fs_tops_node)
      (fs_render fs_tops_node) 10 10 "web" sd_web w_start = Ok (tops, w') /\
    w_heap w' !! tops = Some (ODict [("dev", VRef 8)]) /\
    w_heap w' !! 8 = Some (OList [VStr "a"; VStr "b"; VStr "c"]) /\
    exists e w1 environment states,
      expanded_dict_from_minion (fs_walk fs_tops_node) (fs_glob fs_tops_node)
        (fs_render fs_tops_node) 10 10 "web" sd_web w_start = Ok (e, w1) /\
      get_env_from_dict (w_heap w1) (classes_values e) = VStr environment /\
      w_heap w' !! tops = Some (ODict [(environment, VRef states)]) /\
      w_heap w' !! states = Some (OList (states_list e)) /\
      ForallOrdPairs (fun x y => py_eq y x = false) (states_list e) /\
      (forall x p, In x (states_list e) -> x <> VRef p) /\
      (forall env,
         dict_get "environment"
           [("classes", TList [TStr "A"]);
            ("states", TList [TStr "b"; TStr "c"]);
            ("environment", TStr "dev")] = Some (TStr env) ->
         environment = env) /\
      (forall ts t s,
         dict_get "states"
           [("classes", TList [TStr "A"]);
            ("states", TList [TStr "b"; TStr "c"]);
            ("environment", TStr "dev")] = Some (TList ts) ->
         In t ts -> scalar_of t = Some s -> s <> VStr "^" ->
         exists y, In y (states_list e) /\ py_eq s y = true) /\
      (forall c tc t s,
         In c (w_seen w') ->
         (forall w0 t0 w0',
            get_class (fs_walk fs_tops_node) (fs_render fs_tops_node) c
              sd_web w0 = Ok (t0, w0') ->
            tree_states tc t0) ->
         In t tc -> scalar_of t = Some s -> s <> VStr "^" ->
         exists y, In y (states_list e) /\ py_eq s y = true).
Proof.
  eexists _, _. split; [vm_compute; reflexivity|].
  split; [reflexivity|]. split; [reflexivity|].
  apply (get_tops_states (fs_walk fs_tops_node) (fs_glob fs_tops_node)
           (fs_render fs_tops_node) 10 10 "web" sd_web w_start).
  - reflexivity.
  - apply closed_start.
  - simpl. lia.
  - discriminate.
  - reflexivity.
  - discriminate.
  - nodup_strings.
  - simpl. intros [H|[]]. discriminate.
Defined.

Lemma node_entry_last_witness :
  exists ec', [("A", 3); ("web", 2)] = ec' ++ [("web", 2)] /\
              forall k, In k (keys ec') -> In k ["A"].
Proof.
  pose (fs := [("/srv/classes/A.yml", TDict [])]).
  pose (h := [ODict []; OList [VStr "A"]; ODict [("classes", VRef 1)]]).
  apply (proj1 (node_entry_last (fs_walk fs) (fs_glob fs) (fs_render fs) 10 5
                  sd_web 2 None {| w_heap := h; w_seen := []; w_log := [] |}
                  [("A", 3); ("web", 2)]
                  {| w_heap := h ++ [ODict []]; w_seen := ["A"];
                     w_log := [] |}
                  eq_refl NoDup_nil_2)).
  - reflexivity.
  - simpl. intuition discriminate.
Defined.

(** For a node without a file, and for a node whose file renders to an
    empty mapping, the expansion has no entry at all: its last entry is
    not the node's. *)
Lemma node_entry_absent_when_empty :
  (exists e w,
     expanded_dict_from_minion (fs_walk []) (fs_glob []) (fs_render [])
       10 5 "web" sd_web w_start = Ok (e, w) /\
     classes_values e = [] /\
     w_log w = ["web: Node definition not found"])
  /\ (exists e w,
        let fs := [("/srv/nodes/web.yml", TDict [])] in
        expanded_dict_from_minion (fs_walk fs) (fs_glob fs) (fs_render fs)
          10 5 "web" sd_web w_start = Ok (e, w) /\
        classes_values e = [])
  /\ expand_classes_in_order (fs_walk []) (fs_glob []) (fs_render []) 10 5
       sd_web (Some 1) None
       {| w_heap := [ODict []; ODict []]; w_seen := []; w_log := [] |}
     = Ok ([], {| w_heap := [ODict []; ODict []]; w_seen := [];
                  w_log := [] |}).
Proof.
  split; [|split]; [eexists _, _; split; [reflexivity|by split]..|reflexivity].
Qed.

(** C5, where the code departs from it.  When the node id is also the
    name of a class of the node, the node's document takes the place of
    that class in the expansion instead of going last, and the classes
    list, which is cut by one at the end, loses the last class: [zzz]
    is loaded but is not in the list. *)
Theorem classes_list_drops_class_named_like_node :
  exists e w,
    expanded_dict_from_minion (fs_walk fs_collision) (fs_glob fs_collision)
      (fs_render fs_collision) 10 10 "web" sd_web w_start = Ok (e, w) /\
    w_seen w = ["web"; "zzz"] /\ classes_list e = ["web"] /\
    ~ In "zzz" (classes_list e).
Proof.
  eexists _, _. split; [reflexivity|]. simpl.
  repeat split. intros [H|[]]. discriminate.
Qed.

Example replace_ex : str_replace "a.b.c" "." "/" = "a/b/c".
Proof. reflexivity. Qed.

Example finditer_ex :
  finditer "pre-${a:b}-post ${c}${d} \${e}" = ["-${a:b}"; " ${c}"; "\${e}"].
Proof. reflexivity. Qed.

Example class_paths_ex :
  get_class_paths "services.nginx" "/srv/saltclass"
  = ("/srv/saltclass/classes/services.nginx.yml",
     "/srv/saltclass/classes/services/nginx/init.yml",
     "/srv/saltclass/classes/services/nginx.yml").
Proof. reflexivity. Qed.

Example class_from_file_ex :
  get_class_from_file "/srv/saltclass/classes/services/nginx/init.yml"
                      "/srv/saltclass" = "services.nginx".
Proof. reflexivity. Qed.

Example expand_ex :
  expand_tree 10 (TDict [("a", TDict [("b", TStr "v")]);
                         ("c", TStr "pre-${a:b}-post")])
  = Ok (Some (TDict [("a", TDict [("b", TStr "v")]);
                     ("c", TStr "pre-v-post")])).
Proof. reflexivity. Qed.

Example expand_escaped_ex :
  expand_tree 10 (TDict [("c", TStr "\${a:b}")])
  = Ok (Some (TDict [("c", TStr "${a:b}")])).
Proof. reflexivity. Qed.

Example expand_missing_ex :
  expand_tree 10 (TDict [("c", TStr "${missing:key}")])
  = Ok (Some (TDict [("c", TStr "${missing:key}")])).
Proof. reflexivity. Qed.

Example expand_through_int_ex :
  expand_tree 10 (TDict [("a", TInt 5); ("c", TStr "${a:b}")])
  = Raise TypeError.
Proof. reflexivity. Qed.
